(** * simPLY_chess: a shallow embedding of the engine and its specification

    The development follows [src/engines/simPLY_chess.py].  Python strings
    are lists of 7-bit characters, Python integers are [Z], exceptions are
    values of the [py] monad, and the module-level globals the search
    mutates are threaded through an explicit search state. *)

From Stdlib Require Import String Ascii.
From Stdlib Require Import ZArith List Bool Lia Permutation.
Import ListNotations.
Local Open Scope Z_scope.
Local Open Scope list_scope.

Set Implicit Arguments.

(** ** Python primitives *)

Inductive exn : Type :=
| IndexError
| KeyError
| ValueError
| ZeroDivisionError
| RecursionError.

Inductive py (A : Type) : Type :=
| Ok (a : A)
| Raise (e : exn).

Arguments Ok {A} a.
Arguments Raise {A} e.

Definition bind {A B : Type} (m : py A) (k : A -> py B) : py B :=
  match m with
  | Ok a => k a
  | Raise e => Raise e
  end.

Notation "x <- m ;; k" := (bind m (fun x => k))
  (at level 61, m at next level, right associativity).
Notation "' p <- m ;; k" := (bind m (fun x => match x with p => k end))
  (at level 61, p pattern, m at next level, right associativity).

Definition str : Type := list ascii.

Definition lit (s : string) : str := list_ascii_of_string s.

Definition code (c : ascii) : Z := Z.of_N (N_of_ascii c).

(** [str.isupper], [str.islower], [str.isspace] and [str.swapcase] on one
    character.  Characters above 127 are taken to be caseless and
    non-blank. *)
Definition isupper (c : ascii) : bool := (65 <=? code c) && (code c <=? 90).
Definition islower (c : ascii) : bool := (97 <=? code c) && (code c <=? 122).
Definition isspace (c : ascii) : bool :=
  (code c =? 32) || ((9 <=? code c) && (code c <=? 13))
  || ((28 <=? code c) && (code c <=? 31)).

Definition swapcase (c : ascii) : ascii :=
  if isupper c then ascii_of_N (Z.to_N (code c + 32))
  else if islower c then ascii_of_N (Z.to_N (code c - 32))
  else c.

Definition upper (c : ascii) : ascii :=
  if islower c then ascii_of_N (Z.to_N (code c - 32)) else c.

(** The same predicates on whole strings: some cased character, and every
    cased character of the right case. *)
Definition str_islower (s : str) : bool :=
  existsb islower s && negb (existsb isupper s).
Definition str_isupper (s : str) : bool :=
  existsb isupper s && negb (existsb islower s).

Definition len {A : Type} (l : list A) : Z := Z.of_nat (length l).

(** Subscripting, [l[i]]: negative subscripts count from the end. *)
Definition norm_index {A : Type} (l : list A) (i : Z) : py nat :=
  if (0 <=? i) && (i <? len l) then Ok (Z.to_nat i)
  else if (- len l <=? i) && (i <? 0) then Ok (Z.to_nat (len l + i))
  else Raise IndexError.

Definition getitem {A : Type} (l : list A) (i : Z) : py A :=
  n <- norm_index l i ;;
  match nth_error l n with
  | Some a => Ok a
  | None => Raise IndexError
  end.

Fixpoint update {A : Type} (l : list A) (n : nat) (v : A) : list A :=
  match l, n with
  | [], _ => []
  | _ :: t, O => v :: t
  | h :: t, S m => h :: update t m v
  end.

Definition setitem {A : Type} (l : list A) (i : Z) (v : A) : py (list A) :=
  n <- norm_index l i ;;
  Ok (update l n v).

Fixpoint str_eqb (a b : str) : bool :=
  match a, b with
  | [], [] => true
  | x :: a', y :: b' => Ascii.eqb x y && str_eqb a' b'
  | _, _ => false
  end.

Definition member (c : ascii) (s : str) : bool := existsb (Ascii.eqb c) s.

(** [s.find(c)] for a one-character needle: first position, or -1. *)
Fixpoint find_from (c : ascii) (s : str) (i : Z) : Z :=
  match s with
  | [] => -1
  | x :: t => if Ascii.eqb x c then i else find_from c t (i + 1)
  end.
Definition find (c : ascii) (s : str) : Z := find_from c s 0.

Definition count (c : ascii) (s : str) : Z :=
  len (filter (Ascii.eqb c) s).

(** [s.split(sep)] for a one-character separator. *)
Fixpoint split_on (sep : ascii) (s : str) : list str :=
  match s with
  | [] => [[]]
  | c :: t =>
      if Ascii.eqb c sep then [] :: split_on sep t
      else match split_on sep t with
           | [] => [[c]]
           | w :: ws => (c :: w) :: ws
           end
  end.

(** A counted loop with an exception-carrying body. *)
Fixpoint for_each {A S : Type} (l : list A) (body : A -> S -> py S) (s : S)
  : py S :=
  match l with
  | [] => Ok s
  | a :: t => s' <- body a s ;; for_each t body s'
  end.

Definition range (n : nat) : list Z := map Z.of_nat (seq 0 n).

(** ** Constants and global tables *)

Definition A1 : Z := 91.
Definition H1 : Z := 98.
Definition A8 : Z := 21.
Definition H8 : Z := 28.

Definition NORTH : Z := -10.
Definition EAST : Z := 1.
Definition SOUTH : Z := 10.
Definition WEST : Z := -1.

Definition nl : ascii := "010"%char.
Definition dot : ascii := "."%char.
Definition blank : ascii := " "%char.

(** A dictionary keyed by piece letters: lookup raises [KeyError]. *)
Definition dict (V : Type) : Type := list (ascii * V).

Fixpoint lookup {V : Type} (d : dict V) (k : ascii) : py V :=
  match d with
  | [] => Raise KeyError
  | (k', v) :: t => if Ascii.eqb k' k then Ok v else lookup t k
  end.

(** Subscripting a dictionary with a string: only one-character keys occur. *)
Definition lookup_str {V : Type} (d : dict V) (k : str) : py V :=
  match k with
  | [c] => lookup d c
  | _ => Raise KeyError
  end.

Definition PIECE_DIRECTIONS : dict (list Z) :=
  [ ("P"%char, [NORTH; NORTH + NORTH; NORTH + WEST; NORTH + EAST]);
    ("N"%char, [NORTH + NORTH + EAST; NORTH + NORTH + WEST;
                EAST + EAST + NORTH; EAST + EAST + SOUTH;
                SOUTH + SOUTH + EAST; SOUTH + SOUTH + WEST;
                WEST + WEST + SOUTH; WEST + WEST + NORTH]);
    ("B"%char, [NORTH + EAST; SOUTH + EAST; SOUTH + WEST; NORTH + WEST]);
    ("R"%char, [NORTH; EAST; SOUTH; WEST]);
    ("Q"%char, [NORTH; EAST; SOUTH; WEST;
                NORTH + EAST; SOUTH + EAST; SOUTH + WEST; NORTH + WEST]);
    ("K"%char, [NORTH; EAST; SOUTH; WEST;
                NORTH + EAST; SOUTH + EAST; SOUTH + WEST; NORTH + WEST]) ].

Definition sentinel_row : str := lit "         " ++ [nl].

Definition INITIAL_POSITION : str :=
  sentinel_row ++ sentinel_row
  ++ lit " rnbqkbnr" ++ [nl]
  ++ lit " pppppppp" ++ [nl]
  ++ lit " ........" ++ [nl]
  ++ lit " ........" ++ [nl]
  ++ lit " ........" ++ [nl]
  ++ lit " ........" ++ [nl]
  ++ lit " PPPPPPPP" ++ [nl]
  ++ lit " RNBQKBNR" ++ [nl]
  ++ sentinel_row ++ sentinel_row.

Definition INITIAL_CASTLING : list bool := [true; true].
Definition INITIAL_OPPONENT_CASTLING : list bool := [true; true].
Definition INITIAL_EN_PASSANT : Z := 0.
Definition INITIAL_KING_PASSANT : Z := 0.
Definition INITIAL_COLOR : str := lit "w".

Definition MIDGAME_PAWN_VALUE : Z := 100.
Definition MIDGAME_KNIGHT_VALUE : Z := 411.
Definition MIDGAME_BISHOP_VALUE : Z := 445.
Definition MIDGAME_ROOK_VALUE : Z := 582.
Definition MIDGAME_QUEEN_VALUE : Z := 1250.
Definition MIDGAME_KING_VALUE : Z := 100000.

Definition MIDGAME_PIECE_VALUES : dict Z :=
  [ ("P"%char, MIDGAME_PAWN_VALUE); ("N"%char, MIDGAME_KNIGHT_VALUE);
    ("B"%char, MIDGAME_BISHOP_VALUE); ("R"%char, MIDGAME_ROOK_VALUE);
    ("Q"%char, MIDGAME_QUEEN_VALUE); ("K"%char, MIDGAME_KING_VALUE) ].

Definition MIDGAME_TROPISM_VALUES : dict Z :=
  map (fun kv => (fst kv, snd kv / 5)) MIDGAME_PIECE_VALUES.

Definition MIDGAME_PAWN_TABLE : list Z := [
       0;    0;    0;    0;    0;    0;    0;    0;
     120;  163;   74;  116;   83;  154;   41;  -13;
      -7;    9;   32;   38;   79;   68;   30;  -24;
     -17;   16;    7;   26;   28;   15;   21;  -28;
     -33;   -2;   -6;   20;   26;    7;   12;  -30;
     -32;   -5;   -5;  -12;    4;    4;   40;  -15;
     -43;   -1;  -24;  -33;  -23;   29;   46;  -27;
       0;    0;    0;    0;    0;    0;    0;    0
].

Definition MIDGAME_KNIGHT_TABLE : list Z := [
    -204; -109;  -41;  -60;   74; -118;  -18; -130;
     -89;  -50;   88;   44;   28;   76;    9;  -21;
     -57;   73;   45;   79;  102;  157;   89;   54;
     -11;   21;   23;   65;   45;   84;   22;   27;
     -16;    5;   20;   16;   34;   23;   26;  -10;
     -28;  -11;   15;   12;   23;   21;   30;  -20;
     -35;  -65;  -15;   -4;   -1;   22;  -17;  -23;
    -128;  -26;  -71;  -40;  -21;  -34;  -23;  -28
].

Definition MIDGAME_BISHOP_TABLE : list Z := [
     -35;    5; -100;  -45;  -30;  -51;    9;  -10;
     -32;   20;  -22;  -16;   37;   72;   22;  -57;
     -20;   45;   52;   49;   43;   61;   45;   -2;
      -5;    6;   23;   61;   45;   45;    9;   -2;
      -7;   16;   16;   32;   41;   15;   12;    5;
       0;   18;   18;   18;   17;   33;   22;   12;
       5;   18;   20;    0;    9;   26;   40;    1;
     -40;   -4;  -17;  -26;  -16;  -15;  -48;  -26
].

Definition MIDGAME_ROOK_TABLE : list Z := [
      39;   51;   39;   62;   77;   11;   38;   52;
      33;   39;   71;   76;   98;   82;   32;   54;
      -6;   23;   32;   44;   21;   55;   74;   20;
     -29;  -13;    9;   32;   29;   43;  -10;  -24;
     -44;  -32;  -15;   -1;   11;   -9;    7;  -28;
     -55;  -30;  -20;  -21;    4;    0;   -6;  -40;
     -54;  -20;  -24;  -11;   -1;   13;   -7;  -87;
     -23;  -16;    1;   21;   20;    9;  -45;  -32
].

Definition MIDGAME_QUEEN_TABLE : list Z := [
     -34;    0;   35;   15;   72;   54;   52;   55;
     -29;  -48;   -6;    1;  -20;   70;   34;   66;
     -16;  -21;    9;   10;   35;   68;   57;   70;
     -33;  -33;  -20;  -20;   -1;   21;   -2;    1;
     -11;  -32;  -11;  -12;   -2;   -5;    4;   -4;
     -17;    2;  -13;   -2;   -6;    2;   17;    6;
     -43;  -10;   13;    2;   10;   18;   -4;    1;
      -1;  -22;  -11;   12;  -18;  -30;  -38;  -61
].

Definition MIDGAME_KING_TABLE : list Z := [
     -79;   28;   20;  -18;  -68;  -41;    2;   16;
      35;   -1;  -24;   -9;  -10;   -5;  -46;  -35;
     -11;   29;    2;  -20;  -24;    7;   27;  -27;
     -21;  -24;  -15;  -33;  -37;  -30;  -17;  -44;
     -60;   -1;  -33;  -48;  -56;  -54;  -40;  -62;
     -17;  -17;  -27;  -56;  -54;  -37;  -18;  -33;
       1;    9;  -10;  -78;  -52;  -20;   11;   10;
     -18;   44;   15;  -66;   10;  -34;   29;   17
].

Definition ENDGAME_PAWN_VALUE : Z := 115.
Definition ENDGAME_KNIGHT_VALUE : Z := 343.
Definition ENDGAME_BISHOP_VALUE : Z := 362.
Definition ENDGAME_ROOK_VALUE : Z := 624.
Definition ENDGAME_QUEEN_VALUE : Z := 1141.
Definition ENDGAME_KING_VALUE : Z := 100000.

Definition ENDGAME_PIECE_VALUES : dict Z :=
  [ ("P"%char, ENDGAME_PAWN_VALUE); ("N"%char, ENDGAME_KNIGHT_VALUE);
    ("B"%char, ENDGAME_BISHOP_VALUE); ("R"%char, ENDGAME_ROOK_VALUE);
    ("Q"%char, ENDGAME_QUEEN_VALUE); ("K"%char, ENDGAME_KING_VALUE) ].

Definition ENDGAME_TROPISM_VALUES : dict Z :=
  map (fun kv => (fst kv, snd kv / 3)) ENDGAME_PIECE_VALUES.

Definition ENDGAME_PAWN_TABLE : list Z := [
       0;    0;    0;    0;    0;    0;    0;    0;
     217;  211;  193;  163;  179;  161;  201;  228;
     115;  122;  104;   82;   68;   65;  100;  102;
      39;   29;   16;    6;   -2;    5;   21;   21;
      16;   11;   -4;   -9;   -9;  -10;    4;   -1;
       5;    9;   -7;    1;    0;   -6;   -1;  -10;
      16;   10;   10;   12;   16;    0;    2;   -9;
       0;    0;    0;    0;    0;    0;    0;    0
].

Definition ENDGAME_KNIGHT_TABLE : list Z := [
     -71;  -46;  -16;  -34;  -38;  -33;  -77; -121;
     -30;  -10;  -30;   -2;  -11;  -30;  -29;  -63;
     -29;  -24;   12;   11;   -1;  -11;  -23;  -50;
     -21;    4;   27;   27;   27;   13;   10;  -22;
     -22;   -7;   20;   30;   20;   21;    5;  -22;
     -28;   -4;   -1;   18;   12;   -4;  -24;  -27;
     -51;  -24;  -12;   -6;   -2;  -24;  -28;  -54;
     -35;  -62;  -28;  -18;  -27;  -22;  -61;  -78
].

Definition ENDGAME_BISHOP_TABLE : list Z := [
     -17;  -26;  -13;  -10;   -9;  -11;  -21;  -29;
     -10;   -5;    9;  -15;   -4;  -16;   -5;  -17;
       2;  -10;    0;   -1;   -2;    7;    0;    5;
      -4;   11;   15;   11;   17;   12;    4;    2;
      -7;    4;   16;   23;    9;   12;   -4;  -11;
     -15;   -4;   10;   12;   16;    4;   -9;  -18;
     -17;  -22;   -9;   -1;    5;  -11;  -18;  -33;
     -28;  -11;  -28;   -6;  -11;  -20;   -6;  -21
].

Definition ENDGAME_ROOK_TABLE : list Z := [
      16;   12;   22;   18;   15;   15;   10;    6;
      13;   16;   16;   13;   -4;    4;   10;    4;
       9;    9;    9;    6;    5;   -4;   -6;   -4;
       5;    4;   16;    1;    2;    1;   -1;    2;
       4;    6;   10;    5;   -6;   -7;  -10;  -13;
      -5;    0;   -6;   -1;   -9;  -15;  -10;  -20;
      -7;   -7;    0;    2;  -11;  -11;  -13;   -4;
     -11;    2;    4;   -1;   -6;  -16;    5;  -24
].

Definition ENDGAME_QUEEN_TABLE : list Z := [
     -11;   27;   27;   33;   33;   23;   12;   24;
     -21;   24;   39;   50;   71;   30;   37;    0;
     -24;    7;   11;   60;   57;   43;   23;   11;
       4;   27;   29;   55;   70;   49;   70;   44;
     -22;   34;   23;   57;   38;   41;   48;   28;
     -20;  -33;   18;    7;   11;   21;   12;    6;
     -27;  -28;  -37;  -20;  -20;  -28;  -44;  -39;
     -40;  -34;  -27;  -52;   -6;  -39;  -24;  -50
].

Definition ENDGAME_KING_TABLE : list Z := [
     -90;  -43;  -22;  -22;  -13;   18;    5;  -21;
     -15;   21;   17;   21;   21;   46;   28;   13;
      12;   21;   28;   18;   24;   55;   54;   16;
     -10;   27;   29;   33;   32;   40;   32;    4;
     -22;   -5;   26;   29;   33;   28;   11;  -13;
     -23;   -4;   13;   26;   28;   20;    9;  -11;
     -33;  -13;    5;   16;   17;    5;   -6;  -21;
     -65;  -41;  -26;  -13;  -34;  -17;  -29;  -52
].

(** The two piece-square dictionaries are module globals that the first
    [isready] replaces by their padded versions, so the evaluator takes them
    as an argument. *)
Record pst : Type := mkPst {
  midgame_tables : dict (list Z);
  endgame_tables : dict (list Z)
}.

Definition MIDGAME_PIECE_SQUARE_TABLES : dict (list Z) :=
  [ ("P"%char, MIDGAME_PAWN_TABLE); ("N"%char, MIDGAME_KNIGHT_TABLE);
    ("B"%char, MIDGAME_BISHOP_TABLE); ("R"%char, MIDGAME_ROOK_TABLE);
    ("Q"%char, MIDGAME_QUEEN_TABLE); ("K"%char, MIDGAME_KING_TABLE) ].

Definition ENDGAME_PIECE_SQUARE_TABLES : dict (list Z) :=
  [ ("P"%char, ENDGAME_PAWN_TABLE); ("N"%char, ENDGAME_KNIGHT_TABLE);
    ("B"%char, ENDGAME_BISHOP_TABLE); ("R"%char, ENDGAME_ROOK_TABLE);
    ("Q"%char, ENDGAME_QUEEN_TABLE); ("K"%char, ENDGAME_KING_TABLE) ].

(** The tables as the module defines them, eight by eight. *)
Definition module_tables : pst :=
  mkPst MIDGAME_PIECE_SQUARE_TABLES ENDGAME_PIECE_SQUARE_TABLES.

Definition MOP_UP_SCORE : Z := ENDGAME_PAWN_VALUE * 2.

Definition CHECKMATE_UPPER : Z := ENDGAME_KING_VALUE + 10 * ENDGAME_QUEEN_VALUE.
Definition CHECKMATE_LOWER : Z := ENDGAME_KING_VALUE - 10 * ENDGAME_QUEEN_VALUE.

Definition KNIGHT_PHASE : Z := 1.
Definition BISHOP_PHASE : Z := 1.
Definition ROOK_PHASE : Z := 2.
Definition QUEEN_PHASE : Z := 4.
Definition TOTAL_PHASE : Z :=
  4 * KNIGHT_PHASE + 4 * BISHOP_PHASE + 4 * ROOK_PHASE + 2 * QUEEN_PHASE.

Definition HASH_VALUES : list Z := [
    0x9D39247E33776D41; 0x2AF7398005AAA5C7; 0x44DB015024623547; 0x9C15F73E62A76AE2;
    0x75834465489C0C89; 0x3290AC3A203001BF; 0x0FBBAD1F61042279; 0xE83A908FF2FB60CA;
    0x0D7E765D58755C10; 0x1A083822CEAFE02D; 0x9605D5F0E25EC3B0; 0xD021FF5CD13A2ED5;
    0x40BDF15D4A672E32; 0x011355146FD56395; 0x5DB4832046F3D9E5; 0x239F8B2D7FF719CC;
    0x05D1A1AE85B49AA1; 0x679F848F6E8FC971; 0x7449BBFF801FED0B; 0x7D11CDB1C3B7ADF0;
    0x82C7709E781EB7CC; 0xF3218F1C9510786C; 0x331478F3AF51BBE6; 0x4BB38DE5E7219443;
    0xAA649C6EBCFD50FC; 0x8DBD98A352AFD40B; 0x87D2074B81D79217; 0x19F3C751D3E92AE1;
    0xB4AB30F062B19ABF; 0x7B0500AC42047AC4; 0xC9452CA81A09D85D; 0x24AA6C514DA27500;
    0x4C9F34427501B447; 0x14A68FD73C910841; 0xA71B9B83461CBD93; 0x03488B95B0F1850F;
    0x637B2B34FF93C040; 0x09D1BC9A3DD90A94; 0x3575668334A1DD3B; 0x735E2B97A4C45A23;
    0x18727070F1BD400B; 0x1FCBACD259BF02E7; 0xD310A7C2CE9B6555; 0xBF983FE0FE5D8244;
    0x9F74D14F7454A824; 0x51EBDC4AB9BA3035; 0x5C82C505DB9AB0FA; 0xFCF7FE8A3430B241;
    0x3253A729B9BA3DDE; 0x8C74C368081B3075; 0xB9BC6C87167C33E7; 0x7EF48F2B83024E20;
    0x11D505D4C351BD7F; 0x6568FCA92C76A243; 0x4DE0B0F40F32A7B8; 0x96D693460CC37E5D;
    0x42E240CB63689F2F; 0x6D2BDCDAE2919661; 0x42880B0236E4D951; 0x5F0F4A5898171BB6;
    0x39F890F579F92F88; 0x93C5B5F47356388B; 0x63DC359D8D231B78; 0xEC16CA8AEA98AD76;
    0x5355F900C2A82DC7; 0x07FB9F855A997142; 0x5093417AA8A7ED5E; 0x7BCBC38DA25A7F3C;
    0x19FC8A768CF4B6D4; 0x637A7780DECFC0D9; 0x8249A47AEE0E41F7; 0x79AD695501E7D1E8;
    0x14ACBAF4777D5776; 0xF145B6BECCDEA195; 0xDABF2AC8201752FC; 0x24C3C94DF9C8D3F6;
    0xBB6E2924F03912EA; 0x0CE26C0B95C980D9; 0xA49CD132BFBF7CC4; 0xE99D662AF4243939;
    0x27E6AD7891165C3F; 0x8535F040B9744FF1; 0x54B3F4FA5F40D873; 0x72B12C32127FED2B;
    0xEE954D3C7B411F47; 0x9A85AC909A24EAA1; 0x70AC4CD9F04F21F5; 0xF9B89D3E99A075C2;
    0x87B3E2B2B5C907B1; 0xA366E5B8C54F48B8; 0xAE4A9346CC3F7CF2; 0x1920C04D47267BBD;
    0x87BF02C6B49E2AE9; 0x092237AC237F3859; 0xFF07F64EF8ED14D0; 0x8DE8DCA9F03CC54E;
    0x9C1633264DB49C89; 0xB3F22C3D0B0B38ED; 0x390E5FB44D01144B; 0x5BFEA5B4712768E9;
    0x1E1032911FA78984; 0x9A74ACB964E78CB3; 0x4F80F7A035DAFB04; 0x6304D09A0B3738C4;
    0x2171E64683023A08; 0x5B9B63EB9CEFF80C; 0x506AACF489889342; 0x1881AFC9A3A701D6;
    0x6503080440750644; 0xDFD395339CDBF4A7; 0xEF927DBCF00C20F2; 0x7B32F7D1E03680EC;
    0xB9FD7620E7316243; 0x05A7E8A57DB91B77; 0xB5889C6E15630A75; 0x4A750A09CE9573F7;
    0xCF464CEC899A2F8A; 0xF538639CE705B824; 0x3C79A0FF5580EF7F; 0xEDE6C87F8477609D;
    0x799E81F05BC93F31; 0x86536B8CF3428A8C; 0x97D7374C60087B73; 0xA246637CFF328532;
    0x043FCAE60CC0EBA0; 0x920E449535DD359E; 0x70EB093B15B290CC; 0x73A1921916591CBD;
    0x56436C9FE1A1AA8D; 0xEFAC4B70633B8F81; 0xBB215798D45DF7AF; 0x45F20042F24F1768;
    0x930F80F4E8EB7462; 0xFF6712FFCFD75EA1; 0xAE623FD67468AA70; 0xDD2C5BC84BC8D8FC;
    0x7EED120D54CF2DD9; 0x22FE545401165F1C; 0xC91800E98FB99929; 0x808BD68E6AC10365;
    0xDEC468145B7605F6; 0x1BEDE3A3AEF53302; 0x43539603D6C55602; 0xAA969B5C691CCB7A;
    0xA87832D392EFEE56; 0x65942C7B3C7E11AE; 0xDED2D633CAD004F6; 0x21F08570F420E565;
    0xB415938D7DA94E3C; 0x91B859E59ECB6350; 0x10CFF333E0ED804A; 0x28AED140BE0BB7DD;
    0xC5CC1D89724FA456; 0x5648F680F11A2741; 0x2D255069F0B7DAB3; 0x9BC5A38EF729ABD4;
    0xEF2F054308F6A2BC; 0xAF2042F5CC5C2858; 0x480412BAB7F5BE2A; 0xAEF3AF4A563DFE43;
    0x19AFE59AE451497F; 0x52593803DFF1E840; 0xF4F076E65F2CE6F0; 0x11379625747D5AF3;
    0xBCE5D2248682C115; 0x9DA4243DE836994F; 0x066F70B33FE09017; 0x4DC4DE189B671A1C;
    0x51039AB7712457C3; 0xC07A3F80C31FB4B4; 0xB46EE9C5E64A6E7C; 0xB3819A42ABE61C87;
    0x21A007933A522A20; 0x2DF16F761598AA4F; 0x763C4A1371B368FD; 0xF793C46702E086A0;
    0xD7288E012AEB8D31; 0xDE336A2A4BC1C44B; 0x0BF692B38D079F23; 0x2C604A7A177326B3;
    0x4850E73E03EB6064; 0xCFC447F1E53C8E1B; 0xB05CA3F564268D99; 0x9AE182C8BC9474E8;
    0xA4FC4BD4FC5558CA; 0xE755178D58FC4E76; 0x69B97DB1A4C03DFE; 0xF9B5B7C4ACC67C96;
    0xFC6A82D64B8655FB; 0x9C684CB6C4D24417; 0x8EC97D2917456ED0; 0x6703DF9D2924E97E;
    0xC547F57E42A7444E; 0x78E37644E7CAD29E; 0xFE9A44E9362F05FA; 0x08BD35CC38336615;
    0x9315E5EB3A129ACE; 0x94061B871E04DF75; 0xDF1D9F9D784BA010; 0x3BBA57B68871B59D;
    0xD2B7ADEEDED1F73F; 0xF7A255D83BC373F8; 0xD7F4F2448C0CEB81; 0xD95BE88CD210FFA7;
    0x336F52F8FF4728E7; 0xA74049DAC312AC71; 0xA2F61BB6E437FDB5; 0x4F2A5CB07F6A35B3;
    0x87D380BDA5BF7859; 0x16B9F7E06C453A21; 0x7BA2484C8A0FD54E; 0xF3A678CAD9A2E38C;
    0x39B0BF7DDE437BA2; 0xFCAF55C1BF8A4424; 0x18FCF680573FA594; 0x4C0563B89F495AC3;
    0x40E087931A00930D; 0x8CFFA9412EB642C1; 0x68CA39053261169F; 0x7A1EE967D27579E2;
    0x9D1D60E5076F5B6F; 0x3810E399B6F65BA2; 0x32095B6D4AB5F9B1; 0x35CAB62109DD038A;
    0xA90B24499FCFAFB1; 0x77A225A07CC2C6BD; 0x513E5E634C70E331; 0x4361C0CA3F692F12;
    0xD941ACA44B20A45B; 0x528F7C8602C5807B; 0x52AB92BEB9613989; 0x9D1DFA2EFC557F73;
    0x722FF175F572C348; 0x1D1260A51107FE97; 0x7A249A57EC0C9BA2; 0x04208FE9E8F7F2D6;
    0x5A110C6058B920A0; 0x0CD9A497658A5698; 0x56FD23C8F9715A4C; 0x284C847B9D887AAE;
    0x04FEABFBBDB619CB; 0x742E1E651C60BA83; 0x9A9632E65904AD3C; 0x881B82A13B51B9E2;
    0x506E6744CD974924; 0xB0183DB56FFC6A79; 0x0ED9B915C66ED37E; 0x5E11E86D5873D484;
    0xF678647E3519AC6E; 0x1B85D488D0F20CC5; 0xDAB9FE6525D89021; 0x0D151D86ADB73615;
    0xA865A54EDCC0F019; 0x93C42566AEF98FFB; 0x99E7AFEABE000731; 0x48CBFF086DDF285A;
    0x7F9B6AF1EBF78BAF; 0x58627E1A149BBA21; 0x2CD16E2ABD791E33; 0xD363EFF5F0977996;
    0x0CE2A38C344A6EED; 0x1A804AADB9CFA741; 0x907F30421D78C5DE; 0x501F65EDB3034D07;
    0x37624AE5A48FA6E9; 0x957BAF61700CFF4E; 0x3A6C27934E31188A; 0xD49503536ABCA345;
    0x088E049589C432E0; 0xF943AEE7FEBF21B8; 0x6C3B8E3E336139D3; 0x364F6FFA464EE52E;
    0xD60F6DCEDC314222; 0x56963B0DCA418FC0; 0x16F50EDF91E513AF; 0xEF1955914B609F93;
    0x565601C0364E3228; 0xECB53939887E8175; 0xBAC7A9A18531294B; 0xB344C470397BBA52;
    0x65D34954DAF3CEBD; 0xB4B81B3FA97511E2; 0xB422061193D6F6A7; 0x071582401C38434D;
    0x7A13F18BBEDC4FF5; 0xBC4097B116C524D2; 0x59B97885E2F2EA28; 0x99170A5DC3115544;
    0x6F423357E7C6A9F9; 0x325928EE6E6F8794; 0xD0E4366228B03343; 0x565C31F7DE89EA27;
    0x30F5611484119414; 0xD873DB391292ED4F; 0x7BD94E1D8E17DEBC; 0xC7D9F16864A76E94;
    0x947AE053EE56E63C; 0xC8C93882F9475F5F; 0x3A9BF55BA91F81CA; 0xD9A11FBB3D9808E4;
    0x0FD22063EDC29FCA; 0xB3F256D8ACA0B0B9; 0xB03031A8B4516E84; 0x35DD37D5871448AF;
    0xE9F6082B05542E4E; 0xEBFAFA33D7254B59; 0x9255ABB50D532280; 0xB9AB4CE57F2D34F3;
    0x693501D628297551; 0xC62C58F97DD949BF; 0xCD454F8F19C5126A; 0xBBE83F4ECC2BDECB;
    0xDC842B7E2819E230; 0xBA89142E007503B8; 0xA3BC941D0A5061CB; 0xE9F6760E32CD8021;
    0x09C7E552BC76492F; 0x852F54934DA55CC9; 0x8107FCCF064FCF56; 0x098954D51FFF6580;
    0x23B70EDB1955C4BF; 0xC330DE426430F69D; 0x4715ED43E8A45C0A; 0xA8D7E4DAB780A08D;
    0x0572B974F03CE0BB; 0xB57D2E985E1419C7; 0xE8D9ECBE2CF3D73F; 0x2FE4B17170E59750;
    0x11317BA87905E790; 0x7FBF21EC8A1F45EC; 0x1725CABFCB045B00; 0x964E915CD5E2B207;
    0x3E2B8BCBF016D66D; 0xBE7444E39328A0AC; 0xF85B2B4FBCDE44B7; 0x49353FEA39BA63B1;
    0x1DD01AAFCD53486A; 0x1FCA8A92FD719F85; 0xFC7C95D827357AFA; 0x18A6A990C8B35EBD;
    0xCCCB7005C6B9C28D; 0x3BDBB92C43B17F26; 0xAA70B5B4F89695A2; 0xE94C39A54A98307F;
    0xB7A0B174CFF6F36E; 0xD4DBA84729AF48AD; 0x2E18BC1AD9704A68; 0x2DE0966DAF2F8B1C;
    0xB9C11D5B1E43A07E; 0x64972D68DEE33360; 0x94628D38D0C20584; 0xDBC0D2B6AB90A559;
    0xD2733C4335C6A72F; 0x7E75D99D94A70F4D; 0x6CED1983376FA72B; 0x97FCAACBF030BC24;
    0x7B77497B32503B12; 0x8547EDDFB81CCB94; 0x79999CDFF70902CB; 0xCFFE1939438E9B24;
    0x829626E3892D95D7; 0x92FAE24291F2B3F1; 0x63E22C147B9C3403; 0xC678B6D860284A1C;
    0x5873888850659AE7; 0x0981DCD296A8736D; 0x9F65789A6509A440; 0x9FF38FED72E9052F;
    0xE479EE5B9930578C; 0xE7F28ECD2D49EECD; 0x56C074A581EA17FE; 0x5544F7D774B14AEF;
    0x7B3F0195FC6F290F; 0x12153635B2C0CF57; 0x7F5126DBBA5E0CA7; 0x7A76956C3EAFB413;
    0x3D5774A11D31AB39; 0x8A1B083821F40CB4; 0x7B4A38E32537DF62; 0x950113646D1D6E03;
    0x4DA8979A0041E8A9; 0x3BC36E078F7515D7; 0x5D0A12F27AD310D1; 0x7F9D1A2E1EBE1327;
    0xDA3A361B1C5157B1; 0xDCDD7D20903D0C25; 0x36833336D068F707; 0xCE68341F79893389;
    0xAB9090168DD05F34; 0x43954B3252DC25E5; 0xB438C2B67F98E5E9; 0x10DCD78E3851A492;
    0xDBC27AB5447822BF; 0x9B3CDB65F82CA382; 0xB67B7896167B4C84; 0xBFCED1B0048EAC50;
    0xA9119B60369FFEBD; 0x1FFF7AC80904BF45; 0xAC12FB171817EEE7; 0xAF08DA9177DDA93D;
    0x1B0CAB936E65C744; 0xB559EB1D04E5E932; 0xC37B45B3F8D6F2BA; 0xC3A9DC228CAAC9E9;
    0xF3B8B6675A6507FF; 0x9FC477DE4ED681DA; 0x67378D8ECCEF96CB; 0x6DD856D94D259236;
    0xA319CE15B0B4DB31; 0x073973751F12DD5E; 0x8A8E849EB32781A5; 0xE1925C71285279F5;
    0x74C04BF1790C0EFE; 0x4DDA48153C94938A; 0x9D266D6A1CC0542C; 0x7440FB816508C4FE;
    0x13328503DF48229F; 0xD6BF7BAEE43CAC40; 0x4838D65F6EF6748F; 0x1E152328F3318DEA;
    0x8F8419A348F296BF; 0x72C8834A5957B511; 0xD7A023A73260B45C; 0x94EBC8ABCFB56DAE;
    0x9FC10D0F989993E0; 0xDE68A2355B93CAE6; 0xA44CFE79AE538BBE; 0x9D1D84FCCE371425;
    0x51D2B1AB2DDFB636; 0x2FD7E4B9E72CD38C; 0x65CA5B96B7552210; 0xDD69A0D8AB3B546D;
    0x604D51B25FBF70E2; 0x73AA8A564FB7AC9E; 0x1A8C1E992B941148; 0xAAC40A2703D9BEA0;
    0x764DBEAE7FA4F3A6; 0x1E99B96E70A9BE8B; 0x2C5E9DEB57EF4743; 0x3A938FEE32D29981;
    0x26E6DB8FFDF5ADFE; 0x469356C504EC9F9D; 0xC8763C5B08D1908C; 0x3F6C6AF859D80055;
    0x7F7CC39420A3A545; 0x9BFB227EBDF4C5CE; 0x89039D79D6FC5C5C; 0x8FE88B57305E2AB6;
    0xA09E8C8C35AB96DE; 0xFA7E393983325753; 0xD6B6D0ECC617C699; 0xDFEA21EA9E7557E3;
    0xB67C1FA481680AF8; 0xCA1E3785A9E724E5; 0x1CFC8BED0D681639; 0xD18D8549D140CAEA;
    0x4ED0FE7E9DC91335; 0xE4DBF0634473F5D2; 0x1761F93A44D5AEFE; 0x53898E4C3910DA55;
    0x734DE8181F6EC39A; 0x2680B122BAA28D97; 0x298AF231C85BAFAB; 0x7983EED3740847D5;
    0x66C1A2A1A60CD889; 0x9E17E49642A3E4C1; 0xEDB454E7BADC0805; 0x50B704CAB602C329;
    0x4CC317FB9CDDD023; 0x66B4835D9EAFEA22; 0x219B97E26FFC81BD; 0x261E4E4C0A333A9D;
    0x1FE2CCA76517DB90; 0xD7504DFA8816EDBB; 0xB9571FA04DC089C8; 0x1DDC0325259B27DE;
    0xCF3F4688801EB9AA; 0xF4F5D05C10CAB243; 0x38B6525C21A42B0E; 0x36F60E2BA4FA6800;
    0xEB3593803173E0CE; 0x9C4CD6257C5A3603; 0xAF0C317D32ADAA8A; 0x258E5A80C7204C4B;
    0x8B889D624D44885D; 0xF4D14597E660F855; 0xD4347F66EC8941C3; 0xE699ED85B0DFB40D;
    0x2472F6207C2D0484; 0xC2A1E7B5B459AEB5; 0xAB4F6451CC1D45EC; 0x63767572AE3D6174;
    0xA59E0BD101731A28; 0x116D0016CB948F09; 0x2CF9C8CA052F6E9F; 0x0B090A7560A968E3;
    0xABEEDDB2DDE06FF1; 0x58EFC10B06A2068D; 0xC6E57A78FBD986E0; 0x2EAB8CA63CE802D7;
    0x14A195640116F336; 0x7C0828DD624EC390; 0xD74BBE77E6116AC7; 0x804456AF10F5FB53;
    0xEBE9EA2ADF4321C7; 0x03219A39EE587A30; 0x49787FEF17AF9924; 0xA1E9300CD8520548;
    0x5B45E522E4B1B4EF; 0xB49C3B3995091A36; 0xD4490AD526F14431; 0x12A8F216AF9418C2;
    0x001F837CC7350524; 0x1877B51E57A764D5; 0xA2853B80F17F58EE; 0x993E1DE72D36D310;
    0xB3598080CE64A656; 0x252F59CF0D9F04BB; 0xD23C8E176D113600; 0x1BDA0492E7E4586E;
    0x21E0BD5026C619BF; 0x3B097ADAF088F94E; 0x8D14DEDB30BE846E; 0xF95CFFA23AF5F6F4;
    0x3871700761B3F743; 0xCA672B91E9E4FA16; 0x64C8E531BFF53B55; 0x241260ED4AD1E87D;
    0x106C09B972D2E822; 0x7FBA195410E5CA30; 0x7884D9BC6CB569D8; 0x0647DFEDCD894A29;
    0x63573FF03E224774; 0x4FC8E9560F91B123; 0x1DB956E450275779; 0xB8D91274B9E9D4FB;
    0xA2EBEE47E2FBFCE1; 0xD9F1F30CCD97FB09; 0xEFED53D75FD64E6B; 0x2E6D02C36017F67F;
    0xA9AA4D20DB084E9B; 0xB64BE8D8B25396C1; 0x70CB6AF7C2D5BCF0; 0x98F076A4F7A2322E;
    0xBF84470805E69B5F; 0x94C3251F06F90CF3; 0x3E003E616A6591E9; 0xB925A6CD0421AFF3;
    0x61BDD1307C66E300; 0xBF8D5108E27E0D48; 0x240AB57A8B888B20; 0xFC87614BAF287E07;
    0xEF02CDD06FFDB432; 0xA1082C0466DF6C0A; 0x8215E577001332C8; 0xD39BB9C3A48DB6CF;
    0x2738259634305C14; 0x61CF4F94C97DF93D; 0x1B6BACA2AE4E125B; 0x758F450C88572E0B;
    0x959F587D507A8359; 0xB063E962E045F54D; 0x60E8ED72C0DFF5D1; 0x7B64978555326F9F;
    0xFD080D236DA814BA; 0x8C90FD9B083F4558; 0x106F72FE81E2C590; 0x7976033A39F7D952;
    0xA4EC0132764CA04B; 0x733EA705FAE4FA77; 0xB4D8F77BC3E56167; 0x9E21F4F903B33FD9;
    0x9D765E419FB69F6D; 0xD30C088BA61EA5EF; 0x5D94337FBFAF7F5B; 0x1A4E4822EB4D7A59;
    0x6FFE73E81B637FB3; 0xDDF957BC36D8B9CA; 0x64D0E29EEA8838B3; 0x08DD9BDFD96B9F63;
    0x087E79E5A57D1D13; 0xE328E230E3E2B3FB; 0x1C2559E30F0946BE; 0x720BF5F26F4D2EAA;
    0xB0774D261CC609DB; 0x443F64EC5A371195; 0x4112CF68649A260E; 0xD813F2FAB7F5C5CA;
    0x660D3257380841EE; 0x59AC2C7873F910A3; 0xE846963877671A17; 0x93B633ABFA3469F8;
    0xC0C0F5A60EF4CDCF; 0xCAF21ECD4377B28C; 0x57277707199B8175; 0x506C11B9D90E8B1D;
    0xD83CC2687A19255F; 0x4A29C6465A314CD1; 0xED2DF21216235097; 0xB5635C95FF7296E2;
    0x22AF003AB672E811; 0x52E762596BF68235; 0x9AEBA33AC6ECC6B0; 0x944F6DE09134DFB6;
    0x6C47BEC883A7DE39; 0x6AD047C430A12104; 0xA5B1CFDBA0AB4067; 0x7C45D833AFF07862;
    0x5092EF950A16DA0B; 0x9338E69C052B8E7B; 0x455A4B4CFE30E3F5; 0x6B02E63195AD0CF8;
    0x6B17B224BAD6BF27; 0xD1E0CCD25BB9C169; 0xDE0C89A556B9AE70; 0x50065E535A213CF6;
    0x9C1169FA2777B874; 0x78EDEFD694AF1EED; 0x6DC93D9526A50E68; 0xEE97F453F06791ED;
    0x32AB0EDB696703D3; 0x3A6853C7E70757A7; 0x31865CED6120F37D; 0x67FEF95D92607890;
    0x1F2B1D1F15F6DC9C; 0xB69E38A8965C6B65; 0xAA9119FF184CCCF4; 0xF43C732873F24C13;
    0xFB4A3D794A9A80D2; 0x3550C2321FD6109C; 0x371F77E76BB8417E; 0x6BFA9AAE5EC05779;
    0xCD04F3FF001A4778; 0xE3273522064480CA; 0x9F91508BFFCFC14A; 0x049A7F41061A9E60;
    0xFCB6BE43A9F2FE9B; 0x08DE8A1C7797DA9B; 0x8F9887E6078735A1; 0xB5B4071DBFC73A66;
    0x230E343DFBA08D33; 0x43ED7F5A0FAE657D; 0x3A88A0FBBCB05C63; 0x21874B8B4D2DBC4F;
    0x1BDEA12E35F6A8C9; 0x53C065C6C8E63528; 0xE34A1D250E7A8D6B; 0xD6B04D3B7651DD7E;
    0x5E90277E7CB39E2D; 0x2C046F22062DC67D; 0xB10BB459132D0A26; 0x3FA9DDFB67E2F199;
    0x0E09B88E1914F7AF; 0x10E8B35AF3EEAB37; 0x9EEDECA8E272B933; 0xD4C718BC4AE8AE5F;
    0x81536D601170FC20; 0x91B534F885818A06; 0xEC8177F83F900978; 0x190E714FADA5156E;
    0xB592BF39B0364963; 0x89C350C893AE7DC1; 0xAC042E70F8B383F2; 0xB49B52E587A1EE60;
    0xFB152FE3FF26DA89; 0x3E666E6F69AE2C15; 0x3B544EBE544C19F9; 0xE805A1E290CF2456;
    0x24B33C9D7ED25117; 0xE74733427B72F0C1; 0x0A804D18B7097475; 0x57E3306D881EDB4F;
    0x4AE7D6A36EB5DBCB; 0x2D8D5432157064C8; 0xD1E649DE1E7F268B; 0x8A328A1CEDFE552C;
    0x07A3AEC79624C7DA; 0x84547DDC3E203C94; 0x990A98FD5071D263; 0x1A4FF12616EEFC89;
    0xF6F7FD1431714200; 0x30C05B1BA332F41C; 0x8D2636B81555A786; 0x46C9FEB55D120902;
    0xCCEC0A73B49C9921; 0x4E9D2827355FC492; 0x19EBB029435DCB0F; 0x4659D2B743848A2C;
    0x963EF2C96B33BE31; 0x74F85198B05A2E7D; 0x5A0F544DD2B1FB18; 0x03727073C2E134B1;
    0xC7F6AA2DE59AEA61; 0x352787BAA0D7C22F; 0x9853EAB63B5E0B35; 0xABBDCDD7ED5C0860;
    0xCF05DAF5AC8D77B0; 0x49CAD48CEBF4A71E; 0x7A4C10EC2158C4A6; 0xD9E92AA246BF719E;
    0x13AE978D09FE5557; 0x730499AF921549FF; 0x4E4B705B92903BA4; 0xFF577222C14F0A3A;
    0x55B6344CF97AAFAE; 0xB862225B055B6960; 0xCAC09AFBDDD2CDB4; 0xDAF8E9829FE96B5F;
    0xB5FDFC5D3132C498; 0x310CB380DB6F7503; 0xE87FBB46217A360E; 0x2102AE466EBB1148;
    0xF8549E1A3AA5E00D; 0x07A69AFDCC42261A; 0xC4C118BFE78FEAAE; 0xF9F4892ED96BD438;
    0x1AF3DBE25D8F45DA; 0xF5B4B0B0D2DEEEB4; 0x962ACEEFA82E1C84; 0x046E3ECAAF453CE9;
    0xF05D129681949A4C; 0x964781CE734B3C84; 0x9C2ED44081CE5FBD; 0x522E23F3925E319E;
    0x177E00F9FC32F791; 0x2BC60A63A6F3B3F2; 0x222BBFAE61725606; 0x486289DDCC3D6780;
    0x7DC7785B8EFDFC80; 0x8AF38731C02BA980; 0x1FAB64EA29A2DDF7; 0xE4D9429322CD065A;
    0x9DA058C67844F20C; 0x24C0E332B70019B0; 0x233003B5A6CFE6AD; 0xD586BD01C5C217F6;
    0x5E5637885F29BC2B; 0x7EBA726D8C94094B; 0x0A56A5F0BFE39272; 0xD79476A84EE20D06;
    0x9E4C1269BAA4BF37; 0x17EFEE45B0DEE640; 0x1D95B0A5FCF90BC6; 0x93CBE0B699C2585D;
    0x65FA4F227A2B6D79; 0xD5F9E858292504D5; 0xC2B5A03F71471A6F; 0x59300222B4561E00;
    0xCE2F8642CA0712DC; 0x7CA9723FBB2E8988; 0x2785338347F2BA08; 0xC61BB3A141E50E8C;
    0x150F361DAB9DEC26; 0x9F6A419D382595F4; 0x64A53DC924FE7AC9; 0x142DE49FFF7A7C3D;
    0x0C335248857FA9E7; 0x0A9C32D5EAE45305; 0xE6C42178C4BBB92E; 0x71F1CE2490D20B07;
    0xF1BCC3D275AFE51A; 0xE728E8C83C334074; 0x96FBF83A12884624; 0x81A1549FD6573DA5;
    0x5FA7867CAF35E149; 0x56986E2EF3ED091B; 0x917F1DD5F8886C61; 0xD20D8C88C8FFE65F;
    0x31D71DCE64B2C310; 0xF165B587DF898190; 0xA57E6339DD2CF3A0; 0x1EF6E6DBB1961EC9;
    0x70CC73D90BC26E24; 0xE21A6B35DF0C3AD7; 0x003A93D8B2806962; 0x1C99DED33CB890A1;
    0xCF3145DE0ADD4289; 0xD0E4427A5514FB72; 0x77C621CC9FB3A483; 0x67A34DAC4356550B;
    0xF8D626AAAF278509
].

Definition PIECE_ENCODINGS : dict Z :=
  [ ("p"%char, 0); ("P"%char, 1); ("n"%char, 2); ("N"%char, 3);
    ("b"%char, 4); ("B"%char, 5); ("r"%char, 6); ("R"%char, 7);
    ("q"%char, 8); ("Q"%char, 9); ("k"%char, 10); ("K"%char, 11) ].

(** ** Board logic *)

(** A move is the tuple (start, end, captured piece, promotion piece). *)
Definition move : Type := (Z * Z * str * str)%type.

Definition null_move : move := (0, 0, [], []).

Definition move_eqb (a b : move) : bool :=
  let '(s1, e1, c1, p1) := a in
  let '(s2, e2, c2, p2) := b in
  (s1 =? s2) && (e1 =? e2) && str_eqb c1 c2 && str_eqb p1 p2.

(** The five values every board function takes and returns together. *)
Record state : Type := mkState {
  position : str;
  castling : list bool;
  opponent_castling : list bool;
  en_passant : Z;
  king_passant : Z
}.

Definition rotate_cells (i : Z) (list_position : str) : py str :=
  c <- getitem list_position i ;;
  if isspace c then Ok list_position
  else
    d <- getitem list_position (119 - i) ;;
    l1 <- setitem list_position (119 - i) (swapcase c) ;;
    setitem l1 i (swapcase d).

Definition rotate_position (s : state) : py state :=
  let en_passant := 119 - en_passant s in
  let king_passant := 119 - king_passant s in
  list_position <- for_each (range 60) rotate_cells (position s) ;;
  Ok (mkState list_position (opponent_castling s) (castling s)
              en_passant king_passant).

Definition swap_items {A : Type} (l : list A) (i j : Z) : py (list A) :=
  (* l[i], l[j] = l[j], l[i] *)
  vj <- getitem l j ;;
  vi <- getitem l i ;;
  l1 <- setitem l i vj ;;
  setitem l1 j vi.

Definition set_if {A : Type} (b : bool) (l : list A) (i : Z) (v : A)
  : py (list A) :=
  if b then setitem l i v else Ok l.

Definition make_move (m : move) (s : state) : py state :=
  let '(start_square, end_square, _, promotion_piece) := m in
  let list_position := map (fun c => [c]) (position s) in
  piece_moved <- getitem list_position start_square ;;
  let king_passant := 0 in
  list_position <- setitem list_position start_square [dot] ;;
  list_position <- setitem list_position end_square piece_moved ;;
  castling <- set_if (start_square =? A1) (castling s) 0 false ;;
  castling <- set_if (start_square =? H1) castling 1 false ;;
  opponent_castling <- set_if (end_square =? A8) (opponent_castling s) 0 false ;;
  opponent_castling <- set_if (end_square =? H8) opponent_castling 1 false ;;
  if str_eqb piece_moved (lit "K") then
    castling <- setitem castling 0 false ;;
    castling <- setitem castling 1 false ;;
    '(king_passant, list_position) <-
      (if start_square - end_square =? 2 then
         let kp := (start_square + end_square) / 2 in
         l <- swap_items list_position A1 kp ;; Ok (kp, l)
       else Ok (king_passant, list_position)) ;;
    '(king_passant, list_position) <-
      (if end_square - start_square =? 2 then
         let kp := (start_square + end_square) / 2 in
         l <- swap_items list_position H1 kp ;; Ok (kp, l)
       else Ok (king_passant, list_position)) ;;
    Ok (mkState (concat list_position) castling opponent_castling
                (en_passant s) king_passant)
  else if str_eqb piece_moved (lit "P") then
    list_position <-
      set_if (end_square =? en_passant s) list_position
             (end_square + SOUTH) [dot] ;;
    list_position <-
      set_if ((A8 <=? end_square) && (end_square <=? H8)) list_position
             end_square promotion_piece ;;
    let en_passant :=
      if end_square - start_square =? NORTH + NORTH
      then end_square + SOUTH else 0 in
    Ok (mkState (concat list_position) castling opponent_castling
                en_passant king_passant)
  else
    Ok (mkState (concat list_position) castling opponent_castling
                (en_passant s) king_passant).

(** ** Zobrist hashing (PolyGlot) *)

Definition piece_key (i : Z) (piece : ascii) (piece_hash : Z) : py Z :=
  if negb (isspace piece) && negb (Ascii.eqb piece dot) then
    let row := 9 - i / 10 in
    let file := i mod 10 - 1 in
    e <- lookup PIECE_ENCODINGS piece ;;
    h <- getitem HASH_VALUES (64 * e + 8 * row + file) ;;
    Ok (Z.lxor piece_hash h)
  else Ok piece_hash.

Fixpoint piece_hash_from (i : Z) (position : str) (piece_hash : Z) : py Z :=
  match position with
  | [] => Ok piece_hash
  | piece :: rest =>
      h <- piece_key i piece piece_hash ;;
      piece_hash_from (i + 1) rest h
  end.

Definition xor_if (flags : list bool) (i : Z) (k : Z) (h : Z) : py Z :=
  b <- getitem flags i ;;
  if b : bool then (v <- getitem HASH_VALUES k ;; Ok (Z.lxor h v)) else Ok h.

Definition castling_hash_of (castling opponent_castling : list bool) : py Z :=
  h <- xor_if castling 0 (768 + 1) 0 ;;
  h <- xor_if castling 1 (768 + 0) h ;;
  h <- xor_if opponent_castling 0 (768 + 3) h ;;
  xor_if opponent_castling 1 (768 + 2) h.

Definition en_passant_key (en_passant : Z) : py Z :=
  getitem HASH_VALUES (772 + en_passant mod 10 - 1).

Definition en_passant_hash_of (position : str) (en_passant : Z) : py Z :=
  if negb (en_passant =? 0) && negb (en_passant =? 119) then
    if (41 <=? en_passant) && (en_passant <=? 48) then
      c <- getitem position (en_passant + SOUTH + EAST) ;;
      if Ascii.eqb c "P" then en_passant_key en_passant
      else
        c <- getitem position (en_passant + SOUTH + WEST) ;;
        if Ascii.eqb c "P" then en_passant_key en_passant else Ok 0
    else if (71 <=? en_passant) && (en_passant <=? 78) then
      c <- getitem position (en_passant + NORTH + EAST) ;;
      if Ascii.eqb c "p" then en_passant_key en_passant
      else
        c <- getitem position (en_passant + NORTH + WEST) ;;
        if Ascii.eqb c "p" then en_passant_key en_passant else Ok 0
    else Ok 0
  else Ok 0.

Definition zobrist_hash (s : state) (color : str) : py Z :=
  '(s, turn_hash) <-
    (if str_eqb color (lit "b") then
       s' <- rotate_position s ;; Ok (s', 0)
     else
       t <- getitem HASH_VALUES 780 ;; Ok (s, t)) ;;
  piece_hash <- piece_hash_from 0 (position s) 0 ;;
  castling_hash <- castling_hash_of (castling s) (opponent_castling s) ;;
  en_passant_hash <- en_passant_hash_of (position s) (en_passant s) ;;
  Ok (Z.lxor (Z.lxor (Z.lxor piece_hash castling_hash) en_passant_hash)
             turn_hash).

(** ** Reading a position in Forsyth-Edwards notation *)

Definition parse_coordinates (coordinate : str) : py Z :=
  c0 <- getitem coordinate 0 ;;
  let file := code c0 - code "a" in
  c1 <- getitem coordinate 1 ;;
  d <- (if (48 <=? code c1) && (code c1 <=? 57) then Ok (code c1 - 48)
        else Raise ValueError) ;;
  let rank := d - 1 in
  Ok (A1 + file - 10 * rank).

(** One character of a rank description: a piece letter fills one cell, a
    digit from 1 to 8 that many empty cells, anything else is skipped. *)
Definition load_piece (piece : ascii) (acc : str * Z) : py (str * Z) :=
  let '(list_position, index) := acc in
  if member piece (lit "PNBRQKpnbrqk") then
    l <- setitem list_position index piece ;; Ok (l, index + 1)
  else if member piece (lit "12345678") then
    for_each (seq 0 (Z.to_nat (code piece - 48)))
      (fun _ (a : str * Z) =>
         l <- setitem (fst a) (snd a) dot ;; Ok (l, snd a + 1))
      (list_position, index)
  else Ok (list_position, index).

Definition load_row (rows : list str) (row : Z) (list_position : str)
  : py str :=
  let index := A8 + 10 * row in
  r <- getitem rows row ;;
  a <- for_each r load_piece (list_position, index) ;;
  Ok (fst a).

Definition load_fen (fen : str) : py (state * str) :=
  let list_position := repeat blank 120 in
  let fields := split_on " " fen in
  f0 <- getitem fields 0 ;;
  let rows := split_on "/" f0 in
  list_position <- for_each (range 8) (load_row rows) list_position ;;
  list_position <-
    for_each [9; 19; 29; 39; 49; 59; 69; 79; 89; 99; 109; 119]
      (fun i l => setitem l i nl) list_position ;;
  castling_rights <- getitem fields 2 ;;
  let castling := [member "Q" castling_rights; member "K" castling_rights] in
  let opponent_castling :=
    [member "q" castling_rights; member "k" castling_rights] in
  f3 <- getitem fields 3 ;;
  en_passant <-
    (if negb (str_eqb f3 (lit "-")) then parse_coordinates f3 else Ok 0) ;;
  let king_passant := 0 in
  color <- getitem fields 1 ;;
  let s :=
    mkState list_position castling opponent_castling en_passant king_passant in
  if str_eqb color (lit "b") then
    s' <- rotate_position s ;; Ok (s', color)
  else Ok (s, color).

Definition startpos : state :=
  mkState INITIAL_POSITION INITIAL_CASTLING INITIAL_OPPONENT_CASTLING
          INITIAL_EN_PASSANT INITIAL_KING_PASSANT.

(** ** Evaluation *)

Definition floordiv (a b : Z) : py Z :=
  if b =? 0 then Raise ZeroDivisionError else Ok (a / b).

Definition manhattan_distance (square1 square2 : Z) : Z :=
  Z.abs (square1 mod 10 - square2 mod 10)
  + Z.abs (square1 / 10 - square2 / 10).

Definition game_phase (position : str) : Z :=
  let phase := TOTAL_PHASE in
  let phase := phase - (count "N" position + count "n" position) * KNIGHT_PHASE in
  let phase := phase - (count "B" position + count "b" position) * BISHOP_PHASE in
  let phase := phase - (count "R" position + count "r" position) * ROOK_PHASE in
  let phase := phase - (count "Q" position + count "q" position) * QUEEN_PHASE in
  (phase * 256 + TOTAL_PHASE / 2) / TOTAL_PHASE.

Definition interpolate (midgame_score endgame_score phase : Z) : Z :=
  (midgame_score * (256 - phase) + endgame_score * phase) / 256.

(** The square an opponent piece is looked up at: its rank reflected. *)
Definition mirror_square (square : Z) : Z :=
  (11 - square / 10) * 10 + square mod 10.

Definition king_square_of (c : ascii) (position : str) : Z :=
  if member c position then find c position else 0.

(** Material, piece-square and tropism terms of one piece under one of the
    two scales. *)
Definition piece_term (values tropism : dict Z) (tables : dict (list Z))
    (piece : ascii) (index target king : Z) : py Z :=
  v <- lookup values piece ;;
  t <- lookup tables piece ;;
  p <- getitem t index ;;
  tr <- lookup tropism piece ;;
  q <- floordiv tr (manhattan_distance target king) ;;
  Ok (v + p + q).

Definition evaluate_cell (tables : pst) (king_square opponent_king_square : Z)
    (square : Z) (piece : ascii) (scores : Z * Z) : py (Z * Z) :=
  let '(midgame_score, endgame_score) := scores in
  if isupper piece then
    m <- piece_term MIDGAME_PIECE_VALUES MIDGAME_TROPISM_VALUES
           (midgame_tables tables) piece square square opponent_king_square ;;
    e <- piece_term ENDGAME_PIECE_VALUES ENDGAME_TROPISM_VALUES
           (endgame_tables tables) piece square square opponent_king_square ;;
    Ok (midgame_score + m, endgame_score + e)
  else if islower piece then
    m <- piece_term MIDGAME_PIECE_VALUES MIDGAME_TROPISM_VALUES
           (midgame_tables tables) (upper piece) (mirror_square square)
           square king_square ;;
    e <- piece_term ENDGAME_PIECE_VALUES ENDGAME_TROPISM_VALUES
           (endgame_tables tables) (upper piece) (mirror_square square)
           square king_square ;;
    Ok (midgame_score - m, endgame_score - e)
  else Ok scores.

Fixpoint evaluate_cells (tables : pst) (king_square opponent_king_square : Z)
    (square : Z) (cells : str) (scores : Z * Z) : py (Z * Z) :=
  match cells with
  | [] => Ok scores
  | piece :: rest =>
      s <- evaluate_cell tables king_square opponent_king_square
             square piece scores ;;
      evaluate_cells tables king_square opponent_king_square
        (square + 1) rest s
  end.

(** The two sums of [evaluate_position] before the mop-up bonus. *)
Definition raw_scores (tables : pst) (position : str) : py (Z * Z) :=
  let king_square := king_square_of "K" position in
  let opponent_king_square := king_square_of "k" position in
  evaluate_cells tables king_square opponent_king_square 0 position (0, 0).

Definition mop_up_bonus (position : str) : Z :=
  MOP_UP_SCORE
  * (14 - manhattan_distance (king_square_of "K" position)
                             (king_square_of "k" position)) / 14.

Definition with_mop_up (position : str) (endgame_score : Z) : Z :=
  if endgame_score >? 0 then endgame_score + mop_up_bonus position
  else if endgame_score <? 0 then endgame_score - mop_up_bonus position
  else endgame_score.

Definition evaluate_position (tables : pst) (position : str) : py Z :=
  '(midgame_score, endgame_score) <- raw_scores tables position ;;
  Ok (interpolate midgame_score (with_mop_up position endgame_score)
                  (game_phase position)).

Definition table_at (tables : dict (list Z)) (piece : str) (i : Z) : py Z :=
  t <- lookup_str tables piece ;; getitem t i.

Definition move_term (values : dict Z) (tables : dict (list Z))
    (m : move) (position : str) (en_passant : Z) : py Z :=
  let '(start_square, end_square, piece_captured, promotion_piece) := m in
  c <- getitem position start_square ;;
  let piece_moved := [c] in
  a <- table_at tables piece_moved end_square ;;
  b <- table_at tables piece_moved start_square ;;
  let score := a - b in
  score <-
    (if str_islower piece_captured then
       v <- lookup_str values (map upper piece_captured) ;;
       p <- table_at tables (map upper piece_captured)
              (mirror_square end_square) ;;
       Ok (score + (v + p))
     else Ok score) ;;
  score <-
    (if str_eqb piece_moved (lit "K")
        && (Z.abs (start_square - end_square) =? 2) then
       r1 <- table_at tables (lit "R") ((start_square + end_square) / 2) ;;
       r2 <- table_at tables (lit "R")
               (if end_square <? start_square then A1 else H1) ;;
       Ok (score + (r1 - r2))
     else Ok score) ;;
  if str_eqb piece_moved (lit "P") then
    score <-
      (if (A8 <=? end_square) && (end_square <=? H8) then
         q <- table_at tables promotion_piece end_square ;;
         p <- table_at tables (lit "P") end_square ;;
         vq <- lookup_str values promotion_piece ;;
         vp <- lookup_str values (lit "P") ;;
         Ok (score + (q - p + vq - vp))
       else Ok score) ;;
    if end_square + SOUTH =? en_passant then
      p <- table_at tables (lit "P") (mirror_square (end_square + SOUTH)) ;;
      Ok (score + p)
    else Ok score
  else Ok score.

Definition evaluate_move (tables : pst) (m : move) (position : str)
    (en_passant : Z) : py Z :=
  midgame_score <- move_term MIDGAME_PIECE_VALUES (midgame_tables tables)
                     m position en_passant ;;
  endgame_score <- move_term ENDGAME_PIECE_VALUES (endgame_tables tables)
                     m position en_passant ;;
  Ok (interpolate midgame_score endgame_score (game_phase position)).

(** ** The one-time padding of the tables to the 10 x 12 layout *)

Definition slice {A : Type} (l : list A) (a b : nat) : list A :=
  firstn (b - a) (skipn a l).

Definition pad_table (table : list Z) : list Z :=
  let blank_row := repeat 0 10 in
  let new_table := blank_row ++ blank_row in
  let new_table :=
    fold_left (fun acc row => acc ++ [0] ++ slice table row (row + 8) ++ [0])
              [0; 8; 16; 24; 32; 40; 48; 56]%nat new_table in
  new_table ++ blank_row ++ blank_row.

Fixpoint assign {V : Type} (d : dict V) (k : ascii) (v : V) : dict V :=
  match d with
  | [] => [(k, v)]
  | (k', v') :: t =>
      if Ascii.eqb k' k then (k, v) :: t else (k', v') :: assign t k v
  end.

Definition pad_piece (piece : ascii) (tables : pst) : py pst :=
  m <- lookup (midgame_tables tables) piece ;;
  e <- lookup (endgame_tables tables) piece ;;
  Ok (mkPst (assign (midgame_tables tables) piece (pad_table m))
            (assign (endgame_tables tables) piece (pad_table e))).

Definition pad_tables (tables : pst) : py pst :=
  for_each (lit "PNBRQK") pad_piece tables.

(** The tables every command after the first [isready] sees. *)
Definition padded_tables : pst :=
  Eval vm_compute in
    match pad_tables module_tables with
    | Ok t => t
    | Raise _ => module_tables
    end.

(** ** Move generation *)

Definition promotions (start_square end_square : Z) (piece_captured : ascii)
  : list move :=
  map (fun promotion_piece =>
         (start_square, end_square, [piece_captured], [promotion_piece]))
      (lit "QRBN").

(** Whether a pawn step ends the ray before any move is appended. *)
Definition pawn_blocked (position : str) (en_passant : Z)
    (start_square direction end_square : Z) (piece_captured : ascii)
  : py bool :=
  if ((direction =? NORTH) || (direction =? NORTH + NORTH))
     && negb (Ascii.eqb piece_captured dot) then Ok true
  else
    b <- (if direction =? NORTH + NORTH then
            if start_square <? A1 + NORTH then Ok true
            else
              c <- getitem position (start_square + NORTH) ;;
              Ok (negb (Ascii.eqb c dot))
          else Ok false) ;;
    if b : bool then Ok true
    else
      Ok (((direction =? NORTH + WEST) || (direction =? NORTH + EAST))
          && Ascii.eqb piece_captured dot
          && negb (end_square + SOUTH =? en_passant)).

(** The castling move appended while a piece slides from a corner. *)
Definition castle_from (corner toward_king : Z) (flag : Z)
    (position : str) (castling : list bool)
    (start_square end_square : Z) (piece_captured : ascii)
    (move_list : list move) : py (list move) :=
  if start_square =? corner then
    c <- getitem position (end_square + toward_king) ;;
    if Ascii.eqb c "K" then
      f <- getitem castling flag ;;
      if f : bool then
        Ok (move_list ++ [(end_square + toward_king, end_square - toward_king,
                           [piece_captured], [])])
      else Ok move_list
    else Ok move_list
  else Ok move_list.

(** The innermost loop, [for end_square in itertools.count(...)]: one
    iteration per unit of fuel. *)
Fixpoint ray (fuel : nat) (position : str) (castling : list bool)
    (en_passant : Z) (start_square : Z) (piece_moved : ascii)
    (direction end_square : Z) (move_list : list move) : py (list move) :=
  match fuel with
  | O => Raise RecursionError
  | S fuel' =>
      piece_captured <- getitem position end_square ;;
      if isspace piece_captured || isupper piece_captured then Ok move_list
      else
        stop <- (if Ascii.eqb piece_moved "P" then
                   pawn_blocked position en_passant start_square direction
                                end_square piece_captured
                 else Ok false) ;;
        if stop : bool then Ok move_list
        else if Ascii.eqb piece_moved "P"
                && (A8 <=? end_square) && (end_square <=? H8) then
          Ok (move_list ++ promotions start_square end_square piece_captured)
        else
          let move_list :=
            move_list ++ [(start_square, end_square, [piece_captured], [])] in
          if member piece_moved (lit "PNK") || islower piece_captured then
            Ok move_list
          else
            move_list <- castle_from A1 EAST 0 position castling start_square
                           end_square piece_captured move_list ;;
            move_list <- castle_from H1 WEST 1 position castling start_square
                           end_square piece_captured move_list ;;
            ray fuel' position castling en_passant start_square piece_moved
                direction (end_square + direction) move_list
      end.

(** No ray takes more steps than twice the length of the board string:
    a subscript outside [-len, len) raises. *)
Definition ray_fuel (position : str) : nat := S (2 * length position).

Definition moves_from (position : str) (castling : list bool)
    (en_passant : Z) (start_square : Z) (move_list : list move)
  : py (list move) :=
  piece_moved <- getitem position start_square ;;
  if negb (isupper piece_moved) then Ok move_list
  else
    directions <- lookup PIECE_DIRECTIONS piece_moved ;;
    for_each directions
      (fun direction move_list =>
         ray (ray_fuel position) position castling en_passant start_square
             piece_moved direction (start_square + direction) move_list)
      move_list.

Definition unsorted_moves (position : str) (castling : list bool)
    (en_passant : Z) : py (list move) :=
  for_each (range (length position))
           (moves_from position castling en_passant) [].

(** [list.sort(key=..., reverse=True)]: every key is computed first, then
    the list is sorted by decreasing key, equal keys keeping their order. *)
Fixpoint insert_by_key (x : Z * move) (l : list (Z * move))
  : list (Z * move) :=
  match l with
  | [] => [x]
  | y :: t => if fst y <=? fst x then x :: y :: t
              else y :: insert_by_key x t
  end.

Definition sort_by_key (l : list (Z * move)) : list (Z * move) :=
  fold_right insert_by_key [] l.

Fixpoint keyed (key : move -> py Z) (l : list move) : py (list (Z * move)) :=
  match l with
  | [] => Ok []
  | m :: t => k <- key m ;; r <- keyed key t ;; Ok ((k, m) :: r)
  end.

Definition generate_moves (tables : pst) (position : str)
    (castling : list bool) (en_passant : Z) : py (list move) :=
  move_list <- unsorted_moves position castling en_passant ;;
  ks <- keyed (fun m => evaluate_move tables m position en_passant) move_list ;;
  Ok (map snd (sort_by_key ks)).

(** ** The king-in-check test *)

Definition king_in_check (tables : pst) (position : str)
    (castling : list bool) (king_passant : Z) : py bool :=
  let king_position := king_square_of "k" position in
  if king_position =? 0 then Ok true
  else
    let '(castled, original_king_position) :=
      if (king_passant =? 23) || (king_passant =? 25) then (true, 24)
      else if (king_passant =? 24) || (king_passant =? 26) then (true, 25)
      else (false, 0) in
    move_list <- generate_moves tables position castling 0 ;;
    Ok (existsb
          (fun m : move =>
             let '(_, end_square, _, _) := m in
             (end_square =? king_position) || (end_square =? king_passant)
             || (castled && (end_square =? original_king_position)))
          move_list).

(** ** Search *)

(** An entry of the transposition table: (best move, depth, score). *)
Definition entry : Type := (move * Z * Z)%type.

(** The module globals the search reads and writes.  The wall clock is an
    oracle: [clock n] tells whether the [n]-th comparison
    [time.time() - start_time > time_limit] holds. *)
Record globals : Type := mkGlobals {
  max_depth : Z;
  nodes : Z;
  timeout : bool;
  TRANSPOSITION_TABLE : Z -> option entry;
  clock : nat -> bool;
  polls : nat
}.

Definition M (A : Type) : Type := globals -> py A * globals.

Definition ret {A : Type} (a : A) : M A := fun g => (Ok a, g).

Definition mbind {A B : Type} (m : M A) (k : A -> M B) : M B :=
  fun g => match m g with
           | (Ok a, g') => k a g'
           | (Raise e, g') => (Raise e, g')
           end.

Definition lift {A : Type} (p : py A) : M A := fun g => (p, g).

Notation "x <~ m ;; k" := (mbind m (fun x => k))
  (at level 61, m at next level, right associativity).
Notation "m ;;; k" := (mbind m (fun _ => k))
  (at level 61, right associativity).

Definition time_is_up : M bool :=
  fun g => (Ok (clock g (polls g)),
            mkGlobals (max_depth g) (nodes g) (timeout g)
                      (TRANSPOSITION_TABLE g) (clock g) (S (polls g))).

Definition set_timeout (b : bool) : M unit :=
  fun g => (Ok tt, mkGlobals (max_depth g) (nodes g) b
                             (TRANSPOSITION_TABLE g) (clock g) (polls g)).

Definition set_nodes (n : Z) : M unit :=
  fun g => (Ok tt, mkGlobals (max_depth g) n (timeout g)
                             (TRANSPOSITION_TABLE g) (clock g) (polls g)).

Definition set_max_depth (d : Z) : M unit :=
  fun g => (Ok tt, mkGlobals d (nodes g) (timeout g)
                             (TRANSPOSITION_TABLE g) (clock g) (polls g)).

Definition count_node : M unit := fun g => set_nodes (nodes g + 1) g.

Definition read {A : Type} (f : globals -> A) : M A := fun g => (Ok (f g), g).

Definition table_get (key : Z) : M (option entry) :=
  fun g => (Ok (TRANSPOSITION_TABLE g key), g).

Definition table_set (key : Z) (e : entry) : M unit :=
  fun g => (Ok tt,
            mkGlobals (max_depth g) (nodes g) (timeout g)
                      (fun k => if k =? key then Some e
                                else TRANSPOSITION_TABLE g k)
                      (clock g) (polls g)).

(** What one pass of a move loop leaves behind: a [return] out of the
    function, or the loop variables. *)
Inductive flow (R L : Type) : Type :=
| Return (r : R)
| Next (l : L).
Arguments Return {R L} r.
Arguments Next {R L} l.

(** [make_move] on copies of the castling lists, then [rotate_position]. *)
Definition play (m : move) (s : state) : py state :=
  s1 <- make_move m s ;; rotate_position s1.

Definition other (color : str) : str :=
  if str_eqb color (lit "b") then lit "w" else lit "b".

Section Search.

Variable tables : pst.

Definition leaves_king_in_check (m : move) (s : state) : py (bool * state) :=
  new_position <- play m s ;;
  c <- king_in_check tables (position new_position) (castling s)
         (king_passant new_position) ;;
  Ok (c, new_position).

Definition delta_pruned (m : move) (stand_pat alpha : Z) : py bool :=
  let '(_, _, piece_captured, promotion_piece) := m in
  let delta := 200 in
  v <- lookup_str ENDGAME_PIECE_VALUES (map upper piece_captured) ;;
  p <- (if str_isupper promotion_piece
        then lookup_str ENDGAME_PIECE_VALUES promotion_piece else Ok 0) ;;
  Ok (stand_pat + v + p + delta <? alpha).

Fixpoint quiesce_moves (rec : Z -> Z -> state -> M Z)
    (stand_pat beta : Z) (s : state) (move_list : list move) (alpha : Z)
  : M (flow Z Z) :=
  match move_list with
  | [] => ret (Next alpha)
  | m :: rest =>
      let '(_, _, piece_captured, _) := m in
      if negb (str_islower piece_captured) then
        quiesce_moves rec stand_pat beta s rest alpha
      else
        r <~ lift (leaves_king_in_check m s) ;;
        let '(in_check, new_position) := r in
        if in_check : bool then quiesce_moves rec stand_pat beta s rest alpha
        else
          pruned <~ lift (delta_pruned m stand_pat alpha) ;;
          if pruned : bool then quiesce_moves rec stand_pat beta s rest alpha
          else
            v <~ rec (- beta) (- alpha) new_position ;;
            let score := - v in
            t <~ read timeout ;;
            if t : bool then ret (Return 0)
            else if score >=? beta then ret (Return beta)
            else quiesce_moves rec stand_pat beta s rest
                   (if score >? alpha then score else alpha)
  end.

Fixpoint quiesce (fuel : nat) (alpha beta : Z) (s : state) : M Z :=
  match fuel with
  | O => lift (Raise RecursionError)
  | S fuel' =>
      up <~ time_is_up ;;
      if up : bool then set_timeout true ;;; ret 0
      else
        count_node ;;;
        stand_pat <~ lift (evaluate_position tables (position s)) ;;
        if stand_pat >=? beta then ret stand_pat
        else
          let alpha := if alpha <? stand_pat then stand_pat else alpha in
          move_list <~ lift (generate_moves tables (position s) (castling s)
                                            (en_passant s)) ;;
          r <~ quiesce_moves (quiesce fuel') stand_pat beta s move_list alpha ;;
          match r with
          | Return v => ret v
          | Next alpha => ret alpha
          end
  end.

(** The transposition-table move, when it is in the list, goes first. *)
Fixpoint pop_first (m : move) (l : list move) : option (list move) :=
  match l with
  | [] => None
  | x :: t => if move_eqb x m then Some t
              else match pop_first m t with
                   | Some t' => Some (x :: t')
                   | None => None
                   end
  end.

Definition pv_first (m : move) (l : list move) : list move :=
  match pop_first m l with
  | Some rest => m :: rest
  | None => l
  end.

(** The loop variables of [nega_max]: alpha, best move, legal moves. *)
Definition vars : Type := (Z * move * list move)%type.

Fixpoint nega_max_moves (rec : Z -> Z -> state -> M (Z * move))
    (beta : Z) (s : state) (move_list : list move) (v : vars)
  : M (flow (Z * move) vars) :=
  match move_list with
  | [] => ret (Next v)
  | m :: rest =>
      let '(alpha, best_move, legal_moves) := v in
      r <~ lift (leaves_king_in_check m s) ;;
      let '(in_check, new_position) := r in
      if in_check : bool then nega_max_moves rec beta s rest v
      else
        let legal_moves := legal_moves ++ [m] in
        r <~ rec (- beta) (- alpha) new_position ;;
        let score := - fst r in
        t <~ read timeout ;;
        if t : bool then ret (Return (0, null_move))
        else if score >=? beta then ret (Return (beta, best_move))
        else if score >? alpha then
          nega_max_moves rec beta s rest (score, m, legal_moves)
        else nega_max_moves rec beta s rest (alpha, best_move, legal_moves)
  end.

Definition no_entry : entry := (null_move, -1, 0).

(** The test that answers a node from the transposition table. *)
Definition table_cutoff (table_info : entry) (depth : Z) : bool :=
  let '(_, d, score) := table_info in
  (d >=? depth) || (score >=? CHECKMATE_LOWER).

Definition quiesce_fuel (s : state) : nat := S (length (position s)).

Fixpoint nega_max (fuel : nat) (depth alpha beta : Z) (s : state)
    (color : str) : M (Z * move) :=
  match fuel with
  | O => lift (Raise RecursionError)
  | S fuel' =>
      up <~ time_is_up ;;
      if up : bool then set_timeout true ;;; ret (0, null_move)
      else if depth =? 0 then
        v <~ quiesce (quiesce_fuel s) alpha beta s ;; ret (v, null_move)
      else
        key <~ lift (zobrist_hash s color) ;;
        found <~ table_get key ;;
        let table_info :=
          match found with Some e => e | None => no_entry end in
        if table_cutoff table_info depth then
          ret (snd table_info, fst (fst table_info))
        else
          count_node ;;;
          move_list <~ lift (generate_moves tables (position s) (castling s)
                                            (en_passant s)) ;;
          let move_list := pv_first (fst (fst table_info)) move_list in
          r <~ nega_max_moves
                 (fun a b s' => nega_max fuel' (depth - 1) a b s' (other color))
                 beta s move_list (alpha, null_move, []) ;;
          match r with
          | Return v => ret v
          | Next (alpha, best_move, legal_moves) =>
              if len legal_moves =? 0 then
                new_position <~ lift (rotate_position s) ;;
                c <~ lift (king_in_check tables (position new_position)
                                         (castling s) 0) ;;
                md <~ read max_depth ;;
                if c : bool then ret (- CHECKMATE_LOWER + md - depth, null_move)
                else ret (0, null_move)
              else
                (if negb (move_eqb best_move null_move) then
                   key <~ lift (zobrist_hash s color) ;;
                   table_set key (best_move, depth, alpha)
                 else ret tt) ;;;
                ret (alpha, best_move)
          end
  end.

End Search.

(** ** Opening books *)

(** A decoded record of a PolyGlot file: key, move, weight, learn. *)
Definition book_record : Type := (Z * Z * Z * Z)%type.

Definition DECODED_PROMOTION_PIECES (n : Z) : py str :=
  if n =? 0 then Ok []
  else if n =? 1 then Ok (lit "N")
  else if n =? 2 then Ok (lit "B")
  else if n =? 3 then Ok (lit "R")
  else if n =? 4 then Ok (lit "Q")
  else Raise KeyError.

Definition decode_entry (position : str) (color : str) (raw_move : Z)
  : py move :=
  let endian_start_square := Z.land (Z.shiftr raw_move 6) 0x3f in
  let endian_end_square := Z.land raw_move 0x3f in
  let encoded_promotion_piece := Z.land (Z.shiftr raw_move 12) 0x7 in
  let start_square :=
    10 * (9 - endian_start_square / 8) + endian_start_square mod 8 + 1 in
  let end_square :=
    10 * (9 - endian_end_square / 8) + endian_end_square mod 8 + 1 in
  promotion_piece <- DECODED_PROMOTION_PIECES encoded_promotion_piece ;;
  let '(start_square, end_square) :=
    if str_eqb color (lit "b") then (119 - start_square, 119 - end_square)
    else (start_square, end_square) in
  let end_square :=
    if (start_square =? 95) || (start_square =? 94) then
      if end_square =? H1 then start_square + 2
      else if end_square =? A1 then start_square - 2
      else end_square
    else end_square in
  c <- getitem position end_square ;;
  Ok (start_square, end_square, [c], promotion_piece).

Definition all_entries (opening_book : list book_record) (s : state)
    (color : str) : py (list (move * Z)) :=
  key <- zobrist_hash s color ;;
  for_each opening_book
    (fun r entries =>
       let '(entry_key, raw_move, weight, _) := r in
       if entry_key =? key then
         m <- decode_entry (position s) color raw_move ;;
         Ok (entries ++ [(m, weight)])
       else Ok entries)
    [].

(** Weights of equal moves from different books are added up. *)
Fixpoint merge_entry (new_entry : move * Z) (total_entries : list (move * Z))
  : list (move * Z) :=
  match total_entries with
  | [] => [new_entry]
  | e :: t =>
      if move_eqb (fst e) (fst new_entry)
      then (fst e, snd e + snd new_entry) :: t
      else e :: merge_entry new_entry t
  end.

Section Driver.

Variable tables : pst.

(** The books loaded by the first [isready], and the draw that
    [random.randint] and [random.shuffle] make among the merged entries. *)
Variable OPENING_BOOKS : list (list book_record).
Variable draw : list (move * Z) -> move.

Definition book_entries (s : state) (color : str) : py move :=
  total_entries <-
    for_each OPENING_BOOKS
      (fun book total_entries =>
         entries <- all_entries book s color ;;
         Ok (fold_left (fun acc e => merge_entry e acc) entries total_entries))
      [] ;;
  if len total_entries =? 0 then Ok null_move
  else
    _ <- keyed (fun m => evaluate_move tables m (position s) (en_passant s))
               (map fst total_entries) ;;
    Ok (draw total_entries).

(** ** Utility functions *)

Fixpoint digits (fuel : nat) (n : Z) (acc : str) : str :=
  match fuel with
  | O => acc
  | S fuel' =>
      let acc := ascii_of_N (Z.to_N (48 + n mod 10)) :: acc in
      if n <? 10 then acc else digits fuel' (n / 10) acc
  end.

(** [str(n)] for an integer. *)
Definition str_of_int (n : Z) : str :=
  if n <? 0 then "-"%char :: digits (S (Z.to_nat (Z.log2 (- n)))) (- n) []
  else digits (S (Z.to_nat (Z.log2 n))) n [].

Definition chr (n : Z) : py ascii :=
  if (0 <=? n) && (n <? 128) then Ok (ascii_of_N (Z.to_N n))
  else Raise ValueError.

Definition render_coordinates (index : Z) : py str :=
  let rank := (index - A1) / 10 in
  let file := (index - A1) mod 10 in
  c <- chr (code "a" + file) ;;
  Ok (c :: str_of_int (1 - rank)).

Definition lower (c : ascii) : ascii :=
  if isupper c then ascii_of_N (Z.to_N (code c + 32)) else c.

Definition algebraic_notation (m : move) (color : str) : py str :=
  let '(start_square, end_square, _, promotion_piece) := m in
  let '(start_square, end_square) :=
    if str_eqb color (lit "b") then (119 - start_square, 119 - end_square)
    else (start_square, end_square) in
  if move_eqb m null_move then Ok (lit "(none)")
  else
    a <- render_coordinates start_square ;;
    b <- render_coordinates end_square ;;
    Ok (a ++ b ++ map lower promotion_piece).

(** ** Iterative deepening and the [go] command *)

(** The lines the engine writes.  The [time] field of an [info] line is read
    off the wall clock and is left out. *)
Inductive response : Type :=
| info_bookmove
| info_depth (depth score nodes : Z) (pv : list str)
| bestmove (m : str).

Fixpoint principal_variation (length : nat) (s : state) (color : str)
  : M (list move) :=
  key <~ lift (zobrist_hash s color) ;;
  result <~ table_get key ;;
  match result, length with
  | Some (best_move, _, _), S length' =>
      new_position <~ lift (play best_move s) ;;
      rest <~ principal_variation length' new_position
                (if str_eqb color (lit "b") then lit "w" else lit "b") ;;
      ret (best_move :: rest)
  | _, _ => ret []
  end.

Fixpoint pv_strings (i : nat) (color : str) (l : list move) : py (list str) :=
  match l with
  | [] => Ok []
  | m :: t =>
      x <- algebraic_notation m
             (if Nat.even i then color
              else if str_eqb color (lit "w") then lit "b" else lit "w") ;;
      r <- pv_strings (S i) color t ;;
      Ok (x :: r)
  end.

(** The body of [for max_depth in range(1, depth + 1)], one iteration per
    element of [depths]. *)
Fixpoint deepen (depths : list Z) (s : state) (color : str)
    (previous_best_move : move) (out : list response)
  : M (move * list response) :=
  match depths with
  | [] => ret (previous_best_move, out)
  | d :: rest =>
      set_max_depth d ;;;
      set_nodes 0 ;;;
      r <~ nega_max tables (S (Z.to_nat d)) d (- CHECKMATE_UPPER)
             CHECKMATE_UPPER s color ;;
      let '(score, best_move) := r in
      t <~ read timeout ;;
      if t : bool then set_timeout false ;;; ret (previous_best_move, out)
      else
        pv <~ principal_variation (Z.to_nat d) s color ;;
        pvs <~ lift (pv_strings 0 color pv) ;;
        n <~ read nodes ;;
        let out :=
          out ++ [info_depth d (score * (if str_eqb color (lit "b")
                                         then -1 else 1)) n pvs] in
        if move_eqb best_move null_move then ret (best_move, out)
        else deepen rest s color best_move out
  end.

Definition iteratively_deepen (depth : Z) (s : state) (color : str)
  : M (move * list response) :=
  weighted_entry <~ lift (book_entries s color) ;;
  if negb (move_eqb weighted_entry null_move) then
    ret (weighted_entry, [info_bookmove])
  else
    set_timeout false ;;;
    deepen (map (fun n => Z.of_nat n) (seq 1 (Z.to_nat depth))) s color
           null_move [].

(** What the command loop keeps between commands. *)
Record engine : Type := mkEngine {
  board : state;
  color : str;
  initialized : bool
}.

Definition first_engine : engine :=
  mkEngine (mkState [] [] [] 120 120) [] false.

(** The test under which [go] is skipped. *)
Definition invalid_position (e : engine) : bool :=
  let s := board e in
  negb (len (position s) =? 120)
  || negb (len (castling s) =? 2)
  || negb (len (opponent_castling s) =? 2)
  || negb ((0 <=? en_passant s) && (en_passant s <=? 119))
  || negb ((0 <=? king_passant s) && (king_passant s <=? 119))
  || negb (str_eqb (color e) (lit "w") || str_eqb (color e) (lit "b")).

Definition str_isdigit (s : str) : bool :=
  negb (len s =? 0) && forallb (fun c => (48 <=? code c) && (code c <=? 57)) s.

Definition int_of_str (s : str) : Z :=
  fold_left (fun acc c => 10 * acc + (code c - 48)) s 0.

Fixpoint index_of (t : str) (tokens : list str) (i : Z) : option Z :=
  match tokens with
  | [] => None
  | x :: r => if str_eqb x t then Some i else index_of t r (i + 1)
  end.

(** The argument after a keyword of [go], when it is all digits. *)
Definition go_argument (keyword : str) (tokens : list str)
  : py (option Z) :=
  match index_of keyword tokens 0 with
  | None => Ok None
  | Some i =>
      a <- getitem tokens (i + 1) ;;
      Ok (if str_isdigit a then Some (int_of_str a) else None)
  end.

Definition go_depth (tokens : list str) : py Z :=
  _ <- go_argument (lit "movetime") tokens ;;
  d <- go_argument (lit "depth") tokens ;;
  _ <- go_argument (lit "wtime") tokens ;;
  _ <- go_argument (lit "btime") tokens ;;
  _ <- go_argument (lit "winc") tokens ;;
  _ <- go_argument (lit "binc") tokens ;;
  Ok (match d with Some n => n | None => 5 end).

(** The [go] branch of the command loop: the lines written, and the engine
    the loop continues with. *)
Definition go (tokens : list str) (e : engine) : M (list response * engine) :=
  if invalid_position e then ret ([], e)
  else
    depth <~ lift (go_depth tokens) ;;
    r <~ iteratively_deepen depth (board e) (color e) ;;
    let '(best_move, out) := r in
    a <~ lift (algebraic_notation best_move (color e)) ;;
    ret (out ++ [bestmove a], e).

End Driver.

(** ** The [position] command *)

Definition flip_color (color : str) : str :=
  if str_eqb color (lit "w") then lit "b"
  else if str_eqb color (lit "b") then lit "w"
  else color.

(** One move of the [moves] list, at an even or odd ply. *)
Definition replay_move (color : str) (ply : nat) (mv : str) (s : state)
  : py state :=
  c1 <- getitem mv 1 ;;
  if negb (str_isdigit [c1]) then Ok s
  else
    c3 <- getitem mv 3 ;;
    if negb (str_isdigit [c3]) then Ok s
    else
      start_square <- parse_coordinates (slice mv 0 2) ;;
      end_square <- parse_coordinates (slice mv 2 4) ;;
      let promotion_piece := map upper (skipn 4 mv) in
      let '(start_square, end_square) :=
        if str_eqb color (lit "b") then (119 - start_square, 119 - end_square)
        else (start_square, end_square) in
      if Nat.odd ply then
        let '(start_square, end_square) :=
          (119 - start_square, 119 - end_square) in
        s <- rotate_position s ;;
        s <- make_move (start_square, end_square, [dot], promotion_piece) s ;;
        rotate_position s
      else
        make_move (start_square, end_square, [dot], promotion_piece) s.

Fixpoint replay (color : str) (ply : nat) (moves : list str) (s : state)
  : py (state * nat) :=
  match moves with
  | [] => Ok (s, Nat.pred ply)
  | mv :: rest =>
      s' <- replay_move color ply mv s ;;
      replay color (S ply) rest s'
  end.

Definition join_with (sep : ascii) (l : list str) : str :=
  match l with
  | [] => []
  | x :: r => x ++ concat (map (fun y => sep :: y) r)
  end.

Definition with_king_passant (s : state) (kp : Z) : state :=
  mkState (position s) (castling s) (opponent_castling s) (en_passant s) kp.

Definition with_en_passant (s : state) (ep : Z) : state :=
  mkState (position s) (castling s) (opponent_castling s) ep (king_passant s).

(** The [position] branch of the command loop. *)
Definition position_command (tokens : list str) (e : engine) : py engine :=
  e <-
    (if (2 <=? len tokens) && str_eqb (nth 1 tokens []) (lit "startpos") then
       Ok (mkEngine startpos INITIAL_COLOR (initialized e))
     else if (8 <=? len tokens) && str_eqb (nth 1 tokens []) (lit "fen") then
       let fen := join_with " " (slice tokens 2 8) in
       '(s, c) <- load_fen fen ;;
       Ok (mkEngine s c (initialized e))
     else Ok e) ;;
  match index_of (lit "moves") tokens 0 with
  | Some i =>
      let moves_index := i + 1 in
      if moves_index <? 3 then Ok e
      else
        let moves := skipn (Z.to_nat moves_index) tokens in
        '(s, ply) <- replay (color e) 0 moves (board e) ;;
        if Nat.even ply then
          s <- rotate_position s ;;
          Ok (mkEngine (with_king_passant s 0) (flip_color (color e))
                       (initialized e))
        else Ok (mkEngine (with_king_passant s 0) (color e) (initialized e))
  | None =>
      Ok (mkEngine (with_king_passant (board e) 0) (color e) (initialized e))
  end.

Definition words (line : string) : list str :=
  filter (fun w => negb (len w =? 0)) (split_on " " (lit line)).

Definition ready_engine : engine :=
  mkEngine (mkState [] [] [] 120 120) [] true.

(** ** Predicates the properties are stated with *)

(** The playing area of the 10 x 12 grid: rows 2 to 9, columns 1 to 8. *)
Definition on_board (i : Z) : bool :=
  (2 <=? i / 10) && (i / 10 <=? 9) && (1 <=? i mod 10) && (i mod 10 <=? 8).

Definition cell_ok (i : Z) (c : ascii) : bool :=
  if on_board i then member c (lit ".PNBRQKpnbrqk") else isspace c.

Fixpoint cells_ok (i : Z) (cells : str) : bool :=
  match cells with
  | [] => true
  | c :: rest => cell_ok i c && cells_ok (i + 1) rest
  end.

(** A board in the layout of the data model: 120 cells, blanks exactly
    around the playing area, an empty marker or a piece letter inside. *)
Definition board_ok (position : str) : bool :=
  (len position =? 120) && cells_ok 0 position.

Definition cell (position : str) (i : Z) : ascii :=
  nth (Z.to_nat i) position blank.

(** Every occupied cell of the first half faces an occupied cell. *)
Definition paired (position : str) : bool :=
  forallb (fun i => isspace (cell position i)
                    || negb (isspace (cell position (119 - i))))
          (range 60).


(** The piece-placement field of a FEN record: eight ranks, each filling
    exactly eight cells. *)
Definition symbol_width (c : ascii) : Z :=
  if member c (lit "PNBRQKpnbrqk") then 1
  else if member c (lit "12345678") then code c - 48
  else 0.

Fixpoint rank_width (rank : str) : Z :=
  match rank with
  | [] => 0
  | c :: rest => symbol_width c + rank_width rest
  end.

Definition placement_ok (fen : str) : bool :=
  match split_on " " fen with
  | field :: _ =>
      let ranks := split_on "/" field in
      (len ranks =? 8) && forallb (fun r => rank_width r =? 8) ranks
  | [] => false
  end.

(** The regular states: the initial position, the state [load_fen] returns
    for a record whose placement field has eight ranks of eight cells, and
    what [rotate_position], or a move the generator emitted followed by
    [rotate_position], makes of them.  The engine can hold other states as
    well: [load_fen] and the [position] command check neither the width of
    a rank nor the move tokens they are given. *)
Inductive regular (tables : pst) : state -> Prop :=
| regular_startpos : regular tables startpos
| regular_fen (fen : str) (s : state) (color : str) :
    placement_ok fen = true ->
    load_fen fen = Ok (s, color) ->
    regular tables s
| regular_rotate (s s' : state) :
    regular tables s ->
    rotate_position s = Ok s' ->
    regular tables s'
| regular_move (s s' : state) (move_list : list move) (m : move) :
    regular tables s ->
    generate_moves tables (position s) (castling s) (en_passant s)
      = Ok move_list ->
    In m move_list ->
    play m s = Ok s' ->
    regular tables s'.

Definition cell_is_piece (position : str) (i : Z) (c : ascii) : bool :=
  match getitem position i with
  | Ok x => Ascii.eqb x c
  | Raise _ => false
  end.

(** The test [zobrist_hash] makes before it hashes the en-passant file, on
    the position as White sees it. *)
Definition capture_possible (position : str) (en_passant : Z) : bool :=
  ((41 <=? en_passant) && (en_passant <=? 48)
   && (cell_is_piece position (en_passant + SOUTH + EAST) "P"
       || cell_is_piece position (en_passant + SOUTH + WEST) "P"))
  || ((71 <=? en_passant) && (en_passant <=? 78)
      && (cell_is_piece position (en_passant + NORTH + EAST) "p"
          || cell_is_piece position (en_passant + NORTH + WEST) "p")).

(** The position as [zobrist_hash] hashes it: rotated when Black moves. *)
Definition white_view (s : state) (color : str) : py state :=
  if str_eqb color (lit "b") then rotate_position s else Ok s.

(** A pawn of the side to move diagonally behind the en-passant square, on
    the position as White sees it. *)
Definition mover_pawn_behind (position : str) (en_passant : Z) (color : str)
  : bool :=
  if str_eqb color (lit "b") then
    cell_is_piece position (en_passant + NORTH + EAST) "p"
    || cell_is_piece position (en_passant + NORTH + WEST) "p"
  else
    cell_is_piece position (en_passant + SOUTH + EAST) "P"
    || cell_is_piece position (en_passant + SOUTH + WEST) "P".

Definition tick (g : globals) : globals :=
  mkGlobals (max_depth g) (nodes g) (timeout g) (TRANSPOSITION_TABLE g)
            (clock g) (S (polls g)).

Definition counted (g : globals) : globals :=
  mkGlobals (max_depth g) (nodes g + 1) (timeout g) (TRANSPOSITION_TABLE g)
            (clock g) (polls g).

(** Globals of a fresh process whose clock never runs out. *)
Definition fresh (depth : Z) : globals :=
  mkGlobals depth 0 false (fun _ => None) (fun _ => false) 0.

Definition with_table (g : globals) (key : Z) (e : entry) : globals :=
  mkGlobals (max_depth g) (nodes g) (timeout g)
            (fun k => if k =? key then Some e else TRANSPOSITION_TABLE g k)
            (clock g) (polls g).

(** The states and command lines the examples below run on. *)
Definition start_fen : str :=
  lit "rnbqkbnr/pppppppp/8/8/8/8/PPPPPPPP/RNBQKBNR w KQkq - 0 1".

Definition state_of_fen (fen : string) : state :=
  match load_fen (lit fen) with
  | Ok (s, _) => s
  | Raise _ => mkState [] [] [] 120 120
  end.

Definition no_draw (entries : list (move * Z)) : move := null_move.


(** ** The evaluation as a sum *)

Definition value_in (d : dict Z) (piece : ascii) : Z :=
  match lookup d piece with Ok v => v | Raise _ => 0 end.

Definition table_in (d : dict (list Z)) (piece : ascii) (index : Z) : Z :=
  match lookup d piece with
  | Ok t => nth (Z.to_nat index) t 0
  | Raise _ => 0
  end.

Definition term_value (values tropism : dict Z) (tables : dict (list Z))
    (piece : ascii) (index target king : Z) : Z :=
  value_in values piece + table_in tables piece index
  + value_in tropism piece / manhattan_distance target king.

(** What the piece on one cell adds to the two sums. *)
Definition cell_value (tables : pst) (king_square opponent_king_square : Z)
    (square : Z) (piece : ascii) : Z * Z :=
  if isupper piece then
    (term_value MIDGAME_PIECE_VALUES MIDGAME_TROPISM_VALUES
       (midgame_tables tables) piece square square opponent_king_square,
     term_value ENDGAME_PIECE_VALUES ENDGAME_TROPISM_VALUES
       (endgame_tables tables) piece square square opponent_king_square)
  else if islower piece then
    (- term_value MIDGAME_PIECE_VALUES MIDGAME_TROPISM_VALUES
         (midgame_tables tables) (upper piece) (mirror_square square)
         square king_square,
     - term_value ENDGAME_PIECE_VALUES ENDGAME_TROPISM_VALUES
         (endgame_tables tables) (upper piece) (mirror_square square)
         square king_square)
  else (0, 0).

(** The divisor of the tropism term of a cell; 1 where there is none. *)
Definition tropism_divisor (position : str) (square : Z) (piece : ascii) : Z :=
  if isupper piece then
    manhattan_distance square (king_square_of "k" position)
  else if islower piece then
    manhattan_distance square (king_square_of "K" position)
  else 1.

Definition add2 (a b : Z * Z) : Z * Z := (fst a + fst b, snd a + snd b).

(** The sum of a pair-valued function over a list of squares. *)
Definition sum_over (f : Z -> Z * Z) (squares : list Z) : Z * Z :=
  fold_right (fun i acc => add2 (f i) acc) (0, 0) squares.

(** The two sums of [evaluate_position] over the whole board. *)
Definition board_value (tables : pst) (position : str) : Z * Z :=
  sum_over (fun i => cell_value tables (king_square_of "K" position)
                       (king_square_of "k" position) i (cell position i))
           (range 120).

(** The node counter never goes down during a search. *)
Definition grows {A : Type} (m : M A) : Prop :=
  forall g, nodes g <= nodes (snd (m g)).



(** The board string after [rotate_position], cell by cell: a pair of
    facing cells is exchanged, with the case swapped, when the one in the
    first half of the string is not blank. *)
Definition rotated_cell (position : str) (j : Z) : ascii :=
  if isspace (cell position (Z.min j (119 - j))) then cell position j
  else swapcase (cell position (119 - j)).

(** The board string after the first [k] passes of the loop of
    [rotate_position]. *)
Definition rotated_upto (k : Z) (position : str) : str :=
  map (fun j => if Z.min j (119 - j) <? k then rotated_cell position j
                else cell position j)
      (range 120).

Definition rotated (position : str) : str :=
  map (rotated_cell position) (range 120).

(** A move that lets a pawn reach the last rank names one promotion piece. *)
Definition promotes_properly (position : str) (m : move) : Prop :=
  let '(start_square, end_square, _, promotion_piece) := m in
  getitem position start_square = Ok "P"%char ->
  A8 <= end_square <= H8 ->
  length promotion_piece = 1%nat.

(** A one-character string. *)
Definition single (x : str) : Prop := length x = 1%nat.

(** Lists of 120 one-character strings. *)
Definition cells120 (l : list str) : Prop :=
  Forall single l /\ length l = 120%nat.

(** A board string whose blanks are exactly the cells around the playing
    area, once the ranks before [rank] have been filled in. *)
Definition filled_upto (rank : Z) (position : str) : Prop :=
  length position = 120%nat
  /\ forall j, 0 <= j < 120 ->
               isspace (cell position j)
               = negb (on_board j && (j <? 20 + 10 * rank)).

(** What a stretch of the board looks like after cells [idx] to [idx'] have
    been written. *)
Definition written (l l' : str) (idx idx' : Z) : Prop :=
  length l' = length l
  /\ (forall j, idx <= j < idx' -> isspace (cell l' j) = false)
  /\ (forall j, 0 <= j -> ~ idx <= j < idx' -> cell l' j = cell l j).


(** A result that is not the exhaustion of the fuel of a loop. *)
Definition fine {A : Type} (r : py A) : Prop := r <> Raise RecursionError.

(** ** Further definitions *)

(** The squares a ray has still to cross, going up or down the string. *)
Definition ray_room (position : str) (direction end_square : Z) : Z :=
  if 0 <? direction then len position - end_square
  else end_square + len position + 1.

(** ** Writing a position in Forsyth-Edwards notation *)

(** One cell of a rank: an empty cell is counted, a piece flushes the count
    of empty cells before it. *)
Definition fen_file (position : str) (rank file : Z) (acc : str * Z)
  : py (str * Z) :=
  let '(fen, empty_squares) := acc in
  piece <- getitem position (10 * (rank + 2) + file + 1) ;;
  if Ascii.eqb piece dot then Ok (fen, empty_squares + 1)
  else
    let '(fen, empty_squares) :=
      if empty_squares >? 0 then (fen ++ str_of_int empty_squares, 0)
      else (fen, empty_squares) in
    Ok (fen ++ [piece], empty_squares).

Definition fen_rank (position : str) (rank : Z) (fen : str) : py str :=
  '(fen, empty_squares) <-
    for_each (range 8) (fen_file position rank) (fen, 0) ;;
  let fen :=
    if empty_squares >? 0 then fen ++ str_of_int empty_squares else fen in
  Ok (if rank <? 7 then fen ++ lit "/" else fen).

(** [a or b] on subscripts that may raise: [b] is not evaluated when [a]
    holds. *)
Definition or_else (a b : py bool) : py bool :=
  x <- a ;; if x : bool then Ok true else b.

Definition generate_fen (s : state) (color : str) : py str :=
  s <- (if str_eqb color (lit "b") then rotate_position s else Ok s) ;;
  fen <- for_each (range 8) (fen_rank (position s)) [] ;;
  let fen := fen ++ (if str_eqb color (lit "w") then lit " w" else lit " b") in
  any <- or_else (getitem (castling s) 0)
           (or_else (getitem (castling s) 1)
              (or_else (getitem (opponent_castling s) 0)
                       (getitem (opponent_castling s) 1))) ;;
  fen <-
    (if any : bool then
       let fen := fen ++ lit " " in
       c1 <- getitem (castling s) 1 ;;
       let fen := fen ++ (if c1 : bool then lit "K" else []) in
       c0 <- getitem (castling s) 0 ;;
       let fen := fen ++ (if c0 : bool then lit "Q" else []) in
       o1 <- getitem (opponent_castling s) 1 ;;
       let fen := fen ++ (if o1 : bool then lit "k" else []) in
       o0 <- getitem (opponent_castling s) 0 ;;
       Ok (fen ++ (if o0 : bool then lit "q" else []))
     else Ok (fen ++ lit " -")) ;;
  fen <-
    (if (en_passant s =? 0) || (en_passant s =? 119) then Ok (fen ++ lit " -")
     else r <- render_coordinates (en_passant s) ;; Ok (fen ++ lit " " ++ r)) ;;
  Ok (fen ++ lit " 0 1").

(** ** Further predicates *)

(** The material [game_phase] weighs: knights and bishops count once,
    rooks twice, queens four times, of either colour. *)
Definition phase_weight (position : str) : Z :=
  (count "N" position + count "n" position) * KNIGHT_PHASE
  + (count "B" position + count "b" position) * BISHOP_PHASE
  + (count "R" position + count "r" position) * ROOK_PHASE
  + (count "Q" position + count "q" position) * QUEEN_PHASE.

(** Castling flags after a move: as many as before, and none set that was
    not set before. *)
Definition no_more_rights (before after : list bool) : Prop :=
  length after = length before
  /\ forall n, nth n after false = true -> nth n before false = true.

(** [sum([entry[1] for entry in total_entries])]. *)
Definition weight_sum (total_entries : list (move * Z)) : Z :=
  fold_right (fun e acc => snd e + acc) 0 total_entries.

(** The loop of [book_entries] over the entries of one book. *)
Definition merge_entries (entries total_entries : list (move * Z))
  : list (move * Z) :=
  fold_left (fun acc e => merge_entry e acc) entries total_entries.

(** The two squares [all_entries] computes from the square fields of a raw
    move, before it reads the board. *)
Definition book_squares (color : str) (endian_start_square endian_end_square : Z)
  : Z * Z :=
  let start_square :=
    10 * (9 - endian_start_square / 8) + endian_start_square mod 8 + 1 in
  let end_square :=
    10 * (9 - endian_end_square / 8) + endian_end_square mod 8 + 1 in
  let '(start_square, end_square) :=
    if str_eqb color (lit "b") then (119 - start_square, 119 - end_square)
    else (start_square, end_square) in
  let end_square :=
    if (start_square =? 95) || (start_square =? 94) then
      if end_square =? H1 then start_square + 2
      else if end_square =? A1 then start_square - 2
      else end_square
    else end_square in
  (start_square, end_square).

(** What a search may do to the globals: the depth limit and the clock are
    left alone, the counters do not go down, the timeout flag is not
    cleared, and an entry of the table is either as before or holds a move
    other than the null move. *)
Definition search_step (g g' : globals) : Prop :=
  max_depth g' = max_depth g
  /\ clock g' = clock g
  /\ (polls g <= polls g')%nat
  /\ nodes g <= nodes g'
  /\ (timeout g = true -> timeout g' = true)
  /\ forall key e,
       TRANSPOSITION_TABLE g' key = Some e ->
       TRANSPOSITION_TABLE g key = Some e
       \/ move_eqb (fst (fst e)) null_move = false.

Definition keeps {A : Type} (m : M A) : Prop :=
  forall g, search_step g (snd (m g)).

(** ** Well-formed boards and states *)

(** The character the initial position and [load_fen] have around the
    playing area: a line feed in the last column, a space elsewhere. *)
Definition border (i : Z) : ascii := if i mod 10 =? 9 then nl else blank.

Definition frame_ok (i : Z) (c : ascii) : bool :=
  if on_board i then member c (lit ".PNBRQKpnbrqk")
  else Ascii.eqb c (border i).

(** A board laid out like the initial position: 120 cells, the border as
    above, an empty marker or a piece letter on every square. *)
Definition framed (position : str) : bool :=
  (len position =? 120)
  && forallb (fun i => frame_ok i (cell position i)) (range 120).

(** The promotion part of a move: one of Q, R, B, N when a pawn reaches the
    last rank, nothing otherwise. *)
Definition promotion_ok (piece_moved : ascii) (end_square : Z)
    (promotion_piece : str) : bool :=
  if Ascii.eqb piece_moved "P" && (A8 <=? end_square) && (end_square <=? H8)
  then match promotion_piece with
       | [q] => member q (lit "QRBN")
       | _ => false
       end
  else match promotion_piece with
       | [] => true
       | _ => false
       end.

(** The two shapes of the moves [generate_moves] emits.  An ordinary move
    takes a piece of the mover to a square that holds no piece of the
    mover and names what stands there; a king does not go two cells
    sideways, and the square behind the end square of a pawn is on the
    board.  A castling move takes a king two cells sideways over an empty
    cell: it is emitted while a piece slides from the corner on that side,
    with the flag of that side set. *)
Definition ordinary_move (position : str) (m : move) : bool :=
  let '(start_square, end_square, piece_captured, promotion_piece) := m in
  on_board start_square && isupper (cell position start_square)
  && on_board end_square
  && str_eqb piece_captured [cell position end_square]
  && member (cell position end_square) (lit ".pnbrqk")
  && promotion_ok (cell position start_square) end_square promotion_piece
  && negb (Ascii.eqb (cell position start_square) "K"
           && (Z.abs (start_square - end_square) =? 2))
  && (negb (Ascii.eqb (cell position start_square) "P")
      || on_board (end_square + SOUTH)).

Definition castling_move (position : str) (castling : list bool) (m : move)
  : bool :=
  let '(start_square, end_square, piece_captured, promotion_piece) := m in
  on_board start_square && Ascii.eqb (cell position start_square) "K"
  && str_eqb piece_captured [dot]
  && str_eqb promotion_piece []
  && (((end_square =? start_square - 2)
       && isupper (cell position A1)
       && Ascii.eqb (cell position (start_square - 1)) dot
       && nth 0 castling false)
      || ((end_square =? start_square + 2)
          && isupper (cell position H1)
          && Ascii.eqb (cell position (start_square + 1)) dot
          && nth 1 castling false)).

Definition generated (position : str) (castling : list bool) (m : move)
  : bool :=
  ordinary_move position m || castling_move position castling m.

(** With a castling flag set, the king stands on one of its two home
    squares: 95 in White's frame, 94 in Black's. *)
Definition kings_home (flags : list bool) (king : ascii) (a b : Z)
    (position : str) : bool :=
  negb (existsb (fun f : bool => f) flags)
  || forallb (fun i => negb (Ascii.eqb (cell position i) king)
                       || (i =? a) || (i =? b))
             (range 120).

(** The states the engine plays on: a framed board, two flags on either
    side, and kings at home as long as a flag of theirs is set. *)
Definition playable (s : state) : bool :=
  framed (position s)
  && (len (castling s) =? 2)
  && (len (opponent_castling s) =? 2)
  && kings_home (castling s) "K" 94 95 (position s)
  && kings_home (opponent_castling s) "k" 24 25 (position s).

(** The number of pieces on a board, of either colour. *)
Definition is_piece (c : ascii) : bool := isupper c || islower c.

Definition pieces (position : str) : nat := length (filter is_piece position).

(** A computation on the globals that ends with a value, whatever the
    globals are when it starts. *)
Definition returns {A : Type} (m : M A) : Prop :=
  forall g, exists a g', m g = (Ok a, g').

(** ** The text [generate_fen] writes *)

(** The loop of [generate_fen] over the files of one rank, as a function
    of the cells it reads. *)
Fixpoint fen_cells (cells : str) (acc : str * Z) : str * Z :=
  match cells with
  | [] => acc
  | piece :: rest =>
      fen_cells rest
        (if Ascii.eqb piece dot then (fst acc, snd acc + 1)
         else
           let '(fen, empty_squares) :=
             if snd acc >? 0 then (fst acc ++ str_of_int (snd acc), 0)
             else (fst acc, snd acc) in
           (fen ++ [piece], empty_squares))
  end.

(** The count of empty cells that is written out when it is positive. *)
Definition flush (empty_squares : Z) : str :=
  if empty_squares >? 0 then str_of_int empty_squares else [].

(** The eight cells of a rank, and the text written for them. *)
Definition rank_cells (position : str) (rank : Z) : str :=
  map (fun file => cell position (10 * (rank + 2) + file + 1)) (range 8).

Definition rank_text (position : str) (rank : Z) : str :=
  fst (fen_cells (rank_cells position rank) ([], 0))
  ++ flush (snd (fen_cells (rank_cells position rank) ([], 0))).

(** The castling field. *)
Definition rights_text (castling opponent_castling : list bool) : str :=
  if nth 0 castling false || nth 1 castling false
     || nth 0 opponent_castling false || nth 1 opponent_castling false
  then (if nth 1 castling false then lit "K" else [])
       ++ (if nth 0 castling false then lit "Q" else [])
       ++ (if nth 1 opponent_castling false then lit "k" else [])
       ++ (if nth 0 opponent_castling false then lit "q" else [])
  else lit "-".

(** Cells written one after the other from an index on, as [load_fen]
    fills a rank. *)
Fixpoint write_cells (l : str) (index : Z) (cells : str) : str :=
  match cells with
  | [] => l
  | c :: rest => write_cells (update l (Z.to_nat index) c) (index + 1) rest
  end.

(** The board after the eight ranks have been written. *)
Definition write_ranks (ranks : Z -> str) (l : str) : str :=
  fold_left (fun l row => write_cells l (A8 + 10 * row) (ranks row))
            (range 8) l.

(** No square, as either side sees it. *)
Definition no_square (en_passant : Z) : bool :=
  (en_passant =? 0) || (en_passant =? 119).

(** ** The board while [load_fen] fills it *)

(** A stretch of cells that now holds piece letters and empty markers, the
    rest of the list being as before. *)
Definition lettered (l l' : str) (idx idx' : Z) : Prop :=
  length l' = length l
  /\ (forall j, idx <= j < idx' ->
                member (cell l' j) (lit ".PNBRQKpnbrqk") = true)
  /\ (forall j, 0 <= j -> ~ idx <= j < idx' -> cell l' j = cell l j).

(** The list once the ranks before [rank] are read: letters and markers
    on their squares, spaces everywhere else. *)
Definition laid_upto (rank : Z) (l : str) : Prop :=
  length l = 120%nat
  /\ forall j, 0 <= j < 120 ->
               (if on_board j && (j <? 20 + 10 * rank)
                then member (cell l j) (lit ".PNBRQKpnbrqk")
                else Ascii.eqb (cell l j) blank) = true.

(** * Properties *)

(** ** Facts about the Python primitives *)

Lemma bind_ok {A B : Type} (m : py A) (k : A -> py B) (b : B) :
  bind m k = Ok b -> exists a, m = Ok a /\ k a = Ok b.
Proof.
  destruct m as [a | e]; simpl; intros H; [ eauto | discriminate ].
Qed.

Lemma Ok_inj {A : Type} (a b : A) : @Ok A a = Ok b -> a = b.
Proof. intros H. injection H as ->. reflexivity. Qed.

Lemma str_eqb_eq (a b : str) : str_eqb a b = true <-> a = b.
Proof.
  revert b. induction a as [ | x a IH ]; intros [ | y b ]; simpl;
    try (split; [ discriminate | discriminate ]); try tauto.
  rewrite andb_true_iff, Ascii.eqb_eq, IH. split.
  - intros [-> ->]. reflexivity.
  - intros E. injection E as -> ->. tauto.
Qed.

Lemma str_eqb_refl (a : str) : str_eqb a a = true.
Proof. apply str_eqb_eq. reflexivity. Qed.

Lemma move_eqb_eq (a b : move) : move_eqb a b = true <-> a = b.
Proof.
  destruct a as [[[s1 e1] c1] p1], b as [[[s2 e2] c2] p2]. unfold move_eqb.
  rewrite !andb_true_iff, !Z.eqb_eq, !str_eqb_eq. split.
  - intros [[[-> ->] ->] ->]. reflexivity.
  - intros E. injection E as -> -> -> ->. tauto.
Qed.

Lemma existsb_move_In (m : move) (l : list move) :
  existsb (move_eqb m) l = true -> In m l.
Proof.
  rewrite existsb_exists. intros [x [Hin Heq]].
  apply move_eqb_eq in Heq. subst x. exact Hin.
Qed.


(** ** Facts about the search monad *)

Lemma mbind_ok {A B : Type} (m : M A) (k : A -> M B) (g g' : globals) (b : B) :
  mbind m k g = (Ok b, g') ->
  exists a g1, m g = (Ok a, g1) /\ k a g1 = (Ok b, g').
Proof.
  unfold mbind. destruct (m g) as [[a | e] g1]; intros H.
  - eauto.
  - discriminate.
Qed.

Lemma mbind_step {A B : Type} (m : M A) (k : A -> M B) (g g1 : globals) (a : A) :
  m g = (Ok a, g1) -> mbind m k g = k a g1.
Proof. unfold mbind. intros ->. reflexivity. Qed.

Lemma lift_ok {A : Type} (p : py A) (g g' : globals) (a : A) :
  lift p g = (Ok a, g') -> p = Ok a /\ g' = g.
Proof. unfold lift. intros H. injection H as -> ->. tauto. Qed.

Lemma grows_ret {A : Type} (a : A) : grows (ret a).
Proof. intros g. simpl. lia. Qed.

Lemma grows_lift {A : Type} (p : py A) : grows (lift p).
Proof. intros g. simpl. lia. Qed.

Lemma grows_read {A : Type} (f : globals -> A) : grows (read f).
Proof. intros g. simpl. lia. Qed.

Lemma grows_time_is_up : grows time_is_up.
Proof. intros g. simpl. lia. Qed.

Lemma grows_set_timeout (b : bool) : grows (set_timeout b).
Proof. intros g. simpl. lia. Qed.

Lemma grows_count_node : grows count_node.
Proof. intros g. simpl. lia. Qed.

Lemma grows_table_get (key : Z) : grows (table_get key).
Proof. intros g. simpl. lia. Qed.

Lemma grows_table_set (key : Z) (e : entry) : grows (table_set key e).
Proof. intros g. simpl. lia. Qed.

Lemma grows_bind {A B : Type} (m : M A) (k : A -> M B) :
  grows m -> (forall a, grows (k a)) -> grows (mbind m k).
Proof.
  intros Hm Hk g. unfold mbind. specialize (Hm g).
  destruct (m g) as [[a | e] g1]; simpl in *.
  - specialize (Hk a g1). lia.
  - exact Hm.
Qed.

Create HintDb grows.

#[local] Hint Resolve grows_ret grows_lift grows_read grows_time_is_up
  grows_set_timeout grows_count_node grows_table_get grows_table_set
  : grows.

Ltac grows_step :=
  match goal with
  | |- grows (mbind _ _) => apply grows_bind; [ | intros ]
  | |- grows (if ?b then _ else _) => destruct b
  | |- grows (match ?x with Return _ => _ | Next _ => _ end) => destruct x
  | |- grows (match ?x with Some _ => _ | None => _ end) => destruct x
  | |- grows (let '(_, _) := ?x in _) => destruct x
  | |- grows _ => solve [ auto with grows ]
  end.

Lemma grows_quiesce_moves (tables : pst) (rec : Z -> Z -> state -> M Z)
    (stand_pat beta : Z) (s : state) (move_list : list move) :
  (forall a b t, grows (rec a b t)) ->
  forall alpha, grows (quiesce_moves tables rec stand_pat beta s move_list alpha).
Proof.
  intros Hrec. induction move_list as [ | m rest IH ]; intros alpha; cbn [quiesce_moves].
  - auto with grows.
  - destruct m as [[[st en] cap] pr].
    repeat (grows_step; auto).
Qed.

Lemma grows_quiesce (tables : pst) (fuel : nat) :
  forall alpha beta s, grows (quiesce tables fuel alpha beta s).
Proof.
  induction fuel as [ | fuel IH ]; intros alpha beta s; cbn [quiesce].
  - auto with grows.
  - repeat (grows_step; auto using grows_quiesce_moves).
Qed.

Lemma grows_nega_max_moves (tables : pst)
    (rec : Z -> Z -> state -> M (Z * move)) (beta : Z) (s : state)
    (move_list : list move) :
  (forall a b t, grows (rec a b t)) ->
  forall v, grows (nega_max_moves tables rec beta s move_list v).
Proof.
  intros Hrec. induction move_list as [ | m rest IH ]; intros v; cbn [nega_max_moves].
  - auto with grows.
  - destruct v as [[alpha best] legal].
    repeat (grows_step; auto).
Qed.

Lemma grows_nega_max (tables : pst) (fuel : nat) :
  forall depth alpha beta s color,
    grows (nega_max tables fuel depth alpha beta s color).
Proof.
  induction fuel as [ | fuel IH ]; intros depth alpha beta s color; cbn [nega_max].
  - auto with grows.
  - repeat (grows_step; auto using grows_quiesce, grows_nega_max_moves).
Qed.

(** ** Facts about strings, subscripts and squares *)

Lemma getitem_nth {A : Type} (l : list A) (i : Z) (d : A) :
  0 <= i < len l -> getitem l i = Ok (nth (Z.to_nat i) l d).
Proof.
  intros H. unfold getitem, norm_index.
  assert (E : (0 <=? i) && (i <? len l) = true).
  { apply andb_true_iff. split; [ apply Z.leb_le | apply Z.ltb_lt ]; lia. }
  rewrite E. cbn [bind].
  assert (L : (Z.to_nat i < length l)%nat) by (unfold len in H; lia).
  rewrite (nth_error_nth' l d L). reflexivity.
Qed.

Lemma space_not_cased (c : ascii) :
  isspace c = true -> isupper c = false /\ islower c = false.
Proof.
  unfold isspace, isupper, islower.
  rewrite !orb_true_iff, !andb_true_iff, !andb_false_iff, Z.eqb_eq,
    !Z.leb_le, !Z.leb_gt. lia.
Qed.

Lemma upper_not_lower (c : ascii) : isupper c = true -> islower c = false.
Proof.
  unfold isupper, islower.
  rewrite !andb_true_iff, !andb_false_iff, !Z.leb_le, !Z.leb_gt. lia.
Qed.

Lemma board_letters (c : ascii) :
  member c (lit ".PNBRQKpnbrqk") = true ->
  In c (lit ".PNBRQKpnbrqk").
Proof.
  unfold member. rewrite existsb_exists. intros [x [Hin Heq]].
  apply Ascii.eqb_eq in Heq. subst x. exact Hin.
Qed.

Lemma upper_cell (i : Z) (c : ascii) :
  cell_ok i c = true -> isupper c = true ->
  on_board i = true /\ In c (lit "PNBRQK").
Proof.
  unfold cell_ok. destruct (on_board i).
  - intros H U. split; [ reflexivity | ].
    apply board_letters in H. cbn in H.
    repeat (destruct H as [ <- | H ];
            [ first [ discriminate U | cbn; tauto ] | ]).
    destruct H.
  - intros H U. apply space_not_cased in H. destruct H as [H _].
    rewrite H in U. discriminate.
Qed.

Lemma lower_cell (i : Z) (c : ascii) :
  cell_ok i c = true -> islower c = true ->
  on_board i = true /\ In (upper c) (lit "PNBRQK").
Proof.
  unfold cell_ok. destruct (on_board i).
  - intros H U. split; [ reflexivity | ].
    apply board_letters in H. cbn in H.
    repeat (destruct H as [ <- | H ];
            [ first [ discriminate U | cbn; tauto ] | ]).
    destruct H.
  - intros H U. apply space_not_cased in H. destruct H as [_ H].
    rewrite H in U. discriminate.
Qed.

Lemma on_board_range (i : Z) : on_board i = true -> 21 <= i <= 98.
Proof.
  unfold on_board. rewrite !andb_true_iff, !Z.leb_le.
  intros [[[A B] C] D].
  pose proof (Z.div_mod i 10 ltac:(lia)). lia.
Qed.

Lemma mirror_square_range (i : Z) :
  on_board i = true -> 21 <= mirror_square i <= 98.
Proof.
  unfold on_board, mirror_square. rewrite !andb_true_iff, !Z.leb_le.
  intros [[[A B] C] D]. lia.
Qed.

Lemma cells_ok_nth (cells : str) :
  forall i0, cells_ok i0 cells = true ->
  forall n c, nth_error cells n = Some c ->
              cell_ok (i0 + Z.of_nat n) c = true.
Proof.
  induction cells as [ | x cells IH ]; intros i0 H n c E.
  - destruct n; discriminate.
  - cbn [cells_ok] in H. apply andb_true_iff in H. destruct H as [H1 H2].
    destruct n as [ | n ].
    + injection E as <-. rewrite Z.add_0_r. exact H1.
    + cbn [nth_error] in E.
      replace (i0 + Z.of_nat (S n)) with (i0 + 1 + Z.of_nat n) by lia.
      eapply IH; eauto.
Qed.

Lemma board_ok_length (position : str) :
  board_ok position = true -> length position = 120%nat.
Proof.
  unfold board_ok, len. rewrite andb_true_iff, Z.eqb_eq. lia.
Qed.

Lemma board_ok_cell (position : str) (i : Z) :
  board_ok position = true -> 0 <= i < 120 ->
  cell_ok i (cell position i) = true.
Proof.
  intros H Hi. pose proof (@board_ok_length position H) as L.
  unfold board_ok in H. apply andb_true_iff in H. destruct H as [_ H].
  replace i with (0 + Z.of_nat (Z.to_nat i)) at 1 by lia.
  eapply cells_ok_nth; [ exact H | ].
  unfold cell. apply nth_error_nth'. lia.
Qed.

Lemma find_from_spec (c : ascii) (s : str) :
  forall i,
    find_from c s i = -1
    \/ (i <= find_from c s i < i + len s
        /\ nth (Z.to_nat (find_from c s i - i)) s blank = c).
Proof.
  induction s as [ | x s IH ]; intros i; cbn [find_from].
  - left. reflexivity.
  - destruct (Ascii.eqb x c) eqn:E.
    + right. apply Ascii.eqb_eq in E. unfold len. cbn [length].
      split; [ lia | ]. rewrite Z.sub_diag. exact E.
    + destruct (IH (i + 1)) as [ H | [H1 H2] ].
      * left. exact H.
      * right. unfold len in *. cbn [length]. split; [ lia | ].
        replace (Z.to_nat (find_from c s (i + 1) - i))
          with (S (Z.to_nat (find_from c s (i + 1) - (i + 1)))) by lia.
        exact H2.
Qed.

Lemma find_from_member (c : ascii) (s : str) :
  member c s = true -> forall i, 0 <= i -> find_from c s i <> -1.
Proof.
  induction s as [ | x s IH ]; cbn [member existsb find_from].
  - discriminate.
  - intros H i Hi. rewrite Ascii.eqb_sym in H.
    destruct (Ascii.eqb x c); [ lia | ].
    cbn [orb] in H. apply IH; [ exact H | lia ].
Qed.

(** A king square is 0 or a cell that holds the king. *)
Lemma king_square_spec (c : ascii) (position : str) :
  king_square_of c position = 0
  \/ (0 < king_square_of c position < len position
      /\ cell position (king_square_of c position) = c).
Proof.
  unfold king_square_of.
  destruct (member c position) eqn:M; [ | left; reflexivity ].
  unfold find. destruct (find_from_spec c position 0) as [ H | [H1 H2] ].
  - exfalso. revert H. apply find_from_member; [ exact M | lia ].
  - destruct (Z.eq_dec (find_from c position 0) 0) as [ E | E ].
    + left. exact E.
    + right. split; [ lia | ]. unfold cell.
      rewrite Z.sub_0_r in H2. exact H2.
Qed.

Lemma manhattan_distance_pos (a b : Z) :
  a <> b -> 0 < manhattan_distance a b.
Proof.
  unfold manhattan_distance. intros H.
  pose proof (Z.div_mod a 10 ltac:(lia)).
  pose proof (Z.div_mod b 10 ltac:(lia)). lia.
Qed.

(** On a well-formed board no piece stands on the square its tropism is
    measured from. *)
Lemma tropism_divisor_pos (position : str) (i : Z) :
  board_ok position = true -> 0 <= i < 120 ->
  0 < tropism_divisor position i (cell position i).
Proof.
  intros H Hi. pose proof (@board_ok_cell position i H Hi) as C.
  unfold tropism_divisor.
  destruct (isupper (cell position i)) eqn:U.
  - apply manhattan_distance_pos.
    destruct (@upper_cell _ _ C U) as [B _]. apply on_board_range in B.
    destruct (king_square_spec "k" position) as [ E | [_ E] ].
    + rewrite E. lia.
    + intros F. rewrite <- F in E. rewrite E in U. discriminate.
  - destruct (islower (cell position i)) eqn:L; [ | lia ].
    apply manhattan_distance_pos.
    destruct (@lower_cell _ _ C L) as [B _]. apply on_board_range in B.
    destruct (king_square_spec "K" position) as [ E | [_ E] ].
    + rewrite E. lia.
    + intros F. rewrite <- F in E. rewrite E in L. discriminate.
Qed.

(** ** The evaluation on well-formed boards *)


Lemma piece_values (piece : ascii) :
  In piece (lit "PNBRQK") ->
  (exists v, lookup MIDGAME_PIECE_VALUES piece = Ok v)
  /\ (exists v, lookup MIDGAME_TROPISM_VALUES piece = Ok v)
  /\ (exists v, lookup ENDGAME_PIECE_VALUES piece = Ok v)
  /\ (exists v, lookup ENDGAME_TROPISM_VALUES piece = Ok v)
  /\ (exists t, lookup (midgame_tables padded_tables) piece = Ok t
                /\ len t = 120)
  /\ (exists t, lookup (endgame_tables padded_tables) piece = Ok t
                /\ len t = 120).
Proof.
  intros H. cbn in H.
  repeat (destruct H as [ <- | H ];
          [ repeat (split; [ eexists; vm_compute; reflexivity | ]);
            split; eexists; (split; [ vm_compute; reflexivity | ]);
            vm_compute; reflexivity | ]).
  destruct H.
Qed.

Lemma piece_term_value (values tropism : dict Z) (tables : dict (list Z))
    (piece : ascii) (index target king : Z) :
  (exists v, lookup values piece = Ok v) ->
  (exists v, lookup tropism piece = Ok v) ->
  (exists t, lookup tables piece = Ok t /\ len t = 120) ->
  0 <= index < 120 ->
  manhattan_distance target king <> 0 ->
  piece_term values tropism tables piece index target king
  = Ok (term_value values tropism tables piece index target king).
Proof.
  intros [v Hv] [tr Htr] [t [Ht Hl]] Hi Hd.
  unfold piece_term, term_value, value_in, table_in.
  rewrite Hv, Htr, Ht. cbn [bind].
  rewrite (@getitem_nth Z t index 0) by lia. cbn [bind].
  unfold floordiv. apply Z.eqb_neq in Hd. rewrite Hd. reflexivity.
Qed.

Lemma evaluate_cell_value (position : str) (i : Z) (scores : Z * Z) :
  board_ok position = true -> 0 <= i < 120 ->
  evaluate_cell padded_tables (king_square_of "K" position)
    (king_square_of "k" position) i (cell position i) scores
  = Ok (add2 scores
          (cell_value padded_tables (king_square_of "K" position)
             (king_square_of "k" position) i (cell position i))).
Proof.
  intros H Hi. pose proof (@board_ok_cell position i H Hi) as C.
  pose proof (@tropism_divisor_pos position i H Hi) as D.
  unfold tropism_divisor in D.
  unfold evaluate_cell, cell_value. destruct scores as [m e].
  destruct (isupper (cell position i)) eqn:U.
  - destruct (@upper_cell _ _ C U) as [B P].
    destruct (@piece_values _ P) as [V1 [V2 [V3 [V4 [V5 V6]]]]].
    rewrite !piece_term_value by (auto; lia). reflexivity.
  - destruct (islower (cell position i)) eqn:L.
    + destruct (@lower_cell _ _ C L) as [B P].
      pose proof (@mirror_square_range _ B) as R.
      destruct (@piece_values _ P) as [V1 [V2 [V3 [V4 [V5 V6]]]]].
      rewrite !piece_term_value by (auto; lia).
      cbn [bind]. unfold add2. cbn [fst snd].
      apply f_equal. apply f_equal2; lia.
    + unfold add2. cbn [fst snd]. apply f_equal. apply f_equal2; lia.
Qed.

Lemma add2_assoc (a b c : Z * Z) : add2 (add2 a b) c = add2 a (add2 b c).
Proof. unfold add2. cbn [fst snd]. f_equal; lia. Qed.

Lemma add2_zero (a : Z * Z) : add2 a (0, 0) = a.
Proof. destruct a. unfold add2. cbn [fst snd]. f_equal; lia. Qed.

Lemma evaluate_cells_value (position : str) :
  board_ok position = true ->
  forall (n : nat) (scores : Z * Z),
    (n <= 120)%nat ->
    evaluate_cells padded_tables (king_square_of "K" position)
      (king_square_of "k" position) (Z.of_nat (120 - n))
      (skipn (120 - n) position) scores
    = Ok (add2 scores
            (sum_over
               (fun i => cell_value padded_tables
                           (king_square_of "K" position)
                           (king_square_of "k" position) i (cell position i))
               (map Z.of_nat (seq (120 - n) n)))).
Proof.
  intros H. pose proof (@board_ok_length position H) as L.
  induction n as [ | n IH ]; intros scores Hn.
  - rewrite skipn_all2 by lia. cbn. rewrite add2_zero. reflexivity.
  - assert (E : skipn (120 - S n) position
                = cell position (Z.of_nat (120 - S n))
                  :: skipn (120 - n) position).
    { unfold cell. rewrite Nat2Z.id.
      replace (120 - n)%nat with (S (120 - S n)) by lia.
      remember (120 - S n)%nat as k.
      assert (Hk : (k < length position)%nat) by lia.
      clear - Hk. revert k Hk.
      induction position as [ | x p IHp ]; intros k Hk.
      - cbn in Hk. lia.
      - destruct k; [ reflexivity | ]. cbn [skipn nth]. apply IHp.
        cbn in Hk. lia. }
    rewrite E. cbn [evaluate_cells].
    rewrite evaluate_cell_value by (auto; lia). cbn [bind].
    replace (Z.of_nat (120 - S n) + 1) with (Z.of_nat (120 - n)) by lia.
    rewrite IH by lia.
    cbn [seq map sum_over fold_right].
    replace (S (120 - S n)) with (120 - n)%nat by lia.
    rewrite add2_assoc. reflexivity.
Qed.

(** On a well-formed board the two sums are those of [board_value]. *)
Lemma raw_scores_value (position : str) :
  board_ok position = true ->
  raw_scores padded_tables position
  = Ok (board_value padded_tables position).
Proof.
  intros H. unfold raw_scores, board_value.
  pose proof (@evaluate_cells_value position H 120 (0, 0) (le_n _)) as E.
  change (120 - 120)%nat with 0%nat in E. cbn [skipn Z.of_nat] in E.
  rewrite E. unfold add2 at 1. cbn [fst snd].
  unfold range. destruct (sum_over _ _). reflexivity.
Qed.

(** ** Facts about letters and the rank mirror *)

Ltac each_ascii c :=
  destruct c as [[] [] [] [] [] [] [] []]; vm_compute; try tauto;
  try discriminate; try reflexivity.

Lemma swapcase_involutive (c : ascii) : swapcase (swapcase c) = c.
Proof. each_ascii c. Qed.

Lemma swapcase_space (c : ascii) : isspace (swapcase c) = isspace c.
Proof. each_ascii c. Qed.




Lemma swapcase_board_letter (c : ascii) :
  member c (lit ".PNBRQKpnbrqk") = true ->
  member (swapcase c) (lit ".PNBRQKpnbrqk") = true.
Proof. each_ascii c. Qed.



Lemma mirror_square_bounds (i : Z) :
  0 <= i < 120 -> 0 <= mirror_square i < 120.
Proof.
  intros H. unfold mirror_square.
  pose proof (Z.div_mod i 10 ltac:(lia)).
  pose proof (Z.mod_pos_bound i 10 ltac:(lia)). lia.
Qed.




(** ** Sums over the squares of the board *)

Lemma add2_comm (a b : Z * Z) : add2 a b = add2 b a.
Proof. unfold add2. f_equal; lia. Qed.














(** ** The mirrored board *)

Lemma in_range (n : nat) (i : Z) :
  In i (range n) <-> 0 <= i < Z.of_nat n.
Proof.
  unfold range. rewrite in_map_iff. split.
  - intros [k [<- H]]. apply in_seq in H. lia.
  - intros H. exists (Z.to_nat i). split; [ lia | ]. apply in_seq. lia.
Qed.

Lemma nth_range (n k : nat) (f : Z -> ascii) :
  (k < n)%nat -> nth k (map f (range n)) blank = f (Z.of_nat k).
Proof.
  intros H. unfold range. rewrite map_map.
  rewrite (nth_indep _ blank (f (Z.of_nat 0))).
  - rewrite (map_nth (fun x => f (Z.of_nat x))). rewrite seq_nth by exact H.
    reflexivity.
  - rewrite length_map, length_seq. exact H.
Qed.



Lemma cells_ok_pointwise (cells : str) :
  forall i0,
    (forall n, (n < length cells)%nat ->
               cell_ok (i0 + Z.of_nat n) (nth n cells blank) = true) ->
    cells_ok i0 cells = true.
Proof.
  induction cells as [ | x cells IH ]; intros i0 H; cbn [cells_ok].
  - reflexivity.
  - apply andb_true_iff. split.
    + specialize (H 0%nat). cbn [nth length] in H.
      rewrite Z.add_0_r in H. apply H. lia.
    + apply IH. intros n Hn. specialize (H (S n)). cbn [nth length] in H.
      replace (i0 + 1 + Z.of_nat n) with (i0 + Z.of_nat (S n)) by lia.
      apply H. lia.
Qed.



(** ** Kings and piece counts on the mirrored board *)


Lemma count_nonneg (c : ascii) (l : str) : 0 <= count c l.
Proof. unfold count, len. lia. Qed.














(** ** Facts about [rotate_position] *)

Lemma length_update {A : Type} (l : list A) (n : nat) (v : A) :
  length (update l n v) = length l.
Proof.
  revert n. induction l as [ | x l IH ]; intros [ | n ]; cbn [update length];
    try reflexivity. rewrite IH. reflexivity.
Qed.

Lemma nth_update {A : Type} (l : list A) (n j : nat) (v d : A) :
  (n < length l)%nat ->
  nth j (update l n v) d = if Nat.eqb j n then v else nth j l d.
Proof.
  revert n j. induction l as [ | x l IH ]; intros n j H.
  - cbn in H. lia.
  - destruct n as [ | n ], j as [ | j ]; cbn [update nth Nat.eqb];
      try reflexivity.
    apply IH. cbn in H. lia.
Qed.

Lemma setitem_update {A : Type} (l : list A) (i : Z) (v : A) :
  0 <= i < len l -> setitem l i v = Ok (update l (Z.to_nat i) v).
Proof.
  intros H. unfold setitem, norm_index.
  assert (E : (0 <=? i) && (i <? len l) = true).
  { apply andb_true_iff. split; [ apply Z.leb_le | apply Z.ltb_lt ]; lia. }
  rewrite E. reflexivity.
Qed.

Lemma setitem_length {A : Type} (l l' : list A) (i : Z) (v : A) :
  setitem l i v = Ok l' -> length l' = length l.
Proof.
  unfold setitem. destruct (norm_index l i) as [ n | ]; cbn [bind].
  - intros H. injection H as <-. apply length_update.
  - discriminate.
Qed.

Lemma cell_update (l : str) (n : Z) (j : Z) (v : ascii) :
  0 <= n < len l -> 0 <= j ->
  cell (update l (Z.to_nat n) v) j = if j =? n then v else cell l j.
Proof.
  intros Hn Hj. unfold cell. rewrite nth_update by (unfold len in Hn; lia).
  destruct (Z.eqb_spec j n) as [ -> | F ].
  - rewrite Nat.eqb_refl. reflexivity.
  - replace (Nat.eqb (Z.to_nat j) (Z.to_nat n)) with false; [ reflexivity | ].
    symmetry. apply Nat.eqb_neq. lia.
Qed.

Lemma cells_ext (a b : str) :
  length a = 120%nat -> length b = 120%nat ->
  (forall j, 0 <= j < 120 -> cell a j = cell b j) -> a = b.
Proof.
  intros La Lb H. apply (nth_ext a b blank blank).
  - lia.
  - intros n Hn. specialize (H (Z.of_nat n)). unfold cell in H.
    rewrite Nat2Z.id in H. apply H. lia.
Qed.

Lemma length_rotated_upto (k : Z) (position : str) :
  length (rotated_upto k position) = 120%nat.
Proof.
  unfold rotated_upto, range. rewrite !length_map, length_seq. reflexivity.
Qed.

Lemma length_rotated (position : str) : length (rotated position) = 120%nat.
Proof.
  unfold rotated, range. rewrite !length_map, length_seq. reflexivity.
Qed.

Lemma cell_rotated_upto (k : Z) (position : str) (j : Z) :
  0 <= j < 120 ->
  cell (rotated_upto k position) j
  = if Z.min j (119 - j) <? k then rotated_cell position j
    else cell position j.
Proof.
  intros H. unfold cell at 1. unfold rotated_upto.
  rewrite nth_range by lia. rewrite Z2Nat.id by lia. reflexivity.
Qed.

Lemma cell_rotated (position : str) (j : Z) :
  0 <= j < 120 -> cell (rotated position) j = rotated_cell position j.
Proof.
  intros H. unfold cell at 1. unfold rotated.
  rewrite nth_range by lia. rewrite Z2Nat.id by lia. reflexivity.
Qed.

Lemma rotated_upto_0 (position : str) :
  length position = 120%nat -> rotated_upto 0 position = position.
Proof.
  intros L. apply cells_ext.
  - apply length_rotated_upto.
  - exact L.
  - intros j Hj. rewrite cell_rotated_upto by exact Hj.
    destruct (Z.ltb_spec (Z.min j (119 - j)) 0); [ lia | reflexivity ].
Qed.

Lemma rotated_upto_60 (position : str) :
  rotated_upto 60 position = rotated position.
Proof.
  apply cells_ext.
  - apply length_rotated_upto.
  - apply length_rotated.
  - intros j Hj. rewrite cell_rotated_upto, cell_rotated by exact Hj.
    destruct (Z.ltb_spec (Z.min j (119 - j)) 60); [ reflexivity | lia ].
Qed.

(** One pass of the loop. *)
Lemma rotate_cells_step (k : Z) (position : str) :
  0 <= k < 60 ->
  rotate_cells k (rotated_upto k position)
  = Ok (rotated_upto (k + 1) position).
Proof.
  intros Hk. unfold rotate_cells.
  pose proof (length_rotated_upto k position) as L.
  assert (Ll : len (rotated_upto k position) = 120) by (unfold len; lia).
  rewrite (@getitem_nth ascii (rotated_upto k position) k blank) by lia.
  cbn [bind]. fold (cell (rotated_upto k position) k).
  rewrite cell_rotated_upto by lia.
  replace (Z.min k (119 - k)) with k by lia. rewrite Z.ltb_irrefl.
  destruct (isspace (cell position k)) eqn:S.
  - f_equal. apply cells_ext; try apply length_rotated_upto.
    intros j Hj. rewrite !cell_rotated_upto by exact Hj.
    destruct (Z.ltb_spec (Z.min j (119 - j)) k),
      (Z.ltb_spec (Z.min j (119 - j)) (k + 1)); try reflexivity; try lia.
    unfold rotated_cell. replace (Z.min j (119 - j)) with k by lia.
    rewrite S. reflexivity.
  - rewrite (@getitem_nth ascii (rotated_upto k position) (119 - k) blank)
      by lia.
    cbn [bind]. fold (cell (rotated_upto k position) (119 - k)).
    rewrite cell_rotated_upto by lia.
    replace (Z.min (119 - k) (119 - (119 - k))) with k by lia.
    rewrite Z.ltb_irrefl.
    rewrite setitem_update by lia. cbn [bind].
    rewrite setitem_update by (unfold len; rewrite length_update; lia).
    apply f_equal. apply cells_ext.
    + rewrite !length_update. exact L.
    + apply length_rotated_upto.
    + intros j Hj.
      rewrite cell_update by (unfold len; rewrite ?length_update; lia).
      rewrite cell_update by lia.
      rewrite !cell_rotated_upto by exact Hj.
      destruct (Z.eqb_spec j k) as [ -> | F1 ].
      * replace (Z.min k (119 - k)) with k by lia.
        destruct (Z.ltb_spec k (k + 1)); [ | lia ].
        unfold rotated_cell. replace (Z.min k (119 - k)) with k by lia.
        rewrite S. reflexivity.
      * destruct (Z.eqb_spec j (119 - k)) as [ -> | F2 ].
        -- replace (Z.min (119 - k) (119 - (119 - k))) with k by lia.
           destruct (Z.ltb_spec k (k + 1)); [ | lia ].
           unfold rotated_cell.
           replace (Z.min (119 - k) (119 - (119 - k))) with k by lia.
           rewrite S. replace (119 - (119 - k)) with k by lia. reflexivity.
        -- destruct (Z.ltb_spec (Z.min j (119 - j)) k),
             (Z.ltb_spec (Z.min j (119 - j)) (k + 1));
             try reflexivity; lia.
Qed.

Lemma rotate_cells_loop (position : str) (n : nat) :
  forall k : nat,
    (k + n = 60)%nat ->
    for_each (map Z.of_nat (seq k n)) rotate_cells
      (rotated_upto (Z.of_nat k) position)
    = Ok (rotated position).
Proof.
  induction n as [ | n IH ]; intros k H.
  - cbn [seq map for_each]. replace (Z.of_nat k) with 60 by lia.
    rewrite rotated_upto_60. reflexivity.
  - cbn [seq map for_each]. rewrite rotate_cells_step by lia. cbn [bind].
    replace (Z.of_nat k + 1) with (Z.of_nat (S k)) by lia.
    apply IH. lia.
Qed.

(** [rotate_position] on a board string of 120 characters. *)
Lemma rotate_position_value (s : state) :
  length (position s) = 120%nat ->
  rotate_position s
  = Ok (mkState (rotated (position s)) (opponent_castling s) (castling s)
                (119 - en_passant s) (119 - king_passant s)).
Proof.
  intros L. unfold rotate_position.
  pose proof (@rotate_cells_loop (position s) 60 0 eq_refl) as E.
  change (Z.of_nat 0) with 0 in E.
  rewrite (@rotated_upto_0 (position s) L) in E.
  unfold range. rewrite E. reflexivity.
Qed.

Lemma swapcase_keeps_nonspace (c : ascii) :
  isspace c = false -> isspace (swapcase c) = false.
Proof. rewrite swapcase_space. auto. Qed.

Lemma paired_cells (position : str) :
  paired position = true <->
  (forall i, 0 <= i < 60 -> isspace (cell position i) = false ->
             isspace (cell position (119 - i)) = false).
Proof.
  unfold paired. rewrite forallb_forall. split.
  - intros H i Hi S. specialize (H i). rewrite in_range in H.
    specialize (H ltac:(lia)). rewrite S in H. cbn [orb] in H.
    apply negb_true_iff in H. exact H.
  - intros H i Hi. apply in_range in Hi.
    destruct (isspace (cell position i)) eqn:S; [ reflexivity | ].
    cbn [orb]. apply negb_true_iff. apply H; [ lia | exact S ].
Qed.

(** Whatever [rotate_position] returns has its cells paired. *)
Lemma paired_rotated (position : str) : paired (rotated position) = true.
Proof.
  apply paired_cells. intros i Hi. rewrite !cell_rotated by lia.
  unfold rotated_cell. replace (Z.min i (119 - i)) with i by lia.
  replace (Z.min (119 - i) (119 - (119 - i))) with i by lia.
  replace (119 - (119 - i)) with i by lia.
  destruct (isspace (cell position i)) eqn:S.
  - intros F. rewrite S in F. discriminate.
  - intros _. apply swapcase_keeps_nonspace. exact S.
Qed.

(** On a paired board two rotations give the board back. *)
Lemma rotated_involutive (position : str) :
  length position = 120%nat -> paired position = true ->
  rotated (rotated position) = position.
Proof.
  intros L P. rewrite paired_cells in P. apply cells_ext.
  - apply length_rotated.
  - exact L.
  - intros j Hj. rewrite cell_rotated by exact Hj. unfold rotated_cell.
    assert (M : 0 <= Z.min j (119 - j) < 60) by lia.
    rewrite !cell_rotated by lia. unfold rotated_cell.
    replace (Z.min (Z.min j (119 - j)) (119 - Z.min j (119 - j)))
      with (Z.min j (119 - j)) by lia.
    replace (Z.min (119 - j) (119 - (119 - j))) with (Z.min j (119 - j))
      by lia.
    replace (119 - (119 - j)) with j by lia.
    destruct (isspace (cell position (Z.min j (119 - j)))) eqn:S.
    + rewrite S. reflexivity.
    + assert (S' : isspace (cell position (119 - Z.min j (119 - j))) = false)
        by (apply P; [ exact M | exact S ]).
      destruct (Z.le_ge_cases j (119 - j)) as [ Hle | Hge ].
      * replace (Z.min j (119 - j)) with j in * by lia.
        rewrite (@swapcase_keeps_nonspace _ S').
        apply swapcase_involutive.
      * replace (Z.min j (119 - j)) with (119 - j) in * by lia.
        replace (119 - (119 - j)) with j in * by lia.
        rewrite (@swapcase_keeps_nonspace _ S').
        apply swapcase_involutive.
Qed.

Lemma rotate_position_twice (s : state) :
  length (position s) = 120%nat -> paired (position s) = true ->
  exists s', rotate_position s = Ok s' /\ rotate_position s' = Ok s.
Proof.
  intros L P. eexists. split.
  - apply rotate_position_value. exact L.
  - rewrite rotate_position_value by apply length_rotated.
    cbn [position castling opponent_castling en_passant king_passant].
    rewrite (@rotated_involutive (position s) L P).
    replace (119 - (119 - en_passant s)) with (en_passant s) by lia.
    replace (119 - (119 - king_passant s)) with (king_passant s) by lia.
    destruct s. reflexivity.
Qed.

(** ** What the generator emits *)

Lemma for_each_invariant {A S : Type} (P : S -> Prop) (l : list A)
    (body : A -> S -> py S) :
  (forall a s s', In a l -> P s -> body a s = Ok s' -> P s') ->
  forall s s', P s -> for_each l body s = Ok s' -> P s'.
Proof.
  induction l as [ | a l IH ]; intros Hb s s' Hs H; cbn [for_each] in H.
  - injection H as <-. exact Hs.
  - apply bind_ok in H. destruct H as [s1 [H1 H2]].
    apply (IH (fun a' t t' Hin => Hb a' t t' (or_intror Hin)) s1 s').
    + apply (Hb a s s1); [ left; reflexivity | exact Hs | exact H1 ].
    + exact H2.
Qed.

Lemma Forall_snoc {A : Type} (P : A -> Prop) (l : list A) (x : A) :
  Forall P l -> P x -> Forall P (l ++ [x]).
Proof.
  intros Hl Hx. apply Forall_app. split; [ exact Hl | ].
  constructor; [ exact Hx | constructor ].
Qed.

Lemma promotions_proper (position : str) (start_square end_square : Z)
    (piece_captured : ascii) :
  Forall (promotes_properly position)
         (promotions start_square end_square piece_captured).
Proof.
  unfold promotions. cbn [map lit list_ascii_of_string].
  repeat constructor.
Qed.

Lemma castle_from_proper (position : str) (corner toward_king flag : Z)
    (castling : list bool) (start_square end_square : Z)
    (piece_captured : ascii) (move_list move_list' : list move) :
  Forall (promotes_properly position) move_list ->
  castle_from corner toward_king flag position castling start_square
    end_square piece_captured move_list = Ok move_list' ->
  Forall (promotes_properly position) move_list'.
Proof.
  intros F. unfold castle_from.
  destruct (start_square =? corner); [ | intros H; injection H as <-; exact F ].
  destruct (getitem position (end_square + toward_king)) as [ c | ] eqn:G;
    [ | discriminate ].
  cbn [bind].
  destruct (Ascii.eqb c "K") eqn:E;
    [ | intros H; injection H as <-; exact F ].
  destruct (getitem castling flag) as [ f | ]; [ | discriminate ].
  cbn [bind]. destruct f; intros H; injection H as <-; [ | exact F ].
  apply Forall_snoc; [ exact F | ].
  unfold promotes_properly. intros P. rewrite G in P.
  apply Ascii.eqb_eq in E. subst c. discriminate.
Qed.

Lemma ray_proper (position : str) (castling : list bool) (en_passant : Z)
    (start_square : Z) (piece_moved : ascii) (direction : Z) (fuel : nat) :
  getitem position start_square = Ok piece_moved ->
  forall end_square move_list move_list',
    Forall (promotes_properly position) move_list ->
    ray fuel position castling en_passant start_square piece_moved
        direction end_square move_list = Ok move_list' ->
    Forall (promotes_properly position) move_list'.
Proof.
  intros G. induction fuel as [ | fuel IH ];
    intros end_square move_list move_list' F; cbn [ray].
  - discriminate.
  - destruct (getitem position end_square) as [ piece_captured | ];
      [ | discriminate ].
    cbn [bind].
    destruct (isspace piece_captured || isupper piece_captured);
      [ intros H; injection H as <-; exact F | ].
    destruct (if Ascii.eqb piece_moved "P"
              then pawn_blocked position en_passant start_square direction
                                end_square piece_captured
              else Ok false) as [ stop | ]; [ | discriminate ].
    cbn [bind].
    destruct stop; [ intros H; injection H as <-; exact F | ].
    destruct (Ascii.eqb piece_moved "P" && (A8 <=? end_square)
              && (end_square <=? H8)) eqn:Pr.
    + intros H. injection H as <-. apply Forall_app. split; [ exact F | ].
      apply promotions_proper.
    + assert (F1 : Forall (promotes_properly position)
                     (move_list ++ [(start_square, end_square,
                                     [piece_captured], [])])).
      { apply Forall_snoc; [ exact F | ].
        unfold promotes_properly. intros P [R1 R2]. exfalso.
        rewrite G in P. injection P as ->.
        rewrite Ascii.eqb_refl in Pr.
        apply Z.leb_le in R1. apply Z.leb_le in R2.
        rewrite R1, R2 in Pr. discriminate. }
      destruct (member piece_moved (lit "PNK") || islower piece_captured);
        [ intros H; injection H as <-; exact F1 | ].
      intros H. apply bind_ok in H. destruct H as [l1 [E1 H]].
      apply bind_ok in H. destruct H as [l2 [E2 H]].
      eapply IH; [ | exact H ].
      eapply castle_from_proper; [ | exact E2 ].
      eapply castle_from_proper; [ | exact E1 ]. exact F1.
Qed.

Lemma moves_from_proper (position : str) (castling : list bool)
    (en_passant start_square : Z) (move_list move_list' : list move) :
  Forall (promotes_properly position) move_list ->
  moves_from position castling en_passant start_square move_list
    = Ok move_list' ->
  Forall (promotes_properly position) move_list'.
Proof.
  intros F. unfold moves_from.
  destruct (getitem position start_square) as [ piece_moved | ] eqn:G;
    [ | discriminate ].
  cbn [bind].
  destruct (negb (isupper piece_moved));
    [ intros H; injection H as <-; exact F | ].
  destruct (lookup PIECE_DIRECTIONS piece_moved) as [ directions | ];
    [ | discriminate ].
  cbn [bind]. apply for_each_invariant; [ | exact F ].
  intros direction l l' _ Fl H.
  apply (@ray_proper position castling en_passant start_square piece_moved
           direction (ray_fuel position) G _ _ _ Fl H).
Qed.

Lemma unsorted_moves_proper (position : str) (castling : list bool)
    (en_passant : Z) (move_list : list move) :
  unsorted_moves position castling en_passant = Ok move_list ->
  Forall (promotes_properly position) move_list.
Proof.
  unfold unsorted_moves. apply for_each_invariant; [ | constructor ].
  intros start_square l l' _ Fl H.
  apply (@moves_from_proper position castling en_passant start_square l l'
           Fl H).
Qed.

Lemma keyed_moves (key : move -> py Z) (l : list move)
    (ks : list (Z * move)) :
  keyed key l = Ok ks -> map snd ks = l.
Proof.
  revert ks. induction l as [ | m l IH ]; intros ks; cbn [keyed].
  - intros H. injection H as <-. reflexivity.
  - intros H. apply bind_ok in H. destruct H as [k [_ H]].
    apply bind_ok in H. destruct H as [r [Hr H]].
    injection H as <-. cbn [map snd]. rewrite (IH r Hr). reflexivity.
Qed.

Lemma insert_by_key_In (x y : Z * move) (l : list (Z * move)) :
  In x (insert_by_key y l) <-> x = y \/ In x l.
Proof.
  induction l as [ | z l IH ]; cbn [insert_by_key].
  - cbn. intuition.
  - destruct (fst z <=? fst y); cbn [In].
    + intuition.
    + rewrite IH. intuition.
Qed.

Lemma sort_by_key_In (x : Z * move) (l : list (Z * move)) :
  In x (sort_by_key l) <-> In x l.
Proof.
  unfold sort_by_key. induction l as [ | z l IH ]; cbn [fold_right].
  - tauto.
  - rewrite insert_by_key_In, IH. cbn [In]. intuition.
Qed.

(** The generated moves are those found, in another order. *)
Lemma generate_moves_In (tables : pst) (position : str)
    (castling : list bool) (en_passant : Z) (move_list : list move) :
  generate_moves tables position castling en_passant = Ok move_list ->
  exists found,
    unsorted_moves position castling en_passant = Ok found
    /\ forall m, In m move_list <-> In m found.
Proof.
  unfold generate_moves. intros H.
  apply bind_ok in H. destruct H as [found [Hf H]].
  apply bind_ok in H. destruct H as [ks [Hk H]].
  injection H as <-. exists found. split; [ exact Hf | ].
  intros m. rewrite <- (keyed_moves _ _ Hk). rewrite !in_map_iff.
  split; intros [x [E Hin]]; exists x; (split; [ exact E | ]);
    apply sort_by_key_In; exact Hin.
Qed.

Lemma generate_moves_proper (tables : pst) (position : str)
    (castling : list bool) (en_passant : Z) (move_list : list move) (m : move) :
  generate_moves tables position castling en_passant = Ok move_list ->
  In m move_list -> promotes_properly position m.
Proof.
  intros H Hin. apply generate_moves_In in H.
  destruct H as [found [Hf Hiff]]. apply Hiff in Hin.
  apply unsorted_moves_proper in Hf. rewrite Forall_forall in Hf.
  apply Hf. exact Hin.
Qed.

(** ** [make_move] keeps the length of the board string *)

Lemma getitem_In {A : Type} (l : list A) (i : Z) (v : A) :
  getitem l i = Ok v -> In v l.
Proof.
  unfold getitem. destruct (norm_index l i) as [ n | ]; cbn [bind];
    [ | discriminate ].
  destruct (nth_error l n) as [ a | ] eqn:E; [ | discriminate ].
  intros H. injection H as <-. eapply nth_error_In. exact E.
Qed.

Lemma getitem_map {A B : Type} (f : A -> B) (l : list A) (i : Z) (y : B) :
  getitem (map f l) i = Ok y -> exists x, getitem l i = Ok x /\ y = f x.
Proof.
  unfold getitem, norm_index, len. rewrite length_map.
  destruct ((0 <=? i) && (i <? Z.of_nat (length l))).
  - cbn [bind]. rewrite nth_error_map.
    destruct (nth_error l (Z.to_nat i)) as [ a | ]; cbn [option_map];
      [ | discriminate ].
    intros H. injection H as <-. eauto.
  - destruct ((- Z.of_nat (length l) <=? i) && (i <? 0)); [ | discriminate ].
    cbn [bind]. rewrite nth_error_map.
    destruct (nth_error l (Z.to_nat (Z.of_nat (length l) + i))) as [ a | ];
      cbn [option_map]; [ | discriminate ].
    intros H. injection H as <-. eauto.
Qed.

Lemma Forall_update {A : Type} (P : A -> Prop) (l : list A) (n : nat) (v : A) :
  Forall P l -> P v -> Forall P (update l n v).
Proof.
  intros Hl Hv. revert n. induction Hl as [ | x l Hx Hl IH ]; intros n.
  - destruct n; constructor.
  - destruct n as [ | n ]; cbn [update]; constructor; auto.
Qed.

Lemma setitem_cells (l l' : list str) (i : Z) (v : str) :
  cells120 l -> single v -> setitem l i v = Ok l' -> cells120 l'.
Proof.
  intros [F L] Hv H. split.
  - unfold setitem in H. destruct (norm_index l i) as [ n | ];
      cbn [bind] in H; [ | discriminate ].
    injection H as <-. apply Forall_update; assumption.
  - rewrite (@setitem_length _ _ _ _ _ H). exact L.
Qed.

Lemma set_if_cells (b : bool) (l l' : list str) (i : Z) (v : str) :
  cells120 l -> (b = true -> single v) -> set_if b l i v = Ok l' ->
  cells120 l'.
Proof.
  intros C Hv. unfold set_if. destruct b.
  - apply setitem_cells; auto.
  - intros H. injection H as <-. exact C.
Qed.

Lemma getitem_cells (l : list str) (i : Z) (v : str) :
  cells120 l -> getitem l i = Ok v -> single v.
Proof.
  intros [F _] H. apply getitem_In in H. rewrite Forall_forall in F. auto.
Qed.

Lemma swap_items_cells (l l' : list str) (i j : Z) :
  cells120 l -> swap_items l i j = Ok l' -> cells120 l'.
Proof.
  intros C H. unfold swap_items in H.
  apply bind_ok in H. destruct H as [vj [Ej H]].
  apply bind_ok in H. destruct H as [vi [Ei H]].
  apply bind_ok in H. destruct H as [l1 [E1 H]].
  eapply setitem_cells; [ | | exact H ].
  - eapply setitem_cells; [ exact C | | exact E1 ].
    eapply getitem_cells; eauto.
  - eapply getitem_cells; eauto.
Qed.

Lemma length_concat_cells (l : list str) :
  Forall single l -> length (concat l) = length l.
Proof.
  induction 1 as [ | x l Hx Hl IH ]; cbn [concat length].
  - reflexivity.
  - rewrite length_app, IH. unfold single in Hx. lia.
Qed.

Lemma cells120_of_board (position : str) :
  length position = 120%nat -> cells120 (map (fun c => [c]) position).
Proof.
  intros L. split.
  - apply Forall_forall. intros x Hx. apply in_map_iff in Hx.
    destruct Hx as [c [<- _]]. reflexivity.
  - rewrite length_map. exact L.
Qed.

Lemma make_move_length (m : move) (s s' : state) :
  length (position s) = 120%nat ->
  promotes_properly (position s) m ->
  make_move m s = Ok s' ->
  length (position s') = 120%nat.
Proof.
  intros L Q H. destruct m as [[[start_square end_square] cap] promo].
  unfold make_move in H. cbv zeta in H.
  pose proof (@cells120_of_board (position s) L) as C0.
  apply bind_ok in H. destruct H as [piece_moved [Ep H]].
  pose proof (@getitem_cells _ _ _ C0 Ep) as Sp.
  apply bind_ok in H. destruct H as [lp1 [E1 H]].
  assert (C1 : cells120 lp1)
    by (eapply setitem_cells; [ exact C0 | | exact E1 ]; reflexivity).
  apply bind_ok in H. destruct H as [lp2 [E2 H]].
  assert (C2 : cells120 lp2)
    by (eapply setitem_cells; [ exact C1 | exact Sp | exact E2 ]).
  apply bind_ok in H. destruct H as [c1 [_ H]].
  apply bind_ok in H. destruct H as [c2 [_ H]].
  apply bind_ok in H. destruct H as [o1 [_ H]].
  apply bind_ok in H. destruct H as [o2 [_ H]].
  assert (Done : forall lp c o ep kp,
             cells120 lp ->
             length (position (mkState (concat lp) c o ep kp)) = 120%nat).
  { intros lp c o ep kp [F Ll]. cbn [position].
    rewrite length_concat_cells by exact F. exact Ll. }
  destruct (str_eqb piece_moved (lit "K")).
  - apply bind_ok in H. destruct H as [c3 [_ H]].
    apply bind_ok in H. destruct H as [c4 [_ H]].
    apply bind_ok in H. destruct H as [[kp1 lp3] [E3 H]].
    assert (C3 : cells120 lp3).
    { destruct (start_square - end_square =? 2).
      - apply bind_ok in E3. destruct E3 as [l [El E3]].
        injection E3 as _ <-. eapply swap_items_cells; eauto.
      - injection E3 as _ <-. exact C2. }
    apply bind_ok in H. destruct H as [[kp2 lp4] [E4 H]].
    assert (C4 : cells120 lp4).
    { destruct (end_square - start_square =? 2).
      - apply bind_ok in E4. destruct E4 as [l [El E4]].
        injection E4 as _ <-. eapply swap_items_cells; eauto.
      - injection E4 as _ <-. exact C3. }
    injection H as <-. apply Done. exact C4.
  - destruct (str_eqb piece_moved (lit "P")) eqn:P.
    + apply bind_ok in H. destruct H as [lp3 [E3 H]].
      assert (C3 : cells120 lp3)
        by (eapply set_if_cells; [ exact C2 | | exact E3 ]; intros _; reflexivity).
      apply bind_ok in H. destruct H as [lp4 [E4 H]].
      assert (C4 : cells120 lp4).
      { eapply set_if_cells; [ exact C3 | | exact E4 ].
        intros R. apply andb_true_iff in R. destruct R as [R1 R2].
        apply Z.leb_le in R1. apply Z.leb_le in R2.
        apply str_eqb_eq in P. subst piece_moved.
        apply getitem_map in Ep. destruct Ep as [x [Ex Hx]].
        injection Hx as <-. apply Q; [ exact Ex | lia ]. }
      injection H as <-. apply Done. exact C4.
    + injection H as <-. apply Done. exact C2.
Qed.

(** ** Parsing a FEN record *)

Lemma setitem_inv {A : Type} (l l' : list A) (i : Z) (v : A) :
  setitem l i v = Ok l' -> 0 <= i ->
  0 <= i < len l /\ l' = update l (Z.to_nat i) v.
Proof.
  unfold setitem, norm_index. intros H Hi.
  destruct ((0 <=? i) && (i <? len l)) eqn:E.
  - cbn [bind] in H. injection H as <-.
    apply andb_true_iff in E. destruct E as [E1 E2].
    apply Z.leb_le in E1. apply Z.ltb_lt in E2. split; [ lia | reflexivity ].
  - destruct ((- len l <=? i) && (i <? 0)) eqn:F; [ | discriminate ].
    apply andb_true_iff in F. destruct F as [_ F]. apply Z.ltb_lt in F. lia.
Qed.

Lemma piece_letter_nonspace (c : ascii) :
  member c (lit "PNBRQKpnbrqk") = true -> isspace c = false.
Proof. each_ascii c. Qed.

Lemma digit_value (c : ascii) :
  member c (lit "12345678") = true -> 1 <= code c - 48 <= 8.
Proof.
  destruct c as [[] [] [] [] [] [] [] []]; vm_compute; intros H;
    try discriminate H; split; discriminate.
Qed.

Lemma symbol_width_nonneg (c : ascii) : 0 <= symbol_width c.
Proof.
  unfold symbol_width. destruct (member c (lit "PNBRQKpnbrqk")); [ lia | ].
  destruct (member c (lit "12345678")) eqn:D; [ | lia ].
  apply digit_value in D. lia.
Qed.

Lemma rank_width_nonneg (rank : str) : 0 <= rank_width rank.
Proof.
  induction rank as [ | c rank IH ]; cbn [rank_width].
  - lia.
  - pose proof (symbol_width_nonneg c). lia.
Qed.

Lemma written_refl (l : str) (idx : Z) : written l l idx idx.
Proof. repeat split; intros; try reflexivity; lia. Qed.

Lemma written_trans (l1 l2 l3 : str) (a b c : Z) :
  0 <= a <= b -> b <= c ->
  written l1 l2 a b -> written l2 l3 b c -> written l1 l3 a c.
Proof.
  intros O O' [L1 [N1 K1]] [L2 [N2 K2]]. split; [ congruence | ]. split.
  - intros j Hj. destruct (Z.lt_ge_cases j b).
    + rewrite K2 by lia. apply N1. lia.
    + apply N2. lia.
  - intros j Hj Hn. rewrite K2 by lia. apply K1; lia.
Qed.

Lemma written_one (l l' : str) (idx : Z) (c : ascii) :
  0 <= idx -> isspace c = false -> setitem l idx c = Ok l' ->
  written l l' idx (idx + 1).
Proof.
  intros Hi Hc H. apply setitem_inv in H; [ | exact Hi ].
  destruct H as [B ->]. split; [ apply length_update | ]. split.
  - intros j Hj. rewrite cell_update by lia.
    replace (j =? idx) with true by (symmetry; apply Z.eqb_eq; lia). exact Hc.
  - intros j Hj Hn. rewrite cell_update by lia.
    replace (j =? idx) with false by (symmetry; apply Z.eqb_neq; lia).
    reflexivity.
Qed.

Lemma empty_cells_written (counter : list nat) :
  forall (l : str) (idx : Z) (a : str * Z),
    0 <= idx ->
    for_each counter
      (fun _ (a : str * Z) =>
         l <- setitem (fst a) (snd a) dot ;; Ok (l, snd a + 1))
      (l, idx) = Ok a ->
    snd a = idx + Z.of_nat (length counter) /\ written l (fst a) idx (snd a).
Proof.
  induction counter as [ | x counter IH ]; intros l idx a Hi H;
    cbn [for_each] in H.
  - injection H as <-. cbn [fst snd length]. split; [ lia | ].
    apply written_refl.
  - apply bind_ok in H. destruct H as [a1 [E1 H]].
    cbn [fst snd] in E1. apply bind_ok in E1. destruct E1 as [l1 [E1 F]].
    injection F as <-. apply IH in H; [ | lia ]. destruct H as [S W].
    cbn [length]. split; [ lia | ].
    eapply written_trans; [ | | | exact W ]; [ lia | lia | ].
    eapply written_one; [ exact Hi | | exact E1 ]. reflexivity.
Qed.

Lemma load_piece_written (c : ascii) (l : str) (idx : Z) (a : str * Z) :
  0 <= idx -> load_piece c (l, idx) = Ok a ->
  snd a = idx + symbol_width c /\ written l (fst a) idx (snd a).
Proof.
  intros Hi. unfold load_piece, symbol_width.
  destruct (member c (lit "PNBRQKpnbrqk")) eqn:P.
  - intros H. apply bind_ok in H. destruct H as [l1 [E1 H]].
    injection H as <-. cbn [fst snd]. split; [ reflexivity | ].
    eapply written_one; [ exact Hi | | exact E1 ].
    apply piece_letter_nonspace. exact P.
  - destruct (member c (lit "12345678")) eqn:D.
    + intros H. apply empty_cells_written in H; [ | exact Hi ].
      rewrite length_seq in H. apply digit_value in D.
      rewrite Z2Nat.id in H by lia. exact H.
    + intros H. injection H as <-. cbn [fst snd]. split; [ lia | ].
      replace (idx + 0) with idx by lia. apply written_refl.
Qed.

Lemma load_rank_written (rank : str) :
  forall (l : str) (idx : Z) (a : str * Z),
    0 <= idx -> for_each rank load_piece (l, idx) = Ok a ->
    snd a = idx + rank_width rank /\ written l (fst a) idx (snd a).
Proof.
  induction rank as [ | c rank IH ]; intros l idx a Hi H;
    cbn [for_each rank_width] in *.
  - injection H as <-. cbn [fst snd]. split; [ lia | ].
    replace (idx + 0) with idx by lia. apply written_refl.
  - apply bind_ok in H. destruct H as [[l1 i1] [E1 H]].
    apply load_piece_written in E1; [ | exact Hi ].
    cbn [fst snd] in E1. destruct E1 as [-> W1].
    pose proof (symbol_width_nonneg c). pose proof (rank_width_nonneg rank).
    apply IH in H; [ | lia ]. destruct H as [S W]. split; [ lia | ].
    eapply written_trans; [ | | exact W1 | exact W ]; lia.
Qed.

Lemma on_board_row (j rank : Z) :
  0 <= rank < 8 -> 0 <= j < 120 ->
  on_board j && (j <? 20 + 10 * (rank + 1))
  = (on_board j && (j <? 20 + 10 * rank))
    || ((21 + 10 * rank <=? j) && (j <? 29 + 10 * rank)).
Proof.
  intros Hr Hj. unfold on_board.
  pose proof (Z.div_mod j 10 ltac:(lia)).
  pose proof (Z.mod_pos_bound j 10 ltac:(lia)).
  destruct (Z.leb_spec 2 (j / 10)), (Z.leb_spec (j / 10) 9),
    (Z.leb_spec 1 (j mod 10)), (Z.leb_spec (j mod 10) 8),
    (Z.ltb_spec j (20 + 10 * (rank + 1))), (Z.ltb_spec j (20 + 10 * rank)),
    (Z.leb_spec (21 + 10 * rank) j), (Z.ltb_spec j (29 + 10 * rank));
    cbn [andb orb]; try reflexivity; lia.
Qed.

Lemma load_row_filled (rows : list str) (rank : Z) (l l' : str) :
  0 <= rank < 8 ->
  (forall r, In r rows -> rank_width r = 8) ->
  filled_upto rank l -> load_row rows rank l = Ok l' ->
  filled_upto (rank + 1) l'.
Proof.
  intros Hr Hw [L F] H. unfold load_row in H.
  apply bind_ok in H. destruct H as [r [Er H]].
  apply bind_ok in H. destruct H as [a [Ea H]]. injection H as <-.
  apply load_rank_written in Ea; [ | unfold A8; lia ].
  rewrite (Hw r (getitem_In _ _ Er)) in Ea. destruct Ea as [S [La [N K]]].
  rewrite S in N, K. unfold A8 in N, K. split; [ congruence | ].
  intros j Hj. rewrite on_board_row by assumption.
  destruct ((21 + 10 * rank <=? j) && (j <? 29 + 10 * rank)) eqn:R.
  - rewrite orb_true_r. cbn [negb]. apply N.
    apply andb_true_iff in R. destruct R as [R1 R2].
    apply Z.leb_le in R1. apply Z.ltb_lt in R2. lia.
  - rewrite orb_false_r. rewrite K; [ apply F; exact Hj | lia | ].
    intros [R1 R2]. apply andb_false_iff in R.
    destruct R as [R | R]; [ apply Z.leb_gt in R | apply Z.ltb_ge in R ]; lia.
Qed.

Lemma load_rows_filled (rows : list str) (n : nat) :
  (forall r, In r rows -> rank_width r = 8) ->
  forall (k : nat) (l l' : str),
    (k + n = 8)%nat ->
    filled_upto (Z.of_nat k) l ->
    for_each (map Z.of_nat (seq k n)) (load_row rows) l = Ok l' ->
    filled_upto 8 l'.
Proof.
  intros Hw. induction n as [ | n IH ]; intros k l l' Hk F H;
    cbn [seq map for_each] in H.
  - injection H as <-. replace 8 with (Z.of_nat k) by lia. exact F.
  - apply bind_ok in H. destruct H as [l1 [E1 H]].
    apply (IH (S k) l1 l'); [ lia | | exact H ].
    replace (Z.of_nat (S k)) with (Z.of_nat k + 1) by lia.
    eapply load_row_filled; [ | exact Hw | exact F | exact E1 ]. lia.
Qed.

Lemma filled_blank : filled_upto 0 (repeat blank 120).
Proof.
  split; [ apply repeat_length | ].
  intros j Hj. unfold cell. rewrite nth_repeat.
  destruct (on_board j) eqn:B; [ | reflexivity ].
  apply on_board_range in B.
  replace (j <? 20 + 10 * 0) with false by (symmetry; apply Z.ltb_ge; lia).
  reflexivity.
Qed.

Lemma newline_filled (i : Z) (l l' : str) :
  In i [9; 19; 29; 39; 49; 59; 69; 79; 89; 99; 109; 119] ->
  filled_upto 8 l -> setitem l i nl = Ok l' -> filled_upto 8 l'.
Proof.
  intros Hi [L F] H.
  assert (B : 0 <= i < 120 /\ on_board i = false).
  { cbn [In] in Hi.
    repeat (destruct Hi as [ <- | Hi ]; [ split; [ lia | reflexivity ] | ]).
    destruct Hi. }
  destruct B as [B1 B2].
  apply setitem_inv in H; [ | lia ]. destruct H as [_ ->].
  split; [ rewrite length_update; exact L | ].
  intros j Hj. rewrite cell_update by (unfold len; lia).
  destruct (Z.eqb_spec j i) as [ -> | _ ].
  - rewrite B2. reflexivity.
  - apply F. exact Hj.
Qed.

Lemma on_board_rotate (i : Z) :
  0 <= i < 120 -> on_board (119 - i) = on_board i.
Proof.
  intros H.
  assert (A : forallb (fun i => Bool.eqb (on_board (119 - i)) (on_board i))
                      (range 120) = true) by (vm_compute; reflexivity).
  rewrite forallb_forall in A. apply Bool.eqb_prop. apply A.
  apply in_range. lia.
Qed.

Lemma filled_paired (l : str) : filled_upto 8 l -> paired l = true.
Proof.
  intros [L F]. apply paired_cells. intros i Hi S.
  rewrite F in S by lia. rewrite F by lia.
  apply negb_false_iff in S. apply andb_true_iff in S. destruct S as [S _].
  rewrite on_board_rotate by lia. rewrite S.
  apply on_board_range in S.
  replace (119 - i <? 20 + 10 * 8) with true
    by (symmetry; apply Z.ltb_lt; lia).
  reflexivity.
Qed.

(** A record with eight ranks of eight cells parses to a board of 120
    cells that are paired. *)
Lemma load_fen_paired (fen : str) (s : state) (color : str) :
  placement_ok fen = true ->
  load_fen fen = Ok (s, color) ->
  length (position s) = 120%nat /\ paired (position s) = true.
Proof.
  unfold placement_ok, load_fen. intros P H.
  destruct (split_on " " fen) as [ | field rest ] eqn:Sp; [ discriminate | ].
  apply andb_true_iff in P. destruct P as [_ P].
  rewrite forallb_forall in P.
  assert (Hw : forall r, In r (split_on "/" field) -> rank_width r = 8)
    by (intros r Hr; apply Z.eqb_eq; apply P; exact Hr).
  cbv zeta in H. apply bind_ok in H. destruct H as [f0 [E0 H]].
  assert (f0 = field) by (cbv in E0; congruence). subst f0.
  apply bind_ok in H. destruct H as [l1 [E1 H]].
  pose proof (@load_rows_filled (split_on "/" field) 8 Hw 0
                (repeat blank 120) l1 eq_refl filled_blank E1) as F1.
  apply bind_ok in H. destruct H as [l2 [E2 H]].
  assert (F2 : filled_upto 8 l2).
  { revert E2. apply for_each_invariant; [ | exact F1 ].
    intros i t t' Hin Ft Ht. eapply newline_filled; eauto. }
  apply bind_ok in H. destruct H as [rights [_ H]].
  apply bind_ok in H. destruct H as [f3 [_ H]].
  apply bind_ok in H. destruct H as [ep [_ H]].
  apply bind_ok in H. destruct H as [col [_ H]].
  destruct (str_eqb col (lit "b")).
  - apply bind_ok in H. destruct H as [s' [Er H]]. injection H as <- <-.
    rewrite rotate_position_value in Er by (cbn [position]; apply F2).
    injection Er as <-. cbn [position].
    split; [ apply length_rotated | apply paired_rotated ].
  - injection H as <- <-. cbn [position].
    split; [ apply F2 | apply filled_paired; exact F2 ].
Qed.

(** ** The rays of the generator end before their fuel does *)

Lemma fine_ok {A : Type} (a : A) : fine (Ok a).
Proof. discriminate. Qed.

Lemma fine_bind {A B : Type} (m : py A) (k : A -> py B) :
  fine m -> (forall a, m = Ok a -> fine (k a)) -> fine (bind m k).
Proof.
  intros Hm Hk. destruct m as [ a | e ]; cbn [bind].
  - apply Hk. reflexivity.
  - intros H. apply Hm. injection H as ->. reflexivity.
Qed.

Lemma fine_getitem {A : Type} (l : list A) (i : Z) : fine (getitem l i).
Proof.
  unfold getitem, norm_index.
  destruct ((0 <=? i) && (i <? len l)); cbn [bind].
  - destruct (nth_error l (Z.to_nat i)); discriminate.
  - destruct ((- len l <=? i) && (i <? 0)); cbn [bind].
    + destruct (nth_error l (Z.to_nat (len l + i))); discriminate.
    + discriminate.
Qed.

Lemma fine_lookup {V : Type} (d : dict V) (k : ascii) : fine (lookup d k).
Proof.
  induction d as [ | [k' v] d IH ]; cbn [lookup].
  - discriminate.
  - destruct (Ascii.eqb k' k); [ discriminate | exact IH ].
Qed.

Lemma fine_lookup_str {V : Type} (d : dict V) (k : str) :
  fine (lookup_str d k).
Proof.
  destruct k as [ | c [ | c' k ] ]; cbn [lookup_str];
    try discriminate. apply fine_lookup.
Qed.

Lemma fine_table_at (tables : dict (list Z)) (piece : str) (i : Z) :
  fine (table_at tables piece i).
Proof.
  unfold table_at. apply fine_bind; [ apply fine_lookup_str | ].
  intros t _. apply fine_getitem.
Qed.

Lemma fine_for_each {A S : Type} (l : list A) (body : A -> S -> py S) :
  (forall a s, In a l -> fine (body a s)) ->
  forall s, fine (for_each l body s).
Proof.
  induction l as [ | a l IH ]; intros H s; cbn [for_each].
  - apply fine_ok.
  - apply fine_bind; [ apply H; left; reflexivity | ].
    intros s' _. apply IH. intros a' t Hin. apply H. right. exact Hin.
Qed.

Create HintDb fine.

#[local] Hint Resolve fine_ok fine_getitem fine_lookup fine_lookup_str
  fine_table_at : fine.

Ltac fine_step :=
  match goal with
  | |- fine (bind _ _) => apply fine_bind; [ | intros ? _ ]
  | |- fine (if ?b then _ else _) => destruct b
  | |- fine _ => solve [ auto with fine ]
  end.

Lemma fine_move_term (values : dict Z) (tables : dict (list Z)) (m : move)
    (position : str) (en_passant : Z) :
  fine (move_term values tables m position en_passant).
Proof.
  unfold move_term. destruct m as [[[st en] cap] pr].
  repeat fine_step.
Qed.

Lemma fine_evaluate_move (tables : pst) (m : move) (position : str)
    (en_passant : Z) :
  fine (evaluate_move tables m position en_passant).
Proof.
  unfold evaluate_move.
  apply fine_bind; [ apply fine_move_term | intros ? _ ].
  apply fine_bind; [ apply fine_move_term | intros ? _ ]. apply fine_ok.
Qed.

Lemma fine_keyed (key : move -> py Z) (l : list move) :
  (forall m, fine (key m)) -> fine (keyed key l).
Proof.
  intros H. induction l as [ | m l IH ]; cbn [keyed].
  - apply fine_ok.
  - apply fine_bind; [ apply H | intros ? _ ].
    apply fine_bind; [ exact IH | intros ? _ ]. apply fine_ok.
Qed.

Lemma fine_pawn_blocked (position : str) (en_passant : Z)
    (start_square direction end_square : Z) (piece_captured : ascii) :
  fine (pawn_blocked position en_passant start_square direction end_square
                     piece_captured).
Proof. unfold pawn_blocked. repeat fine_step. Qed.

Lemma fine_castle_from (corner toward_king flag : Z) (position : str)
    (castling : list bool) (start_square end_square : Z)
    (piece_captured : ascii) (move_list : list move) :
  fine (castle_from corner toward_king flag position castling start_square
                    end_square piece_captured move_list).
Proof. unfold castle_from. repeat fine_step. Qed.

Lemma getitem_bounds {A : Type} (l : list A) (i : Z) (v : A) :
  getitem l i = Ok v -> - len l <= i < len l.
Proof.
  unfold getitem, norm_index.
  destruct ((0 <=? i) && (i <? len l)) eqn:E.
  - intros _. apply andb_true_iff in E. destruct E as [E1 E2].
    apply Z.leb_le in E1. apply Z.ltb_lt in E2. unfold len in *. lia.
  - destruct ((- len l <=? i) && (i <? 0)) eqn:F; [ | discriminate ].
    intros _. apply andb_true_iff in F. destruct F as [F1 F2].
    apply Z.leb_le in F1. apply Z.ltb_lt in F2. lia.
Qed.

Lemma fine_ray (position : str) (castling : list bool) (en_passant : Z)
    (start_square : Z) (piece_moved : ascii) (direction : Z) :
  direction <> 0 ->
  forall (fuel : nat) (end_square : Z) (move_list : list move),
    ray_room position direction end_square < Z.of_nat fuel ->
    (0 < fuel)%nat ->
    fine (ray fuel position castling en_passant start_square piece_moved
              direction end_square move_list).
Proof.
  intros Hd. induction fuel as [ | fuel IH ]; intros end_square move_list R F.
  - lia.
  - cbn [ray]. apply fine_bind; [ apply fine_getitem | ].
    intros piece_captured G. apply getitem_bounds in G.
    destruct (isspace piece_captured || isupper piece_captured);
      [ apply fine_ok | ].
    apply fine_bind.
    { destruct (Ascii.eqb piece_moved "P");
        [ apply fine_pawn_blocked | apply fine_ok ]. }
    intros stop _. destruct stop; [ apply fine_ok | ].
    destruct (Ascii.eqb piece_moved "P" && (A8 <=? end_square)
              && (end_square <=? H8)); [ apply fine_ok | ].
    destruct (member piece_moved (lit "PNK") || islower piece_captured);
      [ apply fine_ok | ].
    apply fine_bind; [ apply fine_castle_from | intros l1 _ ].
    apply fine_bind; [ apply fine_castle_from | intros l2 _ ].
    unfold ray_room in *.
    destruct (Z.ltb_spec 0 direction); apply IH; lia.
Qed.

Lemma directions_nonzero (piece : ascii) (directions : list Z) :
  lookup PIECE_DIRECTIONS piece = Ok directions ->
  forall d, In d directions -> d <> 0.
Proof.
  unfold PIECE_DIRECTIONS, lookup.
  repeat (match goal with
          | |- context [ if ?b then _ else _ ] => destruct b
          end;
          [ intros H; injection H as <-; cbn [In]; intros d Hd;
            repeat (destruct Hd as [ <- | Hd ]; [ discriminate | ]);
            destruct Hd | ]).
  discriminate.
Qed.

Lemma fine_moves_from (position : str) (castling : list bool)
    (en_passant start_square : Z) (move_list : list move) :
  0 <= start_square < len position ->
  fine (moves_from position castling en_passant start_square move_list).
Proof.
  intros B. unfold moves_from.
  apply fine_bind; [ apply fine_getitem | intros piece_moved _ ].
  destruct (negb (isupper piece_moved)); [ apply fine_ok | ].
  apply fine_bind; [ apply fine_lookup | intros directions D ].
  apply fine_for_each. intros d l Hd.
  pose proof (@directions_nonzero piece_moved directions D d Hd) as N.
  apply fine_ray; [ exact N | | unfold ray_fuel; lia ].
  unfold ray_room, ray_fuel, len in *.
  destruct (Z.ltb_spec 0 d); lia.
Qed.

(** The generator never runs out of fuel: the exception that stands for
    it is not among its results. *)
Lemma fine_generate_moves (tables : pst) (position : str)
    (castling : list bool) (en_passant : Z) :
  fine (generate_moves tables position castling en_passant).
Proof.
  unfold generate_moves. apply fine_bind.
  - unfold unsorted_moves. apply fine_for_each. intros i l Hi.
    apply in_range in Hi. apply fine_moves_from. unfold len. exact Hi.
  - intros found _. apply fine_bind; [ | intros ? _; apply fine_ok ].
    apply fine_keyed. intros m. apply fine_evaluate_move.
Qed.

(** ** The PolyGlot key of the initial position *)

(** C1: the initial position, taken from [startpos] or parsed from its FEN
    record, hashes to the PolyGlot key 0x463B96181691FC9C. *)
Theorem zobrist_hash_startpos :
  zobrist_hash startpos INITIAL_COLOR = Ok 0x463B96181691FC9C
  /\ load_fen start_fen = Ok (startpos, lit "w")
  /\ (forall s c, load_fen start_fen = Ok (s, c) ->
                  zobrist_hash s c = Ok 0x463B96181691FC9C).
Proof.
  assert (H : load_fen start_fen = Ok (startpos, lit "w"))
    by (vm_compute; reflexivity).
  split; [ | split ].
  - vm_compute; reflexivity.
  - exact H.
  - intros s c E. rewrite H in E. injection E as <- <-.
    vm_compute; reflexivity.
Qed.

(** ** Castling in the move generator *)

(** C2: after the legal game 1. Nc3 Nc6 2. d4 Na5 3. Bf4 Nb3 4. e3 Nxa1
    5. Qxa1 e6 the queenside right is still set, no rook but a queen stands
    on a1, and the generator emits the king move e1-c1. *)
Theorem castling_emitted_without_rook :
  exists s move_list,
    position_command
      (words "position startpos moves b1c3 b8c6 d2d4 c6a5 c1f4 a5b3 e2e3 b3a1 d1a1 e7e6")
      ready_engine = Ok (mkEngine s (lit "w") true)
    /\ getitem (castling s) 0 = Ok true
    /\ getitem (position s) A1 = Ok "Q"%char
    /\ getitem (position s) 95 = Ok "K"%char
    /\ generate_moves padded_tables (position s) (castling s) (en_passant s)
       = Ok move_list
    /\ In (95, 93, [dot], []) move_list.
Proof.
  eexists. eexists.
  split; [ vm_compute; reflexivity | ].
  split; [ vm_compute; reflexivity | ].
  split; [ vm_compute; reflexivity | ].
  split; [ vm_compute; reflexivity | ].
  split; [ vm_compute; reflexivity | ].
  apply existsb_move_In. vm_compute. reflexivity.
Qed.

(** ** The en-passant square after a move *)

(** C3: after 1. e4 the en-passant square is 44 in Black's frame; the knight
    move g8-f6 made from there returns the same square, not 0. *)
Theorem make_move_keeps_en_passant :
  exists s s',
    position_command (words "position startpos moves e2e4") ready_engine
      = Ok (mkEngine s (lit "b") true)
    /\ getitem (position s) 92 = Ok "N"%char
    /\ make_move (92, 73, [dot], []) s = Ok s'
    /\ en_passant s' = 44.
Proof.
  eexists. eexists.
  split; [ vm_compute; reflexivity | ].
  split; [ vm_compute; reflexivity | ].
  split; [ vm_compute; reflexivity | ].
  vm_compute; reflexivity.
Qed.

(** ** The transposition-table probe *)

Lemma nega_max_probe (tables : pst) (fuel : nat) (depth alpha beta : Z)
    (s : state) (color : str) (g : globals) (key : Z) :
  clock g (polls g) = false ->
  depth <> 0 ->
  zobrist_hash s color = Ok key ->
  let table_info :=
    match TRANSPOSITION_TABLE g key with Some e => e | None => no_entry end in
  nega_max tables (S fuel) depth alpha beta s color g
  = if table_cutoff table_info depth
    then (Ok (snd table_info, fst (fst table_info)), tick g)
    else
      (move_list <~ lift (generate_moves tables (position s) (castling s)
                                         (en_passant s)) ;;
       let move_list := pv_first (fst (fst table_info)) move_list in
       r <~ nega_max_moves tables
              (fun a b s' =>
                 nega_max tables fuel (depth - 1) a b s' (other color))
              beta s move_list (alpha, null_move, []) ;;
       match r with
       | Return v => ret v
       | Next (alpha, best_move, legal_moves) =>
           if len legal_moves =? 0 then
             new_position <~ lift (rotate_position s) ;;
             c <~ lift (king_in_check tables (position new_position)
                                      (castling s) 0) ;;
             md <~ read max_depth ;;
             if c : bool then ret (- CHECKMATE_LOWER + md - depth, null_move)
             else ret (0, null_move)
           else
             (if negb (move_eqb best_move null_move) then
                key <~ lift (zobrist_hash s color) ;;
                table_set key (best_move, depth, alpha)
              else ret tt) ;;;
             ret (alpha, best_move)
       end) (counted (tick g)).
Proof.
  intros Hclock Hdepth Hkey. cbn [nega_max].
  unfold mbind at 1. unfold time_is_up. rewrite Hclock.
  apply Z.eqb_neq in Hdepth. rewrite Hdepth.
  unfold mbind at 1. unfold lift at 1. rewrite Hkey.
  unfold mbind at 1. unfold table_get.
  cbn [TRANSPOSITION_TABLE].
  destruct (table_cutoff _ depth); reflexivity.
Qed.

(** C4, as stated, fails: with an entry of depth 0 and score
    -CHECKMATE_LOWER stored under the key of the initial position, a search
    of depth 1 does not return the entry: it searches 21 nodes and returns
    the score 55. *)
Lemma negative_mate_entry_is_searched :
  exists key,
    zobrist_hash startpos (lit "w") = Ok key
    /\ Z.abs (- CHECKMATE_LOWER) >= CHECKMATE_LOWER
    /\ let g := with_table (fresh 1) key
                  ((85, 65, [dot], []), 0, - CHECKMATE_LOWER) in
       let r := nega_max padded_tables 2 1 (- CHECKMATE_UPPER) CHECKMATE_UPPER
                  startpos (lit "w") g in
       fst r = Ok (55, (85, 65, [dot], [])) /\ nodes (snd r) = 21.
Proof.
  eexists.
  split; [ vm_compute; reflexivity | ].
  split; [ vm_compute; discriminate | ].
  cbv zeta. split; vm_compute; reflexivity.
Qed.

(** C4: when the table holds an entry for the position, the node is answered
    from it, without a node being counted, exactly when the entry's depth is
    at least the current depth or its score is at least CHECKMATE_LOWER; the
    score is compared as it is, so a score of -CHECKMATE_LOWER or less does
    not qualify by itself. *)
Theorem nega_max_table_cutoff (tables : pst) (fuel : nat)
    (depth alpha beta : Z) (s : state) (color : str) (g : globals)
    (key : Z) (m : move) (d score : Z) :
  clock g (polls g) = false ->
  depth <> 0 ->
  zobrist_hash s color = Ok key ->
  TRANSPOSITION_TABLE g key = Some (m, d, score) ->
  let r := nega_max tables (S fuel) depth alpha beta s color g in
  (d >= depth \/ score >= CHECKMATE_LOWER -> r = (Ok (score, m), tick g))
  /\ (nodes (snd r) = nodes g <-> d >= depth \/ score >= CHECKMATE_LOWER).
Proof.
  intros Hclock Hdepth Hkey Hentry r.
  assert (Hr := @nega_max_probe tables fuel depth alpha beta s color g key Hclock Hdepth Hkey).
  cbv zeta in Hr. rewrite Hentry in Hr. fold r in Hr.
  assert (Hcut : table_cutoff (m, d, score) depth = true
                 <-> d >= depth \/ score >= CHECKMATE_LOWER).
  { unfold table_cutoff. rewrite orb_true_iff.
    rewrite !Z.geb_le. lia. }
  destruct (table_cutoff (m, d, score) depth) eqn:E.
  - split.
    + intros _. exact Hr.
    + rewrite Hr. simpl. tauto.
  - split.
    + intros H. apply Hcut in H. discriminate.
    + split.
      * intros Hn. exfalso. rewrite Hr in Hn.
        match type of Hn with
        | nodes (snd (?c (counted (tick g)))) = _ =>
            assert (Hg : grows c)
        end.
        { repeat (grows_step;
                  auto using grows_nega_max, grows_nega_max_moves). }
        specialize (Hg (counted (tick g))).
        change (nodes (counted (tick g))) with (nodes g + 1) in Hg.
        rewrite Hn in Hg. lia.
      * intros H. apply Hcut in H. discriminate.
Qed.

(** A witness for C4: the initial position with an entry of depth 1. *)
Lemma nega_max_table_cutoff_witness :
  let g := with_table (fresh 1) 0x463B96181691FC9C
             ((85, 65, [dot], []), 1, 55) in
  let r := nega_max padded_tables 2 1 (- CHECKMATE_UPPER) CHECKMATE_UPPER
             startpos (lit "w") g in
  (1 >= 1 \/ 55 >= CHECKMATE_LOWER -> r = (Ok (55, (85, 65, [dot], [])), tick g))
  /\ (nodes (snd r) = nodes g <-> 1 >= 1 \/ 55 >= CHECKMATE_LOWER).
Proof.
  cbv zeta.
  apply (@nega_max_table_cutoff padded_tables 1 1 (- CHECKMATE_UPPER)
           CHECKMATE_UPPER startpos (lit "w")
           (with_table (fresh 1) 0x463B96181691FC9C
              ((85, 65, [dot], []), 1, 55))
           0x463B96181691FC9C (85, 65, [dot], []) 1 55).
  - reflexivity.
  - discriminate.
  - vm_compute; reflexivity.
  - reflexivity.
Defined.

(** ** Rotating twice *)

(** Every regular state has a board string of 120 paired cells. *)
Lemma regular_paired (tables : pst) (s : state) :
  regular tables s ->
  length (position s) = 120%nat /\ paired (position s) = true.
Proof.
  induction 1 as [ | fen s color P H | s s' R IH H
                   | s s' move_list m R IH G Hin H ].
  - split; vm_compute; reflexivity.
  - eapply load_fen_paired; eauto.
  - destruct IH as [L _].
    rewrite (@rotate_position_value s L) in H. injection H as <-.
    cbn [position]. split; [ apply length_rotated | apply paired_rotated ].
  - destruct IH as [L _]. unfold play in H.
    apply bind_ok in H. destruct H as [s1 [E1 H]].
    assert (L1 : length (position s1) = 120%nat).
    { eapply make_move_length; [ exact L | | exact E1 ].
      eapply generate_moves_proper; eauto. }
    rewrite (@rotate_position_value s1 L1) in H. injection H as <-.
    cbn [position]. split; [ apply length_rotated | apply paired_rotated ].
Qed.

(** C5, as stated, fails on a parsed FEN record.  [load_fen] accepts a
    record whose sixth rank fills seven cells only; the state it returns
    has 120 cells and passes the shape test of [go], cell 78 is left blank,
    and [rotate_position] applied twice returns a board on which the empty
    marker of cell 41 has moved to cell 78. *)
Lemma rotate_twice_changes_parsed_fen :
  exists s s1 s2,
    load_fen (lit "rnbqkbnr/pppppppp/8/8/8/7/PPPPPPPP/RNBQKBNR w KQkq - 0 1")
    = Ok (s, lit "w")
    /\ invalid_position (mkEngine s (lit "w") true) = false
    /\ rotate_position s = Ok s1
    /\ rotate_position s1 = Ok s2
    /\ cell (position s) 41 = dot /\ cell (position s) 78 = blank
    /\ cell (position s2) 41 = blank /\ cell (position s2) 78 = dot
    /\ str_eqb (position s2) (position s) = false.
Proof.
  do 3 eexists.
  split; [ vm_compute; reflexivity | ].
  split; [ vm_compute; reflexivity | ].
  split; [ vm_compute; reflexivity | ].
  split; [ vm_compute; reflexivity | ].
  repeat split; vm_compute; reflexivity.
Qed.

(** C5: on every regular state, that is, a state reached from the initial
    position or from a parsed FEN record whose placement field has eight
    ranks that fill eight cells each, by [rotate_position] and by moves the
    generator emitted, [rotate_position] returns, and applied to its own
    result it returns the state it started from. *)
Theorem rotate_position_involutive (tables : pst) (s : state) :
  regular tables s ->
  exists s', rotate_position s = Ok s' /\ rotate_position s' = Ok s.
Proof.
  intros R. apply regular_paired in R. destruct R as [L P].
  apply rotate_position_twice; assumption.
Qed.

(** A witness for C5: the state after 1. e4. *)
Lemma rotate_position_involutive_witness :
  exists s',
    rotate_position
      (match play (85, 65, [dot], []) startpos with
       | Ok t => t
       | Raise _ => startpos
       end) = Ok s'
    /\ rotate_position s'
       = Ok (match play (85, 65, [dot], []) startpos with
             | Ok t => t
             | Raise _ => startpos
             end).
Proof.
  apply (@rotate_position_involutive padded_tables).
  eapply (@regular_move padded_tables startpos _ _ (85, 65, [dot], [])).
  - apply regular_startpos.
  - vm_compute. reflexivity.
  - apply existsb_move_In. vm_compute. reflexivity.
  - vm_compute. reflexivity.
Defined.

(** ** The symmetry of the evaluation *)










(** ** Mate and stalemate *)

Lemma pop_first_In (x : move) (l rest : list move) :
  pop_first x l = Some rest -> forall m, In m rest -> In m l.
Proof.
  revert rest. induction l as [ | y l IH ]; intros rest; simpl.
  - discriminate.
  - destruct (move_eqb y x).
    + intros H. injection H as <-. auto.
    + destruct (pop_first x l) as [ t | ]; [ | discriminate ].
      intros H. injection H as <-. intros m [ -> | Hin ]; eauto.
Qed.

Lemma pop_first_head (x : move) (l rest : list move) :
  pop_first x l = Some rest -> In x l.
Proof.
  revert rest. induction l as [ | y l IH ]; intros rest; simpl.
  - discriminate.
  - destruct (move_eqb y x) eqn:E.
    + intros _. left. apply move_eqb_eq. exact E.
    + destruct (pop_first x l) as [ t | ]; [ | discriminate ].
      intros _. right. eapply IH. reflexivity.
Qed.

Lemma pv_first_In (x : move) (l : list move) (m : move) :
  In m (pv_first x l) -> In m l.
Proof.
  unfold pv_first. destruct (pop_first x l) as [ rest | ] eqn:E.
  - intros [ <- | Hin ].
    + eapply pop_first_head. exact E.
    + eapply pop_first_In; eauto.
  - auto.
Qed.

(** A loop over moves that all leave the king in check changes nothing. *)
Lemma nega_max_moves_all_illegal (tables : pst)
    (rec : Z -> Z -> state -> M (Z * move)) (beta : Z) (s : state)
    (move_list : list move) (v : vars) (g : globals) :
  (forall m, In m move_list ->
             exists s1, leaves_king_in_check tables m s = Ok (true, s1)) ->
  nega_max_moves tables rec beta s move_list v g = (Ok (Next v), g).
Proof.
  induction move_list as [ | m rest IH ]; intros H; cbn [nega_max_moves].
  - reflexivity.
  - destruct v as [[alpha best] legal].
    destruct (H m (or_introl eq_refl)) as [s1 H1].
    unfold mbind at 1. unfold lift at 1. rewrite H1.
    apply IH. intros m' Hin. apply H. right. exact Hin.
Qed.

(** C7, as stated, fails: White is stalemated, so no generated move is
    legal; the same board with the en-passant square b4 has the same key and
    one more move, a4-b5.  Once that position has been searched, the search
    of the stalemate returns its entry, -1293 and a4-b5, not 0 and no move. *)
Lemma stalemate_answered_from_table :
  exists s move_list,
    load_fen (lit "k7/8/8/p7/P7/8/5q2/7K w - - 0 1") = Ok (s, lit "w")
    /\ generate_moves padded_tables (position s) (castling s) (en_passant s)
       = Ok move_list
    /\ forallb (fun m => match leaves_king_in_check padded_tables m s with
                         | Ok (true, _) => true
                         | _ => false
                         end) move_list = true
    /\ (exists s', rotate_position s = Ok s'
                   /\ king_in_check padded_tables (position s') (castling s) 0
                      = Ok false)
    /\ let search t g :=
         nega_max padded_tables 2 1 (- CHECKMATE_UPPER) CHECKMATE_UPPER
                  t (lit "w") g in
       fst (search s (fresh 1)) = Ok (0, null_move)
       /\ let g := snd (search (with_en_passant s 62) (fresh 1)) in
          timeout g = false
          /\ clock g (polls g) = false
          /\ fst (search s g) = Ok (-1293, (61, 52, [dot], [])).
Proof.
  eexists. eexists.
  split; [ vm_compute; reflexivity | ].
  split; [ vm_compute; reflexivity | ].
  split; [ vm_compute; reflexivity | ].
  split; [ eexists; split; [ vm_compute; reflexivity | vm_compute; reflexivity ] | ].
  cbv zeta.
  split; [ vm_compute; reflexivity | ].
  split; [ vm_compute; reflexivity | ].
  split; [ vm_compute; reflexivity | ].
  vm_compute; reflexivity.
Qed.

(** C7: a call with depth at least 1 that neither times out nor is answered
    from the transposition table, and none of whose generated moves is
    legal, returns no move and the score -(CHECKMATE_LOWER - (max_depth -
    depth)) when the mover is in check, 0 when not; one node is counted. *)
Theorem nega_max_no_legal_move (tables : pst) (fuel : nat)
    (depth alpha beta : Z) (s s' : state) (color : str) (g : globals)
    (key : Z) (move_list : list move) (c : bool) :
  clock g (polls g) = false ->
  1 <= depth ->
  zobrist_hash s color = Ok key ->
  table_cutoff
    (match TRANSPOSITION_TABLE g key with Some e => e | None => no_entry end)
    depth = false ->
  generate_moves tables (position s) (castling s) (en_passant s)
    = Ok move_list ->
  (forall m, In m move_list ->
             exists s1, leaves_king_in_check tables m s = Ok (true, s1)) ->
  rotate_position s = Ok s' ->
  king_in_check tables (position s') (castling s) 0 = Ok c ->
  nega_max tables (S fuel) depth alpha beta s color g
  = (Ok (if c then - (CHECKMATE_LOWER - (max_depth g - depth)) else 0,
         null_move),
     counted (tick g)).
Proof.
  intros Hclock Hdepth Hkey Hcut Hgen Hall Hrot Hcheck.
  assert (Hd : depth <> 0) by lia.
  rewrite (@nega_max_probe tables fuel depth alpha beta s color g key
             Hclock Hd Hkey).
  cbv zeta. rewrite Hcut.
  unfold mbind at 1. unfold lift at 1. rewrite Hgen.
  unfold mbind at 1.
  rewrite nega_max_moves_all_illegal.
  - change (len (@nil move) =? 0) with true. cbv iota.
    unfold mbind at 1. unfold lift at 1. rewrite Hrot.
    unfold mbind at 1. unfold lift at 1. rewrite Hcheck.
    unfold mbind at 1. unfold read.
    change (max_depth (counted (tick g))) with (max_depth g).
    destruct c; unfold ret.
    + f_equal. f_equal. f_equal. lia.
    + reflexivity.
  - intros m Hin. apply Hall. eapply pv_first_In. exact Hin.
Qed.

(** A witness for C7: the stalemate of the counterexample, searched with
    an empty table. *)
Lemma nega_max_no_legal_move_witness :
  nega_max padded_tables 2 1 (- CHECKMATE_UPPER) CHECKMATE_UPPER
    (state_of_fen "k7/8/8/p7/P7/8/5q2/7K w - - 0 1") (lit "w") (fresh 1)
  = (Ok (0, null_move), counted (tick (fresh 1))).
Proof.
  apply (@nega_max_no_legal_move padded_tables 1 1 (- CHECKMATE_UPPER)
           CHECKMATE_UPPER
           (state_of_fen "k7/8/8/p7/P7/8/5q2/7K w - - 0 1")
           (match rotate_position
                    (state_of_fen "k7/8/8/p7/P7/8/5q2/7K w - - 0 1") with
            | Ok t => t
            | Raise _ => startpos
            end)
           (lit "w") (fresh 1) 1700864740361611793
           [(98, 87, [dot], []); (98, 88, [dot], []); (98, 97, [dot], [])]
           false).
  - reflexivity.
  - lia.
  - vm_compute; reflexivity.
  - reflexivity.
  - vm_compute; reflexivity.
  - intros m [ <- | [ <- | [ <- | [] ] ] ]; eexists; vm_compute; reflexivity.
  - vm_compute; reflexivity.
  - vm_compute; reflexivity.
Defined.

(** ** The en-passant part of the key *)

Lemma rotate_position_with_en_passant (s : state) (ep : Z) :
  rotate_position (with_en_passant s ep)
  = (t <- rotate_position s ;; Ok (with_en_passant t (119 - ep))).
Proof.
  unfold rotate_position, with_en_passant. cbn [position castling
    opponent_castling en_passant king_passant].
  destruct (for_each (range 60) rotate_cells (position s)); reflexivity.
Qed.

Lemma en_passant_hash_none (position : str) (ep : Z) :
  ep = 0 \/ ep = 119 -> en_passant_hash_of position ep = Ok 0.
Proof. intros [ -> | -> ]; reflexivity. Qed.

Lemma en_passant_hash_cases (position : str) (ep e : Z) :
  en_passant_hash_of position ep = Ok e ->
  if capture_possible position ep then en_passant_key ep = Ok e else e = 0.
Proof.
  unfold en_passant_hash_of, capture_possible, cell_is_piece.
  destruct (ep =? 0) eqn:E0.
  { apply Z.eqb_eq in E0. subst ep. cbn. intros H. injection H as <-.
    reflexivity. }
  destruct (ep =? 119) eqn:E1.
  { apply Z.eqb_eq in E1. subst ep. cbn. intros H. injection H as <-.
    reflexivity. }
  cbn [negb andb].
  destruct ((41 <=? ep) && (ep <=? 48)) eqn:R6.
  - assert (R3 : (71 <=? ep) && (ep <=? 78) = false).
    { apply andb_true_iff in R6. destruct R6 as [A B].
      apply Z.leb_le in A. apply Z.leb_le in B.
      apply andb_false_iff. left. apply Z.leb_gt. lia. }
    rewrite R3. cbn [andb orb].
    destruct (getitem position (ep + SOUTH + EAST)) as [ c | ];
      [ | discriminate ]. cbn [bind].
    destruct (Ascii.eqb c "P").
    + cbn [orb]. auto.
    + destruct (getitem position (ep + SOUTH + WEST)) as [ c' | ];
        [ | discriminate ]. cbn [bind orb].
      destruct (Ascii.eqb c' "P").
      * auto.
      * intros H. injection H as <-. reflexivity.
  - cbn [andb orb].
    destruct ((71 <=? ep) && (ep <=? 78)) eqn:R3.
    + cbn [andb].
      destruct (getitem position (ep + NORTH + EAST)) as [ c | ];
        [ | discriminate ]. cbn [bind].
      destruct (Ascii.eqb c "p").
      * cbn [orb]. auto.
      * destruct (getitem position (ep + NORTH + WEST)) as [ c' | ];
          [ | discriminate ]. cbn [bind orb].
        destruct (Ascii.eqb c' "p").
        -- auto.
        -- intros H. injection H as <-. reflexivity.
    + cbn [andb]. intros H. injection H as <-. reflexivity.
Qed.

Lemma capture_possible_rank (position : str) (ep : Z) :
  capture_possible position ep = true ->
  41 <= ep <= 48 \/ 71 <= ep <= 78.
Proof.
  unfold capture_possible. rewrite orb_true_iff, !andb_true_iff, !Z.leb_le.
  intros [ [[A B] _] | [[A B] _] ]; lia.
Qed.

Lemma en_passant_key_nonzero (ep k : Z) :
  41 <= ep <= 48 \/ 71 <= ep <= 78 ->
  en_passant_key ep = Ok k -> k <> 0.
Proof.
  intros H.
  assert (C : ep = 41 \/ ep = 42 \/ ep = 43 \/ ep = 44 \/ ep = 45 \/ ep = 46
              \/ ep = 47 \/ ep = 48 \/ ep = 71 \/ ep = 72 \/ ep = 73
              \/ ep = 74 \/ ep = 75 \/ ep = 76 \/ ep = 77 \/ ep = 78) by lia.
  clear H.
  repeat (destruct C as [ -> | C ];
          [ vm_compute; intros E; injection E as <-; discriminate | ]).
  subst ep. vm_compute; intros E; injection E as <-; discriminate.
Qed.

Lemma lxor_absorb (x e t : Z) :
  Z.lxor (Z.lxor x e) t = Z.lxor (Z.lxor (Z.lxor x 0) t) e.
Proof.
  rewrite Z.lxor_0_r. rewrite !Z.lxor_assoc. f_equal. apply Z.lxor_comm.
Qed.

Lemma lxor_changes (h k : Z) : k <> 0 -> Z.lxor h k <> h.
Proof.
  intros Hk E. apply Hk.
  assert (H : Z.lxor h (Z.lxor h k) = Z.lxor h h) by (rewrite E; reflexivity).
  rewrite <- Z.lxor_assoc, Z.lxor_nilpotent, Z.lxor_0_l in H. exact H.
Qed.

(** C8, as stated, fails: after 1. d3 d5 2. f3 d4 3. e4 Nc6 White is to
    move, the en-passant square is still e3, and no white pawn stands on d2
    or f2; the black pawn on d4 makes the key differ from the key of the
    same state without an en-passant square. *)
Lemma en_passant_hashed_for_the_other_side :
  exists s h h0,
    position_command
      (words "position startpos moves d2d3 d7d5 f2f3 d5d4 e2e4 b8c6")
      ready_engine = Ok (mkEngine s (lit "w") true)
    /\ en_passant s = 75
    /\ mover_pawn_behind (position s) (en_passant s) (lit "w") = false
    /\ zobrist_hash s (lit "w") = Ok h
    /\ zobrist_hash (with_en_passant s 0) (lit "w") = Ok h0
    /\ h <> h0.
Proof.
  eexists. eexists. eexists.
  split; [ vm_compute; reflexivity | ].
  split; [ vm_compute; reflexivity | ].
  split; [ vm_compute; reflexivity | ].
  split; [ vm_compute; reflexivity | ].
  split; [ vm_compute; reflexivity | ].
  vm_compute; discriminate.
Qed.

(** C8: the key contains the entry of the en-passant file exactly when, on
    the position as White sees it, the en-passant square lies on rank 6
    (cells 41 to 48) with a white pawn diagonally behind it, or on rank 3
    (cells 71 to 78) with a black pawn diagonally behind it: the rank of the
    square selects the capturing colour, the side to move does not.
    Otherwise the key is that of the same state without en-passant square. *)
Theorem en_passant_hash_rule (s : state) (color : str) (h : Z) :
  zobrist_hash s color = Ok h ->
  exists s0 h0,
    white_view s color = Ok s0
    /\ zobrist_hash (with_en_passant s 0) color = Ok h0
    /\ (capture_possible (position s0) (en_passant s0) = true ->
        exists k,
          getitem HASH_VALUES (772 + en_passant s0 mod 10 - 1) = Ok k
          /\ h = Z.lxor h0 k /\ h <> h0)
    /\ (capture_possible (position s0) (en_passant s0) = false -> h = h0).
Proof.
  unfold zobrist_hash, white_view. intros H.
  rewrite rotate_position_with_en_passant.
  destruct (str_eqb color (lit "b")).
  - destruct (rotate_position s) as [ s0 | ]; [ | discriminate ].
    cbn [bind] in *.
    destruct (piece_hash_from 0 (position s0) 0) as [ p | ] eqn:Ep;
      [ | discriminate ].
    destruct (castling_hash_of (castling s0) (opponent_castling s0))
      as [ c | ] eqn:Ec; [ | discriminate ].
    cbn [bind] in H.
    destruct (en_passant_hash_of (position s0) (en_passant s0)) as [ e | ]
      eqn:E; [ | discriminate ].
    cbn [bind] in H. injection H as <-.
    exists s0. eexists. split; [ reflexivity | ].
    split.
    { cbn [bind position castling opponent_castling en_passant
           with_en_passant].
      rewrite Ep. cbn [bind]. rewrite Ec. cbn [bind]. reflexivity. }
    apply en_passant_hash_cases in E. split.
    + intros Hc. rewrite Hc in E. exists e.
      split; [ exact E | ]. rewrite lxor_absorb. split; [ reflexivity | ].
      apply lxor_changes.
      eapply en_passant_key_nonzero; [ | exact E ].
      eapply capture_possible_rank. exact Hc.
    + intros Hc. rewrite Hc in E. subst e. reflexivity.
  - destruct (getitem HASH_VALUES 780) as [ t | ]; [ | discriminate ].
    cbn [bind] in *.
    destruct (piece_hash_from 0 (position s) 0) as [ p | ] eqn:Ep;
      [ | discriminate ].
    destruct (castling_hash_of (castling s) (opponent_castling s))
      as [ c | ] eqn:Ec; [ | discriminate ].
    cbn [bind] in H.
    destruct (en_passant_hash_of (position s) (en_passant s)) as [ e | ]
      eqn:E; [ | discriminate ].
    cbn [bind] in H. injection H as <-.
    exists s. eexists. split; [ reflexivity | ].
    split.
    { cbn [bind position castling opponent_castling en_passant
           with_en_passant].
      rewrite Ep. cbn [bind]. rewrite Ec. cbn [bind]. reflexivity. }
    apply en_passant_hash_cases in E. split.
    + intros Hc. rewrite Hc in E. exists e.
      split; [ exact E | ]. rewrite lxor_absorb. split; [ reflexivity | ].
      apply lxor_changes.
      eapply en_passant_key_nonzero; [ | exact E ].
      eapply capture_possible_rank. exact Hc.
    + intros Hc. rewrite Hc in E. subst e. reflexivity.
Qed.

(** A witness for C8: the PolyGlot test position after 1. a4 b5 2. h4 b4
    3. c4, Black to move with the en-passant square c3. *)
Lemma en_passant_hash_rule_witness :
  exists s0 h0,
    white_view
      (state_of_fen
         "rnbqkbnr/p1pppppp/8/8/PpP4P/8/1P1PPPP1/RNBQKBNR b KQkq c3 0 3")
      (lit "b") = Ok s0
    /\ zobrist_hash
         (with_en_passant
            (state_of_fen
               "rnbqkbnr/p1pppppp/8/8/PpP4P/8/1P1PPPP1/RNBQKBNR b KQkq c3 0 3")
            0)
         (lit "b") = Ok h0
    /\ (capture_possible (position s0) (en_passant s0) = true ->
        exists k,
          getitem HASH_VALUES (772 + en_passant s0 mod 10 - 1) = Ok k
          /\ 0x3C8123EA7B067637 = Z.lxor h0 k /\ 0x3C8123EA7B067637 <> h0)
    /\ (capture_possible (position s0) (en_passant s0) = false ->
        0x3C8123EA7B067637 = h0).
Proof.
  apply (@en_passant_hash_rule
           (state_of_fen
              "rnbqkbnr/p1pppppp/8/8/PpP4P/8/1P1PPPP1/RNBQKBNR b KQkq c3 0 3")
           (lit "b") 0x3C8123EA7B067637).
  vm_compute; reflexivity.
Defined.

(** ** The [go] command *)

(** C9, as stated, fails: on the empty board, a position without kings,
    [go] is not skipped: one node is searched and two lines are written,
    the second being [bestmove (none)]. *)
Lemma go_searches_without_kings :
  exists s,
    load_fen (lit "8/8/8/8/8/8/8/8 w - - 0 1") = Ok (s, lit "w")
    /\ count "K" (position s) = 0
    /\ count "k" (position s) = 0
    /\ let e := mkEngine s (lit "w") true in
       fst (go padded_tables [] no_draw [lit "go"] e (fresh 0))
       = Ok ([info_depth 1 (-88590) 1 []; bestmove (lit "(none)")], e).
Proof.
  eexists.
  split; [ vm_compute; reflexivity | ].
  split; [ vm_compute; reflexivity | ].
  split; [ vm_compute; reflexivity | ].
  vm_compute; reflexivity.
Qed.

(** A position that passes the shape test need not be one the search can
    handle: after [position startpos moves e2e8x] the board holds the
    letter X on e8, the test passes, and [go] raises [KeyError] from the
    lookup of that letter in [PIECE_ENCODINGS]. *)
Lemma go_raises_on_unknown_piece :
  exists e,
    position_command (words "position startpos moves e2e8x") ready_engine
    = Ok e
    /\ invalid_position e = false
    /\ fst (go padded_tables [] no_draw [lit "go"] e (fresh 0))
       = Raise KeyError.
Proof.
  eexists.
  split; [ vm_compute; reflexivity | ].
  split; [ vm_compute; reflexivity | ].
  vm_compute; reflexivity.
Qed.

(** C9: [go] is skipped, writing nothing and leaving the engine and the
    globals as they are, exactly when the position fails the shape test
    (lengths of the board string and of the two castling lists, ranges of
    the two squares, colour); kings and the consistency of the castling
    flags are not looked at.  A position that passes the test is not
    skipped, and whenever [go] then returns, the engine is kept as well and
    the last line written is a [bestmove] line. *)
Theorem go_skipped_iff_invalid (tables : pst)
    (OPENING_BOOKS : list (list book_record))
    (draw : list (move * Z) -> move) (tokens : list str) (e : engine)
    (g : globals) :
  (go tables OPENING_BOOKS draw tokens e g = (Ok ([], e), g)
   <-> invalid_position e = true)
  /\ (forall out e' g',
        go tables OPENING_BOOKS draw tokens e g = (Ok (out, e'), g') ->
        e' = e
        /\ (invalid_position e = false ->
            exists lines a, out = lines ++ [bestmove a])).
Proof.
  unfold go. destruct (invalid_position e) eqn:E.
  - split.
    + split; reflexivity.
    + intros out e' g' H. unfold ret in H. injection H as <- <- <-.
      split; [ reflexivity | discriminate ].
  - assert (H : forall out e' g',
               (depth <~ lift (go_depth tokens) ;;
                r <~ iteratively_deepen tables OPENING_BOOKS draw depth
                       (board e) (color e) ;;
                (let '(best_move, out) := r in
                 a <~ lift (algebraic_notation best_move (color e)) ;;
                 ret (out ++ [bestmove a], e))) g = (Ok (out, e'), g') ->
               e' = e /\ exists lines a, out = lines ++ [bestmove a]).
    { intros out e' g' H.
      apply mbind_ok in H. destruct H as [depth [g1 [_ H]]].
      apply mbind_ok in H. destruct H as [[best lines] [g2 [_ H]]].
      apply mbind_ok in H. destruct H as [a [g3 [_ H]]].
      unfold ret in H. injection H as <- <- <-. eauto. }
    split.
    + split; [ | discriminate ].
      intros H0. apply H in H0. destruct H0 as [_ [lines [a H0]]].
      destruct lines; discriminate.
    + intros out e' g' H0. apply H in H0. tauto.
Qed.

(** A witness for C9: the engine before any [position] command. *)
Lemma go_skipped_iff_invalid_witness :
  go padded_tables [] no_draw [lit "go"] ready_engine (fresh 0)
  = (Ok ([], ready_engine), fresh 0).
Proof.
  apply (proj1 (@go_skipped_iff_invalid padded_tables [] no_draw [lit "go"]
                  ready_engine (fresh 0))).
  reflexivity.
Defined.

(** ** Totality of the evaluation *)



(** * Further properties of the engine *)

(** ** Coordinates and move text *)

Lemma render_on_range (index : Z) :
  11 <= index <= 110 ->
  exists file rank,
    render_coordinates index = Ok [file; rank]
    /\ (48 <=? code rank) && (code rank <=? 57) = true
    /\ parse_coordinates [file; rank] = Ok index.
Proof.
  intros H.
  assert (A : forallb
                (fun i =>
                   match render_coordinates i with
                   | Ok [file; rank] =>
                       (48 <=? code rank) && (code rank <=? 57)
                       && match parse_coordinates [file; rank] with
                          | Ok j => j =? i
                          | Raise _ => false
                          end
                   | _ => false
                   end)
                (map (fun i => 11 + i) (range 100)) = true)
    by (vm_compute; reflexivity).
  rewrite forallb_forall in A.
  assert (I : In index (map (fun i => 11 + i) (range 100))).
  { apply in_map_iff. exists (index - 11). split; [ lia | ].
    apply in_range. lia. }
  specialize (A index I).
  destruct (render_coordinates index) as [ [ | file [ | rank [ | ? ? ] ] ] | ];
    try discriminate.
  apply andb_true_iff in A. destruct A as [D P].
  exists file, rank. split; [ reflexivity | ]. split; [ exact D | ].
  destruct (parse_coordinates [file; rank]) as [ j | ]; [ | discriminate ].
  apply Z.eqb_eq in P. subst j. reflexivity.
Qed.

Lemma in_letters (c : ascii) (lo hi : Z) (letters : str) :
  (forall x, lo <= x <= hi ->
             In (ascii_of_N (Z.to_N x)) letters) ->
  lo <= code c <= hi -> 0 <= lo -> In c letters.
Proof.
  intros H B L. specialize (H (code c) B).
  unfold code in H. rewrite N2Z.id, ascii_N_embedding in H. exact H.
Qed.

Lemma file_letters (c : ascii) :
  97 <= code c <= 104 -> In c (lit "abcdefgh").
Proof.
  intros H. apply (@in_letters c 97 104); [ | exact H | lia ].
  intros x Hx.
  assert (E : x = 97 \/ x = 98 \/ x = 99 \/ x = 100 \/ x = 101 \/ x = 102
              \/ x = 103 \/ x = 104) by lia.
  repeat (destruct E as [ -> | E ]; [ vm_compute; tauto | ]).
  subst x. vm_compute. tauto.
Qed.

Lemma rank_digits (c : ascii) :
  49 <= code c <= 56 -> In c (lit "12345678").
Proof.
  intros H. apply (@in_letters c 49 56); [ | exact H | lia ].
  intros x Hx.
  assert (E : x = 49 \/ x = 50 \/ x = 51 \/ x = 52 \/ x = 53 \/ x = 54
              \/ x = 55 \/ x = 56) by lia.
  repeat (destruct E as [ -> | E ]; [ vm_compute; tauto | ]).
  subst x. vm_compute. tauto.
Qed.

(** X1: [render_coordinates] followed by [parse_coordinates] gives the
    index back for every index from 11 to 110, which covers the whole
    playing area; the text is then one letter and one digit. *)
Theorem parse_render_coordinates (index : Z) :
  11 <= index <= 110 ->
  exists text,
    render_coordinates index = Ok text
    /\ length text = 2%nat
    /\ parse_coordinates text = Ok index.
Proof.
  intros H. destruct (@render_on_range index H) as [file [rank [R [_ P]]]].
  exists [file; rank]. split; [ exact R | ]. split; [ reflexivity | exact P ].
Qed.

Lemma parse_render_coordinates_witness :
  exists text,
    render_coordinates 85 = Ok text
    /\ length text = 2%nat
    /\ parse_coordinates text = Ok 85.
Proof. apply (@parse_render_coordinates 85). lia. Defined.

(** X2: a file letter from a to h followed by a rank digit from 1 to 8 is
    parsed to a square of the playing area, and that square is rendered as
    the same two characters. *)
Theorem render_parse_coordinates (file rank : ascii) :
  97 <= code file <= 104 ->
  49 <= code rank <= 56 ->
  exists index,
    parse_coordinates [file; rank] = Ok index
    /\ on_board index = true
    /\ render_coordinates index = Ok [file; rank].
Proof.
  intros F R. apply file_letters in F. apply rank_digits in R.
  assert (A : forallb
                (fun f =>
                   forallb
                     (fun r =>
                        match parse_coordinates [f; r] with
                        | Ok i =>
                            on_board i
                            && match render_coordinates i with
                               | Ok t => str_eqb t [f; r]
                               | Raise _ => false
                               end
                        | Raise _ => false
                        end)
                     (lit "12345678"))
                (lit "abcdefgh") = true)
    by (vm_compute; reflexivity).
  rewrite forallb_forall in A. specialize (A file F).
  rewrite forallb_forall in A. specialize (A rank R).
  destruct (parse_coordinates [file; rank]) as [ i | ]; [ | discriminate ].
  apply andb_true_iff in A. destruct A as [B T].
  exists i. split; [ reflexivity | ]. split; [ exact B | ].
  destruct (render_coordinates i) as [ t | ]; [ | discriminate ].
  apply str_eqb_eq in T. subst t. reflexivity.
Qed.

Lemma render_parse_coordinates_witness :
  exists index,
    parse_coordinates (lit "e4") = Ok index
    /\ on_board index = true
    /\ render_coordinates index = Ok (lit "e4").
Proof.
  apply (@render_parse_coordinates "e" "4"); vm_compute; split; discriminate.
Defined.

Lemma upper_lower_letter (c : ascii) :
  islower c = false -> upper (lower c) = c.
Proof. each_ascii c. Qed.

Lemma upper_lower_text (text : str) :
  existsb islower text = false -> map upper (map lower text) = text.
Proof.
  induction text as [ | c text IH ]; cbn [existsb map].
  - reflexivity.
  - intros H. apply orb_false_iff in H. destruct H as [H1 H2].
    rewrite (@upper_lower_letter c H1), (IH H2). reflexivity.
Qed.

Lemma replay_move_text (f1 r1 f2 r2 : ascii) (rest : str) (color : str)
    (s : state) :
  (48 <=? code r1) && (code r1 <=? 57) = true ->
  (48 <=? code r2) && (code r2 <=? 57) = true ->
  replay_move color 0 (f1 :: r1 :: f2 :: r2 :: rest) s
  = (start_square <- parse_coordinates [f1; r1] ;;
     end_square <- parse_coordinates [f2; r2] ;;
     make_move
       (if str_eqb color (lit "b") then 119 - start_square else start_square,
        if str_eqb color (lit "b") then 119 - end_square else end_square,
        [dot], map upper rest) s).
Proof.
  intros D1 D2. unfold replay_move.
  rewrite (@getitem_nth _ (f1 :: r1 :: f2 :: r2 :: rest) 1 blank)
    by (unfold len; cbn [length]; lia).
  rewrite (@getitem_nth _ (f1 :: r1 :: f2 :: r2 :: rest) 3 blank)
    by (unfold len; cbn [length]; lia).
  change (nth (Z.to_nat 1) (f1 :: r1 :: f2 :: r2 :: rest) blank) with r1.
  change (nth (Z.to_nat 3) (f1 :: r1 :: f2 :: r2 :: rest) blank) with r2.
  cbn [bind]. unfold str_isdigit. cbn [forallb].
  rewrite D1, D2.
  change (len [r1] =? 0) with false. change (len [r2] =? 0) with false.
  cbn [andb negb].
  change (slice (f1 :: r1 :: f2 :: r2 :: rest) 0 2) with [f1; r1].
  change (slice (f1 :: r1 :: f2 :: r2 :: rest) 2 4) with [f2; r2].
  change (skipn 4 (f1 :: r1 :: f2 :: r2 :: rest)) with rest.
  destruct (parse_coordinates [f1; r1]) as [ a | ]; [ | reflexivity ].
  destruct (parse_coordinates [f2; r2]) as [ b | ]; [ | reflexivity ].
  cbn [bind Nat.odd]. destruct (str_eqb color (lit "b")); reflexivity.
Qed.

(** X3: the engine reads its own move text.  For a move between two squares
    of the playing area whose promotion piece has no lower-case letter, the
    text [algebraic_notation] writes for the side to move is replayed by
    the [position] command, at the first ply, as [make_move] with the same
    squares and the same promotion piece. *)
Theorem replay_of_algebraic_notation (start_square end_square : Z)
    (piece_captured promotion_piece : str) (color : str) (s : state) :
  on_board start_square = true ->
  on_board end_square = true ->
  existsb islower promotion_piece = false ->
  exists text,
    algebraic_notation
      (start_square, end_square, piece_captured, promotion_piece) color
      = Ok text
    /\ replay_move color 0 text s
       = make_move (start_square, end_square, [dot], promotion_piece) s.
Proof.
  intros HS HE P.
  pose proof (@on_board_range start_square HS) as RS.
  pose proof (@on_board_range end_square HE) as RE.
  unfold algebraic_notation.
  assert (N : move_eqb (start_square, end_square, piece_captured,
                        promotion_piece) null_move = false).
  { unfold move_eqb, null_move.
    replace (start_square =? 0) with false by (symmetry; apply Z.eqb_neq; lia).
    reflexivity. }
  rewrite N.
  destruct (str_eqb color (lit "b")) eqn:C.
  - destruct (@render_on_range (119 - start_square) ltac:(lia))
      as [f1 [r1 [R1 [D1 P1]]]].
    destruct (@render_on_range (119 - end_square) ltac:(lia))
      as [f2 [r2 [R2 [D2 P2]]]].
    rewrite R1, R2. cbn [bind app].
    eexists. split; [ reflexivity | ].
    rewrite (@replay_move_text f1 r1 f2 r2 _ color s D1 D2).
    rewrite P1, P2, C. cbn [bind].
    rewrite (@upper_lower_text promotion_piece P).
    replace (119 - (119 - start_square)) with start_square by lia.
    replace (119 - (119 - end_square)) with end_square by lia.
    reflexivity.
  - destruct (@render_on_range start_square ltac:(lia))
      as [f1 [r1 [R1 [D1 P1]]]].
    destruct (@render_on_range end_square ltac:(lia))
      as [f2 [r2 [R2 [D2 P2]]]].
    rewrite R1, R2. cbn [bind app].
    eexists. split; [ reflexivity | ].
    rewrite (@replay_move_text f1 r1 f2 r2 _ color s D1 D2).
    rewrite P1, P2, C. cbn [bind].
    rewrite (@upper_lower_text promotion_piece P).
    reflexivity.
Qed.

Lemma replay_of_algebraic_notation_witness :
  exists text,
    algebraic_notation (85, 65, lit ".", []) (lit "w") = Ok text
    /\ replay_move (lit "w") 0 text startpos
       = make_move (85, 65, [dot], []) startpos.
Proof.
  apply (@replay_of_algebraic_notation 85 65 (lit ".") [] (lit "w") startpos);
    reflexivity.
Defined.

(** ** The arithmetic of the evaluation *)

(** X4: [manhattan_distance] is a metric on square indices: it is never
    negative, symmetric, zero exactly between a square and itself, and
    satisfies the triangle inequality. *)
Theorem manhattan_distance_metric (a b c : Z) :
  0 <= manhattan_distance a b
  /\ manhattan_distance a b = manhattan_distance b a
  /\ (manhattan_distance a b = 0 <-> a = b)
  /\ manhattan_distance a c <= manhattan_distance a b + manhattan_distance b c.
Proof.
  unfold manhattan_distance.
  pose proof (Z.div_mod a 10 ltac:(lia)).
  pose proof (Z.div_mod b 10 ltac:(lia)).
  split; [ lia | ]. split; [ lia | ]. split; [ | lia ].
  split; [ lia | intros ->; lia ].
Qed.

(** X5: [game_phase] is at most 256, and is 256 exactly when no knight,
    bishop, rook or queen is left; it is negative exactly when the weighted
    material exceeds 24, the weight of the initial position, which extra
    queens from promotions can bring about. *)
Theorem game_phase_range (position : str) :
  game_phase position = (256 * (24 - phase_weight position) + 12) / 24
  /\ game_phase position <= 256
  /\ (game_phase position = 256 <-> phase_weight position = 0)
  /\ (game_phase position < 0 <-> 24 < phase_weight position).
Proof.
  assert (W : 0 <= phase_weight position).
  { unfold phase_weight, KNIGHT_PHASE, BISHOP_PHASE, ROOK_PHASE, QUEEN_PHASE.
    pose proof (count_nonneg "N" position).
    pose proof (count_nonneg "n" position).
    pose proof (count_nonneg "B" position).
    pose proof (count_nonneg "b" position).
    pose proof (count_nonneg "R" position).
    pose proof (count_nonneg "r" position).
    pose proof (count_nonneg "Q" position).
    pose proof (count_nonneg "q" position). lia. }
  assert (E : game_phase position
              = (256 * (24 - phase_weight position) + 12) / 24).
  { unfold game_phase, phase_weight.
    change TOTAL_PHASE with 24. change (24 / 2) with 12.
    f_equal. lia. }
  split; [ exact E | ]. rewrite E.
  set (w := phase_weight position) in *. clearbody w.
  pose proof (Z.div_mod (256 * (24 - w) + 12) 24 ltac:(lia)) as D.
  pose proof (Z.mod_pos_bound (256 * (24 - w) + 12) 24 ltac:(lia)) as B.
  split; [ lia | ]. split; split; intros; lia.
Qed.

(** X6: for a phase between 0 and 256, [interpolate] returns a score
    between the midgame and the endgame score; it is the midgame score at
    phase 0 and the endgame score at phase 256. *)
Theorem interpolate_between (midgame_score endgame_score phase : Z) :
  0 <= phase <= 256 ->
  Z.min midgame_score endgame_score
    <= interpolate midgame_score endgame_score phase
    <= Z.max midgame_score endgame_score
  /\ interpolate midgame_score endgame_score 0 = midgame_score
  /\ interpolate midgame_score endgame_score 256 = endgame_score.
Proof.
  intros H. unfold interpolate. split; [ | split ].
  - set (n := midgame_score * (256 - phase) + endgame_score * phase).
    assert (L : 256 * Z.min midgame_score endgame_score <= n) by (subst n; nia).
    assert (U : n <= 256 * Z.max midgame_score endgame_score)
      by (subst n; nia).
    split.
    + apply Z.div_le_lower_bound; lia.
    + apply Z.div_le_upper_bound; lia.
  - replace (midgame_score * (256 - 0) + endgame_score * 0)
      with (midgame_score * 256) by lia.
    apply Z.div_mul. lia.
  - replace (midgame_score * (256 - 256) + endgame_score * 256)
      with (endgame_score * 256) by lia.
    apply Z.div_mul. lia.
Qed.

Lemma interpolate_between_witness :
  Z.min 40 (-20) <= interpolate 40 (-20) 128 <= Z.max 40 (-20)
  /\ interpolate 40 (-20) 0 = 40
  /\ interpolate 40 (-20) 256 = -20.
Proof. apply (@interpolate_between 40 (-20) 128). lia. Defined.

Lemma board_distance (a b : Z) :
  on_board a = true -> on_board b = true -> manhattan_distance a b <= 14.
Proof.
  unfold on_board, manhattan_distance.
  rewrite !andb_true_iff, !Z.leb_le. lia.
Qed.

Lemma king_on_board (c : ascii) (position : str) :
  board_ok position = true ->
  member c position = true ->
  isupper c || islower c = true ->
  on_board (king_square_of c position) = true
  /\ cell position (king_square_of c position) = c.
Proof.
  intros B M U.
  pose proof (@board_ok_length position B) as L.
  assert (K : 0 <= king_square_of c position < 120
              /\ cell position (king_square_of c position) = c).
  { unfold king_square_of. rewrite M. unfold find.
    destruct (find_from_spec c position 0) as [ H | [H1 H2] ].
    - exfalso. revert H. apply find_from_member; [ exact M | lia ].
    - unfold len in H1. split; [ lia | ].
      unfold cell. rewrite Z.sub_0_r in H2. exact H2. }
  destruct K as [R C]. split; [ | exact C ].
  pose proof (@board_ok_cell position _ B R) as O. rewrite C in O.
  apply orb_true_iff in U. destruct U as [ U | U ].
  - apply (@upper_cell _ _ O U).
  - apply (@lower_cell _ _ O U).
Qed.

(** X7: on a well-formed board that holds both kings the mop-up bonus is
    between 0 and 213, so it never turns the sign of the endgame score it
    is added to or taken from: a positive score does not get smaller, a
    negative one does not get larger, and zero stays zero. *)
Theorem mop_up_keeps_sign (position : str) (endgame_score : Z) :
  board_ok position = true ->
  member "K" position = true ->
  member "k" position = true ->
  0 <= mop_up_bonus position <= 213
  /\ (0 < endgame_score -> endgame_score <= with_mop_up position endgame_score)
  /\ (endgame_score < 0 -> with_mop_up position endgame_score <= endgame_score)
  /\ (endgame_score = 0 -> with_mop_up position endgame_score = 0).
Proof.
  intros B MK Mk.
  destruct (@king_on_board "K" position B MK eq_refl) as [OK CK].
  destruct (@king_on_board "k" position B Mk eq_refl) as [Ok' Ck].
  assert (D : 1 <= manhattan_distance (king_square_of "K" position)
                                      (king_square_of "k" position) <= 14).
  { split; [ | apply board_distance; assumption ].
    assert (N : king_square_of "K" position <> king_square_of "k" position).
    { intros E. rewrite E in CK. rewrite CK in Ck. discriminate. }
    pose proof (@manhattan_distance_pos _ _ N). lia. }
  assert (M : 0 <= mop_up_bonus position <= 213).
  { unfold mop_up_bonus. change MOP_UP_SCORE with 230.
    set (d := manhattan_distance _ _) in *. clearbody d.
    split.
    - apply Z.div_le_lower_bound; lia.
    - assert (230 * (14 - d) / 14 < 214); [ | lia ].
      apply Z.div_lt_upper_bound; lia. }
  split; [ exact M | ]. unfold with_mop_up.
  split; [ | split ]; intros H.
  - destruct (Z.gtb_spec endgame_score 0); lia.
  - destruct (Z.gtb_spec endgame_score 0); [ lia | ].
    destruct (Z.ltb_spec endgame_score 0); lia.
  - subst endgame_score. reflexivity.
Qed.

Lemma mop_up_keeps_sign_witness :
  0 <= mop_up_bonus INITIAL_POSITION <= 213
  /\ (0 < 5 -> 5 <= with_mop_up INITIAL_POSITION 5)
  /\ (5 < 0 -> with_mop_up INITIAL_POSITION 5 <= 5)
  /\ (5 = 0 -> with_mop_up INITIAL_POSITION 5 = 0).
Proof.
  apply (@mop_up_keeps_sign INITIAL_POSITION 5); vm_compute; reflexivity.
Defined.

(** ** The key of a position *)

Lemma hash_values_64 (v : Z) : In v HASH_VALUES -> 0 <= v < 2 ^ 64.
Proof.
  assert (A : forallb (fun v => (0 <=? v) && (v <? 2 ^ 64)) HASH_VALUES = true)
    by (vm_compute; reflexivity).
  rewrite forallb_forall in A. intros H. specialize (A v H).
  apply andb_true_iff in A. destruct A as [A1 A2].
  apply Z.leb_le in A1. apply Z.ltb_lt in A2. lia.
Qed.

Lemma lxor_64 (a b : Z) :
  0 <= a < 2 ^ 64 -> 0 <= b < 2 ^ 64 -> 0 <= Z.lxor a b < 2 ^ 64.
Proof.
  intros Ha Hb.
  assert (N : 0 <= Z.lxor a b) by (apply Z.lxor_nonneg; lia).
  split; [ exact N | ].
  destruct (Z.eq_dec (Z.lxor a b) 0) as [ E | E ]; [ rewrite E; lia | ].
  apply Z.log2_lt_pow2; [ lia | ].
  pose proof (Z.log2_lxor a b ltac:(lia) ltac:(lia)) as L.
  assert (La : Z.log2 a < 64).
  { destruct (Z.eq_dec a 0) as [ -> | Na ]; [ reflexivity | ].
    apply Z.log2_lt_pow2; lia. }
  assert (Lb : Z.log2 b < 64).
  { destruct (Z.eq_dec b 0) as [ -> | Nb ]; [ reflexivity | ].
    apply Z.log2_lt_pow2; lia. }
  lia.
Qed.

Lemma getitem_hash_64 (k v : Z) :
  getitem HASH_VALUES k = Ok v -> 0 <= v < 2 ^ 64.
Proof. intros H. apply hash_values_64. eapply getitem_In. exact H. Qed.

Lemma piece_key_64 (i : Z) (piece : ascii) (h h' : Z) :
  0 <= h < 2 ^ 64 -> piece_key i piece h = Ok h' -> 0 <= h' < 2 ^ 64.
Proof.
  intros B. unfold piece_key.
  destruct (negb (isspace piece) && negb (Ascii.eqb piece dot));
    [ | intros E; injection E as <-; exact B ].
  destruct (lookup PIECE_ENCODINGS piece) as [ e | ]; [ | discriminate ].
  cbn [bind].
  destruct (getitem HASH_VALUES (64 * e + 8 * (9 - i / 10) + (i mod 10 - 1)))
    as [ v | ] eqn:G; [ | discriminate ].
  cbn [bind]. intros E. injection E as <-.
  apply lxor_64; [ exact B | eapply getitem_hash_64; exact G ].
Qed.

Lemma piece_hash_from_64 (position : str) :
  forall i h h',
    0 <= h < 2 ^ 64 -> piece_hash_from i position h = Ok h' ->
    0 <= h' < 2 ^ 64.
Proof.
  induction position as [ | piece rest IH ]; intros i h h' B;
    cbn [piece_hash_from].
  - intros E. injection E as <-. exact B.
  - destruct (piece_key i piece h) as [ h1 | ] eqn:K; [ | discriminate ].
    cbn [bind]. apply IH. eapply piece_key_64; [ exact B | exact K ].
Qed.

Lemma xor_if_64 (flags : list bool) (i k h h' : Z) :
  0 <= h < 2 ^ 64 -> xor_if flags i k h = Ok h' -> 0 <= h' < 2 ^ 64.
Proof.
  intros B. unfold xor_if.
  destruct (getitem flags i) as [ [ | ] | ]; cbn [bind];
    [ | intros E; injection E as <-; exact B | discriminate ].
  destruct (getitem HASH_VALUES k) as [ v | ] eqn:G; [ | discriminate ].
  cbn [bind]. intros E. injection E as <-.
  apply lxor_64; [ exact B | eapply getitem_hash_64; exact G ].
Qed.

Lemma castling_hash_64 (castling opponent_castling : list bool) (h : Z) :
  castling_hash_of castling opponent_castling = Ok h -> 0 <= h < 2 ^ 64.
Proof.
  unfold castling_hash_of. intros H.
  apply bind_ok in H. destruct H as [h1 [H1 H]].
  apply bind_ok in H. destruct H as [h2 [H2 H]].
  apply bind_ok in H. destruct H as [h3 [H3 H]].
  eapply xor_if_64; [ | exact H ].
  eapply xor_if_64; [ | exact H3 ].
  eapply xor_if_64; [ | exact H2 ].
  eapply xor_if_64; [ | exact H1 ]. lia.
Qed.

Lemma en_passant_hash_64 (position : str) (ep h : Z) :
  en_passant_hash_of position ep = Ok h -> 0 <= h < 2 ^ 64.
Proof.
  unfold en_passant_hash_of, en_passant_key.
  repeat match goal with
         | |- context [ if ?b then _ else _ ] => destruct b
         | |- context [ bind (getitem position ?i) _ ] =>
             destruct (getitem position i); cbn [bind]
         end;
    try discriminate;
    try (intros E; injection E as <-; lia);
    apply getitem_hash_64.
Qed.

(** X8: every key [zobrist_hash] returns fits in 64 bits, the width of the
    key field of a PolyGlot book record. *)
Theorem zobrist_hash_64_bits (s : state) (color : str) (h : Z) :
  zobrist_hash s color = Ok h -> 0 <= h < 2 ^ 64.
Proof.
  unfold zobrist_hash. intros H.
  apply bind_ok in H. destruct H as [[s0 turn_hash] [H0 H]].
  apply bind_ok in H. destruct H as [piece_hash [HP H]].
  apply bind_ok in H. destruct H as [castling_hash [HC H]].
  apply bind_ok in H. destruct H as [en_passant_hash [HE H]].
  injection H as <-.
  assert (T : 0 <= turn_hash < 2 ^ 64).
  { destruct (str_eqb color (lit "b")).
    - apply bind_ok in H0. destruct H0 as [s' [_ H0]].
      injection H0 as _ <-. lia.
    - apply bind_ok in H0. destruct H0 as [t [G H0]].
      injection H0 as _ <-. eapply getitem_hash_64. exact G. }
  apply lxor_64; [ | exact T ].
  apply lxor_64; [ | eapply en_passant_hash_64; exact HE ].
  apply lxor_64; [ | eapply castling_hash_64; exact HC ].
  eapply piece_hash_from_64; [ | exact HP ]. lia.
Qed.

Lemma zobrist_hash_64_bits_witness :
  0 <= 0x463B96181691FC9C < 2 ^ 64.
Proof.
  apply (@zobrist_hash_64_bits startpos (lit "w")). vm_compute. reflexivity.
Defined.

Lemma rotate_position_with_king_passant (s : state) (kp : Z) :
  rotate_position (with_king_passant s kp)
  = (t <- rotate_position s ;; Ok (with_king_passant t (119 - kp))).
Proof.
  unfold rotate_position, with_king_passant. cbn [position castling
    opponent_castling en_passant king_passant].
  destruct (for_each (range 60) rotate_cells (position s)); reflexivity.
Qed.

(** X9: the key does not depend on [king_passant]: two states that differ
    only in that field have the same key, or make [zobrist_hash] raise the
    same exception. *)
Theorem zobrist_hash_ignores_king_passant (s : state) (kp : Z) (color : str) :
  zobrist_hash (with_king_passant s kp) color = zobrist_hash s color.
Proof.
  unfold zobrist_hash. destruct (str_eqb color (lit "b")).
  - rewrite rotate_position_with_king_passant.
    destruct (rotate_position s) as [ t | ]; reflexivity.
  - reflexivity.
Qed.


(** ** What [make_move] changes *)

Lemma no_more_rights_refl (l : list bool) : no_more_rights l l.
Proof. split; auto. Qed.

Lemma no_more_rights_trans (a b c : list bool) :
  no_more_rights a b -> no_more_rights b c -> no_more_rights a c.
Proof.
  intros [L1 H1] [L2 H2]. split; [ congruence | auto ].
Qed.

Lemma setitem_false_rights (l l' : list bool) (i : Z) :
  setitem l i false = Ok l' -> no_more_rights l l'.
Proof.
  unfold setitem. destruct (norm_index l i) as [ n | ] eqn:N; cbn [bind];
    [ | discriminate ].
  intros H. injection H as <-. split; [ apply length_update | ].
  intros k. destruct (Nat.lt_ge_cases n (length l)) as [ Hn | Hn ].
  - rewrite nth_update by exact Hn.
    destruct (Nat.eqb k n); [ discriminate | auto ].
  - unfold norm_index in N.
    destruct ((0 <=? i) && (i <? len l)) eqn:E.
    + injection N as <-. apply andb_true_iff in E. destruct E as [E1 E2].
      apply Z.leb_le in E1. apply Z.ltb_lt in E2. unfold len in E2. lia.
    + destruct ((- len l <=? i) && (i <? 0)) eqn:F; [ | discriminate ].
      injection N as <-. apply andb_true_iff in F. destruct F as [F1 F2].
      apply Z.leb_le in F1. apply Z.ltb_lt in F2. unfold len in *. lia.
Qed.

Lemma set_if_false_rights (b : bool) (l l' : list bool) (i : Z) :
  set_if b l i false = Ok l' -> no_more_rights l l'.
Proof.
  unfold set_if. destruct b.
  - apply setitem_false_rights.
  - intros H. injection H as <-. apply no_more_rights_refl.
Qed.

(** X11: [make_move] never grants a castling right.  Both flag lists keep
    their length, and a flag that is set after the move was set before
    it. *)
Theorem make_move_never_grants_castling (m : move) (s s' : state) :
  make_move m s = Ok s' ->
  no_more_rights (castling s) (castling s')
  /\ no_more_rights (opponent_castling s) (opponent_castling s').
Proof.
  intros H. destruct m as [[[start_square end_square] cap] promo].
  unfold make_move in H. cbv zeta in H.
  apply bind_ok in H. destruct H as [piece_moved [_ H]].
  apply bind_ok in H. destruct H as [lp1 [_ H]].
  apply bind_ok in H. destruct H as [lp2 [_ H]].
  apply bind_ok in H. destruct H as [c1 [C1 H]].
  apply bind_ok in H. destruct H as [c2 [C2 H]].
  apply bind_ok in H. destruct H as [o1 [O1 H]].
  apply bind_ok in H. destruct H as [o2 [O2 H]].
  apply set_if_false_rights in C1, C2, O1, O2.
  pose proof (no_more_rights_trans C1 C2) as C.
  pose proof (no_more_rights_trans O1 O2) as O.
  destruct (str_eqb piece_moved (lit "K")).
  - apply bind_ok in H. destruct H as [c3 [C3 H]].
    apply bind_ok in H. destruct H as [c4 [C4 H]].
    apply setitem_false_rights in C3, C4.
    apply bind_ok in H. destruct H as [[kp1 lp3] [_ H]].
    apply bind_ok in H. destruct H as [[kp2 lp4] [_ H]].
    injection H as <-. cbn [castling opponent_castling].
    split; [ | exact O ].
    exact (no_more_rights_trans C (no_more_rights_trans C3 C4)).
  - destruct (str_eqb piece_moved (lit "P")).
    + apply bind_ok in H. destruct H as [lp3 [_ H]].
      apply bind_ok in H. destruct H as [lp4 [_ H]].
      injection H as <-. split; assumption.
    + injection H as <-. split; assumption.
Qed.

Lemma make_move_never_grants_castling_witness :
  no_more_rights
    (castling startpos)
    (castling (match make_move (95, 85, [dot], []) startpos with
               | Ok t => t
               | Raise _ => startpos
               end))
  /\ no_more_rights
       (opponent_castling startpos)
       (opponent_castling (match make_move (95, 85, [dot], []) startpos with
                           | Ok t => t
                           | Raise _ => startpos
                           end)).
Proof.
  apply (@make_move_never_grants_castling (95, 85, [dot], []) startpos).
  vm_compute. reflexivity.
Defined.

Lemma length_concat_update (l : list str) (n : nat) (v : str) :
  Forall single l -> (n < length l)%nat ->
  (length (concat (update l n v)) + 1 = length l + length v)%nat.
Proof.
  intros F. revert n. induction F as [ | x l Hx Hl IH ]; intros n Hn.
  - cbn in Hn. lia.
  - destruct n as [ | n ]; cbn [update concat length].
    + rewrite length_app, (@length_concat_cells l Hl). lia.
    + rewrite length_app. cbn [length] in Hn.
      specialize (IH n ltac:(lia)). unfold single in Hx. lia.
Qed.

Lemma norm_index_bound {A : Type} (l : list A) (i : Z) (n : nat) :
  norm_index l i = Ok n -> (n < length l)%nat.
Proof.
  unfold norm_index.
  destruct ((0 <=? i) && (i <? len l)) eqn:E.
  - intros H. injection H as <-. apply andb_true_iff in E.
    destruct E as [E1 E2]. apply Z.leb_le in E1. apply Z.ltb_lt in E2.
    unfold len in E2. lia.
  - destruct ((- len l <=? i) && (i <? 0)) eqn:F; [ | discriminate ].
    intros H. injection H as <-. apply andb_true_iff in F.
    destruct F as [F1 F2]. apply Z.leb_le in F1. apply Z.ltb_lt in F2.
    unfold len in *. lia.
Qed.

(** X12: the length of the board string after [make_move].  A board of 120
    cells keeps its 120 cells, except when a pawn reaches the last rank:
    the promotion string then takes the place of one cell, so the board has
    119 cells more than the promotion string has characters, 119 for a
    promotion without a piece. *)
Theorem make_move_length_law (start_square end_square : Z)
    (piece_captured promotion_piece : str) (s s' : state) :
  length (position s) = 120%nat ->
  make_move (start_square, end_square, piece_captured, promotion_piece) s
    = Ok s' ->
  length (position s')
  = if cell_is_piece (position s) start_square "P"
       && (A8 <=? end_square) && (end_square <=? H8)
    then (119 + length promotion_piece)%nat
    else 120%nat.
Proof.
  intros L H.
  unfold make_move in H. cbv zeta in H.
  pose proof (@cells120_of_board (position s) L) as C0.
  apply bind_ok in H. destruct H as [piece_moved [Ep H]].
  pose proof (@getitem_cells _ _ _ C0 Ep) as Sp.
  apply bind_ok in H. destruct H as [lp1 [E1 H]].
  assert (C1 : cells120 lp1)
    by (eapply setitem_cells; [ exact C0 | | exact E1 ]; reflexivity).
  apply bind_ok in H. destruct H as [lp2 [E2 H]].
  assert (C2 : cells120 lp2)
    by (eapply setitem_cells; [ exact C1 | exact Sp | exact E2 ]).
  apply bind_ok in H. destruct H as [c1 [_ H]].
  apply bind_ok in H. destruct H as [c2 [_ H]].
  apply bind_ok in H. destruct H as [o1 [_ H]].
  apply bind_ok in H. destruct H as [o2 [_ H]].
  assert (Done : forall lp c o ep kp,
             cells120 lp ->
             length (position (mkState (concat lp) c o ep kp)) = 120%nat).
  { intros lp c o ep kp [F Ll]. cbn [position].
    rewrite length_concat_cells by exact F. exact Ll. }
  apply getitem_map in Ep. destruct Ep as [x [Ex Hx]]. subst piece_moved.
  unfold cell_is_piece. rewrite Ex.
  destruct (Ascii.eqb x "K") eqn:K.
  - apply Ascii.eqb_eq in K. subst x.
    change (str_eqb ["K"%char] (lit "K")) with true in H. cbv iota in H.
    change (Ascii.eqb "K" "P") with false. cbn [andb].
    apply bind_ok in H. destruct H as [c3 [_ H]].
    apply bind_ok in H. destruct H as [c4 [_ H]].
    apply bind_ok in H. destruct H as [[kp1 lp3] [E3 H]].
    assert (C3 : cells120 lp3).
    { destruct (start_square - end_square =? 2).
      - apply bind_ok in E3. destruct E3 as [l [El E3]].
        injection E3 as _ <-. eapply swap_items_cells; eauto.
      - injection E3 as _ <-. exact C2. }
    apply bind_ok in H. destruct H as [[kp2 lp4] [E4 H]].
    assert (C4 : cells120 lp4).
    { destruct (end_square - start_square =? 2).
      - apply bind_ok in E4. destruct E4 as [l [El E4]].
        injection E4 as _ <-. eapply swap_items_cells; eauto.
      - injection E4 as _ <-. exact C3. }
    injection H as <-. apply Done. exact C4.
  - assert (NK : str_eqb [x] (lit "K") = false).
    { cbn [str_eqb lit list_ascii_of_string]. rewrite K. reflexivity. }
    rewrite NK in H.
    assert (EP : str_eqb [x] (lit "P") = Ascii.eqb x "P").
    { cbn [str_eqb lit list_ascii_of_string]. apply andb_true_r. }
    rewrite EP in H. destruct (Ascii.eqb x "P").
    + apply bind_ok in H. destruct H as [lp3 [E3 H]].
      assert (C3 : cells120 lp3)
        by (eapply set_if_cells; [ exact C2 | | exact E3 ];
            intros _; reflexivity).
      apply bind_ok in H. destruct H as [lp4 [E4 H]].
      injection H as <-. cbn [position andb].
      unfold set_if in E4.
      destruct ((A8 <=? end_square) && (end_square <=? H8)).
      * unfold setitem in E4.
        destruct (norm_index lp3 end_square) as [ n | ] eqn:N;
          cbn [bind] in E4; [ | discriminate ].
        injection E4 as <-. apply norm_index_bound in N.
        destruct C3 as [F3 L3].
        pose proof (@length_concat_update lp3 n promotion_piece F3 N) as Q.
        unfold str in *. lia.
      * injection E4 as <-. destruct C3 as [F3 L3].
        rewrite length_concat_cells by exact F3. exact L3.
    + injection H as <-. cbn [andb]. apply Done. exact C2.
Qed.

Lemma make_move_length_law_witness :
  length
    (position
       (match make_move (31, 21, [dot], [])
                (state_of_fen "8/P7/8/8/8/8/8/k6K w - - 0 1") with
        | Ok t => t
        | Raise _ => startpos
        end))
  = if cell_is_piece
         (position (state_of_fen "8/P7/8/8/8/8/8/k6K w - - 0 1")) 31 "P"
       && (A8 <=? 21) && (21 <=? H8)
    then (119 + length (@nil ascii))%nat
    else 120%nat.
Proof.
  apply (@make_move_length_law 31 21 [dot] []
           (state_of_fen "8/P7/8/8/8/8/8/k6K w - - 0 1")).
  - vm_compute. reflexivity.
  - vm_compute. reflexivity.
Defined.

Lemma update_map_box (l : str) (n : nat) (c : ascii) :
  update (map (fun x => [x]) l) n [c] = map (fun x => [x]) (update l n c).
Proof.
  revert n. induction l as [ | x l IH ]; intros [ | n ];
    cbn [map update]; try reflexivity.
  rewrite IH. reflexivity.
Qed.

Lemma concat_map_box (l : str) : concat (map (fun x => [x]) l) = l.
Proof.
  induction l as [ | x l IH ]; cbn [map concat app]; [ reflexivity | ].
  rewrite IH. reflexivity.
Qed.

Lemma flags_pair (l : list bool) :
  len l = 2 -> exists a b, l = [a; b].
Proof.
  unfold len. destruct l as [ | a [ | b [ | c l ] ] ]; cbn [length]; try lia.
  intros _. eauto.
Qed.

Lemma set_if_pair (b a0 a1 : bool) (i : Z) :
  i = 0 \/ i = 1 ->
  exists x y, set_if b [a0; a1] i false = Ok [x; y].
Proof.
  intros [ -> | -> ]; destruct b; do 2 eexists; reflexivity.
Qed.

(** X13: a move of a knight, bishop, rook or queen, or of any cell that
    holds neither K nor P, changes two cells and nothing else.  On a board
    of 120 cells with two flags on either side, [make_move] returns; the
    start cell becomes empty, the end cell takes what the start cell held,
    every other cell and the en-passant square are as before, and
    [king_passant] is 0. *)
Theorem make_move_plain (start_square end_square : Z)
    (piece_captured promotion_piece : str) (s : state) :
  length (position s) = 120%nat ->
  len (castling s) = 2 ->
  len (opponent_castling s) = 2 ->
  0 <= start_square < 120 ->
  0 <= end_square < 120 ->
  cell (position s) start_square <> "K"%char ->
  cell (position s) start_square <> "P"%char ->
  exists s',
    make_move (start_square, end_square, piece_captured, promotion_piece) s
      = Ok s'
    /\ (forall j, 0 <= j < 120 ->
                  cell (position s') j
                  = if j =? end_square then cell (position s) start_square
                    else if j =? start_square then dot
                    else cell (position s) j)
    /\ en_passant s' = en_passant s
    /\ king_passant s' = 0.
Proof.
  intros L LC LO HS HE NK NP.
  destruct (@flags_pair _ LC) as [a0 [a1 EC]].
  destruct (@flags_pair _ LO) as [b0 [b1 EO]].
  unfold make_move. cbv zeta.
  assert (Lb : len (map (fun c => [c]) (position s)) = 120)
    by (unfold len; rewrite length_map; lia).
  rewrite (@getitem_nth _ _ start_square []) by lia.
  cbn [bind].
  assert (B : nth (Z.to_nat start_square) (map (fun c => [c]) (position s)) []
              = [cell (position s) start_square]).
  { unfold cell.
    rewrite (nth_indep _ [] ((fun c => [c]) blank))
      by (rewrite length_map; lia).
    apply (map_nth (fun c => [c])). }
  rewrite B. set (piece := cell (position s) start_square) in *.
  rewrite setitem_update by lia. cbn [bind].
  rewrite update_map_box.
  rewrite setitem_update
    by (unfold len; rewrite length_map, length_update; lia).
  cbn [bind]. rewrite update_map_box.
  rewrite EC, EO.
  destruct (@set_if_pair (start_square =? A1) a0 a1 0 ltac:(lia))
    as [x0 [x1 X]].
  rewrite X. cbn [bind].
  destruct (@set_if_pair (start_square =? H1) x0 x1 1 ltac:(lia))
    as [y0 [y1 Y]].
  rewrite Y. cbn [bind].
  destruct (@set_if_pair (end_square =? A8) b0 b1 0 ltac:(lia))
    as [u0 [u1 U]].
  rewrite U. cbn [bind].
  destruct (@set_if_pair (end_square =? H8) u0 u1 1 ltac:(lia))
    as [v0 [v1 V]].
  rewrite V. cbn [bind].
  assert (FK : str_eqb [piece] (lit "K") = false).
  { cbn [str_eqb lit list_ascii_of_string]. rewrite andb_true_r.
    apply Ascii.eqb_neq. exact NK. }
  assert (FP : str_eqb [piece] (lit "P") = false).
  { cbn [str_eqb lit list_ascii_of_string]. rewrite andb_true_r.
    apply Ascii.eqb_neq. exact NP. }
  rewrite FK, FP. eexists. split; [ reflexivity | ].
  cbn [position en_passant king_passant].
  split; [ | split; reflexivity ].
  intros j Hj. rewrite concat_map_box.
  rewrite cell_update by (unfold len; rewrite ?length_update; lia).
  destruct (j =? end_square); [ reflexivity | ].
  rewrite cell_update by (unfold len; lia). reflexivity.
Qed.

Lemma make_move_plain_witness :
  exists s',
    make_move (92, 73, [dot], []) startpos = Ok s'
    /\ (forall j, 0 <= j < 120 ->
                  cell (position s') j
                  = if j =? 73 then cell (position startpos) 92
                    else if j =? 92 then dot
                    else cell (position startpos) j)
    /\ en_passant s' = en_passant startpos
    /\ king_passant s' = 0.
Proof.
  apply (@make_move_plain 92 73 [dot] [] startpos);
    try reflexivity; try lia; vm_compute; discriminate.
Defined.

(** ** Opening-book entries *)

Lemma merge_entry_weight (e : move * Z) (l : list (move * Z)) :
  weight_sum (merge_entry e l) = weight_sum l + snd e.
Proof.
  induction l as [ | x l IH ]; cbn [merge_entry weight_sum fold_right].
  - cbn [snd]. lia.
  - destruct (move_eqb (fst x) (fst e)); cbn [weight_sum fold_right snd].
    + fold (weight_sum l). lia.
    + fold (weight_sum (merge_entry e l)). fold (weight_sum l).
      rewrite IH. lia.
Qed.

Lemma merge_entry_moves (e : move * Z) (l : list (move * Z)) (m : move) :
  In m (map fst (merge_entry e l)) <-> m = fst e \/ In m (map fst l).
Proof.
  induction l as [ | x l IH ]; cbn [merge_entry map In].
  - cbn [fst]. intuition congruence.
  - destruct (move_eqb (fst x) (fst e)) eqn:E; cbn [map In fst].
    + apply move_eqb_eq in E. rewrite E. intuition congruence.
    + rewrite IH. tauto.
Qed.

Lemma merge_entry_distinct (e : move * Z) (l : list (move * Z)) :
  NoDup (map fst l) -> NoDup (map fst (merge_entry e l)).
Proof.
  induction l as [ | x l IH ]; cbn [merge_entry map]; intros N.
  - constructor; [ intros [] | constructor ].
  - inversion N as [ | y ys Hy Hys ]; subst.
    destruct (move_eqb (fst x) (fst e)) eqn:E; cbn [map fst].
    + constructor; assumption.
    + constructor; [ | apply IH; exact Hys ].
      rewrite merge_entry_moves. intros [ F | F ]; [ | exact (Hy F) ].
      assert (T : move_eqb (fst x) (fst e) = true)
        by (apply move_eqb_eq; exact F).
      rewrite T in E. discriminate.
Qed.

(** X14: merging the entries of a book into the list of [book_entries]
    keeps every move at most once, adds up the weights, so that the total
    weight of the list grows by the total weight of the entries, and leaves
    exactly the moves of the list and of the entries. *)
Theorem merge_entries_invariant (entries total_entries : list (move * Z)) :
  NoDup (map fst total_entries) ->
  NoDup (map fst (merge_entries entries total_entries))
  /\ weight_sum (merge_entries entries total_entries)
     = weight_sum total_entries + weight_sum entries
  /\ (forall m, In m (map fst (merge_entries entries total_entries))
                <-> In m (map fst total_entries) \/ In m (map fst entries)).
Proof.
  unfold merge_entries. revert total_entries.
  induction entries as [ | e entries IH ]; intros total_entries N;
    cbn [fold_left].
  - cbn [weight_sum fold_right map In]. split; [ exact N | ].
    split; [ lia | tauto ].
  - destruct (IH (merge_entry e total_entries)
                 (@merge_entry_distinct e total_entries N)) as [D [W M]].
    split; [ exact D | ]. split.
    + rewrite W, merge_entry_weight. cbn [weight_sum fold_right].
      fold (weight_sum entries). lia.
    + intros m. rewrite M, merge_entry_moves. cbn [map In]. intuition.
Qed.

Lemma merge_entries_invariant_witness :
  NoDup (map fst (merge_entries [((85, 65, [dot], []), 3);
                                 ((84, 64, [dot], []), 2);
                                 ((85, 65, [dot], []), 4)] []))
  /\ weight_sum (merge_entries [((85, 65, [dot], []), 3);
                                ((84, 64, [dot], []), 2);
                                ((85, 65, [dot], []), 4)] [])
     = weight_sum [] + weight_sum [((85, 65, [dot], []), 3);
                                   ((84, 64, [dot], []), 2);
                                   ((85, 65, [dot], []), 4)]
  /\ (forall m,
         In m (map fst (merge_entries [((85, 65, [dot], []), 3);
                                       ((84, 64, [dot], []), 2);
                                       ((85, 65, [dot], []), 4)] []))
         <-> In m (map fst (@nil (move * Z)))
             \/ In m (map fst [((85, 65, [dot], []), 3);
                               ((84, 64, [dot], []), 2);
                               ((85, 65, [dot], []), 4)])).
Proof.
  apply (@merge_entries_invariant
           [((85, 65, [dot], []), 3); ((84, 64, [dot], []), 2);
            ((85, 65, [dot], []), 4)] []).
  constructor.
Defined.

Lemma land_63 (x : Z) : 0 <= Z.land x 63 < 64.
Proof.
  change 63 with (Z.ones 6). rewrite Z.land_ones by lia.
  apply Z.mod_pos_bound. reflexivity.
Qed.

Lemma land_7 (x : Z) : 0 <= Z.land x 7 < 8.
Proof.
  change 7 with (Z.ones 3). rewrite Z.land_ones by lia.
  apply Z.mod_pos_bound. reflexivity.
Qed.

Lemma book_squares_on_board (color : str) (a b : Z) :
  0 <= a < 64 -> 0 <= b < 64 ->
  on_board (fst (book_squares color a b)) = true
  /\ on_board (snd (book_squares color a b)) = true.
Proof.
  intros Ha Hb.
  assert (A : forall side : bool,
             forallb
               (fun a =>
                  forallb
                    (fun b =>
                       on_board
                         (fst (book_squares (if side then lit "b" else lit "w")
                                            a b))
                       && on_board
                            (snd (book_squares
                                    (if side then lit "b" else lit "w") a b)))
                    (range 64))
               (range 64) = true)
    by (intros [ | ]; vm_compute; reflexivity).
  assert (C : book_squares color a b
              = book_squares (if str_eqb color (lit "b")
                              then lit "b" else lit "w") a b).
  { unfold book_squares. destruct (str_eqb color (lit "b")); reflexivity. }
  rewrite C. specialize (A (str_eqb color (lit "b"))).
  rewrite forallb_forall in A.
  specialize (A a ltac:(apply in_range; lia)).
  rewrite forallb_forall in A.
  specialize (A b ltac:(apply in_range; lia)).
  apply andb_true_iff in A. exact A.
Qed.

Lemma decode_entry_value (position : str) (color : str) (raw_move : Z) :
  decode_entry position color raw_move
  = (promotion_piece <-
       DECODED_PROMOTION_PIECES (Z.land (Z.shiftr raw_move 12) 0x7) ;;
     c <- getitem position
            (snd (book_squares color (Z.land (Z.shiftr raw_move 6) 0x3f)
                               (Z.land raw_move 0x3f))) ;;
     Ok (fst (book_squares color (Z.land (Z.shiftr raw_move 6) 0x3f)
                           (Z.land raw_move 0x3f)),
         snd (book_squares color (Z.land (Z.shiftr raw_move 6) 0x3f)
                           (Z.land raw_move 0x3f)),
         [c], promotion_piece)).
Proof.
  unfold decode_entry, book_squares. cbv zeta.
  destruct (DECODED_PROMOTION_PIECES (Z.land (Z.shiftr raw_move 12) 7));
    [ | reflexivity ].
  cbn [bind]. destruct (str_eqb color (lit "b")); reflexivity.
Qed.

(** X15: the squares of a book move are always on the board.  On a board
    of 120 cells [decode_entry] returns for every raw move whose promotion
    field is at most 4: both squares lie in the playing area, for either
    colour and after the castling adjustment, and the captured piece is the
    content of the end cell.  A promotion field of 5, 6 or 7 raises
    [KeyError]. *)
Theorem decode_entry_on_board (position : str) (color : str) (raw_move : Z) :
  length position = 120%nat ->
  if Z.land (Z.shiftr raw_move 12) 0x7 <=? 4 then
    exists start_square end_square promotion_piece,
      decode_entry position color raw_move
      = Ok (start_square, end_square, [cell position end_square],
            promotion_piece)
      /\ on_board start_square = true
      /\ on_board end_square = true
  else decode_entry position color raw_move = Raise KeyError.
Proof.
  intros L. rewrite decode_entry_value.
  pose proof (land_7 (Z.shiftr raw_move 12)) as P.
  pose proof (land_63 (Z.shiftr raw_move 6)) as A.
  pose proof (land_63 raw_move) as B.
  destruct (@book_squares_on_board color _ _ A B) as [O1 O2].
  set (sq := book_squares color _ _) in *. clearbody sq.
  set (p := Z.land (Z.shiftr raw_move 12) 7) in *. clearbody p.
  assert (C : p = 0 \/ p = 1 \/ p = 2 \/ p = 3 \/ p = 4 \/ p = 5 \/ p = 6
              \/ p = 7) by lia.
  pose proof (@on_board_range _ O2) as R.
  assert (G : getitem position (snd sq) = Ok (cell position (snd sq))).
  { unfold cell. apply getitem_nth. unfold len. lia. }
  repeat (destruct C as [ -> | C ];
          [ cbn [Z.leb Z.compare Pos.compare Pos.compare_cont
                 DECODED_PROMOTION_PIECES Z.eqb Pos.eqb bind];
            first [ reflexivity
                  | rewrite G; cbn [bind]; do 3 eexists;
                    split; [ reflexivity | split; assumption ] ] | ]).
  subst p. reflexivity.
Qed.

Lemma decode_entry_on_board_witness :
  if Z.land (Z.shiftr 796 12) 0x7 <=? 4 then
    exists start_square end_square promotion_piece,
      decode_entry INITIAL_POSITION (lit "w") 796
      = Ok (start_square, end_square, [cell INITIAL_POSITION end_square],
            promotion_piece)
      /\ on_board start_square = true
      /\ on_board end_square = true
  else decode_entry INITIAL_POSITION (lit "w") 796 = Raise KeyError.
Proof.
  apply (@decode_entry_on_board INITIAL_POSITION (lit "w") 796).
  reflexivity.
Defined.

(** ** The padded tables *)

(** X16: padding a table of 64 entries gives 120 entries laid out like the
    board: the entry of row [r] and column [c] of the table is found at the
    index of the cell in row [r + 2] and column [c + 1], and every entry
    outside the playing area is 0. *)
Theorem pad_table_layout (table : list Z) :
  length table = 64%nat ->
  length (pad_table table) = 120%nat
  /\ forall i, 0 <= i < 120 ->
       nth (Z.to_nat i) (pad_table table) 0
       = if on_board i
         then nth (Z.to_nat (8 * (i / 10 - 2) + (i mod 10 - 1))) table 0
         else 0.
Proof.
  intros L.
  do 64 (destruct table as [ | ? table ]; [ discriminate L | ]).
  destruct table; [ | discriminate L ]. clear L.
  split; [ reflexivity | ].
  assert (A : Forall
                (fun i =>
                   nth (Z.to_nat i)
                     (pad_table
                        [z; z0; z1; z2; z3; z4; z5; z6; z7; z8; z9; z10; z11;
                         z12; z13; z14; z15; z16; z17; z18; z19; z20; z21;
                         z22; z23; z24; z25; z26; z27; z28; z29; z30; z31;
                         z32; z33; z34; z35; z36; z37; z38; z39; z40; z41;
                         z42; z43; z44; z45; z46; z47; z48; z49; z50; z51;
                         z52; z53; z54; z55; z56; z57; z58; z59; z60; z61;
                         z62]) 0
                   = if on_board i
                     then nth (Z.to_nat (8 * (i / 10 - 2) + (i mod 10 - 1)))
                            [z; z0; z1; z2; z3; z4; z5; z6; z7; z8; z9; z10;
                             z11; z12; z13; z14; z15; z16; z17; z18; z19;
                             z20; z21; z22; z23; z24; z25; z26; z27; z28;
                             z29; z30; z31; z32; z33; z34; z35; z36; z37;
                             z38; z39; z40; z41; z42; z43; z44; z45; z46;
                             z47; z48; z49; z50; z51; z52; z53; z54; z55;
                             z56; z57; z58; z59; z60; z61; z62] 0
                     else 0)
                (range 120)).
  { unfold range. cbn [seq map Z.of_nat Pos.of_succ_nat Pos.succ].
    repeat (constructor; [ reflexivity | ]). constructor. }
  rewrite Forall_forall in A. intros i Hi. apply A. apply in_range. lia.
Qed.

Lemma pad_table_layout_witness :
  length (pad_table MIDGAME_PAWN_TABLE) = 120%nat
  /\ forall i, 0 <= i < 120 ->
       nth (Z.to_nat i) (pad_table MIDGAME_PAWN_TABLE) 0
       = if on_board i
         then nth (Z.to_nat (8 * (i / 10 - 2) + (i mod 10 - 1)))
                MIDGAME_PAWN_TABLE 0
         else 0.
Proof. apply (@pad_table_layout MIDGAME_PAWN_TABLE). reflexivity. Defined.

(** ** The principal variation *)

(** X17: [principal_variation] follows the transposition table without
    writing to it: it returns at most [length] moves and leaves the globals
    as they were; without an entry for the position, or with a length of 0,
    it returns no move. *)
Theorem principal_variation_bounded (n : nat) (s : state) (color : str)
    (g g' : globals) (pv : list move) :
  principal_variation n s color g = (Ok pv, g') ->
  (length pv <= n)%nat /\ g' = g.
Proof.
  revert s color g g' pv.
  induction n as [ | n IH ]; intros s color g g' pv H.
  - cbn [principal_variation] in H.
    apply mbind_ok in H. destruct H as [key [g1 [K H]]].
    apply lift_ok in K. destruct K as [_ ->].
    apply mbind_ok in H. destruct H as [result [g2 [T H]]].
    unfold table_get in T. injection T as _ <-.
    destruct result as [ [[best_move d] sc] | ]; unfold ret in H;
      injection H as <- <-; split; [ cbn; lia | reflexivity | cbn; lia
                                   | reflexivity ].
  - cbn [principal_variation] in H.
    apply mbind_ok in H. destruct H as [key [g1 [K H]]].
    apply lift_ok in K. destruct K as [_ ->].
    apply mbind_ok in H. destruct H as [result [g2 [T H]]].
    unfold table_get in T. injection T as _ <-.
    destruct result as [ [[best_move d] sc] | ].
    + apply mbind_ok in H. destruct H as [new_position [g3 [P H]]].
      apply lift_ok in P. destruct P as [_ ->].
      apply mbind_ok in H. destruct H as [rest [g4 [R H]]].
      apply IH in R. destruct R as [R ->].
      unfold ret in H. injection H as <- <-.
      split; [ cbn [length]; lia | reflexivity ].
    + unfold ret in H. injection H as <- <-.
      split; [ cbn; lia | reflexivity ].
Qed.

(** A table that answers every key with the move from cell 85 to cell 65:
    the variation follows it for White and for Black and is cut at the
    length 2, and the globals are as before. *)
Lemma principal_variation_bounded_witness :
  (length [(85%Z, 65%Z, [dot], @nil ascii); (85%Z, 65%Z, [dot], @nil ascii)]
   <= 2)%nat
  /\ mkGlobals 2 0 false (fun _ => Some ((85, 65, [dot], []), 1, 0))
               (fun _ => false) 0
     = mkGlobals 2 0 false (fun _ => Some ((85, 65, [dot], []), 1, 0))
                 (fun _ => false) 0.
Proof.
  apply (@principal_variation_bounded 2 startpos (lit "w")
           (mkGlobals 2 0 false (fun _ => Some ((85, 65, [dot], []), 1, 0))
                      (fun _ => false) 0)).
  vm_compute. reflexivity.
Defined.

(** ** The [moves] list of the [position] command *)

Lemma replay_last_ply (color : str) (moves : list str) :
  forall ply s s' k,
    replay color ply moves s = Ok (s', k) ->
    k = Nat.pred (ply + length moves).
Proof.
  induction moves as [ | mv moves IH ]; intros ply s s' k H;
    cbn [replay] in H.
  - injection H as _ <-. rewrite Nat.add_0_r. reflexivity.
  - apply bind_ok in H. destruct H as [s1 [_ H]].
    apply IH in H. subst k. cbn [length]. lia.
Qed.

(** X18: the side to move after [position startpos moves ...].  When the
    command returns, Black is to move after an odd number of move tokens
    and White after an even number of them, except that an empty list
    after the word [moves] also leaves Black to move, on the rotated
    initial position. *)
Theorem position_startpos_color (moves : list str) (e e' : engine) :
  position_command
    (lit "position" :: lit "startpos" :: lit "moves" :: moves) e = Ok e' ->
  color e' = (if Nat.eqb (length moves) 0 || Nat.odd (length moves)
              then lit "b" else lit "w")
  /\ (moves = [] ->
      exists t, rotate_position startpos = Ok t
                /\ board e' = with_king_passant t 0).
Proof.
  intros H. unfold position_command in H.
  change (len (lit "position" :: lit "startpos" :: lit "moves" :: moves))
    with (Z.of_nat (3 + length moves)) in H.
  replace (2 <=? Z.of_nat (3 + length moves)) with true in H
    by (symmetry; apply Z.leb_le; lia).
  change (str_eqb (nth 1 (lit "position" :: lit "startpos" :: lit "moves"
                          :: moves) []) (lit "startpos")) with true in H.
  cbn [andb bind] in H.
  change (index_of (lit "moves")
            (lit "position" :: lit "startpos" :: lit "moves" :: moves) 0)
    with (Some 2) in H.
  cbv iota beta in H. change (2 + 1 <? 3) with false in H. cbv iota in H.
  change (skipn (Z.to_nat (2 + 1))
            (lit "position" :: lit "startpos" :: lit "moves" :: moves))
    with moves in H.
  cbn [color board initialized] in H.
  apply bind_ok in H. destruct H as [[s k] [R H]].
  pose proof (@replay_last_ply _ _ _ _ _ _ R) as K. cbn [Nat.add] in K.
  split.
  - destruct (Nat.even k) eqn:E.
    + apply bind_ok in H. destruct H as [s1 [_ H]]. injection H as <-.
      cbn [color]. subst k.
      destruct moves as [ | mv moves ]; [ reflexivity | ].
      cbn [length Nat.pred] in E. cbn [length Nat.eqb orb].
      rewrite Nat.odd_succ, E. reflexivity.
    + injection H as <-. cbn [color]. subst k.
      destruct moves as [ | mv moves ]; [ discriminate E | ].
      cbn [length Nat.pred] in E. cbn [length Nat.eqb orb].
      rewrite Nat.odd_succ, E. reflexivity.
  - intros ->. cbn [replay] in R. injection R as <- <-.
    cbn [Nat.even] in H. apply bind_ok in H. destruct H as [s1 [E1 H]].
    injection H as <-. cbn [board]. exists s1. split; [ exact E1 | ].
    reflexivity.
Qed.

Lemma position_startpos_color_witness :
  color (match position_command (words "position startpos moves")
                 ready_engine with
         | Ok e => e
         | Raise _ => ready_engine
         end)
  = (if Nat.eqb (length (@nil str)) 0 || Nat.odd (length (@nil str))
     then lit "b" else lit "w")
  /\ (@nil str = [] ->
      exists t,
        rotate_position startpos = Ok t
        /\ board (match position_command (words "position startpos moves")
                         ready_engine with
                  | Ok e => e
                  | Raise _ => ready_engine
                  end)
           = with_king_passant t 0).
Proof.
  apply (@position_startpos_color [] ready_engine).
  vm_compute. reflexivity.
Defined.

(** X19: a move token shorter than four characters is never played.  It
    makes the [position] command raise [IndexError], unless it has a second
    character that is not a digit, in which case it is skipped and the
    state stays as it is. *)
Theorem replay_move_short_token (color : str) (ply : nat) (mv : str)
    (s : state) :
  (length mv < 4)%nat ->
  replay_move color ply mv s
  = match mv with
    | _ :: d :: _ =>
        if (48 <=? code d) && (code d <=? 57) then Raise IndexError else Ok s
    | _ => Raise IndexError
    end.
Proof.
  intros L. unfold replay_move, str_isdigit.
  destruct mv as [ | a [ | d [ | b [ | c mv ] ] ] ];
    try reflexivity.
  - change (getitem [a; d] 1) with (Ok d). cbn [bind forallb].
    change (len [d] =? 0) with false. cbn [negb andb].
    rewrite andb_true_r.
    destruct ((48 <=? code d) && (code d <=? 57)); reflexivity.
  - change (getitem [a; d; b] 1) with (Ok d). cbn [bind forallb].
    change (len [d] =? 0) with false. cbn [negb andb].
    rewrite andb_true_r.
    destruct ((48 <=? code d) && (code d <=? 57)); reflexivity.
  - cbn [length] in L. lia.
Qed.

Lemma replay_move_short_token_witness :
  replay_move (lit "w") 0 (lit "e2") startpos
  = match lit "e2" with
    | _ :: d :: _ =>
        if (48 <=? code d) && (code d <=? 57) then Raise IndexError
        else Ok startpos
    | _ => Raise IndexError
    end.
Proof.
  apply (@replay_move_short_token (lit "w") 0 (lit "e2") startpos).
  cbn. lia.
Defined.

(** ** What the search does to the globals *)

Lemma search_step_refl (g : globals) : search_step g g.
Proof. unfold search_step. repeat split; auto; lia. Qed.

Lemma search_step_trans (a b c : globals) :
  search_step a b -> search_step b c -> search_step a c.
Proof.
  unfold search_step.
  intros [M1 [C1 [P1 [N1 [T1 E1]]]]] [M2 [C2 [P2 [N2 [T2 E2]]]]].
  repeat split; try congruence; try lia; auto.
  intros key e H. destruct (E2 key e H) as [ F | F ]; auto.
Qed.

Lemma keeps_ret {A : Type} (a : A) : keeps (ret a).
Proof. intros g. apply search_step_refl. Qed.

Lemma keeps_lift {A : Type} (p : py A) : keeps (lift p).
Proof. intros g. apply search_step_refl. Qed.

Lemma keeps_read {A : Type} (f : globals -> A) : keeps (read f).
Proof. intros g. apply search_step_refl. Qed.

Lemma keeps_table_get (key : Z) : keeps (table_get key).
Proof. intros g. apply search_step_refl. Qed.

Lemma keeps_time_is_up : keeps time_is_up.
Proof.
  intros g. unfold search_step. cbn. repeat split; auto; lia.
Qed.

Lemma keeps_set_timeout : keeps (set_timeout true).
Proof.
  intros g. unfold search_step. cbn. repeat split; auto; lia.
Qed.

Lemma keeps_count_node : keeps count_node.
Proof.
  intros g. unfold search_step. cbn. repeat split; auto; lia.
Qed.

Lemma keeps_table_set (key : Z) (m : move) (d a : Z) :
  move_eqb m null_move = false -> keeps (table_set key (m, d, a)).
Proof.
  intros N g. unfold search_step. cbn. repeat split; auto; try lia.
  intros k e. destruct (k =? key).
  - intros H. injection H as <-. right. exact N.
  - auto.
Qed.

Lemma keeps_bind {A B : Type} (m : M A) (k : A -> M B) :
  keeps m -> (forall a, keeps (k a)) -> keeps (mbind m k).
Proof.
  intros Hm Hk g. unfold mbind. specialize (Hm g).
  destruct (m g) as [[a | e] g1]; cbn [snd] in *.
  - eapply search_step_trans; [ exact Hm | apply Hk ].
  - exact Hm.
Qed.

Create HintDb keeps.

#[local] Hint Resolve keeps_ret keeps_lift keeps_read keeps_table_get
  keeps_time_is_up keeps_set_timeout keeps_count_node : keeps.

Ltac keeps_step :=
  match goal with
  | |- keeps (mbind _ _) => apply keeps_bind; [ | intros ]
  | |- keeps (if ?b then _ else _) => destruct b eqn:?
  | |- keeps (match ?x with Return _ => _ | Next _ => _ end) => destruct x
  | |- keeps (match ?x with Some _ => _ | None => _ end) => destruct x
  | |- keeps (let '(_, _) := ?x in _) => destruct x
  | |- keeps (table_set _ _) => apply keeps_table_set
  | |- keeps _ => solve [ auto with keeps ]
  end.

Lemma keeps_quiesce_moves (tables : pst) (rec : Z -> Z -> state -> M Z)
    (stand_pat beta : Z) (s : state) (move_list : list move) :
  (forall a b t, keeps (rec a b t)) ->
  forall alpha,
    keeps (quiesce_moves tables rec stand_pat beta s move_list alpha).
Proof.
  intros Hrec. induction move_list as [ | m rest IH ]; intros alpha;
    cbn [quiesce_moves].
  - auto with keeps.
  - destruct m as [[[st en] cap] pr].
    repeat (keeps_step; auto).
Qed.

Lemma keeps_quiesce (tables : pst) (fuel : nat) :
  forall alpha beta s, keeps (quiesce tables fuel alpha beta s).
Proof.
  induction fuel as [ | fuel IH ]; intros alpha beta s; cbn [quiesce].
  - auto with keeps.
  - repeat (keeps_step; auto using keeps_quiesce_moves).
Qed.

Lemma keeps_nega_max_moves (tables : pst)
    (rec : Z -> Z -> state -> M (Z * move)) (beta : Z) (s : state)
    (move_list : list move) :
  (forall a b t, keeps (rec a b t)) ->
  forall v, keeps (nega_max_moves tables rec beta s move_list v).
Proof.
  intros Hrec. induction move_list as [ | m rest IH ]; intros v;
    cbn [nega_max_moves].
  - auto with keeps.
  - destruct v as [[alpha best] legal].
    repeat (keeps_step; auto).
Qed.

(** X20: what [nega_max] does to the globals, whatever it returns or
    raises.  It leaves [max_depth] and the clock alone, lowers neither the
    node counter nor the number of clock readings, never clears the timeout
    flag, and every entry the transposition table holds afterwards was
    there before or holds a move other than the null move. *)
Theorem nega_max_effects (tables : pst) (fuel : nat) (depth alpha beta : Z)
    (s : state) (color : str) (g : globals) :
  search_step g (snd (nega_max tables fuel depth alpha beta s color g)).
Proof.
  revert depth alpha beta s color g.
  change (forall depth alpha beta s color,
             keeps (nega_max tables fuel depth alpha beta s color)).
  induction fuel as [ | fuel IH ]; intros depth alpha beta s color;
    cbn [nega_max].
  - auto with keeps.
  - repeat (keeps_step; auto using keeps_quiesce, keeps_nega_max_moves).
    apply negb_true_iff. assumption.
Qed.

(** ** Searches that run out of time *)

Lemma ret_ok {A : Type} (a v : A) (g g' : globals) :
  ret a g = (Ok v, g') -> v = a /\ g' = g.
Proof. unfold ret. intros H. injection H as <- <-. tauto. Qed.

Lemma read_ok {A : Type} (f : globals -> A) (t : A) (g g' : globals) :
  read f g = (Ok t, g') -> t = f g /\ g' = g.
Proof. unfold read. intros H. injection H as <- <-. tauto. Qed.

Lemma table_get_ok (key : Z) (found : option entry) (g g' : globals) :
  table_get key g = (Ok found, g') ->
  found = TRANSPOSITION_TABLE g key /\ g' = g.
Proof. unfold table_get. intros H. injection H as <- <-. tauto. Qed.

Lemma time_is_up_ok (up : bool) (g g' : globals) :
  time_is_up g = (Ok up, g') -> up = clock g (polls g) /\ g' = tick g.
Proof. unfold time_is_up. intros H. injection H as <- <-. tauto. Qed.

Lemma count_node_ok (u : unit) (g g' : globals) :
  count_node g = (Ok u, g') -> g' = counted g.
Proof.
  unfold count_node, set_nodes. intros H. injection H as _ <-. reflexivity.
Qed.

Lemma set_timeout_ok (b : bool) (u : unit) (g g' : globals) :
  set_timeout b g = (Ok u, g') -> timeout g' = b.
Proof. unfold set_timeout. intros H. injection H as _ <-. reflexivity. Qed.

Lemma table_set_ok (key : Z) (e : entry) (u : unit) (g g' : globals) :
  table_set key e g = (Ok u, g') -> g' = with_table g key e.
Proof. unfold table_set. intros H. injection H as _ <-. reflexivity. Qed.

Lemma quiesce_moves_timed_out (tables : pst) (rec : Z -> Z -> state -> M Z)
    (stand_pat beta : Z) (s : state) (move_list : list move) :
  forall alpha g r g',
    timeout g = false ->
    quiesce_moves tables rec stand_pat beta s move_list alpha g = (Ok r, g') ->
    timeout g' = true -> r = Return 0.
Proof.
  induction move_list as [ | m rest IH ]; intros alpha g r g' T H T';
    cbn [quiesce_moves] in H.
  - apply ret_ok in H. destruct H as [_ ->]. congruence.
  - destruct m as [[[st en] cap] pr].
    destruct (negb (str_islower cap)); [ eapply IH; eauto | ].
    apply mbind_ok in H. destruct H as [[in_check np] [g1 [L H]]].
    apply lift_ok in L. destruct L as [_ ->].
    destruct in_check; [ eapply IH; eauto | ].
    apply mbind_ok in H. destruct H as [pruned [g2 [P H]]].
    apply lift_ok in P. destruct P as [_ ->].
    destruct pruned; [ eapply IH; eauto | ].
    apply mbind_ok in H. destruct H as [v [g3 [R H]]].
    apply mbind_ok in H. destruct H as [t [g4 [Rd H]]].
    apply read_ok in Rd. destruct Rd as [-> ->].
    destruct (timeout g3) eqn:T3.
    + apply ret_ok in H. destruct H as [-> _]. reflexivity.
    + destruct (- v >=? beta).
      * apply ret_ok in H. destruct H as [_ ->]. congruence.
      * eapply IH; eauto.
Qed.

Lemma quiesce_timed_out (tables : pst) (fuel : nat) (alpha beta : Z)
    (s : state) (g g' : globals) (v : Z) :
  timeout g = false ->
  quiesce tables fuel alpha beta s g = (Ok v, g') ->
  timeout g' = true -> v = 0.
Proof.
  intros T H T'. destruct fuel as [ | fuel ]; cbn [quiesce] in H.
  - discriminate.
  - apply mbind_ok in H. destruct H as [up [g1 [U H]]].
    apply time_is_up_ok in U. destruct U as [-> ->].
    destruct (clock g (polls g)).
    + apply mbind_ok in H. destruct H as [u [g2 [_ H]]].
      apply ret_ok in H. destruct H as [-> _]. reflexivity.
    + apply mbind_ok in H. destruct H as [u [g2 [C H]]].
      apply count_node_ok in C. subst g2.
      apply mbind_ok in H. destruct H as [stand_pat [g3 [E H]]].
      apply lift_ok in E. destruct E as [_ ->].
      destruct (stand_pat >=? beta).
      * apply ret_ok in H. destruct H as [_ ->].
        change (timeout (counted (tick g))) with (timeout g) in T'.
        congruence.
      * apply mbind_ok in H. destruct H as [move_list [g4 [G H]]].
        apply lift_ok in G. destruct G as [_ ->].
        apply mbind_ok in H. destruct H as [r [g5 [Q H]]].
        assert (R : timeout g5 = true -> r = Return 0).
        { eapply quiesce_moves_timed_out; [ | exact Q ]. exact T. }
        destruct r as [ x | a ]; apply ret_ok in H; destruct H as [-> ->].
        -- specialize (R T'). injection R as ->. reflexivity.
        -- specialize (R T'). discriminate.
Qed.

Lemma nega_max_moves_timed_out (tables : pst)
    (rec : Z -> Z -> state -> M (Z * move)) (beta : Z) (s : state)
    (move_list : list move) :
  forall v g r g',
    timeout g = false ->
    nega_max_moves tables rec beta s move_list v g = (Ok r, g') ->
    timeout g' = true -> r = Return (0, null_move).
Proof.
  induction move_list as [ | m rest IH ]; intros v g r g' T H T';
    cbn [nega_max_moves] in H.
  - apply ret_ok in H. destruct H as [_ ->]. congruence.
  - destruct v as [[alpha best_move] legal_moves].
    apply mbind_ok in H. destruct H as [[in_check np] [g1 [L H]]].
    apply lift_ok in L. destruct L as [_ ->].
    destruct in_check; [ eapply IH; eauto | ].
    apply mbind_ok in H. destruct H as [x [g3 [R H]]].
    apply mbind_ok in H. destruct H as [t [g4 [Rd H]]].
    apply read_ok in Rd. destruct Rd as [-> ->].
    destruct (timeout g3) eqn:T3.
    + apply ret_ok in H. destruct H as [-> _]. reflexivity.
    + destruct (- fst x >=? beta).
      * apply ret_ok in H. destruct H as [_ ->]. congruence.
      * destruct (- fst x >? alpha); eapply IH; eauto.
Qed.

(** X21: a search that ends with the timeout flag set returns nothing.
    When [nega_max] is entered with the flag unset, returns, and leaves the
    flag set, the score it returns is 0 and the move is the null move, at
    every depth: the iteration that ran out of time is worth nothing to
    [iteratively_deepen]. *)
Theorem timed_out_search_returns_nothing (tables : pst) (fuel : nat)
    (depth alpha beta : Z) (s : state) (color : str) (g g' : globals)
    (v : Z * move) :
  timeout g = false ->
  nega_max tables fuel depth alpha beta s color g = (Ok v, g') ->
  timeout g' = true ->
  v = (0, null_move).
Proof.
  intros T H T'. destruct fuel as [ | fuel ]; cbn [nega_max] in H.
  - discriminate.
  - apply mbind_ok in H. destruct H as [up [g1 [U H]]].
    apply time_is_up_ok in U. destruct U as [-> ->].
    destruct (clock g (polls g)).
    + apply mbind_ok in H. destruct H as [u [g2 [_ H]]].
      apply ret_ok in H. destruct H as [-> _]. reflexivity.
    + destruct (depth =? 0).
      * apply mbind_ok in H. destruct H as [x [g2 [Q H]]].
        apply ret_ok in H. destruct H as [-> ->].
        apply quiesce_timed_out in Q; [ | exact T | exact T' ].
        subst x. reflexivity.
      * apply mbind_ok in H. destruct H as [key [g2 [K H]]].
        apply lift_ok in K. destruct K as [_ ->].
        apply mbind_ok in H. destruct H as [found [g3 [F H]]].
        apply table_get_ok in F. destruct F as [-> ->].
        destruct (table_cutoff _ depth).
        { apply ret_ok in H. destruct H as [_ ->].
          change (timeout (tick g)) with (timeout g) in T'. congruence. }
        apply mbind_ok in H. destruct H as [u [g4 [C H]]].
        apply count_node_ok in C. subst g4.
        apply mbind_ok in H. destruct H as [move_list [g5 [G H]]].
        apply lift_ok in G. destruct G as [_ ->].
        apply mbind_ok in H. destruct H as [r [g6 [Q H]]].
        assert (R : timeout g6 = true -> r = Return (0, null_move)).
        { eapply nega_max_moves_timed_out; [ | exact Q ]. exact T. }
        destruct r as [ x | [[a best_move] legal_moves] ].
        -- apply ret_ok in H. destruct H as [-> ->].
           specialize (R T'). injection R as ->. reflexivity.
        -- assert (T6 : timeout g' = timeout g6).
           { destruct (len legal_moves =? 0).
             - apply mbind_ok in H. destruct H as [np [g7 [N H]]].
               apply lift_ok in N. destruct N as [_ ->].
               apply mbind_ok in H. destruct H as [c [g8 [N H]]].
               apply lift_ok in N. destruct N as [_ ->].
               apply mbind_ok in H. destruct H as [md [g9 [N H]]].
               apply read_ok in N. destruct N as [_ ->].
               destruct c; apply ret_ok in H; destruct H as [_ ->];
                 reflexivity.
             - apply mbind_ok in H. destruct H as [u1 [g7 [N H]]].
               apply ret_ok in H. destruct H as [_ ->].
               destruct (negb (move_eqb best_move null_move)).
               + apply mbind_ok in N. destruct N as [k2 [g8 [N1 N]]].
                 apply lift_ok in N1. destruct N1 as [_ ->].
                 apply table_set_ok in N. subst g7. reflexivity.
               + apply ret_ok in N. destruct N as [_ ->]. reflexivity. }
           rewrite T6 in T'. specialize (R T'). discriminate.
Qed.

Lemma timed_out_search_returns_nothing_witness :
  (0, null_move) = (0, null_move).
Proof.
  apply (@timed_out_search_returns_nothing padded_tables 3 2 (-5) 5 startpos
           (lit "w")
           (mkGlobals 2 0 false (fun _ => None) (fun n => Nat.leb 2 n) 0)
           (snd (nega_max padded_tables 3 2 (-5) 5 startpos (lit "w")
                   (mkGlobals 2 0 false (fun _ => None)
                              (fun n => Nat.leb 2 n) 0)))).
  - reflexivity.
  - vm_compute. reflexivity.
  - vm_compute. reflexivity.
Defined.

(** ** The window of the quiescence search *)

Lemma quiesce_moves_window (tables : pst) (rec : Z -> Z -> state -> M Z)
    (stand_pat beta : Z) (s : state) (move_list : list move) :
  forall alpha g r g',
    timeout g = false ->
    alpha <= beta ->
    quiesce_moves tables rec stand_pat beta s move_list alpha g = (Ok r, g') ->
    timeout g' = false ->
    match r with
    | Return x => x = beta
    | Next a => alpha <= a <= beta
    end.
Proof.
  induction move_list as [ | m rest IH ]; intros alpha g r g' T AB H T';
    cbn [quiesce_moves] in H.
  - apply ret_ok in H. destruct H as [-> _]. lia.
  - destruct m as [[[st en] cap] pr].
    destruct (negb (str_islower cap));
      [ exact (IH alpha g r g' T AB H T') | ].
    apply mbind_ok in H. destruct H as [[in_check np] [g1 [L H]]].
    apply lift_ok in L. destruct L as [_ ->].
    destruct in_check; [ exact (IH alpha g r g' T AB H T') | ].
    apply mbind_ok in H. destruct H as [pruned [g2 [P H]]].
    apply lift_ok in P. destruct P as [_ ->].
    destruct pruned; [ exact (IH alpha g r g' T AB H T') | ].
    apply mbind_ok in H. destruct H as [v [g3 [R H]]].
    apply mbind_ok in H. destruct H as [t [g4 [Rd H]]].
    apply read_ok in Rd. destruct Rd as [-> ->].
    destruct (timeout g3) eqn:T3.
    + apply ret_ok in H. destruct H as [_ ->]. congruence.
    + destruct (Z.geb_spec (- v) beta) as [ GE | LT ].
      * apply ret_ok in H. destruct H as [-> _]. reflexivity.
      * destruct (Z.gtb_spec (- v) alpha) as [ GT | LE ].
        -- specialize (IH (- v) g3 r g' T3 ltac:(lia) H T').
           destruct r; [ exact IH | lia ].
        -- exact (IH alpha g3 r g' T3 AB H T').
Qed.

(** X22: the window of [quiesce].  When [quiesce] is entered with the
    timeout flag unset and alpha below beta, and returns without setting
    the flag, the score is never below the static evaluation of the
    position; it is that evaluation when it reaches beta, and otherwise it
    lies between alpha and beta. *)
Theorem quiesce_window (tables : pst) (fuel : nat) (alpha beta : Z)
    (s : state) (g g' : globals) (v : Z) :
  timeout g = false ->
  alpha < beta ->
  quiesce tables fuel alpha beta s g = (Ok v, g') ->
  timeout g' = false ->
  exists stand_pat,
    evaluate_position tables (position s) = Ok stand_pat
    /\ stand_pat <= v
    /\ (if stand_pat >=? beta then v = stand_pat else alpha <= v <= beta).
Proof.
  intros T AB H T'. destruct fuel as [ | fuel ]; cbn [quiesce] in H.
  - discriminate.
  - apply mbind_ok in H. destruct H as [up [g1 [U H]]].
    apply time_is_up_ok in U. destruct U as [-> ->].
    destruct (clock g (polls g)).
    + apply mbind_ok in H. destruct H as [u [g2 [S H]]].
      apply set_timeout_ok in S.
      apply ret_ok in H. destruct H as [_ ->]. congruence.
    + apply mbind_ok in H. destruct H as [u [g2 [C H]]].
      apply count_node_ok in C. subst g2.
      apply mbind_ok in H. destruct H as [stand_pat [g3 [E H]]].
      apply lift_ok in E. destruct E as [E ->].
      exists stand_pat. split; [ exact E | ].
      destruct (Z.geb_spec stand_pat beta) as [ GE | LT ].
      * apply ret_ok in H. destruct H as [-> _].
        split; [ lia | reflexivity ].
      * apply mbind_ok in H. destruct H as [move_list [g4 [G H]]].
        apply lift_ok in G. destruct G as [_ ->].
        apply mbind_ok in H. destruct H as [r [g5 [Q H]]].
        assert (AB' : (if alpha <? stand_pat then stand_pat else alpha)
                      <= beta)
          by (destruct (alpha <? stand_pat); lia).
        pose proof (fun T5 =>
                      @quiesce_moves_window tables _ _ _ _ _ _ _ _ _
                        (T : timeout (counted (tick g)) = false) AB' Q T5)
          as W.
        destruct r as [ x | a ]; apply ret_ok in H; destruct H as [-> ->].
        -- specialize (W T'). cbv beta iota in W. subst x. lia.
        -- specialize (W T'). cbv beta iota in W.
           destruct (Z.ltb_spec alpha stand_pat); lia.
Qed.

Lemma quiesce_window_witness :
  exists stand_pat,
    evaluate_position padded_tables (position startpos) = Ok stand_pat
    /\ stand_pat <= 0
    /\ (if stand_pat >=? 5 then 0 = stand_pat else -5 <= 0 <= 5).
Proof.
  apply (@quiesce_window padded_tables 3 (-5) 5 startpos (fresh 0)
           (snd (quiesce padded_tables 3 (-5) 5 startpos (fresh 0)))).
  - reflexivity.
  - lia.
  - vm_compute. reflexivity.
  - vm_compute. reflexivity.
Defined.

(** ** The move generator on well-formed boards *)

Lemma for_each_total {A S : Type} (P : S -> Prop) (l : list A)
    (body : A -> S -> py S) :
  (forall a s, In a l -> P s -> exists s', body a s = Ok s' /\ P s') ->
  forall s, P s -> exists s', for_each l body s = Ok s' /\ P s'.
Proof.
  induction l as [ | a l IH ]; intros Hb s Hs; cbn [for_each].
  - exists s. split; [ reflexivity | exact Hs ].
  - destruct (Hb a s (or_introl eq_refl) Hs) as [s1 [E1 P1]].
    rewrite E1. cbn [bind].
    apply IH; [ | exact P1 ].
    intros a' t Hin Pt. apply Hb; [ right; exact Hin | exact Pt ].
Qed.

Lemma getitem_cell (position : str) (i : Z) :
  length position = 120%nat -> 0 <= i < 120 ->
  getitem position i = Ok (cell position i).
Proof. intros L H. unfold cell. apply getitem_nth. unfold len. lia. Qed.

Lemma free_cell (position : str) (i : Z) :
  board_ok position = true -> 0 <= i < 120 ->
  isspace (cell position i) || isupper (cell position i) = false ->
  on_board i = true /\ member (cell position i) (lit ".pnbrqk") = true.
Proof.
  intros B Hi F. apply orb_false_iff in F. destruct F as [F1 F2].
  pose proof (@board_ok_cell position i B Hi) as C.
  unfold cell_ok in C. destruct (on_board i).
  - split; [ reflexivity | ]. apply board_letters in C. cbn in C.
    repeat (destruct C as [ E | C ];
            [ rewrite <- E in *; first [ discriminate F2 | reflexivity ] | ]).
    destruct C.
  - rewrite C in F1. discriminate.
Qed.

Lemma own_piece (position : str) (i : Z) :
  board_ok position = true -> 0 <= i < 120 ->
  isupper (cell position i) = true ->
  on_board i = true /\ In (cell position i) (lit "PNBRQK").
Proof.
  intros B Hi U. apply (@upper_cell i); [ | exact U ].
  apply board_ok_cell; assumption.
Qed.

Lemma directions_of_piece (piece : ascii) :
  In piece (lit "PNBRQK") ->
  exists directions,
    lookup PIECE_DIRECTIONS piece = Ok directions
    /\ forall d, In d directions ->
                 d <> 0 /\ -21 <= d <= 21
                 /\ (piece = "K"%char -> Z.abs d <> 2)
                 /\ (piece = "P"%char ->
                     In d [NORTH; NORTH + NORTH; NORTH + WEST;
                           NORTH + EAST]).
Proof.
  intros H. cbn in H.
  repeat (destruct H as [ <- | H ];
          [ eexists; split; [ reflexivity | ];
            intros d Hd; cbn [In] in Hd;
            repeat (destruct Hd as [ <- | Hd ];
                    [ split; [ intros F; vm_compute in F; discriminate F | ];
                      split; [ vm_compute; split; discriminate | ];
                      split;
                      [ intros E; first [ discriminate E
                                        | intros F; vm_compute in F;
                                          discriminate F ]
                      | intros E; first [ discriminate E
                                        | cbn [In]; tauto ] ] | ]);
            destruct Hd | ]).
  destruct H.
Qed.

Lemma pawn_blocked_total (position : str) (en_passant : Z)
    (start_square direction end_square : Z) (piece_captured : ascii) :
  length position = 120%nat -> 10 <= start_square < 130 ->
  exists b,
    pawn_blocked position en_passant start_square direction end_square
                 piece_captured = Ok b.
Proof.
  intros L H. unfold pawn_blocked.
  destruct (((direction =? NORTH) || (direction =? NORTH + NORTH))
            && negb (Ascii.eqb piece_captured dot)); [ eauto | ].
  destruct (direction =? NORTH + NORTH).
  - destruct (start_square <? A1 + NORTH); cbn [bind]; [ eauto | ].
    rewrite getitem_cell by (unfold NORTH; lia || exact L).
    cbn [bind]. destruct (negb _); eauto.
  - cbn [bind]. eauto.
Qed.

Lemma generated_ordinary (position : str) (castling : list bool) (m : move) :
  ordinary_move position m = true -> generated position castling m = true.
Proof. unfold generated. intros ->. reflexivity. Qed.

Lemma promotions_sound (position : str) (castling : list bool)
    (start_square end_square : Z) :
  on_board start_square = true ->
  cell position start_square = "P"%char ->
  on_board end_square = true ->
  member (cell position end_square) (lit ".pnbrqk") = true ->
  (A8 <=? end_square) && (end_square <=? H8) = true ->
  on_board (end_square + SOUTH) = true ->
  Forall (fun m => generated position castling m = true)
         (promotions start_square end_square (cell position end_square)).
Proof.
  intros HS P E M R B. unfold promotions.
  apply andb_true_iff in R. destruct R as [R1 R8].
  cbn [map lit list_ascii_of_string].
  repeat (constructor;
          [ apply generated_ordinary; unfold ordinary_move, promotion_ok;
            rewrite HS, P, E, M, R1, R8, B, str_eqb_refl; reflexivity | ]).
  constructor.
Qed.

Lemma castle_from_sound (position : str) (castling : list bool)
    (corner toward_king flag : Z) (start_square end_square : Z)
    (move_list : list move) :
  board_ok position = true ->
  len castling = 2 ->
  (corner = A1 /\ toward_king = EAST /\ flag = 0)
  \/ (corner = H1 /\ toward_king = WEST /\ flag = 1) ->
  isupper (cell position start_square) = true ->
  on_board end_square = true ->
  cell position end_square = dot ->
  Forall (fun m => generated position castling m = true) move_list ->
  exists move_list',
    castle_from corner toward_king flag position castling start_square
                end_square dot move_list = Ok move_list'
    /\ Forall (fun m => generated position castling m = true) move_list'.
Proof.
  intros B LC W U E D F.
  pose proof (@board_ok_length position B) as L.
  pose proof (@on_board_range end_square E) as R.
  unfold castle_from.
  destruct (start_square =? corner) eqn:SC; [ | eauto ].
  apply Z.eqb_eq in SC.
  assert (T : 0 <= end_square + toward_king < 120)
    by (destruct W as [ [_ [-> _]] | [_ [-> _]] ]; unfold EAST, WEST; lia).
  rewrite getitem_cell by assumption. cbn [bind].
  destruct (Ascii.eqb (cell position (end_square + toward_king)) "K") eqn:K;
    [ | eauto ].
  apply Ascii.eqb_eq in K.
  assert (G : getitem castling flag = Ok (nth (Z.to_nat flag) castling false)).
  { apply getitem_nth. destruct W as [ [_ [_ ->]] | [_ [_ ->]] ]; lia. }
  rewrite G. cbn [bind].
  destruct (nth (Z.to_nat flag) castling false) eqn:N; [ | eauto ].
  eexists. split; [ reflexivity | ].
  apply Forall_snoc; [ exact F | ].
  destruct (@own_piece position (end_square + toward_king) B T) as [O _].
  { rewrite K. reflexivity. }
  unfold generated. apply orb_true_iff. right.
  unfold castling_move. rewrite O, K. cbn [Ascii.eqb andb].
  rewrite !str_eqb_refl.
  change (Ascii.eqb "K" "K") with true. cbn [andb].
  subst start_square.
  destruct W as [ [-> [-> ->]] | [-> [-> ->]] ].
  - apply orb_true_iff. left.
    change (Z.to_nat 0) with 0%nat in N. rewrite N, U.
    replace (end_square + EAST - 1) with end_square by (unfold EAST; lia).
    rewrite D.
    replace (end_square - EAST =? end_square + EAST - 2) with true
      by (symmetry; apply Z.eqb_eq; unfold EAST; lia).
    reflexivity.
  - apply orb_true_iff. right.
    change (Z.to_nat 1) with 1%nat in N. rewrite N, U.
    replace (end_square + WEST + 1) with end_square by (unfold WEST; lia).
    rewrite D.
    replace (end_square - WEST =? end_square + WEST + 2) with true
      by (symmetry; apply Z.eqb_eq; unfold WEST; lia).
    reflexivity.
Qed.

Lemma empty_cell (c : ascii) :
  member c (lit ".pnbrqk") = true -> islower c = false -> c = dot.
Proof.
  each_ascii c; intros; first [ discriminate | reflexivity ].
Qed.

Lemma ray_sound (position : str) (castling : list bool) (en_passant : Z)
    (start_square : Z) (direction : Z) :
  board_ok position = true ->
  len castling = 2 ->
  on_board start_square = true ->
  isupper (cell position start_square) = true ->
  direction <> 0 -> -21 <= direction <= 21 ->
  forall (fuel : nat) (end_square : Z) (move_list : list move),
    ray_room position direction end_square < Z.of_nat fuel ->
    (0 < fuel)%nat ->
    0 <= end_square < 120 ->
    (cell position start_square = "K"%char ->
     Z.abs (start_square - end_square) <> 2) ->
    (cell position start_square = "P"%char ->
     on_board end_square = true -> on_board (end_square + SOUTH) = true) ->
    Forall (fun m => generated position castling m = true) move_list ->
    exists move_list',
      ray fuel position castling en_passant start_square
          (cell position start_square) direction end_square move_list
      = Ok move_list'
      /\ Forall (fun m => generated position castling m = true) move_list'.
Proof.
  intros B LC S U D0 D21.
  pose proof (@board_ok_length position B) as L.
  pose proof (@on_board_range start_square S) as RS.
  set (piece := cell position start_square) in *.
  induction fuel as [ | fuel IH ];
    intros end_square move_list R F0 E K PS F.
  - lia.
  - cbn [ray]. rewrite getitem_cell by assumption. cbn [bind].
    destruct (isspace (cell position end_square)
              || isupper (cell position end_square)) eqn:Free;
      [ eauto | ].
    destruct (@free_cell position end_square B E Free) as [O M].
    pose proof (@on_board_range end_square O) as RE.
    assert (PB : exists b,
               (if Ascii.eqb piece "P"
                then pawn_blocked position en_passant start_square direction
                                  end_square (cell position end_square)
                else Ok false) = Ok b).
    { destruct (Ascii.eqb piece "P"); [ | eauto ].
      apply pawn_blocked_total; [ exact L | lia ]. }
    destruct PB as [stop PB]. rewrite PB. cbn [bind].
    destruct stop; [ eauto | ].
    destruct (Ascii.eqb piece "P" && (A8 <=? end_square)
              && (end_square <=? H8)) eqn:Pr.
    + eexists. split; [ reflexivity | ].
      apply Forall_app. split; [ exact F | ].
      apply andb_true_iff in Pr. destruct Pr as [Pr R8].
      apply andb_true_iff in Pr. destruct Pr as [Pp R1].
      apply Ascii.eqb_eq in Pp.
      apply promotions_sound; try assumption.
      * rewrite R1, R8. reflexivity.
      * apply PS; [ exact Pp | exact O ].
    + assert (Fm : Forall (fun m => generated position castling m = true)
                     (move_list
                      ++ [(start_square, end_square,
                           [cell position end_square], [])])).
      { apply Forall_snoc; [ exact F | ].
        apply generated_ordinary. unfold ordinary_move, promotion_ok.
        fold piece. rewrite S, U, O, M, str_eqb_refl, Pr.
        cbn [andb]. apply andb_true_iff. split.
        - apply negb_true_iff.
          destruct (Ascii.eqb_spec piece "K") as [ EK | NK ];
            [ | reflexivity ].
          cbn [andb]. apply Z.eqb_neq. apply K. exact EK.
        - destruct (Ascii.eqb_spec piece "P") as [ EP | NP ];
            [ | reflexivity ].
          cbn [negb orb]. apply PS; [ exact EP | exact O ]. }
      destruct (member piece (lit "PNK")
                || islower (cell position end_square)) eqn:Stop;
        [ eauto | ].
      apply orb_false_iff in Stop. destruct Stop as [NS NL].
      pose proof (@empty_cell _ M NL) as Dot.
      rewrite Dot in *.
      destruct (@castle_from_sound position castling A1 EAST 0 start_square
                  end_square _ B LC ltac:(left; tauto) U O Dot Fm)
        as [l1 [E1 F1]].
      rewrite E1. cbn [bind].
      destruct (@castle_from_sound position castling H1 WEST 1 start_square
                  end_square _ B LC ltac:(right; tauto) U O Dot F1)
        as [l2 [E2 F2]].
      rewrite E2. cbn [bind].
      apply IH.
      * unfold ray_room in *. destruct (Z.ltb_spec 0 direction); lia.
      * unfold ray_room, len in R. rewrite L in R.
        destruct (Z.ltb_spec 0 direction); lia.
      * lia.
      * intros EK. exfalso. rewrite EK in NS. discriminate NS.
      * intros EP. exfalso. rewrite EP in NS. discriminate NS.
      * exact F2.
Qed.

Lemma pawn_lands (start_square d : Z) :
  In d [NORTH; NORTH + NORTH; NORTH + WEST; NORTH + EAST] ->
  on_board start_square = true ->
  on_board (start_square + d) = true ->
  on_board (start_square + d + SOUTH) = true.
Proof.
  intros Hd HS HE.
  assert (A : forallb
                (fun i =>
                   forallb
                     (fun d =>
                        negb (on_board i && on_board (i + d))
                        || on_board (i + d + SOUTH))
                     [NORTH; NORTH + NORTH; NORTH + WEST; NORTH + EAST])
                (range 120) = true) by (vm_compute; reflexivity).
  rewrite forallb_forall in A.
  pose proof (@on_board_range _ HS) as R.
  specialize (A start_square ltac:(apply in_range; lia)).
  rewrite forallb_forall in A. specialize (A d Hd).
  rewrite HS, HE in A. exact A.
Qed.

Lemma moves_from_sound (position : str) (castling : list bool)
    (en_passant start_square : Z) (move_list : list move) :
  board_ok position = true ->
  len castling = 2 ->
  0 <= start_square < 120 ->
  Forall (fun m => generated position castling m = true) move_list ->
  exists move_list',
    moves_from position castling en_passant start_square move_list
    = Ok move_list'
    /\ Forall (fun m => generated position castling m = true) move_list'.
Proof.
  intros B LC H F.
  pose proof (@board_ok_length position B) as L.
  unfold moves_from. rewrite getitem_cell by assumption. cbn [bind].
  destruct (isupper (cell position start_square)) eqn:U; cbn [negb];
    [ | eauto ].
  destruct (@own_piece position start_square B H U) as [O I].
  destruct (@directions_of_piece _ I) as [directions [E Hd]].
  rewrite E. cbn [bind].
  apply for_each_total; [ | exact F ].
  intros d l Hin Fl. destruct (Hd d Hin) as [D0 [D21 [DK DP]]].
  pose proof (@on_board_range start_square O) as RS.
  apply ray_sound; try assumption.
  - unfold ray_room, ray_fuel, len. rewrite L.
    destruct (Z.ltb_spec 0 d); lia.
  - unfold ray_fuel. lia.
  - lia.
  - intros EK. specialize (DK EK).
    replace (start_square - (start_square + d)) with (- d) by lia.
    rewrite Z.abs_opp. exact DK.
  - intros EP OE. apply pawn_lands; [ apply DP; exact EP | exact O | exact OE ].
Qed.

Lemma unsorted_moves_sound (position : str) (castling : list bool)
    (en_passant : Z) :
  board_ok position = true ->
  len castling = 2 ->
  exists move_list,
    unsorted_moves position castling en_passant = Ok move_list
    /\ Forall (fun m => generated position castling m = true) move_list.
Proof.
  intros B LC. pose proof (@board_ok_length position B) as L.
  unfold unsorted_moves. apply for_each_total; [ | constructor ].
  intros i l Hin Fl. apply in_range in Hin.
  apply moves_from_sound; try assumption. lia.
Qed.

Section MoveTerm.

Variable values : dict Z.
Variable tables : dict (list Z).
Variable position : str.
Variable en_passant : Z.

Hypothesis has_value :
  forall piece, In piece (lit "PNBRQK") ->
                exists v, lookup values piece = Ok v.
Hypothesis has_table :
  forall piece, In piece (lit "PNBRQK") ->
                exists t, lookup tables piece = Ok t /\ len t = 120.
Hypothesis length_120 : length position = 120%nat.

Lemma table_at_total (piece : ascii) (i : Z) :
  In piece (lit "PNBRQK") -> 0 <= i < 120 ->
  exists v, table_at tables [piece] i = Ok v.
Proof.
  intros I H. destruct (has_table I) as [t [E L]].
  unfold table_at, lookup_str. rewrite E. cbn [bind].
  rewrite (@getitem_nth _ t i 0) by lia. eauto.
Qed.

Lemma move_term_total (start_square end_square : Z)
    (piece_captured promotion_piece : str) :
  0 <= start_square < 120 ->
  0 <= end_square < 120 ->
  In (cell position start_square) (lit "PNBRQK") ->
  (str_islower piece_captured = true ->
   exists c, piece_captured = [c] /\ In (upper c) (lit "PNBRQK")
             /\ 0 <= mirror_square end_square < 120) ->
  (cell position start_square = "P"%char ->
   0 <= mirror_square (end_square + SOUTH) < 120
   /\ ((A8 <=? end_square) && (end_square <=? H8) = true ->
       exists q, promotion_piece = [q] /\ In q (lit "PNBRQK"))) ->
  exists k,
    move_term values tables
      (start_square, end_square, piece_captured, promotion_piece)
      position en_passant = Ok k.
Proof.
  intros HS HE I HC HP. unfold move_term.
  rewrite getitem_cell by assumption. cbn [bind].
  set (piece := cell position start_square) in *.
  destruct (@table_at_total piece end_square I HE) as [a Ea].
  destruct (@table_at_total piece start_square I HS) as [b Eb].
  rewrite Ea, Eb. cbn [bind].
  assert (E1 : exists s1,
             (if str_islower piece_captured
              then v <- lookup_str values (map upper piece_captured) ;;
                   p <- table_at tables (map upper piece_captured)
                          (mirror_square end_square) ;;
                   Ok (a - b + (v + p))
              else Ok (a - b)) = Ok s1).
  { destruct (str_islower piece_captured); [ | eauto ].
    destruct (HC eq_refl) as [c [-> [Ic Rc]]].
    cbn [map lookup_str]. destruct (has_value Ic) as [v Ev].
    rewrite Ev. cbn [bind].
    destruct (@table_at_total (upper c) _ Ic Rc) as [p Ep].
    rewrite Ep. cbn [bind]. eauto. }
  destruct E1 as [s1 E1]. rewrite E1. cbn [bind].
  assert (IR : In "R"%char (lit "PNBRQK")) by (cbn; tauto).
  assert (E2 : exists s2,
             (if str_eqb [piece] (lit "K")
                 && (Z.abs (start_square - end_square) =? 2)
              then r1 <- table_at tables (lit "R")
                           ((start_square + end_square) / 2) ;;
                   r2 <- table_at tables (lit "R")
                           (if end_square <? start_square then A1 else H1) ;;
                   Ok (s1 + (r1 - r2))
              else Ok s1) = Ok s2).
  { destruct (str_eqb [piece] (lit "K")
              && (Z.abs (start_square - end_square) =? 2)); [ | eauto ].
    assert (M : 0 <= (start_square + end_square) / 2 < 120).
    { split; [ apply Z.div_pos; lia | ].
      apply Z.div_lt_upper_bound; lia. }
    destruct (@table_at_total "R" _ IR M) as [r1 E].
    change (lit "R") with ["R"%char]. rewrite E. cbn [bind].
    assert (C : 0 <= (if end_square <? start_square then A1 else H1) < 120)
      by (destruct (end_square <? start_square); unfold A1, H1; lia).
    destruct (@table_at_total "R" _ IR C) as [r2 E'].
    rewrite E'. cbn [bind]. eauto. }
  destruct E2 as [s2 E2]. rewrite E2. cbn [bind].
  destruct (str_eqb [piece] (lit "P")) eqn:P; [ | eauto ].
  assert (EP : piece = "P"%char).
  { apply str_eqb_eq in P. injection P as ->. reflexivity. }
  destruct (HP EP) as [Rm Hq].
  assert (IP : In "P"%char (lit "PNBRQK")) by (cbn; tauto).
  assert (E3 : exists s3,
             (if (A8 <=? end_square) && (end_square <=? H8)
              then q <- table_at tables promotion_piece end_square ;;
                   p <- table_at tables (lit "P") end_square ;;
                   vq <- lookup_str values promotion_piece ;;
                   vp <- lookup_str values (lit "P") ;;
                   Ok (s2 + (q - p + vq - vp))
              else Ok s2) = Ok s3).
  { destruct ((A8 <=? end_square) && (end_square <=? H8)); [ | eauto ].
    destruct (Hq eq_refl) as [q [-> Iq]].
    destruct (@table_at_total q _ Iq HE) as [x Ex]. rewrite Ex. cbn [bind].
    destruct (@table_at_total "P" _ IP HE) as [y Ey].
    change (lit "P") with ["P"%char]. rewrite Ey. cbn [bind lookup_str].
    destruct (has_value Iq) as [vq Evq]. rewrite Evq. cbn [bind].
    destruct (has_value IP) as [vp Evp]. rewrite Evp. cbn [bind]. eauto. }
  destruct E3 as [s3 E3]. rewrite E3. cbn [bind].
  destruct (end_square + SOUTH =? en_passant); [ | eauto ].
  destruct (@table_at_total "P" _ IP Rm) as [p Ep].
  change (lit "P") with ["P"%char]. rewrite Ep. cbn [bind]. eauto.
Qed.

End MoveTerm.

Lemma member_In (c : ascii) (letters : str) :
  member c letters = true -> In c letters.
Proof.
  unfold member. rewrite existsb_exists. intros [x [Hin E]].
  apply Ascii.eqb_eq in E. subst x. exact Hin.
Qed.

Lemma promotion_letters (q : ascii) :
  member q (lit "QRBN") = true -> In q (lit "PNBRQK").
Proof.
  intros H. apply member_In in H. cbn in H.
  repeat (destruct H as [ <- | H ]; [ cbn; tauto | ]). destruct H.
Qed.

Lemma lower_letters (c : ascii) :
  member c (lit ".pnbrqk") = true -> islower c = true ->
  In (upper c) (lit "PNBRQK").
Proof.
  intros H L. apply member_In in H. cbn in H.
  repeat (destruct H as [ <- | H ];
          [ first [ discriminate L | cbn; tauto ] | ]).
  destruct H.
Qed.

Lemma str_islower_single (text : str) (c : ascii) :
  text = [c] -> str_islower text = true -> islower c = true.
Proof.
  intros -> H. unfold str_islower in H. cbn [existsb] in H.
  apply andb_true_iff in H. destruct H as [H _].
  rewrite orb_false_r in H. exact H.
Qed.

Lemma evaluate_move_total (position : str) (castling : list bool)
    (en_passant : Z) (m : move) :
  board_ok position = true ->
  generated position castling m = true ->
  exists k, evaluate_move padded_tables m position en_passant = Ok k.
Proof.
  intros B G. pose proof (@board_ok_length position B) as L.
  destruct m as [[[start_square end_square] cap] promo].
  assert (T : forall values tables,
             (forall piece, In piece (lit "PNBRQK") ->
                            exists v, lookup values piece = Ok v) ->
             (forall piece, In piece (lit "PNBRQK") ->
                            exists t, lookup tables piece = Ok t
                                      /\ len t = 120) ->
             exists k,
               move_term values tables (start_square, end_square, cap, promo)
                         position en_passant = Ok k).
  { intros values tables HV HT.
    unfold generated in G. apply orb_true_iff in G.
    destruct G as [ G | G ].
    - unfold ordinary_move in G.
      do 7 (apply andb_true_iff in G; destruct G as [G ?]).
      pose proof (@on_board_range _ G) as RS.
      match goal with H : on_board end_square = true |- _ =>
        pose proof (@on_board_range _ H) as RE;
        pose proof (@mirror_square_range _ H) as RM end.
      match goal with H : str_eqb cap _ = true |- _ =>
        apply str_eqb_eq in H; rename H into EC end.
      apply move_term_total; try assumption; try lia.
      + apply (@own_piece position start_square B); [ lia | assumption ].
      + intros SL. exists (cell position end_square).
        split; [ exact EC | ]. split; [ | lia ].
        apply lower_letters; [ assumption | ].
        eapply str_islower_single; eauto.
      + intros EP. split.
        * apply mirror_square_bounds. unfold SOUTH. lia.
        * intros R8.
          match goal with H : promotion_ok _ _ _ = true |- _ =>
            unfold promotion_ok in H; rewrite EP in H;
            change (Ascii.eqb "P" "P") with true in H; cbn [andb] in H;
            rewrite R8 in H;
            destruct promo as [ | q [ | ? ? ] ]; try discriminate H;
            exists q; split; [ reflexivity | ];
            apply promotion_letters; exact H end.
    - unfold castling_move in G.
      do 4 (apply andb_true_iff in G; destruct G as [G ?]).
      pose proof (@on_board_range _ G) as RS.
      match goal with H : Ascii.eqb _ "K" = true |- _ =>
        apply Ascii.eqb_eq in H; rename H into EK end.
      match goal with H : str_eqb cap _ = true |- _ =>
        apply str_eqb_eq in H; rename H into EC end.
      assert (RE : end_square = start_square - 2
                   \/ end_square = start_square + 2).
      { match goal with H : _ || _ = true |- _ =>
          apply orb_true_iff in H; destruct H as [ H | H ];
          do 3 (apply andb_true_iff in H; destruct H as [H ?]);
          apply Z.eqb_eq in H; tauto end. }
      apply move_term_total; try assumption; try lia.
      + rewrite EK. cbn. tauto.
      + subst cap. intros F. discriminate F.
      + rewrite EK. intros F. discriminate F. }
  unfold evaluate_move.
  destruct (T MIDGAME_PIECE_VALUES (midgame_tables padded_tables)) as [a Ea].
  { intros piece I. apply (@piece_values piece I). }
  { intros piece I. apply (@piece_values piece I). }
  destruct (T ENDGAME_PIECE_VALUES (endgame_tables padded_tables)) as [b Eb].
  { intros piece I. apply (@piece_values piece I). }
  { intros piece I. apply (@piece_values piece I). }
  rewrite Ea, Eb. cbn [bind]. eauto.
Qed.

Lemma keyed_total (key : move -> py Z) (l : list move) :
  (forall m, In m l -> exists k, key m = Ok k) ->
  exists ks, keyed key l = Ok ks.
Proof.
  induction l as [ | m l IH ]; intros H; cbn [keyed].
  - eauto.
  - destruct (H m (or_introl eq_refl)) as [k E]. rewrite E. cbn [bind].
    destruct IH as [ks Eks].
    { intros m' Hin. apply H. right. exact Hin. }
    rewrite Eks. cbn [bind]. eauto.
Qed.

Lemma generate_moves_generated (position : str) (castling : list bool)
    (en_passant : Z) :
  board_ok position = true ->
  len castling = 2 ->
  exists move_list,
    generate_moves padded_tables position castling en_passant = Ok move_list
    /\ Forall (fun m => generated position castling m = true) move_list.
Proof.
  intros B LC.
  destruct (@unsorted_moves_sound position castling en_passant B LC)
    as [found [E F]].
  unfold generate_moves. rewrite E. cbn [bind].
  rewrite Forall_forall in F.
  destruct (@keyed_total
              (fun m => evaluate_move padded_tables m position en_passant)
              found) as [ks Eks].
  { intros m Hin. eapply evaluate_move_total; [ exact B | ].
    apply F. exact Hin. }
  rewrite Eks. cbn [bind]. eexists. split; [ reflexivity | ].
  apply Forall_forall. intros m Hin. apply F.
  rewrite <- (keyed_moves _ _ Eks).
  apply in_map_iff in Hin. destruct Hin as [x [Ex Hin]].
  apply in_map_iff. exists x. split; [ exact Ex | ].
  apply sort_by_key_In. exact Hin.
Qed.

(** X23: the move generator on well-formed boards.  On a well-formed
    10 x 12 board, with two castling flags and the padded tables,
    [generate_moves] returns, whatever the en-passant square is, and every
    move it returns has one of two shapes: an ordinary move from a square
    that holds a piece of the mover to a square of the playing area that
    holds none, naming the content of that square and a promotion piece
    from Q, R, B, N exactly when a pawn reaches the last rank; or a
    castling move of a king by two cells over an empty cell, emitted with
    the flag of that side set and a piece of the mover in the corner. *)
Theorem generate_moves_sound (position : str) (castling : list bool)
    (en_passant : Z) :
  board_ok position = true ->
  len castling = 2 ->
  exists move_list,
    generate_moves padded_tables position castling en_passant = Ok move_list
    /\ Forall (fun m => generated position castling m = true) move_list.
Proof. apply generate_moves_generated. Qed.

Lemma generate_moves_sound_witness :
  exists move_list,
    generate_moves padded_tables INITIAL_POSITION INITIAL_CASTLING 0
    = Ok move_list
    /\ Forall (fun m => generated INITIAL_POSITION INITIAL_CASTLING m = true)
              move_list.
Proof.
  apply (@generate_moves_sound INITIAL_POSITION INITIAL_CASTLING 0);
    reflexivity.
Defined.

(** ** Playable states *)

Lemma framed_length (position : str) :
  framed position = true -> length position = 120%nat.
Proof.
  unfold framed, len. rewrite andb_true_iff, Z.eqb_eq. lia.
Qed.

Lemma framed_cell (position : str) (i : Z) :
  framed position = true -> 0 <= i < 120 ->
  frame_ok i (cell position i) = true.
Proof.
  unfold framed. rewrite andb_true_iff, forallb_forall.
  intros [_ H] Hi. apply H. apply in_range. lia.
Qed.

Lemma framed_intro (position : str) :
  length position = 120%nat ->
  (forall i, 0 <= i < 120 -> frame_ok i (cell position i) = true) ->
  framed position = true.
Proof.
  intros L H. unfold framed. apply andb_true_iff. split.
  - unfold len. rewrite L. reflexivity.
  - apply forallb_forall. intros i Hi. apply in_range in Hi. apply H. lia.
Qed.

Lemma border_space (i : Z) : isspace (border i) = true.
Proof. unfold border. destruct (i mod 10 =? 9); reflexivity. Qed.

Lemma letter_not_space (c : ascii) :
  member c (lit ".PNBRQKpnbrqk") = true -> isspace c = false.
Proof.
  intros H. apply member_In in H. cbn in H.
  repeat (destruct H as [ <- | H ]; [ reflexivity | ]). destruct H.
Qed.

Lemma frame_ok_cell_ok (i : Z) (c : ascii) :
  frame_ok i c = true -> cell_ok i c = true.
Proof.
  unfold frame_ok, cell_ok. destruct (on_board i); [ auto | ].
  intros H. apply Ascii.eqb_eq in H. subst c. apply border_space.
Qed.

Lemma frame_ok_space (i : Z) (c : ascii) :
  frame_ok i c = true -> isspace c = negb (on_board i).
Proof.
  unfold frame_ok. destruct (on_board i); cbn [negb].
  - apply letter_not_space.
  - intros H. apply Ascii.eqb_eq in H. subst c. apply border_space.
Qed.

Lemma framed_board_ok (position : str) :
  framed position = true -> board_ok position = true.
Proof.
  intros F. pose proof (@framed_length position F) as L.
  unfold board_ok. apply andb_true_iff. split.
  - unfold len. rewrite L. reflexivity.
  - apply cells_ok_pointwise. intros n Hn. rewrite Z.add_0_l.
    apply frame_ok_cell_ok.
    pose proof (@framed_cell position (Z.of_nat n) F ltac:(lia)) as C.
    unfold cell in C. rewrite Nat2Z.id in C. exact C.
Qed.

Lemma kings_home_intro (flags : list bool) (king : ascii) (a b : Z)
    (position : str) :
  (existsb (fun f : bool => f) flags = true ->
   forall i, 0 <= i < 120 -> cell position i = king -> i = a \/ i = b) ->
  kings_home flags king a b position = true.
Proof.
  intros H. unfold kings_home.
  destruct (existsb (fun f : bool => f) flags); [ | reflexivity ].
  cbn [negb orb]. apply forallb_forall. intros i Hi. apply in_range in Hi.
  destruct (Ascii.eqb_spec (cell position i) king) as [ E | N ];
    [ | reflexivity ].
  cbn [negb orb].
  destruct (H eq_refl i ltac:(lia) E) as [ -> | -> ].
  - rewrite Z.eqb_refl. reflexivity.
  - rewrite Z.eqb_refl. apply orb_true_r.
Qed.

Lemma kings_home_elim (flags : list bool) (king : ascii) (a b : Z)
    (position : str) (i : Z) :
  kings_home flags king a b position = true ->
  existsb (fun f : bool => f) flags = true ->
  0 <= i < 120 -> cell position i = king -> i = a \/ i = b.
Proof.
  unfold kings_home. intros H E Hi C. rewrite E in H. cbn [negb orb] in H.
  rewrite forallb_forall in H. specialize (H i ltac:(apply in_range; lia)).
  rewrite C, Ascii.eqb_refl in H. cbn [negb orb] in H.
  apply orb_true_iff in H. destruct H as [ H | H ]; apply Z.eqb_eq in H; tauto.
Qed.

Lemma playable_parts (s : state) :
  playable s = true <->
  framed (position s) = true
  /\ len (castling s) = 2
  /\ len (opponent_castling s) = 2
  /\ kings_home (castling s) "K" 94 95 (position s) = true
  /\ kings_home (opponent_castling s) "k" 24 25 (position s) = true.
Proof.
  unfold playable. rewrite !andb_true_iff, !Z.eqb_eq. tauto.
Qed.

Lemma rotated_cell_framed (position : str) (j : Z) :
  framed position = true -> 0 <= j < 120 ->
  cell (rotated position) j
  = if on_board j then swapcase (cell position (119 - j))
    else cell position j.
Proof.
  intros F Hj. rewrite cell_rotated by exact Hj. unfold rotated_cell.
  assert (M : 0 <= Z.min j (119 - j) < 120) by lia.
  rewrite (@frame_ok_space _ _ (@framed_cell position _ F M)).
  assert (O : on_board (Z.min j (119 - j)) = on_board j).
  { destruct (Z.le_ge_cases j (119 - j)).
    - replace (Z.min j (119 - j)) with j by lia. reflexivity.
    - replace (Z.min j (119 - j)) with (119 - j) by lia.
      apply on_board_rotate. exact Hj. }
  rewrite O. destruct (on_board j); reflexivity.
Qed.

Lemma framed_rotated (position : str) :
  framed position = true -> framed (rotated position) = true.
Proof.
  intros F. apply framed_intro; [ apply length_rotated | ].
  intros j Hj. rewrite rotated_cell_framed by assumption.
  pose proof (@framed_cell position j F Hj) as C.
  pose proof (@framed_cell position (119 - j) F ltac:(lia)) as C'.
  unfold frame_ok in *. rewrite on_board_rotate in C' by exact Hj.
  destruct (on_board j); [ | exact C ].
  apply swapcase_board_letter. exact C'.
Qed.

Lemma kings_home_rotated (flags : list bool) (king : ascii) (a b : Z)
    (position : str) :
  framed position = true ->
  isupper king || islower king = true ->
  kings_home flags (swapcase king) (119 - a) (119 - b) position = true ->
  kings_home flags king a b (rotated position) = true.
Proof.
  intros F U H. apply kings_home_intro. intros E i Hi C.
  rewrite rotated_cell_framed in C by assumption.
  pose proof (@framed_cell position i F Hi) as Fi.
  unfold frame_ok in Fi. destruct (on_board i).
  - assert (C' : cell position (119 - i) = swapcase king).
    { rewrite <- C. rewrite swapcase_involutive. reflexivity. }
    destruct (@kings_home_elim _ _ _ _ _ (119 - i) H E ltac:(lia) C'); lia.
  - exfalso. apply Ascii.eqb_eq in Fi. rewrite Fi in C.
    pose proof (border_space i) as Sp. rewrite C in Sp.
    apply space_not_cased in Sp. destruct Sp as [S1 S2].
    rewrite S1, S2 in U. discriminate.
Qed.

Lemma kings_home_swap (flags : list bool) (king : ascii) (a b : Z)
    (position : str) :
  kings_home flags king a b position = true ->
  kings_home flags king b a position = true.
Proof.
  intros H. apply kings_home_intro. intros E i Hi C.
  destruct (@kings_home_elim _ _ _ _ _ i H E Hi C); tauto.
Qed.

Lemma rotate_position_playable (s : state) :
  playable s = true ->
  exists s', rotate_position s = Ok s' /\ playable s' = true.
Proof.
  intros P. apply playable_parts in P.
  destruct P as [F [LC [LO [HK Hk]]]].
  pose proof (@framed_length _ F) as L.
  rewrite (@rotate_position_value s L). eexists. split; [ reflexivity | ].
  apply playable_parts.
  cbn [position castling opponent_castling en_passant king_passant].
  split; [ apply framed_rotated; exact F | ].
  split; [ exact LO | ]. split; [ exact LC | ].
  split; apply kings_home_rotated; try assumption; try reflexivity;
    apply kings_home_swap; assumption.
Qed.

(** X24: [rotate_position] on the states the engine plays on.  On a state
    with a framed board, two flags on either side and kings at home while
    a flag of theirs is set, [rotate_position] returns a state of the same
    kind: every square holds the piece of the opposite square with its
    case swapped, the border is untouched, the two flag lists change
    places, and the two squares are reflected. *)
Theorem rotate_keeps_playable (s : state) :
  playable s = true ->
  exists s',
    rotate_position s = Ok s'
    /\ playable s' = true
    /\ (forall j, 0 <= j < 120 ->
                  cell (position s') j
                  = if on_board j then swapcase (cell (position s) (119 - j))
                    else border j)
    /\ castling s' = opponent_castling s
    /\ opponent_castling s' = castling s
    /\ en_passant s' = 119 - en_passant s
    /\ king_passant s' = 119 - king_passant s.
Proof.
  intros P. apply playable_parts in P.
  destruct P as [F [LC [LO [HK Hk]]]].
  pose proof (@framed_length _ F) as L.
  rewrite (@rotate_position_value s L). eexists. split; [ reflexivity | ].
  cbn [position castling opponent_castling en_passant king_passant].
  split; [ | split; [ | tauto ] ].
  - apply playable_parts.
    cbn [position castling opponent_castling en_passant king_passant].
    split; [ apply framed_rotated; exact F | ].
    split; [ exact LO | ]. split; [ exact LC | ].
    split; apply kings_home_rotated; try assumption; try reflexivity;
      apply kings_home_swap; assumption.
  - intros j Hj. rewrite rotated_cell_framed by assumption.
    pose proof (@framed_cell _ j F Hj) as C. unfold frame_ok in C.
    destruct (on_board j); [ reflexivity | ].
    apply Ascii.eqb_eq in C. exact C.
Qed.

Lemma rotate_keeps_playable_witness :
  exists s',
    rotate_position startpos = Ok s'
    /\ playable s' = true
    /\ (forall j, 0 <= j < 120 ->
                  cell (position s') j
                  = if on_board j
                    then swapcase (cell (position startpos) (119 - j))
                    else border j)
    /\ castling s' = opponent_castling startpos
    /\ opponent_castling s' = castling startpos
    /\ en_passant s' = 119 - en_passant startpos
    /\ king_passant s' = 119 - king_passant startpos.
Proof. apply (@rotate_keeps_playable startpos). reflexivity. Defined.

(** ** The engine's own moves on playable states *)

Lemma getitem_box (position : str) (i : Z) :
  length position = 120%nat -> 0 <= i < 120 ->
  getitem (map (fun c => [c]) position) i = Ok [cell position i].
Proof.
  intros L H.
  rewrite (@getitem_nth _ _ i []) by (unfold len; rewrite length_map; lia).
  f_equal. unfold cell.
  rewrite (nth_indep _ [] ((fun c => [c]) blank))
    by (rewrite length_map; lia).
  apply (map_nth (fun c => [c])).
Qed.

Lemma setitem_box (position : str) (i : Z) (c : ascii) :
  length position = 120%nat -> 0 <= i < 120 ->
  setitem (map (fun x => [x]) position) i [c]
  = Ok (map (fun x => [x]) (update position (Z.to_nat i) c)).
Proof.
  intros L H.
  rewrite setitem_update by (unfold len; rewrite length_map; lia).
  rewrite update_map_box. reflexivity.
Qed.

Lemma swap_items_box (position : str) (i j : Z) :
  length position = 120%nat -> 0 <= i < 120 -> 0 <= j < 120 ->
  swap_items (map (fun x => [x]) position) i j
  = Ok (map (fun x => [x])
          (update (update position (Z.to_nat i) (cell position j))
                  (Z.to_nat j) (cell position i))).
Proof.
  intros L Hi Hj. unfold swap_items.
  rewrite !getitem_box by assumption. cbn [bind].
  rewrite setitem_box by assumption. cbn [bind].
  rewrite setitem_box by (rewrite ?length_update; assumption).
  reflexivity.
Qed.

Lemma str_eqb_single (c d : ascii) :
  str_eqb [c] [d] = Ascii.eqb c d.
Proof. cbn [str_eqb]. apply andb_true_r. Qed.

Lemma set_if_flags (b : bool) (flags : list bool) (i : Z) :
  len flags = 2 -> i = 0 \/ i = 1 ->
  exists flags',
    set_if b flags i false = Ok flags'
    /\ len flags' = 2
    /\ (existsb (fun f : bool => f) flags' = true ->
        existsb (fun f : bool => f) flags = true).
Proof.
  intros L H. destruct (@flags_pair _ L) as [x [y ->]].
  destruct b; [ | exists [x; y]; tauto ].
  destruct H as [ -> | -> ]; eexists; (split; [ reflexivity | ]);
    (split; [ reflexivity | ]); cbn; destruct x, y; auto.
Qed.

Lemma clear_flags (flags : list bool) :
  len flags = 2 ->
  exists l1 l2,
    setitem flags 0 false = Ok l1 /\ setitem l1 1 false = Ok l2
    /\ len l2 = 2 /\ existsb (fun f : bool => f) l2 = false.
Proof.
  intros L. destruct (@flags_pair _ L) as [x [y ->]].
  do 2 eexists. repeat split; reflexivity.
Qed.

Lemma framed_update (position : str) (i : Z) (c : ascii) :
  framed position = true -> 0 <= i < 120 -> frame_ok i c = true ->
  framed (update position (Z.to_nat i) c) = true.
Proof.
  intros F Hi C. pose proof (@framed_length _ F) as L.
  apply framed_intro; [ rewrite length_update; exact L | ].
  intros j Hj. rewrite cell_update by (unfold len; lia).
  destruct (Z.eqb_spec j i) as [ -> | N ]; [ exact C | ].
  apply framed_cell; assumption.
Qed.

Lemma frame_ok_letter (i : Z) (c : ascii) :
  on_board i = true -> member c (lit ".PNBRQKpnbrqk") = true ->
  frame_ok i c = true.
Proof. unfold frame_ok. intros ->. auto. Qed.

Lemma framed_letter (position : str) (i : Z) :
  framed position = true -> on_board i = true ->
  member (cell position i) (lit ".PNBRQKpnbrqk") = true.
Proof.
  intros F O. pose proof (@on_board_range _ O) as R.
  pose proof (@framed_cell position i F ltac:(lia)) as C.
  unfold frame_ok in C. rewrite O in C. exact C.
Qed.

Lemma kings_home_update (flags : list bool) (king : ascii) (a b : Z)
    (position : str) (i : Z) (c : ascii) :
  length position = 120%nat -> 0 <= i < 120 ->
  c <> king ->
  kings_home flags king a b position = true ->
  kings_home flags king a b (update position (Z.to_nat i) c) = true.
Proof.
  intros L Hi N H. apply kings_home_intro. intros E j Hj C.
  rewrite cell_update in C by (unfold len; lia).
  destruct (Z.eqb_spec j i) as [ -> | _ ]; [ contradiction | ].
  eapply kings_home_elim; eauto.
Qed.

Lemma kings_home_weaken (flags flags' : list bool) (king : ascii) (a b : Z)
    (position : str) :
  (existsb (fun f : bool => f) flags' = true ->
   existsb (fun f : bool => f) flags = true) ->
  kings_home flags king a b position = true ->
  kings_home flags' king a b position = true.
Proof.
  intros W H. apply kings_home_intro. intros E j Hj C.
  eapply kings_home_elim; eauto.
Qed.

Lemma kings_home_cleared (flags : list bool) (king : ascii) (a b : Z)
    (position : str) :
  existsb (fun f : bool => f) flags = false ->
  kings_home flags king a b position = true.
Proof. intros E. unfold kings_home. rewrite E. reflexivity. Qed.

Lemma flag_set (flags : list bool) (n : nat) :
  nth n flags false = true -> existsb (fun f : bool => f) flags = true.
Proof.
  revert n. induction flags as [ | f flags IH ]; intros [ | n ];
    cbn [nth existsb]; try discriminate.
  - intros ->. reflexivity.
  - intros H. rewrite (IH n H). apply orb_true_r.
Qed.

Lemma upper_letter (c : ascii) :
  In c (lit "PNBRQK") ->
  member c (lit ".PNBRQKpnbrqk") = true /\ c <> "k"%char /\ c <> dot.
Proof.
  intros H. cbn in H.
  repeat (destruct H as [ <- | H ];
          [ split; [ reflexivity | split; discriminate ] | ]).
  destruct H.
Qed.

Lemma pieces_update (position : str) (n : nat) (c : ascii) :
  (n < length position)%nat ->
  (pieces (update position n c)
   + (if is_piece (nth n position blank) then 1 else 0)
   = pieces position + (if is_piece c then 1 else 0))%nat.
Proof.
  unfold pieces. revert n.
  induction position as [ | x position IH ]; intros n H.
  - cbn in H. lia.
  - destruct n as [ | n ]; cbn [update nth filter].
    + destruct (is_piece x), (is_piece c); cbn [length]; lia.
    + cbn [length] in H. specialize (IH n ltac:(lia)).
      destruct (is_piece x); cbn [length]; lia.
Qed.

Lemma pieces_update_le (position : str) (i : Z) (c : ascii) :
  0 <= i < len position -> is_piece c = false ->
  (pieces (update position (Z.to_nat i) c) <= pieces position)%nat.
Proof.
  intros H N.
  pose proof (@pieces_update position (Z.to_nat i) c
                ltac:(unfold len in H; lia)) as E.
  rewrite N in E. destruct (is_piece _); lia.
Qed.

Lemma pieces_update_same (position : str) (i : Z) (c : ascii) :
  0 <= i < len position -> is_piece c = true ->
  is_piece (cell position i) = true ->
  pieces (update position (Z.to_nat i) c) = pieces position.
Proof.
  intros H N O.
  pose proof (@pieces_update position (Z.to_nat i) c
                ltac:(unfold len in H; lia)) as E.
  unfold cell in O. rewrite N, O in E. lia.
Qed.

Lemma set_if_box (b : bool) (position : str) (i : Z) (c : ascii) :
  length position = 120%nat -> (b = true -> 0 <= i < 120) ->
  set_if b (map (fun x => [x]) position) i [c]
  = Ok (map (fun x => [x])
          (if b then update position (Z.to_nat i) c else position)).
Proof.
  intros L H. unfold set_if. destruct b; [ | reflexivity ].
  apply setitem_box; auto.
Qed.

Lemma length_if_update (b : bool) (position : str) (n : nat) (c : ascii) :
  length (if b then update position n c else position) = length position.
Proof. destruct b; [ apply length_update | reflexivity ]. Qed.

Lemma framed_if_update (b : bool) (position : str) (i : Z) (c : ascii) :
  framed position = true ->
  (b = true -> 0 <= i < 120 /\ frame_ok i c = true) ->
  framed (if b then update position (Z.to_nat i) c else position) = true.
Proof.
  intros F H. destruct b; [ | exact F ].
  destruct (H eq_refl). apply framed_update; assumption.
Qed.

Lemma kings_home_if_update (b : bool) (flags : list bool) (king : ascii)
    (x y : Z) (position : str) (i : Z) (c : ascii) :
  length position = 120%nat ->
  (b = true -> 0 <= i < 120) ->
  c <> king ->
  kings_home flags king x y position = true ->
  kings_home flags king x y
    (if b then update position (Z.to_nat i) c else position) = true.
Proof.
  intros L H N K. destruct b; [ | exact K ].
  apply kings_home_update; auto.
Qed.

Section MakeMove.

Variable s : state.
Hypothesis is_playable : playable s = true.

Variables start_square end_square : Z.
Let p0 := position s.
Let piece := cell p0 start_square.
Let p2 :=
  update (update p0 (Z.to_nat start_square) dot) (Z.to_nat end_square) piece.

Hypothesis start_on_board : on_board start_square = true.
Hypothesis end_on_board : on_board end_square = true.
Hypothesis own : In piece (lit "PNBRQK").

Lemma playable_facts :
  framed p0 = true /\ length p0 = 120%nat
  /\ len (castling s) = 2 /\ len (opponent_castling s) = 2
  /\ kings_home (castling s) "K" 94 95 p0 = true
  /\ kings_home (opponent_castling s) "k" 24 25 p0 = true.
Proof.
  pose proof is_playable as P. apply playable_parts in P.
  destruct P as [F [LC [LO [HK Hk]]]].
  pose proof (@framed_length _ F). tauto.
Qed.

Lemma moved_framed : framed p2 = true /\ length p2 = 120%nat.
Proof.
  destruct playable_facts as [F [L _]].
  pose proof (@on_board_range _ start_on_board).
  pose proof (@on_board_range _ end_on_board).
  destruct (@upper_letter _ own) as [M _].
  assert (F2 : framed p2 = true).
  { unfold p2. apply framed_update; [ | lia | ].
    - apply framed_update; [ exact F | lia | ].
      apply frame_ok_letter; [ exact start_on_board | reflexivity ].
    - apply frame_ok_letter; assumption. }
  split; [ exact F2 | apply framed_length; exact F2 ].
Qed.

Lemma moved_opponent_king :
  kings_home (opponent_castling s) "k" 24 25 p2 = true.
Proof.
  destruct playable_facts as [F [L [_ [_ [_ Hk]]]]].
  pose proof (@on_board_range _ start_on_board).
  pose proof (@on_board_range _ end_on_board).
  destruct (@upper_letter _ own) as [_ [N _]].
  unfold p2. apply kings_home_update;
    [ rewrite length_update; exact L | lia | exact N | ].
  apply kings_home_update; [ exact L | lia | discriminate | exact Hk ].
Qed.

Lemma moved_own_king :
  piece <> "K"%char -> kings_home (castling s) "K" 94 95 p2 = true.
Proof.
  intros N. destruct playable_facts as [F [L [_ [_ [HK _]]]]].
  pose proof (@on_board_range _ start_on_board).
  pose proof (@on_board_range _ end_on_board).
  unfold p2. apply kings_home_update;
    [ rewrite length_update; exact L | lia | exact N | ].
  apply kings_home_update; [ exact L | lia | discriminate | exact HK ].
Qed.

Lemma moved_pieces :
  is_piece (cell p0 end_square) = islower (cell p0 end_square) ->
  start_square <> end_square ->
  (pieces p2 + (if islower (cell p0 end_square) then 1 else 0)
   = pieces p0)%nat.
Proof.
  intros E N. destruct playable_facts as [F [L _]].
  pose proof (@on_board_range _ start_on_board).
  pose proof (@on_board_range _ end_on_board).
  unfold p2.
  pose proof (@pieces_update p0 (Z.to_nat start_square) dot ltac:(lia)) as A.
  pose proof (@pieces_update (update p0 (Z.to_nat start_square) dot)
                (Z.to_nat end_square) piece
                ltac:(rewrite length_update; lia)) as B.
  assert (C : nth (Z.to_nat end_square)
                (update p0 (Z.to_nat start_square) dot) blank
              = cell p0 end_square).
  { change (cell (update p0 (Z.to_nat start_square) dot) end_square
            = cell p0 end_square).
    rewrite cell_update by (unfold len; lia).
    destruct (Z.eqb_spec end_square start_square); [ | reflexivity ].
    exfalso. auto. }
  rewrite C in B. rewrite E in B.
  assert (U : is_piece piece = true).
  { pose proof own as I. cbn in I.
    repeat (destruct I as [ <- | I ]; [ reflexivity | ]). destruct I. }
  assert (V : is_piece (nth (Z.to_nat start_square) p0 blank) = true)
    by exact U.
  rewrite U in B. rewrite V in A. cbn in A.
  destruct (islower (cell p0 end_square)); lia.
Qed.

(** The steps all three branches of [make_move] share. *)
Lemma make_move_prefix (k : str -> list str -> list bool -> list bool
                            -> py state) :
  exists c2 o2,
    len c2 = 2 /\ len o2 = 2
    /\ (existsb (fun f : bool => f) c2 = true ->
        existsb (fun f : bool => f) (castling s) = true)
    /\ (existsb (fun f : bool => f) o2 = true ->
        existsb (fun f : bool => f) (opponent_castling s) = true)
    /\ (piece_moved <- getitem (map (fun c => [c]) p0) start_square ;;
        list_position <-
          setitem (map (fun c => [c]) p0) start_square [dot] ;;
        list_position <- setitem list_position end_square piece_moved ;;
        castling <- set_if (start_square =? A1) (castling s) 0 false ;;
        castling <- set_if (start_square =? H1) castling 1 false ;;
        opponent_castling <-
          set_if (end_square =? A8) (opponent_castling s) 0 false ;;
        opponent_castling <-
          set_if (end_square =? H8) opponent_castling 1 false ;;
        k piece_moved list_position castling opponent_castling)
       = k [piece] (map (fun c => [c]) p2) c2 o2.
Proof.
  destruct playable_facts as [F [L [LC [LO _]]]].
  pose proof (@on_board_range _ start_on_board).
  pose proof (@on_board_range _ end_on_board).
  destruct (@set_if_flags (start_square =? A1) _ 0 LC ltac:(tauto))
    as [c1 [E1 [L1 W1]]].
  destruct (@set_if_flags (start_square =? H1) _ 1 L1 ltac:(tauto))
    as [c2 [E2 [L2 W2]]].
  destruct (@set_if_flags (end_square =? A8) _ 0 LO ltac:(tauto))
    as [o1 [E3 [L3 W3]]].
  destruct (@set_if_flags (end_square =? H8) _ 1 L3 ltac:(tauto))
    as [o2 [E4 [L4 W4]]].
  exists c2, o2. repeat split; auto.
  rewrite getitem_box by (assumption || lia). cbn [bind].
  rewrite setitem_box by (assumption || lia). cbn [bind].
  rewrite setitem_box by (rewrite ?length_update; assumption || lia).
  cbn [bind]. rewrite E1. cbn [bind]. rewrite E2. cbn [bind].
  rewrite E3. cbn [bind]. rewrite E4. cbn [bind]. reflexivity.
Qed.

End MakeMove.

Lemma no_sideways_step (start_square end_square : Z) :
  Z.abs (start_square - end_square) <> 2 ->
  (start_square - end_square =? 2) = false
  /\ (end_square - start_square =? 2) = false.
Proof. intros H. split; apply Z.eqb_neq; lia. Qed.

Lemma free_letter (c : ascii) :
  member c (lit ".pnbrqk") = true ->
  is_piece c = islower c /\ isupper c = false.
Proof.
  intros H. apply member_In in H. cbn in H.
  repeat (destruct H as [ <- | H ]; [ split; reflexivity | ]). destruct H.
Qed.

Lemma make_move_ordinary (s : state) (start_square end_square : Z)
    (cap promo : str) :
  playable s = true ->
  ordinary_move (position s) (start_square, end_square, cap, promo) = true ->
  exists s1,
    make_move (start_square, end_square, cap, promo) s = Ok s1
    /\ playable s1 = true
    /\ (pieces (position s1)
        + (if islower (cell (position s) end_square) then 1 else 0)
        <= pieces (position s))%nat.
Proof.
  intros P G.
  unfold ordinary_move in G.
  apply andb_true_iff in G. destruct G as [G PS].
  apply andb_true_iff in G. destruct G as [G NK].
  apply andb_true_iff in G. destruct G as [G PO].
  apply andb_true_iff in G. destruct G as [G M].
  apply andb_true_iff in G. destruct G as [G EC].
  apply andb_true_iff in G. destruct G as [G OE].
  apply andb_true_iff in G. destruct G as [OS U].
  pose proof (@on_board_range _ OS) as RS.
  pose proof (@on_board_range _ OE) as RE.
  destruct (@playable_facts s P) as [F [L [LC [LO [HK Hk]]]]].
  destruct (@own_piece (position s) start_square
              (@framed_board_ok _ F) ltac:(lia) U) as [_ I].
  destruct (@moved_framed s P start_square end_square OS OE I) as [F2 L2].
  pose proof (@moved_opponent_king s P start_square end_square OS OE I) as Hk2.
  pose proof (@moved_own_king s P start_square end_square OS OE) as HK2.
  destruct (@free_letter _ M) as [IP NU].
  assert (NE : start_square <> end_square).
  { intros X. rewrite <- X in NU. rewrite NU in U. discriminate. }
  pose proof (@moved_pieces s P start_square end_square OS OE I IP NE) as MP.
  cbv zeta in F2, L2, Hk2, HK2, MP.
  unfold make_move. cbv zeta.
  edestruct (@make_move_prefix s P start_square end_square OS OE)
    as [c2 [o2 [LC2 [LO2 [W2 [W4 E]]]]]].
  cbv zeta in E. rewrite E. cbv beta. clear E.
  set (piece := cell (position s) start_square) in *.
  set (p2 := update (update (position s) (Z.to_nat start_square) dot)
                    (Z.to_nat end_square) piece) in *.
  change (lit "K") with ["K"%char]. change (lit "P") with ["P"%char].
  rewrite !str_eqb_single.
  destruct (Ascii.eqb_spec piece "K") as [ EK | NKing ].
  - (* a king step *)
    destruct (@clear_flags c2 LC2) as [c3 [c4 [E3 [E4 [L4 X4]]]]].
    rewrite E3. cbn [bind]. rewrite E4. cbn [bind].
    assert (N : Z.abs (start_square - end_square) <> 2).
    { cbn [andb] in NK. apply negb_true_iff in NK.
      apply Z.eqb_neq in NK. exact NK. }
    destruct (@no_sideways_step _ _ N) as [N1 N2]. rewrite N1, N2.
    cbn [bind]. eexists. split; [ reflexivity | ].
    cbn [position castling opponent_castling en_passant king_passant].
    rewrite concat_map_box.
    split; [ | lia ]. apply playable_parts.
    cbn [position castling opponent_castling en_passant king_passant].
    split; [ exact F2 | ]. split; [ exact L4 | ]. split; [ exact LO2 | ].
    split; [ apply kings_home_cleared; exact X4 | ].
    eapply kings_home_weaken; [ exact W4 | exact Hk2 ].
  - specialize (HK2 NKing).
    destruct (Ascii.eqb_spec piece "P") as [ EP | NP ].
    + (* a pawn move *)
      assert (OB : on_board (end_square + SOUTH) = true).
      { destruct (Ascii.eqb_spec piece "P") as [ _ | X ];
          [ exact PS | contradiction ]. }
      pose proof (@on_board_range _ OB) as RB.
      rewrite set_if_box by (assumption || (intros _; lia)).
      cbn [bind].
      set (p3 := if end_square =? en_passant s
                 then update p2 (Z.to_nat (end_square + SOUTH)) dot
                 else p2).
      assert (F3 : framed p3 = true).
      { apply framed_if_update; [ exact F2 | ]. intros _.
        split; [ lia | ]. apply frame_ok_letter; [ exact OB | reflexivity ]. }
      assert (L3 : length p3 = 120%nat)
        by (unfold p3; rewrite length_if_update; exact L2).
      assert (N3 : (pieces p3 <= pieces p2)%nat).
      { unfold p3. destruct (end_square =? en_passant s); [ | lia ].
        apply pieces_update_le; [ unfold len; lia | reflexivity ]. }
      assert (C3 : cell p3 end_square = piece).
      { unfold p3. destruct (end_square =? en_passant s).
        - rewrite cell_update by (unfold len; lia).
          destruct (Z.eqb_spec end_square (end_square + SOUTH)) as [ X | _ ];
            [ unfold SOUTH in X; lia | ].
          unfold p2. rewrite cell_update
            by (unfold len; rewrite ?length_update; lia).
          rewrite Z.eqb_refl. reflexivity.
        - unfold p2. rewrite cell_update
            by (unfold len; rewrite ?length_update; lia).
          rewrite Z.eqb_refl. reflexivity. }
      assert (HK3 : kings_home (castling s) "K" 94 95 p3 = true).
      { apply kings_home_if_update; try assumption;
          [ intros _; lia | discriminate ]. }
      assert (Hk3 : kings_home (opponent_castling s) "k" 24 25 p3 = true).
      { apply kings_home_if_update; try assumption;
          [ intros _; lia | discriminate ]. }
      unfold promotion_ok in PO.
      destruct (Ascii.eqb_spec piece "P") as [ _ | X ]; [ | contradiction ].
      cbn [andb] in PO.
      destruct ((A8 <=? end_square) && (end_square <=? H8)) eqn:R8.
      * destruct promo as [ | q [ | ? ? ] ]; try discriminate PO.
        destruct (@upper_letter q (@promotion_letters q PO))
          as [Mq [Nq _]].
        rewrite set_if_box by (assumption || (intros _; lia)).
        cbn [bind]. eexists. split; [ reflexivity | ].
        cbn [position castling opponent_castling en_passant king_passant].
        rewrite concat_map_box.
        split.
        2:{ rewrite pieces_update_same; [ lia | unfold len; lia | | ].
            - apply member_In in PO. cbn in PO.
              repeat (destruct PO as [ <- | PO ]; [ reflexivity | ]).
              destruct PO.
            - rewrite C3, EP. reflexivity. }
        apply playable_parts.
        cbn [position castling opponent_castling en_passant king_passant].
        split.
        { apply framed_update; [ exact F3 | lia | ].
          apply frame_ok_letter; assumption. }
        split; [ exact LC2 | ]. split; [ exact LO2 | ]. split.
        { eapply kings_home_weaken; [ exact W2 | ].
          apply kings_home_update; try assumption; [ lia | ].
          intros X. subst q. discriminate PO. }
        { eapply kings_home_weaken; [ exact W4 | ].
          apply kings_home_update; try assumption; lia. }
      * destruct promo as [ | ? ? ]; [ | discriminate PO ].
        cbn [set_if bind]. eexists. split; [ reflexivity | ].
        cbn [position castling opponent_castling en_passant king_passant].
        rewrite concat_map_box.
        split; [ | lia ]. apply playable_parts.
        cbn [position castling opponent_castling en_passant king_passant].
        split; [ exact F3 | ]. split; [ exact LC2 | ].
        split; [ exact LO2 | ]. split.
        { eapply kings_home_weaken; [ exact W2 | exact HK3 ]. }
        { eapply kings_home_weaken; [ exact W4 | exact Hk3 ]. }
    + (* any other piece *)
      eexists. split; [ reflexivity | ].
      cbn [position castling opponent_castling en_passant king_passant].
      rewrite concat_map_box.
      split; [ | lia ]. apply playable_parts.
      cbn [position castling opponent_castling en_passant king_passant].
      split; [ exact F2 | ]. split; [ exact LC2 | ]. split; [ exact LO2 | ].
      split.
      * eapply kings_home_weaken; [ exact W2 | exact HK2 ].
      * eapply kings_home_weaken; [ exact W4 | exact Hk2 ].
Qed.

Lemma cell_moved (position : str) (start_square end_square j : Z)
    (piece : ascii) :
  length position = 120%nat ->
  0 <= start_square < 120 -> 0 <= end_square < 120 -> 0 <= j ->
  j <> start_square -> j <> end_square ->
  cell (update (update position (Z.to_nat start_square) dot)
               (Z.to_nat end_square) piece) j
  = cell position j.
Proof.
  intros L HS HE Hj N1 N2.
  rewrite cell_update by (unfold len; rewrite ?length_update; lia).
  destruct (Z.eqb_spec j end_square); [ contradiction | ].
  rewrite cell_update by (unfold len; lia).
  destruct (Z.eqb_spec j start_square); [ contradiction | reflexivity ].
Qed.

Lemma around_home (start_square : Z) :
  start_square = 94 \/ start_square = 95 ->
  on_board (start_square - 2) = true /\ on_board (start_square - 1) = true
  /\ on_board (start_square + 1) = true
  /\ on_board (start_square + 2) = true.
Proof. intros [ -> | -> ]; repeat split; reflexivity. Qed.

Lemma make_move_castling (s : state) (start_square end_square : Z)
    (cap promo : str) :
  playable s = true ->
  castling_move (position s) (castling s)
                (start_square, end_square, cap, promo) = true ->
  exists s1,
    make_move (start_square, end_square, cap, promo) s = Ok s1
    /\ playable s1 = true
    /\ str_islower cap = false.
Proof.
  intros P G.
  unfold castling_move in G.
  apply andb_true_iff in G. destruct G as [G D].
  apply andb_true_iff in G. destruct G as [G EP].
  apply andb_true_iff in G. destruct G as [G EC].
  apply andb_true_iff in G. destruct G as [OS EK].
  apply Ascii.eqb_eq in EK.
  assert (NoCap : str_islower cap = false).
  { apply str_eqb_eq in EC. subst cap. reflexivity. }
  pose proof (@on_board_range _ OS) as RS.
  destruct (@playable_facts s P) as [F [L [LC [LO [HK Hk]]]]].
  assert (Fl : existsb (fun f : bool => f) (castling s) = true).
  { apply orb_true_iff in D. destruct D as [ D | D ];
      apply andb_true_iff in D; destruct D as [_ D];
      eapply flag_set; exact D. }
  pose proof (@kings_home_elim _ _ _ _ _ start_square HK Fl ltac:(lia) EK)
    as Home.
  destruct (@around_home _ Home) as [O2 [O1 [O3 O4]]].
  assert (I : In (cell (position s) start_square) (lit "PNBRQK"))
    by (rewrite EK; cbn; tauto).
  assert (Up : forall c, isupper c = true -> c <> "k"%char)
    by (intros c U X; subst c; discriminate U).
  apply orb_true_iff in D. destruct D as [ D | D ].
  - (* towards the a-file *)
    apply andb_true_iff in D. destruct D as [D _].
    apply andb_true_iff in D. destruct D as [D Mid].
    apply andb_true_iff in D. destruct D as [D Corner].
    apply Z.eqb_eq in D. subst end_square. apply Ascii.eqb_eq in Mid.
    destruct (@moved_framed s P start_square (start_square - 2) OS O2 I)
      as [F2 L2].
    pose proof (@moved_opponent_king s P start_square (start_square - 2)
                  OS O2 I) as Hk2.
    cbv zeta in F2, L2, Hk2.
    unfold make_move. cbv zeta.
    edestruct (@make_move_prefix s P start_square (start_square - 2) OS O2)
      as [c2 [o2 [LC2 [LO2 [W2 [W4 E]]]]]].
    cbv zeta in E. rewrite E. cbv beta. clear E.
    rewrite EK in *.
    set (p2 := update (update (position s) (Z.to_nat start_square) dot)
                      (Z.to_nat (start_square - 2)) "K"%char) in *.
    change (str_eqb ["K"%char] (lit "K")) with true. cbv iota.
    destruct (@clear_flags c2 LC2) as [c3 [c4 [E3 [E4 [L4 X4]]]]].
    rewrite E3. cbn [bind]. rewrite E4. cbn [bind].
    replace (start_square - (start_square - 2) =? 2) with true
      by (symmetry; apply Z.eqb_eq; lia).
    replace ((start_square + (start_square - 2)) / 2)
      with (start_square - 1)
      by (replace (start_square + (start_square - 2))
            with ((start_square - 1) * 2) by lia;
          rewrite Z.div_mul by lia; reflexivity).
    rewrite swap_items_box by (assumption || (unfold A1; lia)).
    cbn [bind].
    replace (start_square - 2 - start_square =? 2) with false
      by (symmetry; apply Z.eqb_neq; lia).
    cbn [bind]. eexists. split; [ reflexivity | ].
    assert (V1 : cell p2 (start_square - 1) = dot).
    { unfold p2. rewrite cell_moved by (assumption || lia). exact Mid. }
    assert (V2 : cell p2 A1 = cell (position s) A1).
    { unfold p2. apply cell_moved; try assumption; unfold A1; lia. }
    split; [ | exact NoCap ]. apply playable_parts.
    cbn [position castling opponent_castling en_passant king_passant].
    rewrite concat_map_box. split.
    { apply framed_update; [ | lia | ].
      - apply framed_update; [ exact F2 | unfold A1; lia | ].
        rewrite V1. reflexivity.
      - apply frame_ok_letter; [ exact O1 | ].
        apply framed_letter; [ exact F2 | reflexivity ]. }
    split; [ exact L4 | ]. split; [ exact LO2 | ].
    split; [ apply kings_home_cleared; exact X4 | ].
    eapply kings_home_weaken; [ exact W4 | ].
    apply kings_home_update;
      [ rewrite length_update; exact L2 | lia | | ].
    { rewrite V2. apply Up. exact Corner. }
    apply kings_home_update; [ exact L2 | unfold A1; lia | | exact Hk2 ].
    rewrite V1. discriminate.
  - (* towards the h-file *)
    apply andb_true_iff in D. destruct D as [D _].
    apply andb_true_iff in D. destruct D as [D Mid].
    apply andb_true_iff in D. destruct D as [D Corner].
    apply Z.eqb_eq in D. subst end_square. apply Ascii.eqb_eq in Mid.
    destruct (@moved_framed s P start_square (start_square + 2) OS O4 I)
      as [F2 L2].
    pose proof (@moved_opponent_king s P start_square (start_square + 2)
                  OS O4 I) as Hk2.
    cbv zeta in F2, L2, Hk2.
    unfold make_move. cbv zeta.
    edestruct (@make_move_prefix s P start_square (start_square + 2) OS O4)
      as [c2 [o2 [LC2 [LO2 [W2 [W4 E]]]]]].
    cbv zeta in E. rewrite E. cbv beta. clear E.
    rewrite EK in *.
    set (p2 := update (update (position s) (Z.to_nat start_square) dot)
                      (Z.to_nat (start_square + 2)) "K"%char) in *.
    change (str_eqb ["K"%char] (lit "K")) with true. cbv iota.
    destruct (@clear_flags c2 LC2) as [c3 [c4 [E3 [E4 [L4 X4]]]]].
    rewrite E3. cbn [bind]. rewrite E4. cbn [bind].
    replace (start_square - (start_square + 2) =? 2) with false
      by (symmetry; apply Z.eqb_neq; lia).
    cbn [bind].
    replace (start_square + 2 - start_square =? 2) with true
      by (symmetry; apply Z.eqb_eq; lia).
    replace ((start_square + (start_square + 2)) / 2)
      with (start_square + 1)
      by (replace (start_square + (start_square + 2))
            with ((start_square + 1) * 2) by lia;
          rewrite Z.div_mul by lia; reflexivity).
    rewrite swap_items_box by (assumption || (unfold H1; lia)).
    cbn [bind]. eexists. split; [ reflexivity | ].
    assert (V1 : cell p2 (start_square + 1) = dot).
    { unfold p2. rewrite cell_moved by (assumption || lia). exact Mid. }
    assert (V2 : cell p2 H1 = cell (position s) H1).
    { unfold p2. apply cell_moved; try assumption; unfold H1; lia. }
    split; [ | exact NoCap ]. apply playable_parts.
    cbn [position castling opponent_castling en_passant king_passant].
    rewrite concat_map_box. split.
    { apply framed_update; [ | lia | ].
      - apply framed_update; [ exact F2 | unfold H1; lia | ].
        rewrite V1. reflexivity.
      - apply frame_ok_letter; [ exact O3 | ].
        apply framed_letter; [ exact F2 | reflexivity ]. }
    split; [ exact L4 | ]. split; [ exact LO2 | ].
    split; [ apply kings_home_cleared; exact X4 | ].
    eapply kings_home_weaken; [ exact W4 | ].
    apply kings_home_update;
      [ rewrite length_update; exact L2 | lia | | ].
    { rewrite V2. apply Up. exact Corner. }
    apply kings_home_update; [ exact L2 | unfold H1; lia | | exact Hk2 ].
    rewrite V1. discriminate.
Qed.

Lemma pieces_rotated (position : str) :
  framed position = true -> pieces (rotated position) = pieces position.
Proof.
  intros F. pose proof (@framed_length _ F) as L.
  assert (E : map is_piece (rotated position)
              = map is_piece (rev position)).
  { apply (nth_ext _ _ false false).
    - rewrite !length_map, length_rotated, length_rev. lia.
    - intros n Hn. rewrite length_map, length_rotated in Hn.
      rewrite (nth_indep _ false (is_piece blank))
        by (rewrite length_map, length_rotated; exact Hn).
      rewrite (nth_indep (map is_piece (rev position)) false
                         (is_piece blank))
        by (rewrite length_map, length_rev; lia).
      rewrite !(map_nth is_piece).
      rewrite rev_nth by lia. rewrite L.
      pose proof (@rotated_cell_framed position (Z.of_nat n) F ltac:(lia))
        as C.
      unfold cell in C. rewrite Nat2Z.id in C. rewrite C.
      replace (120 - S n)%nat with (Z.to_nat (119 - Z.of_nat n)) by lia.
      fold (cell position (119 - Z.of_nat n)).
      pose proof (@framed_cell position (Z.of_nat n) F ltac:(lia)) as A.
      pose proof (@framed_cell position (119 - Z.of_nat n) F ltac:(lia))
        as B.
      unfold frame_ok in A, B.
      rewrite on_board_rotate in B by lia.
      destruct (on_board (Z.of_nat n)).
      + clear. generalize (cell position (119 - Z.of_nat n)). intros c.
        unfold is_piece. each_ascii c.
      + apply Ascii.eqb_eq in A, B. unfold cell in A. rewrite Nat2Z.id in A.
        rewrite A, B. unfold border.
        destruct (Z.of_nat n mod 10 =? 9),
                 ((119 - Z.of_nat n) mod 10 =? 9); reflexivity. }
  assert (P : forall l : str,
             length (filter is_piece l)
             = length (filter (fun b : bool => b) (map is_piece l))).
  { induction l as [ | x l IH ]; cbn [filter map]; [ reflexivity | ].
    destruct (is_piece x); cbn [length]; rewrite IH; reflexivity. }
  unfold pieces. rewrite (P (rotated position)), E, <- (P (rev position)).
  clear. induction position as [ | x position IH ]; [ reflexivity | ].
  cbn [rev]. rewrite filter_app, length_app, IH. cbn [filter].
  destruct (is_piece x); cbn [length]; unfold str in *; lia.
Qed.

Lemma play_generated (s : state) (m : move) :
  playable s = true ->
  generated (position s) (castling s) m = true ->
  exists s',
    play m s = Ok s' /\ playable s' = true
    /\ (str_islower (snd (fst m)) = true ->
        (pieces (position s') < pieces (position s))%nat).
Proof.
  intros P G. destruct m as [[[start_square end_square] cap] promo].
  cbn [fst snd].
  assert (M : exists s1,
             make_move (start_square, end_square, cap, promo) s = Ok s1
             /\ playable s1 = true
             /\ (str_islower cap = true ->
                 (pieces (position s1) < pieces (position s))%nat)).
  { unfold generated in G. apply orb_true_iff in G.
    destruct G as [ G | G ].
    - destruct (@make_move_ordinary s _ _ _ _ P G) as [s1 [E [P1 N]]].
      exists s1. split; [ exact E | ]. split; [ exact P1 | ].
      intros Lw. unfold ordinary_move in G.
      do 4 (apply andb_true_iff in G; destruct G as [G _]).
      apply andb_true_iff in G. destruct G as [_ EC].
      apply str_eqb_eq in EC.
      rewrite (@str_islower_single _ _ EC Lw) in N. lia.
    - destruct (@make_move_castling s _ _ _ _ P G) as [s1 [E [P1 N]]].
      exists s1. split; [ exact E | ]. split; [ exact P1 | ].
      intros Lw. rewrite Lw in N. discriminate. }
  destruct M as [s1 [E1 [P1 N1]]]. unfold play. rewrite E1. cbn [bind].
  destruct (@playable_facts s1 P1) as [F1 [L1 _]].
  destruct (@rotate_position_playable s1 P1) as [s' [E' P']].
  exists s'. split; [ exact E' | ]. split; [ exact P' | ].
  intros Lw. specialize (N1 Lw).
  rewrite (@rotate_position_value s1 L1) in E'. injection E' as <-.
  cbn [position]. rewrite pieces_rotated by exact F1. exact N1.
Qed.

(** X25: the engine's own moves keep the state playable.  On a playable
    state (a framed board, two flags on either side, kings at home while a
    flag of theirs is set) the generator returns, and for every move it
    returns [make_move] followed by [rotate_position] returns a playable
    state again: no move of the generator raises, writes outside the
    playing area, or leaves the board in another shape. *)
Theorem play_keeps_playable (s : state) :
  playable s = true ->
  exists move_list,
    generate_moves padded_tables (position s) (castling s) (en_passant s)
    = Ok move_list
    /\ forall m, In m move_list ->
                 exists s', play m s = Ok s' /\ playable s' = true.
Proof.
  intros P. destruct (@playable_facts s P) as [F [L [LC _]]].
  destruct (@generate_moves_generated (position s) (castling s) (en_passant s)
              (@framed_board_ok _ F) LC) as [move_list [E G]].
  exists move_list. split; [ exact E | ].
  intros m Hin. rewrite Forall_forall in G. specialize (G m Hin).
  destruct (@play_generated s m P G) as [s' [E' [P' _]]].
  exists s'. split; assumption.
Qed.

Lemma play_keeps_playable_witness :
  exists move_list,
    generate_moves padded_tables (position startpos) (castling startpos)
                   (en_passant startpos)
    = Ok move_list
    /\ forall m, In m move_list ->
                 exists s', play m startpos = Ok s' /\ playable s' = true.
Proof. apply (@play_keeps_playable startpos). reflexivity. Defined.

(** ** The key of a playable state *)

Lemma hash_value_at (k : Z) :
  0 <= k < 781 -> exists v, getitem HASH_VALUES k = Ok v.
Proof.
  intros H. exists (nth (Z.to_nat k) HASH_VALUES 0).
  apply getitem_nth.
  assert (L : len HASH_VALUES = 781) by (vm_compute; reflexivity).
  rewrite L. exact H.
Qed.

Lemma piece_encoding (c : ascii) :
  member c (lit ".PNBRQKpnbrqk") = true -> Ascii.eqb c dot = false ->
  exists e, lookup PIECE_ENCODINGS c = Ok e /\ 0 <= e <= 11.
Proof.
  intros M D. apply member_In in M. cbn in M.
  repeat (destruct M as [ <- | M ];
          [ first [ discriminate D
                  | eexists; split; [ reflexivity | lia ] ] | ]).
  destruct M.
Qed.

Lemma piece_key_total (i : Z) (piece : ascii) (h : Z) :
  0 <= i < 120 -> frame_ok i piece = true ->
  exists h', piece_key i piece h = Ok h'.
Proof.
  intros Hi C. unfold piece_key.
  rewrite (@frame_ok_space _ _ C). unfold frame_ok in C.
  destruct (on_board i) eqn:O; cbn [negb andb]; [ | eauto ].
  destruct (Ascii.eqb piece dot) eqn:D; cbn [negb]; [ eauto | ].
  destruct (@piece_encoding piece C D) as [e [E R]].
  rewrite E. cbn [bind].
  unfold on_board in O. rewrite !andb_true_iff, !Z.leb_le in O.
  destruct (@hash_value_at (64 * e + 8 * (9 - i / 10) + (i mod 10 - 1)))
    as [v G]; [ lia | ].
  rewrite G. cbn [bind]. eauto.
Qed.

Lemma piece_hash_from_total (cells : str) :
  forall i h,
    0 <= i -> i + len cells <= 120 ->
    (forall n, (n < length cells)%nat ->
               frame_ok (i + Z.of_nat n) (nth n cells blank) = true) ->
    exists h', piece_hash_from i cells h = Ok h'.
Proof.
  induction cells as [ | c cells IH ]; intros i h Hi Hl H;
    cbn [piece_hash_from].
  - eauto.
  - unfold len in Hl. cbn [length] in Hl.
    destruct (@piece_key_total i c h ltac:(lia)) as [h1 E].
    { specialize (H 0%nat ltac:(cbn; lia)). cbn [nth] in H.
      rewrite Z.add_0_r in H. exact H. }
    rewrite E. cbn [bind]. apply IH; [ lia | unfold len; lia | ].
    intros n Hn. specialize (H (S n) ltac:(cbn; lia)). cbn [nth] in H.
    replace (i + 1 + Z.of_nat n) with (i + Z.of_nat (S n)) by lia. exact H.
Qed.

Lemma xor_if_total (flags : list bool) (i k h : Z) :
  len flags = 2 -> i = 0 \/ i = 1 -> 0 <= k < 781 ->
  exists h', xor_if flags i k h = Ok h'.
Proof.
  intros L Hi Hk. unfold xor_if.
  rewrite (@getitem_nth _ flags i false) by lia. cbn [bind].
  destruct (nth (Z.to_nat i) flags false); [ | eauto ].
  destruct (@hash_value_at k Hk) as [v E]. rewrite E. cbn [bind]. eauto.
Qed.

Lemma castling_hash_total (castling opponent_castling : list bool) :
  len castling = 2 -> len opponent_castling = 2 ->
  exists h, castling_hash_of castling opponent_castling = Ok h.
Proof.
  intros LC LO. unfold castling_hash_of.
  destruct (@xor_if_total castling 0 (768 + 1) 0 LC) as [h1 E1];
    [ tauto | lia | ].
  rewrite E1. cbn [bind].
  destruct (@xor_if_total castling 1 (768 + 0) h1 LC) as [h2 E2];
    [ tauto | lia | ].
  rewrite E2. cbn [bind].
  destruct (@xor_if_total opponent_castling 0 (768 + 3) h2 LO) as [h3 E3];
    [ tauto | lia | ].
  rewrite E3. cbn [bind].
  apply xor_if_total; [ exact LO | tauto | lia ].
Qed.

Lemma en_passant_hash_total (position : str) (ep : Z) :
  length position = 120%nat ->
  exists h, en_passant_hash_of position ep = Ok h.
Proof.
  intros L. unfold en_passant_hash_of.
  destruct (negb (ep =? 0) && negb (ep =? 119)); [ | eauto ].
  assert (K : forall lo hi, lo <= ep <= hi -> 41 <= lo -> hi <= 78 ->
                            exists h, en_passant_key ep = Ok h).
  { intros lo hi R H1 H2. unfold en_passant_key. apply hash_value_at.
    pose proof (Z.mod_pos_bound ep 10 ltac:(lia)). lia. }
  destruct ((41 <=? ep) && (ep <=? 48)) eqn:R6.
  - apply andb_true_iff in R6. destruct R6 as [A B].
    apply Z.leb_le in A. apply Z.leb_le in B.
    rewrite getitem_cell by (assumption || (unfold SOUTH, EAST; lia)).
    cbn [bind]. destruct (Ascii.eqb _ "P"); [ apply (K 41 48); lia | ].
    rewrite getitem_cell by (assumption || (unfold SOUTH, WEST; lia)).
    cbn [bind]. destruct (Ascii.eqb _ "P"); [ apply (K 41 48); lia | eauto ].
  - destruct ((71 <=? ep) && (ep <=? 78)) eqn:R3; [ | eauto ].
    apply andb_true_iff in R3. destruct R3 as [A B].
    apply Z.leb_le in A. apply Z.leb_le in B.
    rewrite getitem_cell by (assumption || (unfold NORTH, EAST; lia)).
    cbn [bind]. destruct (Ascii.eqb _ "p"); [ apply (K 71 78); lia | ].
    rewrite getitem_cell by (assumption || (unfold NORTH, WEST; lia)).
    cbn [bind]. destruct (Ascii.eqb _ "p"); [ apply (K 71 78); lia | eauto ].
Qed.

Lemma zobrist_hash_returns (s : state) (color : str) :
  playable s = true ->
  exists h, zobrist_hash s color = Ok h.
Proof.
  intros P.
  assert (W : exists s0 turn_hash,
             (if str_eqb color (lit "b")
              then s' <- rotate_position s ;; Ok (s', 0)
              else t <- getitem HASH_VALUES 780 ;; Ok (s, t))
             = Ok (s0, turn_hash)
             /\ playable s0 = true).
  { destruct (str_eqb color (lit "b")).
    - destruct (@rotate_position_playable s P) as [s' [E P']].
      rewrite E. cbn [bind]. eauto.
    - destruct (@hash_value_at 780 ltac:(lia)) as [t E].
      rewrite E. cbn [bind]. eauto. }
  destruct W as [s0 [turn_hash [E P0]]].
  unfold zobrist_hash. rewrite E. cbn [bind].
  destruct (@playable_facts s0 P0) as [F [L [LC [LO _]]]].
  destruct (@piece_hash_from_total (position s0) 0 0) as [p Ep].
  { lia. }
  { unfold len. lia. }
  { intros n Hn. rewrite Z.add_0_l.
    pose proof (@framed_cell _ (Z.of_nat n) F ltac:(lia)) as C.
    unfold cell in C. rewrite Nat2Z.id in C. exact C. }
  rewrite Ep. cbn [bind].
  destruct (@castling_hash_total _ _ LC LO) as [c Ec].
  rewrite Ec. cbn [bind].
  destruct (@en_passant_hash_total (position s0) (en_passant s0) L)
    as [e Ee].
  rewrite Ee. cbn [bind]. eauto.
Qed.

(** X26: [zobrist_hash] returns a key for every playable state and either
    colour string: no piece letter is missing from [PIECE_ENCODINGS], and
    no subscript of [HASH_VALUES], of the board or of a flag list is out of
    range. *)
Theorem zobrist_hash_total (s : state) (color : str) :
  playable s = true ->
  exists h, zobrist_hash s color = Ok h.
Proof. apply zobrist_hash_returns. Qed.

Lemma zobrist_hash_total_witness :
  exists h, zobrist_hash startpos (lit "b") = Ok h.
Proof. apply (@zobrist_hash_total startpos (lit "b")). reflexivity. Defined.
(** ** Searches that return *)

Lemma returns_ret {A : Type} (a : A) : returns (ret a).
Proof. intros g. unfold ret. eauto. Qed.

Lemma returns_bind {A B : Type} (m : M A) (k : A -> M B) :
  returns m -> (forall a, returns (k a)) -> returns (mbind m k).
Proof.
  intros Hm Hk g. destruct (Hm g) as [a [g1 E]].
  rewrite (@mbind_step _ _ m k g g1 a E). apply Hk.
Qed.

Lemma returns_lift {A B : Type} (p : py A) (a : A) (k : A -> M B) :
  p = Ok a -> returns (k a) -> returns (mbind (lift p) k).
Proof.
  intros -> Hk g. unfold mbind, lift. apply Hk.
Qed.

Lemma returns_time_is_up : returns time_is_up.
Proof. intros g. unfold time_is_up. eauto. Qed.

Lemma returns_set_timeout (b : bool) : returns (set_timeout b).
Proof. intros g. unfold set_timeout. eauto. Qed.

Lemma returns_count_node : returns count_node.
Proof. intros g. unfold count_node, set_nodes. eauto. Qed.

Lemma returns_read {A : Type} (f : globals -> A) : returns (read f).
Proof. intros g. unfold read. eauto. Qed.

Lemma returns_table_get (key : Z) : returns (table_get key).
Proof. intros g. unfold table_get. eauto. Qed.

Lemma returns_table_set (key : Z) (e : entry) : returns (table_set key e).
Proof. intros g. unfold table_set. eauto. Qed.

Lemma evaluate_position_returns (position : str) :
  board_ok position = true ->
  exists v, evaluate_position padded_tables position = Ok v.
Proof.
  intros B. unfold evaluate_position. rewrite (@raw_scores_value position B).
  cbn [bind]. destruct (board_value padded_tables position). eauto.
Qed.

Lemma king_in_check_returns (position : str) (castling : list bool)
    (king_passant : Z) :
  board_ok position = true -> len castling = 2 ->
  exists c, king_in_check padded_tables position castling king_passant = Ok c.
Proof.
  intros B LC. unfold king_in_check.
  destruct (king_square_of "k" position =? 0); [ eauto | ].
  destruct (@generate_moves_generated position castling 0 B LC)
    as [move_list [E _]].
  destruct (if (king_passant =? 23) || (king_passant =? 25) then (true, 24)
            else if (king_passant =? 24) || (king_passant =? 26)
                 then (true, 25) else (false, 0)) as [castled original].
  rewrite E. cbn [bind]. eauto.
Qed.

Lemma leaves_king_in_check_returns (s : state) (m : move) :
  playable s = true ->
  generated (position s) (castling s) m = true ->
  exists c s',
    leaves_king_in_check padded_tables m s = Ok (c, s')
    /\ playable s' = true
    /\ (str_islower (snd (fst m)) = true ->
        (pieces (position s') < pieces (position s))%nat).
Proof.
  intros P G. destruct (@play_generated s m P G) as [s' [E [P' N]]].
  unfold leaves_king_in_check. rewrite E. cbn [bind].
  apply playable_parts in P. destruct P as [_ [LC _]].
  pose proof P' as Q. apply playable_parts in Q. destruct Q as [F' _].
  destruct (@king_in_check_returns (position s') (castling s)
              (king_passant s') (@framed_board_ok _ F') LC) as [c Ec].
  rewrite Ec. cbn [bind]. eauto.
Qed.

Lemma delta_pruned_returns (position : str) (castling : list bool)
    (m : move) (stand_pat alpha : Z) :
  generated position castling m = true ->
  str_islower (snd (fst m)) = true ->
  exists b, delta_pruned m stand_pat alpha = Ok b.
Proof.
  intros G Lw. destruct m as [[[start_square end_square] cap] promo].
  cbn [fst snd] in Lw. unfold generated in G. apply orb_true_iff in G.
  destruct G as [ G | G ].
  - unfold ordinary_move in G.
    do 2 (apply andb_true_iff in G; destruct G as [G _]).
    apply andb_true_iff in G. destruct G as [G PR].
    apply andb_true_iff in G. destruct G as [G M].
    apply andb_true_iff in G. destruct G as [_ EC].
    apply str_eqb_eq in EC. subst cap.
    assert (PP : promo = [] \/ exists q, promo = [q]
                                         /\ member q (lit "QRBN") = true).
    { unfold promotion_ok in PR.
      destruct (Ascii.eqb (cell position start_square) "P"
                && (A8 <=? end_square) && (end_square <=? H8)).
      - destruct promo as [ | q [ | ] ]; try discriminate. eauto.
      - destruct promo; [ tauto | discriminate ]. }
    apply member_In in M. cbn in M.
    destruct M as [ M0 | M ];
      [ rewrite <- M0 in Lw; vm_compute in Lw; discriminate | ].
    destruct PP as [ -> | [q [-> Q]] ].
    + repeat (destruct M as [ <- | M ]; [ unfold delta_pruned; cbn; eauto | ]).
      destruct M.
    + apply member_In in Q. cbn in Q.
      repeat (destruct Q as [ <- | Q ];
              [ repeat (destruct M as [ <- | M ];
                        [ unfold delta_pruned; cbn; eauto | ]);
                destruct M | ]).
      destruct Q.
  - unfold castling_move in G.
    do 2 (apply andb_true_iff in G; destruct G as [G _]).
    apply andb_true_iff in G. destruct G as [_ EC].
    apply str_eqb_eq in EC. subst cap. vm_compute in Lw. discriminate.
Qed.

Lemma quiesce_moves_returns (rec : Z -> Z -> state -> M Z)
    (stand_pat beta : Z) (s : state) (move_list : list move) :
  playable s = true ->
  (forall a b s', playable s' = true ->
                  (pieces (position s') < pieces (position s))%nat ->
                  returns (rec a b s')) ->
  Forall (fun m => generated (position s) (castling s) m = true) move_list ->
  forall alpha,
    returns (quiesce_moves padded_tables rec stand_pat beta s move_list alpha).
Proof.
  intros P R G. induction G as [ | m rest Gm _ IH ]; intros alpha;
    cbn [quiesce_moves].
  - apply returns_ret.
  - destruct (@leaves_king_in_check_returns s m P Gm) as [c [s' [E [P' N]]]].
    pose proof (@delta_pruned_returns _ _ m stand_pat alpha Gm) as D.
    destruct m as [[[start_square end_square] cap] promo].
    cbn [fst snd] in N, D.
    destruct (str_islower cap); cbn [negb]; [ | apply IH ].
    eapply returns_lift; [ exact E | ].
    destruct c; [ apply IH | ].
    destruct (D eq_refl) as [pruned Ep].
    eapply returns_lift; [ exact Ep | ].
    destruct pruned; [ apply IH | ].
    apply returns_bind; [ apply R; auto | ]. intros v.
    apply returns_bind; [ apply returns_read | ]. intros t.
    destruct t; [ apply returns_ret | ].
    destruct (- v >=? beta); [ apply returns_ret | apply IH ].
Qed.

Lemma quiesce_returns_within (fuel : nat) :
  forall (alpha beta : Z) (s : state),
    playable s = true ->
    (pieces (position s) < fuel)%nat ->
    returns (quiesce padded_tables fuel alpha beta s).
Proof.
  induction fuel as [ | fuel IH ]; intros alpha beta s P N; [ lia | ].
  cbn [quiesce].
  apply returns_bind; [ apply returns_time_is_up | ]. intros up.
  destruct up.
  { apply returns_bind; [ apply returns_set_timeout | ]. intros _.
    apply returns_ret. }
  apply returns_bind; [ apply returns_count_node | ]. intros _.
  pose proof P as Q. apply playable_parts in Q. destruct Q as [F [LC _]].
  pose proof (@framed_board_ok _ F) as B.
  destruct (@evaluate_position_returns _ B) as [stand_pat E].
  eapply returns_lift; [ exact E | ].
  destruct (stand_pat >=? beta); [ apply returns_ret | ].
  destruct (@generate_moves_generated (position s) (castling s)
              (en_passant s) B LC) as [move_list [Eg G]].
  eapply returns_lift; [ exact Eg | ].
  apply returns_bind.
  - apply quiesce_moves_returns; [ exact P | | exact G ].
    intros a b s' P' N'. apply IH; [ exact P' | lia ].
  - intros [ v | a ]; apply returns_ret.
Qed.

Lemma pieces_length (position : str) :
  (pieces position <= length position)%nat.
Proof. unfold pieces. apply filter_length_le. Qed.

Lemma pop_first_sub (m : move) (l rest : list move) :
  pop_first m l = Some rest -> In m l /\ forall x, In x rest -> In x l.
Proof.
  revert rest. induction l as [ | x l IH ]; intros rest H;
    cbn [pop_first] in H; [ discriminate | ].
  destruct (move_eqb x m) eqn:E.
  - injection H as <-. apply move_eqb_eq in E. subst x.
    split; [ left; reflexivity | ]. intros y Hy. right. exact Hy.
  - destruct (pop_first m l) as [ t | ]; [ | discriminate ].
    injection H as <-. destruct (IH t eq_refl) as [A B].
    split; [ right; exact A | ].
    intros y [ <- | Hy ]; [ left; reflexivity | right; apply B; exact Hy ].
Qed.

Lemma pv_first_sub (m : move) (l : list move) (x : move) :
  In x (pv_first m l) -> In x l.
Proof.
  unfold pv_first. destruct (pop_first m l) as [ rest | ] eqn:E;
    [ | tauto ].
  destruct (@pop_first_sub m l rest E) as [A B].
  intros [ <- | H ]; [ exact A | apply B; exact H ].
Qed.

Lemma nega_max_moves_returns (rec : Z -> Z -> state -> M (Z * move))
    (beta : Z) (s : state) (move_list : list move) :
  playable s = true ->
  (forall a b s', playable s' = true -> returns (rec a b s')) ->
  Forall (fun m => generated (position s) (castling s) m = true) move_list ->
  forall v, returns (nega_max_moves padded_tables rec beta s move_list v).
Proof.
  intros P R G. induction G as [ | m rest Gm _ IH ]; intros v;
    cbn [nega_max_moves].
  - apply returns_ret.
  - destruct v as [[alpha best_move] legal_moves].
    destruct (@leaves_king_in_check_returns s m P Gm) as [c [s' [E [P' _]]]].
    eapply returns_lift; [ exact E | ].
    destruct c; [ apply IH | ].
    apply returns_bind; [ apply R; exact P' | ]. intros r.
    apply returns_bind; [ apply returns_read | ]. intros t.
    destruct t; [ apply returns_ret | ].
    destruct (- fst r >=? beta); [ apply returns_ret | ].
    destruct (- fst r >? alpha); apply IH.
Qed.

Lemma nega_max_returns_within (fuel : nat) :
  forall (depth alpha beta : Z) (s : state) (color : str),
    playable s = true ->
    0 <= depth < Z.of_nat fuel ->
    returns (nega_max padded_tables fuel depth alpha beta s color).
Proof.
  induction fuel as [ | fuel IH ]; intros depth alpha beta s color P D;
    [ lia | ].
  cbn [nega_max].
  apply returns_bind; [ apply returns_time_is_up | ]. intros up.
  destruct up.
  { apply returns_bind; [ apply returns_set_timeout | ]. intros _.
    apply returns_ret. }
  destruct (Z.eqb_spec depth 0) as [ Z0 | NZ ].
  { apply returns_bind; [ | intros v; apply returns_ret ].
    apply quiesce_returns_within; [ exact P | ].
    unfold quiesce_fuel. pose proof (pieces_length (position s)). lia. }
  destruct (@zobrist_hash_returns s color P) as [key Ek].
  eapply returns_lift; [ exact Ek | ].
  apply returns_bind; [ apply returns_table_get | ]. intros found.
  destruct (table_cutoff _ depth); [ apply returns_ret | ].
  apply returns_bind; [ apply returns_count_node | ]. intros _.
  pose proof P as Q. apply playable_parts in Q. destruct Q as [F [LC _]].
  pose proof (@framed_board_ok _ F) as B.
  destruct (@generate_moves_generated (position s) (castling s)
              (en_passant s) B LC) as [move_list [Eg G]].
  eapply returns_lift; [ exact Eg | ].
  apply returns_bind.
  - apply nega_max_moves_returns; [ exact P | | ].
    + intros a b s' P'. apply IH; [ exact P' | lia ].
    + rewrite Forall_forall in *. intros x Hx. apply G.
      eapply pv_first_sub. exact Hx.
  - intros [ v | [[a best_move] legal_moves] ]; [ apply returns_ret | ].
    destruct (len legal_moves =? 0).
    + destruct (@rotate_position_playable s P) as [s' [E' P']].
      eapply returns_lift; [ exact E' | ].
      apply playable_parts in P'. destruct P' as [F' _].
      destruct (@king_in_check_returns (position s') (castling s) 0
                  (@framed_board_ok _ F') LC) as [c Ec].
      eapply returns_lift; [ exact Ec | ].
      apply returns_bind; [ apply returns_read | ]. intros md.
      destruct c; apply returns_ret.
    + apply returns_bind; [ | intros _; apply returns_ret ].
      destruct (negb (move_eqb best_move null_move));
        [ | apply returns_ret ].
      eapply returns_lift; [ exact Ek | ]. apply returns_table_set.
Qed.

(** X27: the quiescence search returns on every playable state.  With
    the padded tables, [quiesce] returns a score from every playable state
    and every state of the globals, and it needs no more nested calls than
    there are pieces on the board, since every call it makes follows a
    capture: nothing it calls raises, and the recursion ends. *)
Theorem quiesce_returns (fuel : nat) (alpha beta : Z) (s : state)
    (g : globals) :
  playable s = true ->
  (pieces (position s) < fuel)%nat ->
  exists v g', quiesce padded_tables fuel alpha beta s g = (Ok v, g').
Proof. intros P N. apply quiesce_returns_within; assumption. Qed.

Lemma quiesce_returns_witness :
  exists v g',
    quiesce padded_tables 33 (-5) 5 startpos (fresh 0) = (Ok v, g').
Proof.
  apply (@quiesce_returns 33 (-5) 5 startpos (fresh 0)).
  - reflexivity.
  - vm_compute. lia.
Defined.

(** X28: the search returns on every playable state.  With the padded
    tables, [nega_max] at a depth of 0 or more returns a score and a move
    from every playable state, for either colour string and whatever the
    transposition table and the clock hold, within [depth + 1] nested
    calls: no subscript, dictionary lookup or division in the search, the
    generator, the evaluation or the hash raises. *)
Theorem nega_max_returns (fuel : nat) (depth alpha beta : Z) (s : state)
    (color : str) (g : globals) :
  playable s = true ->
  0 <= depth < Z.of_nat fuel ->
  exists r g',
    nega_max padded_tables fuel depth alpha beta s color g = (Ok r, g').
Proof. intros P D. apply nega_max_returns_within; assumption. Qed.

Lemma nega_max_returns_witness :
  exists r g',
    nega_max padded_tables 3 2 (- CHECKMATE_UPPER) CHECKMATE_UPPER startpos
             (lit "w") (fresh 2) = (Ok r, g').
Proof.
  apply (@nega_max_returns 3 2 (- CHECKMATE_UPPER) CHECKMATE_UPPER startpos
           (lit "w") (fresh 2)).
  - reflexivity.
  - lia.
Defined.
(** ** Writing a position and reading it back *)

Lemma for_each_app {A S : Type} (a b : list A) (body : A -> S -> py S)
    (s : S) :
  for_each (a ++ b) body s = bind (for_each a body s) (for_each b body).
Proof.
  revert s. induction a as [ | x a IH ]; intros s; cbn [app for_each bind].
  - reflexivity.
  - destruct (body x s) as [ s' | e ]; cbn [bind]; [ apply IH | reflexivity ].
Qed.

Lemma for_each_fold {A S : Type} (P : S -> Prop) (step : S -> A -> S)
    (l : list A) (body : A -> S -> py S) :
  (forall a s, In a l -> P s -> body a s = Ok (step s a) /\ P (step s a)) ->
  forall s, P s -> for_each l body s = Ok (fold_left step l s).
Proof.
  induction l as [ | a l IH ]; intros Hb s Hs; cbn [for_each fold_left].
  - reflexivity.
  - destruct (Hb a s (or_introl eq_refl) Hs) as [E Q]. rewrite E.
    cbn [bind]. apply IH; [ | exact Q ].
    intros a' t Hin Pt. apply Hb; [ right; exact Hin | exact Pt ].
Qed.

Lemma fen_file_loop (position : str) (rank : Z) (files : list Z) :
  length position = 120%nat -> 0 <= rank < 8 ->
  Forall (fun file => 0 <= file < 8) files ->
  forall acc,
    for_each files (fen_file position rank) acc
    = Ok (fen_cells
            (map (fun file => cell position (10 * (rank + 2) + file + 1))
                 files)
            acc).
Proof.
  intros L R F. induction F as [ | file files Hf _ IH ]; intros [fen e];
    cbn [for_each map fen_cells fst snd].
  - reflexivity.
  - unfold fen_file at 1.
    rewrite getitem_cell by (assumption || lia). cbn [bind].
    destruct (Ascii.eqb _ dot).
    + apply IH.
    + destruct (e >? 0); apply IH.
Qed.

Lemma fen_cells_prefix (cells : str) :
  forall (fen : str) (e : Z),
    fen_cells cells (fen, e)
    = (fen ++ fst (fen_cells cells ([], e)), snd (fen_cells cells ([], e))).
Proof.
  induction cells as [ | c cells IH ]; intros fen e;
    cbn [fen_cells fst snd].
  - rewrite app_nil_r. reflexivity.
  - destruct (Ascii.eqb c dot).
    + apply IH.
    + destruct (e >? 0).
      * rewrite IH. rewrite (IH ([] ++ str_of_int e ++ [c])).
        cbn [fst snd app]. rewrite <- !app_assoc. reflexivity.
      * rewrite IH. rewrite (IH ([] ++ [c])).
        cbn [fst snd app]. rewrite <- !app_assoc. reflexivity.
Qed.

Lemma fen_rank_value (position : str) (rank : Z) (fen : str) :
  length position = 120%nat -> 0 <= rank < 8 ->
  fen_rank position rank fen
  = Ok (fen ++ rank_text position rank
            ++ (if rank <? 7 then lit "/" else [])).
Proof.
  intros L R. unfold fen_rank.
  rewrite fen_file_loop; [ | exact L | exact R | ].
  2:{ apply Forall_forall. intros x Hx. apply in_range in Hx. lia. }
  fold (rank_cells position rank). rewrite fen_cells_prefix.
  cbn [bind]. unfold rank_text, flush.
  destruct (snd (fen_cells (rank_cells position rank) ([], 0)) >? 0);
    destruct (rank <? 7); rewrite <- ?app_assoc, ?app_nil_r; reflexivity.
Qed.

Lemma placement_loop (position : str) (ranks : list Z) :
  length position = 120%nat ->
  Forall (fun rank => 0 <= rank < 8) ranks ->
  forall fen,
    for_each ranks (fen_rank position) fen
    = Ok (fen ++ concat (map (fun rank =>
                                rank_text position rank
                                ++ (if rank <? 7 then lit "/" else []))
                             ranks)).
Proof.
  intros L F. induction F as [ | rank ranks Hr _ IH ]; intros fen;
    cbn [for_each map concat].
  - rewrite app_nil_r. reflexivity.
  - rewrite fen_rank_value by assumption. cbn [bind]. rewrite IH.
    rewrite <- !app_assoc. reflexivity.
Qed.

Lemma placement_value (position : str) :
  length position = 120%nat ->
  for_each (range 8) (fen_rank position) []
  = Ok (join_with "/" (map (rank_text position) (range 8))).
Proof.
  intros L. rewrite placement_loop; [ | exact L | ].
  2:{ apply Forall_forall. intros x Hx. apply in_range in Hx. lia. }
  generalize (rank_text position). intros t. f_equal.
  cbn. rewrite <- !app_assoc, !app_nil_r. reflexivity.
Qed.

Lemma digit_text (e : Z) :
  1 <= e <= 8 ->
  exists d,
    str_of_int e = [d]
    /\ member d (lit "PNBRQKpnbrqk") = false
    /\ member d (lit "12345678") = true
    /\ code d - 48 = e
    /\ d <> "/"%char /\ d <> " "%char.
Proof.
  intros H.
  assert (E : e = 1 \/ e = 2 \/ e = 3 \/ e = 4 \/ e = 5 \/ e = 6 \/ e = 7
              \/ e = 8) by lia.
  repeat (destruct E as [ -> | E ];
          [ eexists; split; [ vm_compute; reflexivity | ];
            repeat split; discriminate | ]).
  subst e. eexists. split; [ vm_compute; reflexivity | ].
  repeat split; discriminate.
Qed.

Lemma letter_text (c : ascii) :
  member c (lit ".PNBRQKpnbrqk") = true -> Ascii.eqb c dot = false ->
  member c (lit "PNBRQKpnbrqk") = true
  /\ c <> "/"%char /\ c <> " "%char.
Proof.
  intros H D. apply member_In in H. cbn in H.
  destruct H as [ <- | H ]; [ discriminate | ].
  repeat (destruct H as [ <- | H ]; [ repeat split; discriminate | ]).
  destruct H.
Qed.

Lemma flush_plain (e : Z) :
  0 <= e <= 8 ->
  Forall (fun c => c <> "/"%char /\ c <> " "%char) (flush e).
Proof.
  intros H. unfold flush. destruct (Z.gtb_spec e 0) as [ G | _ ];
    [ | constructor ].
  destruct (@digit_text e ltac:(lia)) as [d [-> [_ [_ [_ N]]]]].
  constructor; [ exact N | constructor ].
Qed.

Lemma fen_cells_plain (cells : str) :
  forall e,
    0 <= e -> e + len cells <= 8 ->
    Forall (fun c => member c (lit ".PNBRQKpnbrqk") = true) cells ->
    Forall (fun c => c <> "/"%char /\ c <> " "%char)
           (fst (fen_cells cells ([], e)))
    /\ 0 <= snd (fen_cells cells ([], e)) <= 8.
Proof.
  induction cells as [ | c cells IH ]; intros e E0 E8 F;
    cbn [fen_cells fst snd].
  - split; [ constructor | unfold len in E8; cbn [length] in E8; lia ].
  - assert (E8' : e + 1 + len cells <= 8)
      by (unfold len in *; cbn [length] in E8; lia).
    inversion F as [ | x xs Fc Fr ]; subst x xs.
    destruct (Ascii.eqb c dot) eqn:D.
    + apply IH; [ lia | lia | exact Fr ].
    + destruct (@letter_text c Fc D) as [_ N].
      destruct (IH 0 ltac:(lia) ltac:(lia) Fr) as [P B].
      destruct (Z.gtb_spec e 0) as [ G | G ].
      * rewrite fen_cells_prefix. cbn [fst snd]. split; [ | exact B ].
        apply Forall_app. split; [ | exact P ].
        apply Forall_app. split.
        -- pose proof (@flush_plain e ltac:(unfold len in *; lia)) as Q.
           unfold flush in Q. destruct (e >? 0) eqn:X; [ exact Q | lia ].
        -- constructor; [ exact N | constructor ].
      * rewrite fen_cells_prefix. cbn [fst snd]. replace e with 0 by lia.
        split; [ | exact B ].
        apply Forall_app. split; [ | exact P ].
        constructor; [ exact N | constructor ].
Qed.

Lemma square_of_rank (rank file : Z) :
  0 <= rank < 8 -> 0 <= file < 8 ->
  on_board (10 * (rank + 2) + file + 1) = true.
Proof.
  intros R F. unfold on_board.
  replace ((10 * (rank + 2) + file + 1) / 10) with (rank + 2)
    by (apply (Z.div_unique_pos _ 10 _ (file + 1)); lia).
  replace ((10 * (rank + 2) + file + 1) mod 10) with (file + 1)
    by (apply (Z.mod_unique_pos _ 10 (rank + 2)); lia).
  rewrite !andb_true_iff, !Z.leb_le. lia.
Qed.

Lemma rank_cells_letters (position : str) (rank : Z) :
  framed position = true -> 0 <= rank < 8 ->
  Forall (fun c => member c (lit ".PNBRQKpnbrqk") = true)
         (rank_cells position rank)
  /\ len (rank_cells position rank) = 8.
Proof.
  intros F R. split.
  - unfold rank_cells. apply Forall_forall. intros c Hc.
    apply in_map_iff in Hc. destruct Hc as [file [<- Hf]].
    apply in_range in Hf.
    pose proof (@framed_cell position (10 * (rank + 2) + file + 1) F
                  ltac:(lia)) as C.
    unfold frame_ok in C. rewrite square_of_rank in C by lia. exact C.
  - unfold rank_cells, len, range. rewrite !length_map, length_seq.
    reflexivity.
Qed.

Lemma rank_text_plain (position : str) (rank : Z) :
  framed position = true -> 0 <= rank < 8 ->
  Forall (fun c => c <> "/"%char /\ c <> " "%char) (rank_text position rank).
Proof.
  intros F R. destruct (@rank_cells_letters position rank F R) as [A B].
  destruct (@fen_cells_plain (rank_cells position rank) 0 ltac:(lia)
              ltac:(lia) A) as [P Q].
  unfold rank_text. apply Forall_app. split; [ exact P | ].
  apply flush_plain. exact Q.
Qed.

(** *** Reading the text of a rank *)

Lemma length_write_cells (cells : str) :
  forall (l : str) (index : Z),
    length (write_cells l index cells) = length l.
Proof.
  induction cells as [ | c cells IH ]; intros l index; cbn [write_cells].
  - reflexivity.
  - rewrite IH. apply length_update.
Qed.

Lemma write_cells_app (a b : str) :
  forall (l : str) (index : Z),
    write_cells l index (a ++ b)
    = write_cells (write_cells l index a) (index + len a) b.
Proof.
  induction a as [ | c a IH ]; intros l index; cbn [app write_cells].
  - unfold len. cbn [length]. rewrite Z.add_0_r. reflexivity.
  - rewrite IH. f_equal. unfold len. cbn [length]. lia.
Qed.

Lemma empty_cells_loop (n : nat) :
  forall (a : nat) (l : str) (index : Z),
    0 <= index -> index + Z.of_nat n <= len l ->
    for_each (seq a n)
      (fun _ (acc : str * Z) =>
         l <- setitem (fst acc) (snd acc) dot ;; Ok (l, snd acc + 1))
      (l, index)
    = Ok (write_cells l index (repeat dot n), index + Z.of_nat n).
Proof.
  induction n as [ | n IH ]; intros a l index I0 I1;
    cbn [seq for_each repeat write_cells].
  - rewrite Z.add_0_r. reflexivity.
  - cbn [fst snd]. rewrite setitem_update by lia. cbn [bind].
    rewrite IH; [ | lia | unfold len in *; rewrite length_update; lia ].
    do 2 f_equal. lia.
Qed.

Lemma load_flush (e : Z) (l : str) (index : Z) :
  0 <= e <= 8 -> 0 <= index -> index + e <= len l ->
  for_each (flush e) load_piece (l, index)
  = Ok (write_cells l index (repeat dot (Z.to_nat e)), index + e).
Proof.
  intros E I0 I1. unfold flush. destruct (Z.gtb_spec e 0) as [ G | G ].
  - destruct (@digit_text e ltac:(lia)) as [d [-> [NL [DG [V _]]]]].
    cbn [for_each]. unfold load_piece. rewrite NL, DG, V.
    rewrite empty_cells_loop by lia. cbn [bind].
    rewrite Z2Nat.id by lia. reflexivity.
  - replace e with 0 by lia. cbn [for_each Z.to_nat repeat write_cells].
    rewrite Z.add_0_r. reflexivity.
Qed.

Lemma fen_cells_letter (c : ascii) (cells : str) (e : Z) :
  Ascii.eqb c dot = false -> 0 <= e ->
  fen_cells (c :: cells) ([], e) = fen_cells cells (flush e ++ [c], 0).
Proof.
  intros D E. cbn [fen_cells fst snd]. rewrite D. unfold flush.
  destruct (Z.gtb_spec e 0); [ reflexivity | ].
  replace e with 0 by lia. reflexivity.
Qed.

Lemma load_cells (cells : str) :
  forall (e : Z) (l : str) (index : Z),
    0 <= e -> e + len cells <= 8 ->
    Forall (fun c => member c (lit ".PNBRQKpnbrqk") = true) cells ->
    0 <= index -> index + e + len cells <= len l ->
    for_each (fst (fen_cells cells ([], e))
              ++ flush (snd (fen_cells cells ([], e))))
             load_piece (l, index)
    = Ok (write_cells l index (repeat dot (Z.to_nat e) ++ cells),
          index + e + len cells).
Proof.
  induction cells as [ | c cells IH ]; intros e l index E0 E8 F I0 I1.
  - cbn [fen_cells fst snd].
    unfold len in *. cbn [length] in *. cbn [app].
    rewrite load_flush by (unfold len; lia).
    rewrite app_nil_r. do 2 f_equal. lia.
  - assert (LC : len (c :: cells) = 1 + len cells)
      by (unfold len; cbn [length]; lia).
    rewrite LC in *.
    inversion F as [ | x xs Fc Fr ]; subst x xs.
    destruct (Ascii.eqb c dot) eqn:D.
    + apply Ascii.eqb_eq in D. subst c.
      change (fen_cells (dot :: cells) ([], e))
        with (fen_cells cells ([], e + 1)).
      rewrite IH by (assumption || lia).
      replace (Z.to_nat (e + 1)) with (S (Z.to_nat e)) by lia.
      replace (repeat dot (S (Z.to_nat e)) ++ cells)
        with (repeat dot (Z.to_nat e) ++ dot :: cells).
      * do 2 f_equal. lia.
      * change (dot :: cells) with ([dot] ++ cells).
        rewrite app_assoc. f_equal. symmetry. apply repeat_cons.
    + destruct (@letter_text c Fc D) as [PL _].
      rewrite (@fen_cells_letter c cells e D E0).
      rewrite fen_cells_prefix. cbn [fst snd].
      rewrite <- !app_assoc. rewrite for_each_app.
      rewrite load_flush by (unfold len in *; lia). cbn [bind].
      cbn [app for_each]. unfold load_piece at 1. rewrite PL.
      rewrite setitem_update
        by (unfold len in *; rewrite length_write_cells; lia).
      cbn [bind].
      rewrite IH;
        try (unfold len in *;
             rewrite ?length_update, ?length_write_cells; lia);
        [ | exact Fr ].
      cbn [Z.to_nat repeat app].
      rewrite write_cells_app. cbn [write_cells].
      assert (LR : len (repeat dot (Z.to_nat e)) = e)
        by (unfold len; rewrite repeat_length; lia).
      rewrite LR. do 2 f_equal. lia.
Qed.

Lemma load_rank_text (position : str) (rank : Z) (l : str) (index : Z) :
  framed position = true -> 0 <= rank < 8 ->
  0 <= index -> index + 8 <= len l ->
  for_each (rank_text position rank) load_piece (l, index)
  = Ok (write_cells l index (rank_cells position rank), index + 8).
Proof.
  intros F R I0 I1.
  destruct (@rank_cells_letters position rank F R) as [A B].
  unfold rank_text.
  rewrite load_cells by (assumption || lia).
  cbn [Z.to_nat repeat app]. rewrite B. do 2 f_equal. lia.
Qed.

(** *** The fields of the text *)

Lemma split_on_skip (sep : ascii) (a b : str) :
  Forall (fun c => c <> sep) a ->
  split_on sep (a ++ sep :: b) = a :: split_on sep b.
Proof.
  intros F. induction F as [ | x a Hx _ IH ]; cbn [app split_on].
  - rewrite Ascii.eqb_refl. reflexivity.
  - apply Ascii.eqb_neq in Hx. rewrite Hx, IH. reflexivity.
Qed.

Lemma split_on_last (sep : ascii) (a : str) :
  Forall (fun c => c <> sep) a -> split_on sep a = [a].
Proof.
  intros F. induction F as [ | x a Hx _ IH ]; cbn [split_on].
  - reflexivity.
  - apply Ascii.eqb_neq in Hx. rewrite Hx, IH. reflexivity.
Qed.

Lemma split_ranks (t : Z -> str) :
  (forall rank, 0 <= rank < 8 -> Forall (fun c => c <> "/"%char) (t rank)) ->
  split_on "/" (join_with "/" (map t (range 8))) = map t (range 8).
Proof.
  intros H. change (range 8) with [0; 1; 2; 3; 4; 5; 6; 7].
  cbn [map join_with concat app]. rewrite app_nil_r.
  do 7 (rewrite split_on_skip by (apply H; lia)).
  rewrite split_on_last by (apply H; lia). reflexivity.
Qed.

Lemma ranks_no_space (t : Z -> str) :
  (forall rank, 0 <= rank < 8 -> Forall (fun c => c <> " "%char) (t rank)) ->
  Forall (fun c => c <> " "%char) (join_with "/" (map t (range 8))).
Proof.
  intros H. change (range 8) with [0; 1; 2; 3; 4; 5; 6; 7].
  cbn [map join_with concat app]. rewrite app_nil_r.
  repeat (apply Forall_app; split; [ apply H; lia | ];
          constructor; [ discriminate | ]).
  apply H. lia.
Qed.

Lemma split_fields (placement color rights square : str) :
  Forall (fun c => c <> " "%char) placement ->
  Forall (fun c => c <> " "%char) color ->
  Forall (fun c => c <> " "%char) rights ->
  Forall (fun c => c <> " "%char) square ->
  split_on " " (placement ++ " "%char :: color ++ " "%char :: rights
                ++ " "%char :: square ++ lit " 0 1")
  = [placement; color; rights; square; lit "0"; lit "1"].
Proof.
  intros P C R Q.
  rewrite (@split_on_skip " " placement _ P).
  rewrite (@split_on_skip " " color _ C).
  rewrite (@split_on_skip " " rights _ R).
  change (lit " 0 1") with (" "%char :: lit "0 1").
  rewrite (@split_on_skip " " square _ Q). reflexivity.
Qed.

Lemma fields_items {A : Type} (a b c d e f : A) :
  getitem [a; b; c; d; e; f] 0 = Ok a
  /\ getitem [a; b; c; d; e; f] 1 = Ok b
  /\ getitem [a; b; c; d; e; f] 2 = Ok c
  /\ getitem [a; b; c; d; e; f] 3 = Ok d.
Proof. repeat split; reflexivity. Qed.

Lemma getitem_range {A : Type} (f : Z -> A) (n : nat) (i : Z) :
  0 <= i < Z.of_nat n -> getitem (map f (range n)) i = Ok (f i).
Proof.
  intros H.
  rewrite (@getitem_nth _ _ i (f (Z.of_nat 0)))
    by (unfold len, range; rewrite !length_map, length_seq; lia).
  f_equal. unfold range. rewrite map_map.
  rewrite (map_nth (fun x => f (Z.of_nat x))).
  rewrite seq_nth by lia. f_equal. lia.
Qed.

(** *** Reading the board *)

Lemma length_write_ranks (ranks : Z -> str) (l : str) :
  length (write_ranks ranks l) = length l.
Proof.
  unfold write_ranks. generalize (range 8). intros rows. revert l.
  induction rows as [ | row rows IH ]; intros l; cbn [fold_left].
  - reflexivity.
  - rewrite IH. apply length_write_cells.
Qed.

Lemma load_rows_value (position : str) :
  framed position = true ->
  for_each (range 8) (load_row (map (rank_text position) (range 8)))
           (repeat blank 120)
  = Ok (write_ranks (rank_cells position) (repeat blank 120)).
Proof.
  intros F. unfold write_ranks.
  apply (@for_each_fold _ _ (fun l : str => length l = 120%nat)).
  - intros row l Hr L. apply in_range in Hr. unfold load_row.
    rewrite getitem_range by lia. cbn [bind].
    rewrite load_rank_text;
      [ | exact F | lia | unfold A8; lia
        | unfold len, A8; rewrite L; lia ].
    cbn [bind fst]. split; [ reflexivity | ].
    rewrite length_write_cells. exact L.
  - apply repeat_length.
Qed.

Lemma newlines_value (f : Z -> ascii) :
  for_each [9; 19; 29; 39; 49; 59; 69; 79; 89; 99; 109; 119]
    (fun i l => setitem l i nl)
    (write_ranks
       (fun rank => map (fun file => f (10 * (rank + 2) + file + 1)) (range 8))
       (repeat blank 120))
  = Ok (map (fun j => if on_board j then f j else border j) (range 120)).
Proof. vm_compute. reflexivity. Qed.

Lemma framed_cells (position : str) :
  framed position = true ->
  map (fun j => if on_board j then cell position j else border j) (range 120)
  = position.
Proof.
  intros F. pose proof (@framed_length _ F) as L. apply cells_ext.
  - unfold range. rewrite !length_map, length_seq. reflexivity.
  - exact L.
  - intros j Hj. unfold cell at 1.
    replace j with (Z.of_nat (Z.to_nat j)) at 2 3 4 by lia.
    rewrite nth_range by lia. rewrite Z2Nat.id by lia.
    pose proof (@framed_cell _ j F Hj) as C. unfold frame_ok in C.
    destruct (on_board j); [ reflexivity | ].
    apply Ascii.eqb_eq in C. symmetry. exact C.
Qed.

Lemma load_board (position : str) :
  framed position = true ->
  bind (for_each (range 8) (load_row (map (rank_text position) (range 8)))
                 (repeat blank 120))
       (for_each [9; 19; 29; 39; 49; 59; 69; 79; 89; 99; 109; 119]
                 (fun i l => setitem l i nl))
  = Ok position.
Proof.
  intros F. rewrite load_rows_value by exact F. cbn [bind].
  unfold rank_cells. rewrite (newlines_value (cell position)).
  rewrite framed_cells by exact F. reflexivity.
Qed.

(** *** The whole record *)

Lemma rights_fields (c0 c1 o0 o1 : bool) :
  Forall (fun c => c <> " "%char) (rights_text [c0; c1] [o0; o1])
  /\ member "Q" (rights_text [c0; c1] [o0; o1]) = c0
  /\ member "K" (rights_text [c0; c1] [o0; o1]) = c1
  /\ member "q" (rights_text [c0; c1] [o0; o1]) = o0
  /\ member "k" (rights_text [c0; c1] [o0; o1]) = o1.
Proof.
  destruct c0, c1, o0, o1; cbn;
    (split; [ repeat (constructor; [ discriminate | ]); constructor | ]);
    repeat split; reflexivity.
Qed.

Lemma render_square (index : Z) :
  on_board index = true ->
  exists file rank,
    render_coordinates index = Ok [file; rank]
    /\ Forall (fun c => c <> " "%char) [file; rank]
    /\ str_eqb [file; rank] (lit "-") = false
    /\ parse_coordinates [file; rank] = Ok index.
Proof.
  intros H. pose proof (@on_board_range _ H) as R.
  assert (A : forallb
                (fun i =>
                   negb (on_board i)
                   || match render_coordinates i with
                      | Ok [file; rank] =>
                          negb (Ascii.eqb file " ")
                          && negb (Ascii.eqb rank " ")
                          && match parse_coordinates [file; rank] with
                             | Ok j => j =? i
                             | Raise _ => false
                             end
                      | _ => false
                      end)
                (range 120) = true)
    by (vm_compute; reflexivity).
  rewrite forallb_forall in A.
  specialize (A index ltac:(apply in_range; lia)). rewrite H in A.
  cbn [negb orb] in A.
  destruct (render_coordinates index) as [ [ | file [ | rank [ | ? ? ] ] ] | ];
    try discriminate.
  apply andb_true_iff in A. destruct A as [A P].
  apply andb_true_iff in A. destruct A as [NF NR].
  apply negb_true_iff, Ascii.eqb_neq in NF.
  apply negb_true_iff, Ascii.eqb_neq in NR.
  exists file, rank. split; [ reflexivity | ].
  split; [ repeat (constructor; [ assumption | ]); constructor | ].
  split.
  - cbn [str_eqb lit list_ascii_of_string]. apply andb_false_r.
  - destruct (parse_coordinates [file; rank]) as [ j | ]; [ | discriminate ].
    apply Z.eqb_eq in P. subst j. reflexivity.
Qed.

Lemma framed_paired (position : str) :
  framed position = true -> paired position = true.
Proof.
  intros F. apply paired_cells. intros i Hi S.
  rewrite (@frame_ok_space _ _ (@framed_cell _ i F ltac:(lia))) in S.
  rewrite (@frame_ok_space _ _ (@framed_cell _ (119 - i) F ltac:(lia))).
  rewrite on_board_rotate by lia. exact S.
Qed.

Lemma pair_items {A : Type} (a b : A) :
  getitem [a; b] 0 = Ok a /\ getitem [a; b] 1 = Ok b.
Proof. split; reflexivity. Qed.

Lemma generate_fen_value (s s1 : state) (color square : str) :
  (if str_eqb color (lit "b") then rotate_position s else Ok s) = Ok s1 ->
  length (position s1) = 120%nat ->
  len (castling s1) = 2 -> len (opponent_castling s1) = 2 ->
  (if no_square (en_passant s1) then Ok (lit "-")
   else render_coordinates (en_passant s1)) = Ok square ->
  generate_fen s color
  = Ok (join_with "/" (map (rank_text (position s1)) (range 8))
        ++ " "%char :: (if str_eqb color (lit "w") then lit "w" else lit "b")
        ++ " "%char :: rights_text (castling s1) (opponent_castling s1)
        ++ " "%char :: square ++ lit " 0 1").
Proof.
  intros H0 L LC LO HE. unfold generate_fen. rewrite H0. cbn [bind].
  rewrite placement_value by exact L. cbn [bind].
  destruct (@flags_pair _ LC) as [c0 [c1 ->]].
  destruct (@flags_pair _ LO) as [o0 [o1 ->]].
  generalize (join_with "/" (map (rank_text (position s1)) (range 8))).
  intros placement. unfold no_square in HE.
  destruct (pair_items c0 c1) as [C0 C1].
  destruct (pair_items o0 o1) as [O0 O1].
  rewrite !C0, !C1, !O0, !O1.
  destruct (str_eqb color (lit "w"));
    (destruct ((en_passant s1 =? 0) || (en_passant s1 =? 119));
     [ injection HE as <- | rewrite HE ]);
    destruct c0, c1, o0, o1; cbn; rewrite <- ?app_assoc; reflexivity.
Qed.

Lemma load_fen_text (position color rights square : str) :
  framed position = true ->
  Forall (fun c => c <> " "%char) color ->
  Forall (fun c => c <> " "%char) rights ->
  Forall (fun c => c <> " "%char) square ->
  load_fen (join_with "/" (map (rank_text position) (range 8))
            ++ " "%char :: color ++ " "%char :: rights
            ++ " "%char :: square ++ lit " 0 1")
  = (en_passant <-
       (if negb (str_eqb square (lit "-")) then parse_coordinates square
        else Ok 0) ;;
     let s :=
       mkState position [member "Q" rights; member "K" rights]
               [member "q" rights; member "k" rights] en_passant 0 in
     if str_eqb color (lit "b") then
       s' <- rotate_position s ;; Ok (s', color)
     else Ok (s, color)).
Proof.
  intros F C R Q. unfold load_fen.
  rewrite split_fields; [ | | exact C | exact R | exact Q ].
  2:{ apply ranks_no_space. intros rank Hr.
      eapply Forall_impl; [ | apply rank_text_plain; eassumption ].
      cbv beta. tauto. }
  destruct (fields_items
              (join_with "/" (map (rank_text position) (range 8)))
              color rights square (lit "0") (lit "1"))
    as [I0 [I1 [I2 I3]]].
  rewrite I0. cbn [bind].
  rewrite split_ranks.
  2:{ intros rank Hr.
      eapply Forall_impl; [ | apply rank_text_plain; eassumption ].
      cbv beta. tauto. }
  pose proof (@load_board position F) as B.
  destruct (for_each (range 8)
              (load_row (map (rank_text position) (range 8)))
              (repeat blank 120)) as [ l | e ]; [ | discriminate ].
  cbn [bind] in B |- *. rewrite B. cbn [bind].
  rewrite I2. cbn [bind]. rewrite I3. cbn [bind].
  destruct (if negb (str_eqb square (lit "-")) then parse_coordinates square
            else Ok 0) as [ ep | e ]; cbn [bind]; [ | reflexivity ].
  rewrite I1. cbn [bind]. reflexivity.
Qed.

(** X29: a position written by [generate_fen] is read back by
    [load_fen].  For a state with a framed board and two castling flags on
    either side, whose en-passant field is 0, 119 or a square of the
    playing area, and for either colour, [generate_fen] returns a record
    and [load_fen] of that record returns the same board, the same flags
    and the colour; the en-passant square is kept when there is one, and is
    otherwise 0 for White and 119 for Black, which is also what
    [king_passant] becomes, whatever it was. *)
Theorem load_generate_fen (s : state) (color : str) :
  framed (position s) = true ->
  len (castling s) = 2 -> len (opponent_castling s) = 2 ->
  no_square (en_passant s) || on_board (en_passant s) = true ->
  color = lit "w" \/ color = lit "b" ->
  exists fen,
    generate_fen s color = Ok fen
    /\ load_fen fen
       = Ok (mkState (position s) (castling s) (opponent_castling s)
                     (if no_square (en_passant s)
                      then (if str_eqb color (lit "b") then 119 else 0)
                      else en_passant s)
                     (if str_eqb color (lit "b") then 119 else 0),
             color).
Proof.
  intros F LC LO EP C. pose proof (@framed_length _ F) as L.
  assert (R : exists s1,
             (if str_eqb color (lit "b") then rotate_position s else Ok s)
             = Ok s1
             /\ framed (position s1) = true
             /\ len (castling s1) = 2 /\ len (opponent_castling s1) = 2
             /\ no_square (en_passant s1) = no_square (en_passant s)
             /\ on_board (en_passant s1) = on_board (en_passant s)
             /\ (if str_eqb color (lit "b")
                 then s1 = mkState (rotated (position s)) (opponent_castling s)
                                   (castling s) (119 - en_passant s)
                                   (119 - king_passant s)
                 else s1 = s)).
  { destruct (str_eqb color (lit "b")).
    - rewrite (@rotate_position_value s L). eexists.
      split; [ reflexivity | ].
      cbn [position castling opponent_castling en_passant king_passant].
      split; [ apply framed_rotated; exact F | ].
      split; [ exact LO | ]. split; [ exact LC | ].
      split; [ | split; [ | reflexivity ] ].
      + unfold no_square.
        destruct (Z.eqb_spec (en_passant s) 0),
                 (Z.eqb_spec (en_passant s) 119),
                 (Z.eqb_spec (119 - en_passant s) 0),
                 (Z.eqb_spec (119 - en_passant s) 119);
          cbn [orb]; try reflexivity; lia.
      + destruct (on_board (en_passant s)) eqn:O.
        * apply on_board_range in O as B.
          rewrite on_board_rotate by lia. exact O.
        * destruct (on_board (119 - en_passant s)) eqn:O';
            [ | reflexivity ].
          apply on_board_range in O' as B.
          rewrite <- (@on_board_rotate (119 - en_passant s)) in O' by lia.
          replace (119 - (119 - en_passant s)) with (en_passant s) in O'
            by lia.
          congruence.
    - exists s. tauto. }
  destruct R as [s1 [H0 [F1 [LC1 [LO1 [N1 [O1 S1]]]]]]].
  pose proof (@framed_length _ F1) as L1.
  assert (Q : exists square,
             (if no_square (en_passant s1) then Ok (lit "-")
              else render_coordinates (en_passant s1)) = Ok square
             /\ Forall (fun c => c <> " "%char) square
             /\ (if negb (str_eqb square (lit "-"))
                 then parse_coordinates square else Ok 0)
                = Ok (if no_square (en_passant s1) then 0
                      else en_passant s1)).
  { rewrite <- N1, <- O1 in EP.
    destruct (no_square (en_passant s1)).
    - exists (lit "-"). split; [ reflexivity | ].
      split; [ repeat constructor; discriminate | reflexivity ].
    - cbn [orb] in EP.
      destruct (@render_square _ EP) as [file [rank [E1 [E2 [E3 E4]]]]].
      exists [file; rank]. rewrite E3. cbn [negb]. tauto. }
  destruct Q as [square [Q1 [Q2 Q3]]].
  eexists. split.
  { apply (@generate_fen_value s s1 color square); assumption. }
  destruct (@flags_pair _ LC1) as [c0 [c1 EC]].
  destruct (@flags_pair _ LO1) as [o0 [o1 EO]].
  rewrite EC, EO.
  destruct (@rights_fields c0 c1 o0 o1) as [R0 [R1 [R2 [R3 R4]]]].
  rewrite load_fen_text; [ | exact F1 | | exact R0 | exact Q2 ].
  2:{ destruct (str_eqb color (lit "w"));
        repeat constructor; discriminate. }
  rewrite Q3. cbn [bind]. rewrite R1, R2, R3, R4, <- EC, <- EO.
  destruct C as [ -> | -> ].
  - change (str_eqb (lit "w") (lit "b")) with false in *.
    change (str_eqb (lit "w") (lit "w")) with true.
    cbv iota in S1 |- *. subst s1. reflexivity.
  - change (str_eqb (lit "b") (lit "b")) with true in *.
    change (str_eqb (lit "b") (lit "w")) with false.
    cbv iota in S1 |- *. subst s1.
    cbn [position castling opponent_castling en_passant king_passant]
      in *.
    rewrite rotate_position_value by (cbn [position]; apply length_rotated).
    cbn [position castling opponent_castling en_passant king_passant bind].
    rewrite (@rotated_involutive _ L (@framed_paired _ F)).
    rewrite N1.
    replace (str_eqb (lit "b") (lit "b")) with true by reflexivity.
    destruct (no_square (en_passant s)); do 3 f_equal; lia.
Qed.

Lemma load_generate_fen_witness :
  exists fen,
    generate_fen (with_en_passant startpos 44) (lit "b") = Ok fen
    /\ load_fen fen
       = Ok (mkState INITIAL_POSITION INITIAL_CASTLING
                     INITIAL_OPPONENT_CASTLING 44 119,
             lit "b").
Proof.
  apply (@load_generate_fen (with_en_passant startpos 44) (lit "b"));
    try reflexivity.
  right. reflexivity.
Defined.
(** ** The board [load_fen] builds *)

Lemma lettered_refl (l : str) (idx : Z) : lettered l l idx idx.
Proof. repeat split; intros; try reflexivity; lia. Qed.

Lemma lettered_trans (l1 l2 l3 : str) (a b c : Z) :
  0 <= a <= b -> b <= c ->
  lettered l1 l2 a b -> lettered l2 l3 b c -> lettered l1 l3 a c.
Proof.
  intros O O' [L1 [N1 K1]] [L2 [N2 K2]]. split; [ congruence | ]. split.
  - intros j Hj. destruct (Z.lt_ge_cases j b).
    + rewrite K2 by lia. apply N1. lia.
    + apply N2. lia.
  - intros j Hj Hn. rewrite K2 by lia. apply K1; lia.
Qed.

Lemma lettered_one (l l' : str) (idx : Z) (c : ascii) :
  0 <= idx -> member c (lit ".PNBRQKpnbrqk") = true ->
  setitem l idx c = Ok l' ->
  lettered l l' idx (idx + 1).
Proof.
  intros Hi Hc H. apply setitem_inv in H; [ | exact Hi ].
  destruct H as [B ->]. split; [ apply length_update | ]. split.
  - intros j Hj. rewrite cell_update by lia.
    replace (j =? idx) with true by (symmetry; apply Z.eqb_eq; lia). exact Hc.
  - intros j Hj Hn. rewrite cell_update by lia.
    replace (j =? idx) with false by (symmetry; apply Z.eqb_neq; lia).
    reflexivity.
Qed.

Lemma empty_cells_lettered (counter : list nat) :
  forall (l : str) (idx : Z) (a : str * Z),
    0 <= idx ->
    for_each counter
      (fun _ (a : str * Z) =>
         l <- setitem (fst a) (snd a) dot ;; Ok (l, snd a + 1))
      (l, idx) = Ok a ->
    snd a = idx + Z.of_nat (length counter)
    /\ lettered l (fst a) idx (snd a).
Proof.
  induction counter as [ | x counter IH ]; intros l idx a Hi H;
    cbn [for_each] in H.
  - injection H as <-. cbn [fst snd length]. split; [ lia | ].
    apply lettered_refl.
  - apply bind_ok in H. destruct H as [a1 [E1 H]].
    cbn [fst snd] in E1. apply bind_ok in E1. destruct E1 as [l1 [E1 F]].
    injection F as <-. apply IH in H; [ | lia ]. destruct H as [HS W].
    cbn [length]. split; [ lia | ].
    eapply lettered_trans; [ | | | exact W ]; [ lia | lia | ].
    eapply lettered_one; [ exact Hi | | exact E1 ]. reflexivity.
Qed.

Lemma piece_letter_lettered (c : ascii) :
  member c (lit "PNBRQKpnbrqk") = true ->
  member c (lit ".PNBRQKpnbrqk") = true.
Proof.
  intros H. change (lit ".PNBRQKpnbrqk") with (dot :: lit "PNBRQKpnbrqk").
  unfold member in *. cbn [existsb]. rewrite H. apply orb_true_r.
Qed.

Lemma load_piece_lettered (c : ascii) (l : str) (idx : Z) (a : str * Z) :
  0 <= idx -> load_piece c (l, idx) = Ok a ->
  snd a = idx + symbol_width c /\ lettered l (fst a) idx (snd a).
Proof.
  intros Hi. unfold load_piece, symbol_width.
  destruct (member c (lit "PNBRQKpnbrqk")) eqn:P.
  - intros H. apply bind_ok in H. destruct H as [l1 [E1 H]].
    injection H as <-. cbn [fst snd]. split; [ reflexivity | ].
    eapply lettered_one; [ exact Hi | | exact E1 ].
    apply piece_letter_lettered. exact P.
  - destruct (member c (lit "12345678")) eqn:D.
    + intros H. apply empty_cells_lettered in H; [ | exact Hi ].
      rewrite length_seq in H. apply digit_value in D.
      rewrite Z2Nat.id in H by lia. exact H.
    + intros H. injection H as <-. cbn [fst snd]. split; [ lia | ].
      replace (idx + 0) with idx by lia. apply lettered_refl.
Qed.

Lemma load_rank_lettered (rank : str) :
  forall (l : str) (idx : Z) (a : str * Z),
    0 <= idx -> for_each rank load_piece (l, idx) = Ok a ->
    snd a = idx + rank_width rank /\ lettered l (fst a) idx (snd a).
Proof.
  induction rank as [ | c rank IH ]; intros l idx a Hi H;
    cbn [for_each rank_width] in *.
  - injection H as <-. cbn [fst snd]. split; [ lia | ].
    replace (idx + 0) with idx by lia. apply lettered_refl.
  - apply bind_ok in H. destruct H as [[l1 i1] [E1 H]].
    apply load_piece_lettered in E1; [ | exact Hi ].
    cbn [fst snd] in E1. destruct E1 as [-> W1].
    pose proof (symbol_width_nonneg c). pose proof (rank_width_nonneg rank).
    apply IH in H; [ | lia ]. destruct H as [HS W]. split; [ lia | ].
    eapply lettered_trans; [ | | exact W1 | exact W ]; lia.
Qed.

Lemma load_row_laid (rows : list str) (rank : Z) (l l' : str) :
  0 <= rank < 8 ->
  (forall r, In r rows -> rank_width r = 8) ->
  laid_upto rank l -> load_row rows rank l = Ok l' ->
  laid_upto (rank + 1) l'.
Proof.
  intros Hr Hw [L F] H. unfold load_row in H.
  apply bind_ok in H. destruct H as [r [Er H]].
  apply bind_ok in H. destruct H as [a [Ea H]]. injection H as <-.
  apply load_rank_lettered in Ea; [ | unfold A8; lia ].
  rewrite (Hw r (getitem_In _ _ Er)) in Ea. destruct Ea as [HS [La [N K]]].
  rewrite HS in N, K. unfold A8 in N, K. split; [ congruence | ].
  intros j Hj. rewrite on_board_row by assumption.
  destruct ((21 + 10 * rank <=? j) && (j <? 29 + 10 * rank)) eqn:R.
  - rewrite orb_true_r. apply N.
    apply andb_true_iff in R. destruct R as [R1 R2].
    apply Z.leb_le in R1. apply Z.ltb_lt in R2. lia.
  - rewrite orb_false_r. rewrite K; [ apply F; exact Hj | lia | ].
    intros [R1 R2]. apply andb_false_iff in R.
    destruct R as [R | R]; [ apply Z.leb_gt in R | apply Z.ltb_ge in R ]; lia.
Qed.

Lemma load_rows_laid (rows : list str) (n : nat) :
  (forall r, In r rows -> rank_width r = 8) ->
  forall (k : nat) (l l' : str),
    (k + n = 8)%nat ->
    laid_upto (Z.of_nat k) l ->
    for_each (map Z.of_nat (seq k n)) (load_row rows) l = Ok l' ->
    laid_upto 8 l'.
Proof.
  intros Hw. induction n as [ | n IH ]; intros k l l' Hk F H;
    cbn [seq map for_each] in H.
  - injection H as <-. replace 8 with (Z.of_nat k) by lia. exact F.
  - apply bind_ok in H. destruct H as [l1 [E1 H]].
    apply (IH (S k) l1 l'); [ lia | | exact H ].
    replace (Z.of_nat (S k)) with (Z.of_nat k + 1) by lia.
    eapply load_row_laid; [ | exact Hw | exact F | exact E1 ]. lia.
Qed.

Lemma laid_blank : laid_upto 0 (repeat blank 120).
Proof.
  split; [ apply repeat_length | ].
  intros j Hj. unfold cell. rewrite nth_repeat.
  destruct (on_board j) eqn:B; [ | reflexivity ].
  apply on_board_range in B.
  replace (j <? 20 + 10 * 0) with false by (symmetry; apply Z.ltb_ge; lia).
  reflexivity.
Qed.

Lemma newlines_written (indices : list Z) :
  forall l l' : str,
    Forall (fun i => 0 <= i) indices ->
    for_each indices (fun i l => setitem l i nl) l = Ok l' ->
    length l' = length l
    /\ forall j, 0 <= j ->
                 cell l' j = if existsb (Z.eqb j) indices then nl
                             else cell l j.
Proof.
  induction indices as [ | i indices IH ]; intros l l' F H;
    cbn [for_each existsb] in *.
  - injection H as <-. split; reflexivity.
  - inversion F as [ | x xs Hi Fr ]; subst x xs.
    apply bind_ok in H. destruct H as [l1 [E1 H]].
    apply setitem_inv in E1; [ | exact Hi ]. destruct E1 as [B ->].
    destruct (IH _ _ Fr H) as [L C]. rewrite length_update in L.
    split; [ exact L | ].
    intros j Hj. rewrite C by exact Hj. rewrite cell_update by lia.
    destruct (existsb (Z.eqb j) indices);
      [ rewrite orb_true_r | rewrite orb_false_r ]; reflexivity.
Qed.

Lemma border_cells (j : Z) :
  0 <= j < 120 ->
  existsb (Z.eqb j) [9; 19; 29; 39; 49; 59; 69; 79; 89; 99; 109; 119]
  = (j mod 10 =? 9)
  /\ (on_board j = true -> (j mod 10 =? 9) = false).
Proof.
  intros H.
  assert (A : forallb
                (fun j =>
                   Bool.eqb (existsb (Z.eqb j)
                               [9; 19; 29; 39; 49; 59; 69; 79; 89; 99; 109;
                                119])
                            (j mod 10 =? 9)
                   && (negb (on_board j) || negb (j mod 10 =? 9)))
                (range 120) = true) by (vm_compute; reflexivity).
  rewrite forallb_forall in A.
  specialize (A j ltac:(apply in_range; lia)).
  apply andb_true_iff in A. destruct A as [A B].
  split; [ apply Bool.eqb_prop; exact A | ].
  intros O. rewrite O in B. cbn [negb orb] in B.
  apply negb_true_iff. exact B.
Qed.

Lemma laid_framed (l l' : str) :
  laid_upto 8 l ->
  for_each [9; 19; 29; 39; 49; 59; 69; 79; 89; 99; 109; 119]
           (fun i l => setitem l i nl) l = Ok l' ->
  framed l' = true.
Proof.
  intros [L F] H. apply newlines_written in H.
  2:{ repeat (constructor; [ lia | ]). constructor. }
  destruct H as [L' C]. apply framed_intro; [ congruence | ].
  intros j Hj. rewrite C by lia.
  destruct (@border_cells j Hj) as [B1 B2]. rewrite B1.
  specialize (F j Hj). unfold frame_ok, border.
  destruct (on_board j) eqn:O.
  - rewrite (B2 eq_refl).
    apply on_board_range in O as R.
    replace (j <? 20 + 10 * 8) with true in F
      by (symmetry; apply Z.ltb_lt; lia).
    exact F.
  - cbn [andb] in F. destruct (j mod 10 =? 9); [ reflexivity | exact F ].
Qed.

(** X30: the board [load_fen] returns.  When the placement field of a
    record has eight ranks that fill eight cells each and [load_fen]
    returns, the board it returns is framed like the initial position
    (120 cells, a piece letter or an empty marker on every square of the
    playing area, line feeds in the last column and spaces on the rest of
    the border), each side has two castling flags, and [king_passant] is
    0, or 119 when Black is to move and the state has been rotated. *)
Theorem load_fen_framed (fen : str) (s : state) (color : str) :
  placement_ok fen = true ->
  load_fen fen = Ok (s, color) ->
  framed (position s) = true
  /\ len (castling s) = 2 /\ len (opponent_castling s) = 2
  /\ king_passant s = (if str_eqb color (lit "b") then 119 else 0).
Proof.
  unfold placement_ok, load_fen. intros P H.
  destruct (split_on " " fen) as [ | field rest ] eqn:Sp; [ discriminate | ].
  apply andb_true_iff in P. destruct P as [_ P].
  rewrite forallb_forall in P.
  assert (Hw : forall r, In r (split_on "/" field) -> rank_width r = 8)
    by (intros r Hr; apply Z.eqb_eq; apply P; exact Hr).
  cbv zeta in H. apply bind_ok in H. destruct H as [f0 [E0 H]].
  assert (f0 = field) by (cbv in E0; congruence). subst f0.
  apply bind_ok in H. destruct H as [l1 [E1 H]].
  pose proof (@load_rows_laid (split_on "/" field) 8 Hw 0
                (repeat blank 120) l1 eq_refl laid_blank E1) as F1.
  apply bind_ok in H. destruct H as [l2 [E2 H]].
  pose proof (@laid_framed l1 l2 F1 E2) as F2.
  apply bind_ok in H. destruct H as [rights [_ H]].
  apply bind_ok in H. destruct H as [f3 [_ H]].
  apply bind_ok in H. destruct H as [ep [_ H]].
  apply bind_ok in H. destruct H as [col [_ H]].
  destruct (str_eqb col (lit "b")) eqn:B.
  - apply bind_ok in H. destruct H as [s' [Er H]]. injection H as <- <-.
    rewrite rotate_position_value in Er
      by (cbn [position]; apply framed_length; exact F2).
    injection Er as <-. rewrite B.
    cbn [position castling opponent_castling king_passant].
    split; [ apply framed_rotated; exact F2 | ].
    repeat split; reflexivity.
  - injection H as <- <-. rewrite B.
    cbn [position castling opponent_castling king_passant].
    split; [ exact F2 | ]. repeat split; reflexivity.
Qed.

Lemma load_fen_framed_witness :
  framed (position startpos) = true
  /\ len (castling startpos) = 2 /\ len (opponent_castling startpos) = 2
  /\ king_passant startpos = (if str_eqb (lit "w") (lit "b") then 119 else 0).
Proof.
  apply (@load_fen_framed start_fen startpos (lit "w")).
  - vm_compute. reflexivity.
  - vm_compute. reflexivity.
Defined.

(** ** The [flip] command *)

(** X10: the [flip] command changes the key by the turn entry only.  On a
    state whose board is framed like the initial position (120 cells, a
    piece letter or an empty marker on every square of the playing area,
    line feeds and spaces around it), seen by White, the state
    [rotate_position] returns, seen by Black, has the key of the first
    with [HASH_VALUES[780]] taken out. *)
Theorem flip_changes_turn_key (s s' : state) (h : Z) :
  framed (position s) = true ->
  rotate_position s = Ok s' ->
  zobrist_hash s (lit "w") = Ok h ->
  zobrist_hash s' (lit "b") = Ok (Z.lxor h 0xF8D626AAAF278509).
Proof.
  intros F E H. pose proof (@framed_length _ F) as L.
  pose proof (@framed_paired _ F) as P.
  destruct (@rotate_position_twice s L P) as [s2 [E1 E2]].
  rewrite E in E1. apply Ok_inj in E1. subst s2.
  assert (T : getitem HASH_VALUES 780 = Ok 0xF8D626AAAF278509)
    by (vm_compute; reflexivity).
  unfold zobrist_hash in *.
  change (str_eqb (lit "w") (lit "b")) with false in H.
  change (str_eqb (lit "b") (lit "b")) with true.
  cbv iota in H. cbv iota. rewrite T in H. rewrite E2. cbn [bind] in H.
  cbn [bind].
  destruct (piece_hash_from 0 (position s) 0) as [ p | ]; [ | discriminate ].
  cbn [bind] in H. cbn [bind].
  destruct (castling_hash_of (castling s) (opponent_castling s)) as [ c | ];
    [ | discriminate ].
  cbn [bind] in H. cbn [bind].
  destruct (en_passant_hash_of (position s) (en_passant s)) as [ e | ];
    [ | discriminate ].
  cbn [bind] in H. cbn [bind]. apply Ok_inj in H. subst h.
  apply f_equal. rewrite Z.lxor_0_r.
  rewrite (Z.lxor_assoc _ 0xF8D626AAAF278509 0xF8D626AAAF278509).
  rewrite Z.lxor_nilpotent, Z.lxor_0_r. reflexivity.
Qed.

Lemma flip_changes_turn_key_witness :
  zobrist_hash
    (match rotate_position startpos with Ok t => t | Raise _ => startpos end)
    (lit "b")
  = Ok (Z.lxor 0x463B96181691FC9C 0xF8D626AAAF278509).
Proof.
  apply (@flip_changes_turn_key startpos).
  - reflexivity.
  - vm_compute. reflexivity.
  - vm_compute. reflexivity.
Defined.
